(** * The a3xx TGSI-to-ir3 front end (fd3_compiler.c), embedded in Rocq

    The compiler walks a TGSI token stream once and builds an SSA graph of
    [ir3_instruction]s grouped in nested [ir3_block]s.  All of its state
    lives in [struct fd3_compile_context]; the instructions and blocks live
    in the arena of the [ir3_shader].  Pointers become indices into these
    arenas, NULL becomes [None], and every C function becomes a function in
    the state-and-error monad [M] below.

    Integers are [Z].  Register numbers stay far below 2^31 (a TGSI index
    is a 16-bit field), so their arithmetic is written without wrap-around;
    the 32-bit arithmetic on immediates and on the fan-in filler test is
    written with its wrap-around. *)

From Stdlib Require Import ZArith Lia Bool.
From stdpp Require Import base list.

Local Open Scope Z_scope.

(** ** Outcomes

    [compile_error] prints the shader and hits [debug_assert(0)]: the
    compile is over.  An access outside an object (NULL, or an index past
    the end of an array) is undefined behaviour in C and is kept apart from
    a reported error. *)

Inductive outcome (A : Type) : Type :=
| Done (a : A)
| CompileError
| Fault.

Arguments Done {A} a.
Arguments CompileError {A}.
Arguments Fault {A}.

(** ** TGSI side: register files, operands, instructions *)

Inductive tgsi_file : Type :=
| TGSI_FILE_NULL
| TGSI_FILE_CONSTANT
| TGSI_FILE_INPUT
| TGSI_FILE_OUTPUT
| TGSI_FILE_TEMPORARY
| TGSI_FILE_SAMPLER
| TGSI_FILE_ADDRESS
| TGSI_FILE_IMMEDIATE.

#[global] Instance tgsi_file_eq_dec : EqDecision tgsi_file.
Proof. solve_decision. Defined.

(** The bit of a file in [info->indirect_files] ([1 << TGSI_FILE_x]). *)
Definition file_num (f : tgsi_file) : Z :=
  match f with
  | TGSI_FILE_NULL => 0
  | TGSI_FILE_CONSTANT => 1
  | TGSI_FILE_INPUT => 2
  | TGSI_FILE_OUTPUT => 3
  | TGSI_FILE_TEMPORARY => 4
  | TGSI_FILE_SAMPLER => 5
  | TGSI_FILE_ADDRESS => 6
  | TGSI_FILE_IMMEDIATE => 7
  end.

Definition FM (f : tgsi_file) : Z := Z.shiftl 1 (file_num f).

Definition TGSI_SWIZZLE_X : Z := 0.
Definition TGSI_SWIZZLE_Y : Z := 1.
Definition TGSI_SWIZZLE_Z : Z := 2.
Definition TGSI_SWIZZLE_W : Z := 3.

Definition TGSI_WRITEMASK_XY : Z := 3.
Definition TGSI_WRITEMASK_XYZ : Z := 7.
Definition TGSI_WRITEMASK_XYZW : Z := 15.

Module Src.
Record t : Type := mk {
  File : tgsi_file;
  Indirect : bool;
  Dimension : bool;
  Index : Z;
  Absolute : bool;
  Negate : bool;
  SwizzleX : Z;
  SwizzleY : Z;
  SwizzleZ : Z;
  SwizzleW : Z
}.
End Src.

Module Dst.
Record t : Type := mk {
  File : tgsi_file;
  WriteMask : Z;
  Indirect : bool;
  Dimension : bool;
  Index : Z
}.
End Dst.

Abbreviation tgsi_src_register := Src.t.
Abbreviation tgsi_dst_register := Dst.t.

Inductive tgsi_opcode : Type :=
| TGSI_OPCODE_ARL | TGSI_OPCODE_MOV | TGSI_OPCODE_RCP | TGSI_OPCODE_RSQ
| TGSI_OPCODE_SQRT | TGSI_OPCODE_MUL | TGSI_OPCODE_ADD | TGSI_OPCODE_SUB
| TGSI_OPCODE_MIN | TGSI_OPCODE_MAX | TGSI_OPCODE_MAD | TGSI_OPCODE_TRUNC
| TGSI_OPCODE_CLAMP | TGSI_OPCODE_FLR | TGSI_OPCODE_ROUND | TGSI_OPCODE_EX2
| TGSI_OPCODE_LG2 | TGSI_OPCODE_ABS | TGSI_OPCODE_COS | TGSI_OPCODE_SIN
| TGSI_OPCODE_TEX | TGSI_OPCODE_TXP
| TGSI_OPCODE_SGT | TGSI_OPCODE_SLT | TGSI_OPCODE_SGE | TGSI_OPCODE_SLE
| TGSI_OPCODE_SNE | TGSI_OPCODE_SEQ | TGSI_OPCODE_CMP
| TGSI_OPCODE_IF | TGSI_OPCODE_ELSE | TGSI_OPCODE_ENDIF
| TGSI_OPCODE_END | TGSI_OPCODE_KILL
| TGSI_OPCODE_DP3.   (* stands for every opcode without a translater *)

Inductive tgsi_sat : Type :=
| TGSI_SAT_NONE | TGSI_SAT_ZERO_ONE | TGSI_SAT_MINUS_PLUS_ONE.

Inductive tgsi_texture : Type :=
| TGSI_TEXTURE_1D | TGSI_TEXTURE_2D | TGSI_TEXTURE_3D | TGSI_TEXTURE_CUBE.

Record tgsi_full_instruction : Type := mk_inst {
  Opcode : tgsi_opcode;
  Saturate : tgsi_sat;
  Dst0 : tgsi_dst_register;            (* inst->Dst[0].Register *)
  SrcRegs : list tgsi_src_register;    (* inst->Src[i].Register, i < NumSrcRegs *)
  Texture : tgsi_texture               (* inst->Texture.Texture *)
}.

(** ** ir3 side: registers, instructions, blocks *)

Abbreviation instr_id := nat.
Abbreviation block_id := nat.

(** Modelled from the spec: the ir3 headers (ir3.h, instr-a3xx.h) are not
    among the sources.  An operand record "carries modifier flags:
    absolute, negate, indirect, half-precision" and is an SSA reference, a
    fixed register, an embedded immediate or a constant-bank reference; the
    flags are distinct single bits.  Meta instructions have category -1. *)
Definition IR3_REG_CONST : Z := 0x001.
Definition IR3_REG_IMMED : Z := 0x002.
Definition IR3_REG_HALF : Z := 0x004.
Definition IR3_REG_RELATIV : Z := 0x008.
Definition IR3_REG_NEGATE : Z := 0x020.
Definition IR3_REG_ABS : Z := 0x040.
Definition IR3_REG_SSA : Z := 0x1000.

Definition OPC_META_INPUT : Z := 0.
Definition OPC_META_OUTPUT : Z := 1.
Definition OPC_META_FO : Z := 2.
Definition OPC_META_FI : Z := 3.
Definition OPC_META_FLOW : Z := 4.
Definition OPC_META_PHI : Z := 5.

Definition OPC_ADD_F : Z := 0.
Definition OPC_MIN_F : Z := 1.
Definition OPC_MAX_F : Z := 2.
Definition OPC_MUL_F : Z := 3.
Definition OPC_CMPS_F : Z := 5.
Definition OPC_ABSNEG_F : Z := 6.
Definition OPC_FLOOR_F : Z := 9.
Definition OPC_RNDNE_F : Z := 11.
Definition OPC_TRUNC_F : Z := 13.
Definition OPC_ADD_S : Z := 17.
Definition OPC_SHL_B : Z := 54.
Definition OPC_SIGN_F : Z := 4.
Definition OPC_CEIL_F : Z := 10.
Definition OPC_RNDAZ_F : Z := 12.
Definition OPC_ABSNEG_S : Z := 26.
Definition OPC_NOT_B : Z := 30.
Definition OPC_BFREV_B : Z := 51.
Definition OPC_CLZ_S : Z := 52.
Definition OPC_CLZ_B : Z := 53.
Definition OPC_SETRM : Z := 60.
Definition OPC_CBITS_B : Z := 61.
Definition OPC_SAM : Z := 3.
Definition IR3_INSTR_3D : Z := 0x040.
Definition IR3_INSTR_P : Z := 0x080.
Definition OPC_MAD_F16 : Z := 6.
Definition OPC_MAD_F32 : Z := 7.
Definition OPC_SEL_F16 : Z := 12.
Definition OPC_SEL_F32 : Z := 13.
Definition OPC_RCP : Z := 0.
Definition OPC_RSQ : Z := 1.
Definition OPC_LOG2 : Z := 2.
Definition OPC_EXP2 : Z := 3.
Definition OPC_SIN : Z := 4.
Definition OPC_COS : Z := 5.
Definition OPC_SQRT : Z := 6.
Definition OPC_KILL : Z := 5.
Definition OPC_END : Z := 6.

Definition IR3_COND_EQ : Z := 2.
Definition IR3_COND_GE : Z := 5.

Inductive type_t : Type :=
| TYPE_F16 | TYPE_F32 | TYPE_U16 | TYPE_U32 | TYPE_S16 | TYPE_S32.

(** [regid(num, comp)]: the component lives in the low two bits. *)
Definition regid (num comp : Z) : Z := Z.lor (Z.shiftl num 2) (Z.land comp 3).

(** Modelled from the spec: ir3.h is not among the sources.  [REG_A0] is
    the register number that stands for the address register, outside
    the numbers of the general-purpose registers (61 in ir3.h). *)
Definition REG_A0 : Z := 61.

Module Reg.
Record t : Type := mk {
  flags : Z;
  num : Z;
  wrmask : Z;
  instr : option instr_id;   (* for IR3_REG_SSA: the assigning instruction *)
  iim_val : Z;
  fim_val : Z                (* IEEE-754 bits of the float *)
}.
Definition set_flags (v : Z) (r : t) : t :=
  mk v (num r) (wrmask r) (instr r) (iim_val r) (fim_val r).
Definition set_num (v : Z) (r : t) : t :=
  mk (flags r) v (wrmask r) (instr r) (iim_val r) (fim_val r).
Definition set_wrmask (v : Z) (r : t) : t :=
  mk (flags r) (num r) v (instr r) (iim_val r) (fim_val r).
Definition set_instr (v : option instr_id) (r : t) : t :=
  mk (flags r) (num r) (wrmask r) v (iim_val r) (fim_val r).
Definition set_iim_val (v : Z) (r : t) : t :=
  mk (flags r) (num r) (wrmask r) (instr r) v (fim_val r).
Definition set_fim_val (v : Z) (r : t) : t :=
  mk (flags r) (num r) (wrmask r) (instr r) (iim_val r) v.
End Reg.

Module Instr.
Record t : Type := mk {
  block : block_id;
  category : Z;
  opc : Z;
  flags : Z;
  regs : list Reg.t;
  cat1_src_type : type_t;
  cat1_dst_type : type_t;
  cat2_condition : Z;
  cat5_type : type_t;
  cat5_samp : Z;
  cat5_tex : Z;
  fo_off : Z;
  flow_if_block : option block_id;
  flow_else_block : option block_id;
  inout_block : option block_id
}.
Definition set_flags (v : Z) (i : t) : t :=
  mk (block i) (category i) (opc i) v (regs i) (cat1_src_type i)
    (cat1_dst_type i) (cat2_condition i) (cat5_type i) (cat5_samp i)
    (cat5_tex i) (fo_off i) (flow_if_block i) (flow_else_block i)
    (inout_block i).
Definition set_regs (v : list Reg.t) (i : t) : t :=
  mk (block i) (category i) (opc i) (flags i) v (cat1_src_type i)
    (cat1_dst_type i) (cat2_condition i) (cat5_type i) (cat5_samp i)
    (cat5_tex i) (fo_off i) (flow_if_block i) (flow_else_block i)
    (inout_block i).
Definition set_cat1 (s d : type_t) (i : t) : t :=
  mk (block i) (category i) (opc i) (flags i) (regs i) s d (cat2_condition
    i) (cat5_type i) (cat5_samp i) (cat5_tex i) (fo_off i) (flow_if_block i)
    (flow_else_block i) (inout_block i).
Definition set_cat2_condition (v : Z) (i : t) : t :=
  mk (block i) (category i) (opc i) (flags i) (regs i) (cat1_src_type i)
    (cat1_dst_type i) v (cat5_type i) (cat5_samp i) (cat5_tex i) (fo_off i)
    (flow_if_block i) (flow_else_block i) (inout_block i).
Definition set_cat5 (ty : type_t) (samp tex : Z) (i : t) : t :=
  mk (block i) (category i) (opc i) (flags i) (regs i) (cat1_src_type i)
    (cat1_dst_type i) (cat2_condition i) ty samp tex (fo_off i)
    (flow_if_block i) (flow_else_block i) (inout_block i).
Definition set_fo_off (v : Z) (i : t) : t :=
  mk (block i) (category i) (opc i) (flags i) (regs i) (cat1_src_type i)
    (cat1_dst_type i) (cat2_condition i) (cat5_type i) (cat5_samp i)
    (cat5_tex i) v (flow_if_block i) (flow_else_block i) (inout_block i).
Definition set_flow_if_block (v : option block_id) (i : t) : t :=
  mk (block i) (category i) (opc i) (flags i) (regs i) (cat1_src_type i)
    (cat1_dst_type i) (cat2_condition i) (cat5_type i) (cat5_samp i)
    (cat5_tex i) (fo_off i) v (flow_else_block i) (inout_block i).
Definition set_flow_else_block (v : option block_id) (i : t) : t :=
  mk (block i) (category i) (opc i) (flags i) (regs i) (cat1_src_type i)
    (cat1_dst_type i) (cat2_condition i) (cat5_type i) (cat5_samp i)
    (cat5_tex i) (fo_off i) (flow_if_block i) v (inout_block i).
Definition set_inout_block (v : option block_id) (i : t) : t :=
  mk (block i) (category i) (opc i) (flags i) (regs i) (cat1_src_type i)
    (cat1_dst_type i) (cat2_condition i) (cat5_type i) (cat5_samp i)
    (cat5_tex i) (fo_off i) (flow_if_block i) (flow_else_block i) v.
End Instr.

Module Block.
Record t : Type := mk {
  parent : option block_id;
  temporaries : list (option instr_id);   (* ntemporaries entries *)
  inputs : list (option instr_id);        (* ninputs entries *)
  outputs : list (option instr_id)        (* noutputs entries *)
}.
Definition set_temporaries (v : list (option instr_id)) (b : t) : t :=
  mk (parent b) v (inputs b) (outputs b).
Definition set_inputs (v : list (option instr_id)) (b : t) : t :=
  mk (parent b) (temporaries b) v (outputs b).
Definition set_outputs (v : list (option instr_id)) (b : t) : t :=
  mk (parent b) (temporaries b) (inputs b) v.
End Block.

Abbreviation ir3_register := Reg.t.
Abbreviation ir3_instruction := Instr.t.
Abbreviation ir3_block := Block.t.

(** The shader's arena: [ctx->ir]. *)
Record ir3_shader : Type := mk_ir {
  instrs : list ir3_instruction;
  blocks : list ir3_block
}.

Inductive shader_t : Type := SHADER_VERTEX | SHADER_FRAGMENT.

(** The part of [struct fd3_shader_stateobj] the front end writes. *)
Record fd3_shader_stateobj : Type := mk_so {
  so_type : shader_t;
  half_precision : bool;
  first_immediate : Z;
  immediates_count : Z;
  immediates : list Z      (* immediates[idx].val[swiz] at 4*idx + swiz *)
}.

Record tgsi_shader_info : Type := mk_info {
  file_max : tgsi_file -> Z;
  indirect_files : Z
}.

(** A slot [&block->outputs[n]] or [&block->temporaries[n]]. *)
Inductive slot_kind : Type := SlotOutput | SlotTemporary.

#[global] Instance slot_kind_eq_dec : EqDecision slot_kind.
Proof. solve_decision. Defined.

Record slot : Type := mk_slot {
  slot_block : block_id;
  slot_file : slot_kind;
  slot_n : Z
}.

#[global] Instance slot_eq_dec : EqDecision slot.
Proof. solve_decision. Defined.

Record output_update : Type := mk_update {
  upd_instr : instr_id;
  upd_instrp : slot
}.

(** [dst] as handed around by the handlers points either at the
    instruction's own destination or at [ctx->tmp_dst]. *)
Inductive dst_ptr : Type := DstInst | DstTmp.

Record fd3_compile_context : Type := mk_ctx {
  ir : ir3_shader;
  so : fd3_shader_stateobj;
  block : option block_id;
  current_instr : option instr_id;
  output_updates : list output_update;    (* the first num_output_updates entries *)
  atomic : bool;
  type : shader_t;                        (* parser.FullHeader.Processor.Processor *)
  info : tgsi_shader_info;
  num_internal_temps : Z;
  internal_temps : list tgsi_src_register;  (* 6 entries *)
  base_reg : tgsi_file -> Z;
  immediate_idx : Z;
  branch : list (option instr_id);        (* 16 entries *)
  branch_count : Z;
  tmp_dst : tgsi_dst_register;
  tmp_src : option nat                    (* &internal_temps[n] *)
}.

Definition set_ir (v : ir3_shader) (c : fd3_compile_context) :=
  mk_ctx v (so c) (block c) (current_instr c) (output_updates c) (atomic c)
    (type c) (info c) (num_internal_temps c) (internal_temps c) (base_reg c)
    (immediate_idx c) (branch c) (branch_count c) (tmp_dst c) (tmp_src c).
Definition set_so (v : fd3_shader_stateobj) (c : fd3_compile_context) :=
  mk_ctx (ir c) v (block c) (current_instr c) (output_updates c) (atomic c)
    (type c) (info c) (num_internal_temps c) (internal_temps c) (base_reg c)
    (immediate_idx c) (branch c) (branch_count c) (tmp_dst c) (tmp_src c).
Definition set_block (v : option block_id) (c : fd3_compile_context) :=
  mk_ctx (ir c) (so c) v (current_instr c) (output_updates c) (atomic c)
    (type c) (info c) (num_internal_temps c) (internal_temps c) (base_reg c)
    (immediate_idx c) (branch c) (branch_count c) (tmp_dst c) (tmp_src c).
Definition set_current_instr (v : option instr_id) (c : fd3_compile_context) :=
  mk_ctx (ir c) (so c) (block c) v (output_updates c) (atomic c)
    (type c) (info c) (num_internal_temps c) (internal_temps c) (base_reg c)
    (immediate_idx c) (branch c) (branch_count c) (tmp_dst c) (tmp_src c).
Definition set_output_updates (v : list output_update) (c : fd3_compile_context) :=
  mk_ctx (ir c) (so c) (block c) (current_instr c) v (atomic c)
    (type c) (info c) (num_internal_temps c) (internal_temps c) (base_reg c)
    (immediate_idx c) (branch c) (branch_count c) (tmp_dst c) (tmp_src c).
Definition set_atomic (v : bool) (c : fd3_compile_context) :=
  mk_ctx (ir c) (so c) (block c) (current_instr c) (output_updates c) v
    (type c) (info c) (num_internal_temps c) (internal_temps c) (base_reg c)
    (immediate_idx c) (branch c) (branch_count c) (tmp_dst c) (tmp_src c).
Definition set_num_internal_temps (v : Z) (c : fd3_compile_context) :=
  mk_ctx (ir c) (so c) (block c) (current_instr c) (output_updates c) (atomic c)
    (type c) (info c) v (internal_temps c) (base_reg c)
    (immediate_idx c) (branch c) (branch_count c) (tmp_dst c) (tmp_src c).
Definition set_internal_temps (v : list tgsi_src_register) (c : fd3_compile_context) :=
  mk_ctx (ir c) (so c) (block c) (current_instr c) (output_updates c) (atomic c)
    (type c) (info c) (num_internal_temps c) v (base_reg c)
    (immediate_idx c) (branch c) (branch_count c) (tmp_dst c) (tmp_src c).
Definition set_immediate_idx (v : Z) (c : fd3_compile_context) :=
  mk_ctx (ir c) (so c) (block c) (current_instr c) (output_updates c) (atomic c)
    (type c) (info c) (num_internal_temps c) (internal_temps c) (base_reg c)
    v (branch c) (branch_count c) (tmp_dst c) (tmp_src c).
Definition set_branch (v : list (option instr_id)) (c : fd3_compile_context) :=
  mk_ctx (ir c) (so c) (block c) (current_instr c) (output_updates c) (atomic c)
    (type c) (info c) (num_internal_temps c) (internal_temps c) (base_reg c)
    (immediate_idx c) v (branch_count c) (tmp_dst c) (tmp_src c).
Definition set_branch_count (v : Z) (c : fd3_compile_context) :=
  mk_ctx (ir c) (so c) (block c) (current_instr c) (output_updates c) (atomic c)
    (type c) (info c) (num_internal_temps c) (internal_temps c) (base_reg c)
    (immediate_idx c) (branch c) v (tmp_dst c) (tmp_src c).
Definition set_tmp_dst (v : tgsi_dst_register) (c : fd3_compile_context) :=
  mk_ctx (ir c) (so c) (block c) (current_instr c) (output_updates c) (atomic c)
    (type c) (info c) (num_internal_temps c) (internal_temps c) (base_reg c)
    (immediate_idx c) (branch c) (branch_count c) v (tmp_src c).
Definition set_tmp_src (v : option nat) (c : fd3_compile_context) :=
  mk_ctx (ir c) (so c) (block c) (current_instr c) (output_updates c) (atomic c)
    (type c) (info c) (num_internal_temps c) (internal_temps c) (base_reg c)
    (immediate_idx c) (branch c) (branch_count c) (tmp_dst c) v.

Definition set_instrs (v : list ir3_instruction) (c : fd3_compile_context) :=
  set_ir (mk_ir v (blocks (ir c))) c.
Definition set_blocks (v : list ir3_block) (c : fd3_compile_context) :=
  set_ir (mk_ir (instrs (ir c)) v) c.

(** ** The monad of the compiler: state and early exit *)

Definition M (A : Type) : Type := fd3_compile_context -> outcome (A * fd3_compile_context).

Definition ret {A} (a : A) : M A := fun c => Done (a, c).

Definition bind {A B} (m : M A) (k : A -> M B) : M B :=
  fun c => match m c with
           | Done (a, c') => k a c'
           | CompileError => CompileError
           | Fault => Fault
           end.

Declare Scope fd3_scope.
Delimit Scope fd3_scope with fd3.
Notation "x <- m ;; k" := (bind m (fun x => k))
  (at level 100, m at next level, right associativity) : fd3_scope.
Notation "m ;;; k" := (bind m (fun _ => k))
  (at level 100, right associativity) : fd3_scope.
Local Open Scope fd3_scope.

Definition get : M fd3_compile_context := fun c => Done (c, c).
Definition gets {A} (f : fd3_compile_context -> A) : M A := fun c => Done (f c, c).
Definition modify (f : fd3_compile_context -> fd3_compile_context) : M unit :=
  fun c => Done (tt, f c).
Definition compile_error {A} : M A := fun _ => CompileError.
Definition fault {A} : M A := fun _ => Fault.

(** [compile_assert(ctx, cond)] *)
Definition compile_assert (cond : bool) : M unit :=
  if cond then ret tt else compile_error.

(** Dereferencing a pointer that may be NULL or dangling. *)
Definition deref {A} (o : option A) : M A :=
  match o with Some a => ret a | None => fault end.

(** [arr[z]] for an array of [length arr] entries. *)
Definition zlookup {A} (arr : list A) (z : Z) : option A :=
  if z <? 0 then None else arr !! Z.to_nat z.

Definition zinsert {A} (z : Z) (a : A) (arr : list A) : option (list A) :=
  if (0 <=? z) && (z <? Z.of_nat (length arr)) then Some (<[Z.to_nat z := a]> arr)
  else None.

Fixpoint forM {A} (l : list A) (f : A -> M unit) : M unit :=
  match l with
  | [] => ret tt
  | a :: l' => f a ;;; forM l' f
  end.

(** [for (i = 0; i < 4; i++)] *)
Definition chans : list Z := [0; 1; 2; 3].

(** [flags & bit] as a condition. *)
Definition has_flag (flags bit : Z) : bool := negb (Z.land flags bit =? 0).

(** ** The arena: instructions, registers, blocks *)

Definition reg_ptr : Type := (instr_id * nat)%type.

Definition new_instr (b : block_id) (category opc : Z) : ir3_instruction :=
  Instr.mk b category opc 0 [] TYPE_F16 TYPE_F16 0 TYPE_F16 0 0 0 None None None.

Definition new_reg (num flags : Z) : ir3_register :=
  Reg.mk flags num 0 None 0 0.

(** Modelled from the spec: ir3.c is not among the sources.  An
    instruction is "a node in the output graph" with "category, opcode,
    ordered list of operand records", "owned by the block that created
    it"; a new node is appended to the shader's arena with no operands. *)
Definition ir3_instr_create (b : block_id) (category opc : Z) : M instr_id :=
  fun c =>
    Done (length (instrs (ir c)),
          set_instrs (instrs (ir c) ++ [new_instr b category opc]) c).

Definition get_instr (i : instr_id) : M ir3_instruction :=
  c <- get ;; deref (instrs (ir c) !! i).

Definition update_instr (i : instr_id) (f : ir3_instruction -> ir3_instruction) : M unit :=
  ins <- get_instr i ;;
  modify (fun c => set_instrs (<[i := f ins]> (instrs (ir c))) c).

Definition get_reg (p : reg_ptr) : M ir3_register :=
  ins <- get_instr p.1 ;; deref (Instr.regs ins !! p.2).

Definition update_reg (p : reg_ptr) (f : ir3_register -> ir3_register) : M unit :=
  ins <- get_instr p.1 ;;
  r <- deref (Instr.regs ins !! p.2) ;;
  modify (fun c =>
    set_instrs (<[p.1 := Instr.set_regs (<[p.2 := f r]> (Instr.regs ins)) ins]>
                  (instrs (ir c))) c).

(** Modelled from the spec: ir3.c is not among the sources.  A new operand
    record is appended to the instruction's "ordered list of operand
    records"; the caller gets a pointer to it. *)
Definition ir3_reg_create (i : instr_id) (num flags : Z) : M reg_ptr :=
  ins <- get_instr i ;;
  update_instr i (Instr.set_regs (Instr.regs ins ++ [new_reg num flags])) ;;;
  ret (i, length (Instr.regs ins)).

(** Modelled from the spec: ir3.c is not among the sources.  "clone(instr)"
    is "used when replicating a template across components": a new node
    with the template's fields and a copy of each operand record. *)
Definition ir3_instr_clone (i : instr_id) : M instr_id :=
  ins <- get_instr i ;;
  fun c => Done (length (instrs (ir c)), set_instrs (instrs (ir c) ++ [ins]) c).

(** Modelled from the spec: ir3.c is not among the sources.  A block has a
    parent link and "arrays indexed by flattened register number for
    temporaries, outputs, and inputs, each slot holding the SSA value
    currently live for that register in this scope (or empty/unset)". *)
Definition ir3_block_create (ntmp nin nout : Z) : M block_id :=
  fun c =>
    Done (length (blocks (ir c)),
          set_blocks (blocks (ir c) ++
            [Block.mk None (replicate (Z.to_nat ntmp) None)
               (replicate (Z.to_nat nin) None) (replicate (Z.to_nat nout) None)]) c).

Definition get_block (b : block_id) : M ir3_block :=
  c <- get ;; deref (blocks (ir c) !! b).

Definition update_block (b : block_id) (f : ir3_block -> ir3_block) : M unit :=
  blk <- get_block b ;;
  modify (fun c => set_blocks (<[b := f blk]> (blocks (ir c))) c).

(** [*instrp = v] *)
Definition store_slot (s : slot) (v : option instr_id) : M unit :=
  blk <- get_block (slot_block s) ;;
  match slot_file s with
  | SlotOutput =>
      arr <- deref (zinsert (slot_n s) v (Block.outputs blk)) ;;
      update_block (slot_block s) (Block.set_outputs arr)
  | SlotTemporary =>
      arr <- deref (zinsert (slot_n s) v (Block.temporaries blk)) ;;
      update_block (slot_block s) (Block.set_temporaries arr)
  end.

(** ** Instruction emitter *)

Definition instr_finish : M unit :=
  c <- get ;;
  if atomic c then ret tt
  else
    forM (output_updates c)
      (fun u => store_slot (upd_instrp u) (Some (upd_instr u))) ;;;
    modify (set_output_updates []).

Definition instr_atomic_start : M unit := modify (set_atomic true).

Definition instr_atomic_end : M unit :=
  modify (set_atomic false) ;;; instr_finish.

Definition instr_create (category opc : Z) : M instr_id :=
  instr_finish ;;;
  c <- get ;;
  b <- deref (block c) ;;
  i <- ir3_instr_create b category opc ;;
  modify (set_current_instr (Some i)) ;;;
  ret i.

Definition instr_clone (instr : instr_id) : M instr_id :=
  instr_finish ;;;
  i <- ir3_instr_clone instr ;;
  modify (set_current_instr (Some i)) ;;;
  ret i.

(** [SCALAR_REGS(file)] *)
Definition SCALAR_REGS (c : fd3_compile_context) (f : tgsi_file) : Z :=
  4 * (file_max (info c) f + 1).

Definition push_block : M block_id :=
  c <- get ;;
  let ntmp := SCALAR_REGS c TGSI_FILE_TEMPORARY + 4 * 4 in
  let nin :=
    match block c with
    | None =>
        let nin := SCALAR_REGS c TGSI_FILE_INPUT in
        match type c with
        | SHADER_FRAGMENT => Z.max 2 nin
        | SHADER_VERTEX => nin
        end
    | Some _ => ntmp
    end in
  let nout := SCALAR_REGS c TGSI_FILE_OUTPUT in
  b <- ir3_block_create ntmp nin nout ;;
  update_block b (fun blk =>
    Block.mk (block c) (Block.temporaries blk) (Block.inputs blk) (Block.outputs blk)) ;;;
  modify (set_block (Some b)) ;;;
  ret b.

Definition pop_block : M unit :=
  c <- get ;;
  b <- deref (block c) ;;
  blk <- get_block b ;;
  modify (set_block (Block.parent blk)) ;;;
  compile_assert (bool_decide (is_Some (Block.parent blk))).

(** [n < len] for an unsigned [n]. *)
Definition in_range {A} (n : Z) (arr : list A) : bool :=
  (0 <=? n) && (n <? Z.of_nat (length arr)).

Definition ssa_dst (instr : instr_id) (dst : tgsi_dst_register) (chan : Z) : M unit :=
  c <- get ;;
  let n := regid (Dst.Index dst) chan in
  let idx := Z.of_nat (length (output_updates c)) in
  compile_assert (idx <? 16) ;;;
  match Dst.File dst with
  | TGSI_FILE_OUTPUT =>
      b <- deref (block c) ;;
      blk <- get_block b ;;
      compile_assert (in_range n (Block.outputs blk)) ;;;
      modify (set_output_updates
                (output_updates c ++ [mk_update instr (mk_slot b SlotOutput n)]))
  | TGSI_FILE_TEMPORARY =>
      b <- deref (block c) ;;
      blk <- get_block b ;;
      compile_assert (in_range n (Block.temporaries blk)) ;;;
      modify (set_output_updates
                (output_updates c ++ [mk_update instr (mk_slot b SlotTemporary n)]))
  | _ => ret tt
  end.

(** ** SSA resolver *)

Definition create_output (b : block_id) (instr : option instr_id) (n : Z) : M instr_id :=
  out <- ir3_instr_create b (-1) OPC_META_OUTPUT ;;
  update_instr out (Instr.set_inout_block (Some b)) ;;;
  ir3_reg_create out n 0 ;;;
  match instr with
  | Some i =>
      r <- ir3_reg_create out 0 IR3_REG_SSA ;;
      update_reg r (Reg.set_instr (Some i))
  | None => ret tt
  end ;;;
  ret out.

Definition create_input (b : block_id) (instr : option instr_id) (n : Z) : M instr_id :=
  i <- ir3_instr_create b (-1) OPC_META_INPUT ;;
  update_instr i (Instr.set_inout_block (Some b)) ;;;
  ir3_reg_create i n 0 ;;;
  match instr with
  | Some x =>
      r <- ir3_reg_create i 0 IR3_REG_SSA ;;
      update_reg r (Reg.set_instr (Some x))
  | None => ret tt
  end ;;;
  ret i.

(** The recursion of [block_input], [block_temporary], [find_temporary]
    and [find_output] follows the parent links.  [push_block] gives every
    block a parent that was created before it, so a chain that starts at
    block [b] has at most [b] links; the functions recurse on that bound.
    Running out of it is only possible in an arena where some block is its
    own ancestor, on which the C code does not return. *)
Fixpoint block_input_rec (fuel : nat) (b : block_id) (n : Z) : M (option instr_id) :=
  blk <- get_block b ;;
  match Block.parent blk with
  | Some p =>
      match fuel with
      | O => fault
      | S fuel' => block_input_rec fuel' p n
      end
  | None => deref (zlookup (Block.inputs blk) n)
  end.

Definition block_input (b : block_id) (n : Z) : M (option instr_id) :=
  block_input_rec b b n.

Fixpoint block_temporary_rec (fuel : nat) (b : block_id) (n : Z) : M (option instr_id) :=
  blk <- get_block b ;;
  t <- deref (zlookup (Block.temporaries blk) n) ;;
  match Block.parent blk, t with
  | Some p, None =>
      i <- deref (zlookup (Block.inputs blk) n) ;;
      match i with
      | None =>
          match fuel with
          | O => fault
          | S fuel' =>
              v <- block_temporary_rec fuel' p n ;;
              blk' <- get_block b ;;
              arr <- deref (zinsert n v (Block.inputs blk')) ;;
              update_block b (Block.set_inputs arr)
          end
      | Some _ => ret tt
      end ;;;
      blk' <- get_block b ;;
      i' <- deref (zlookup (Block.inputs blk') n) ;;
      x <- create_input b i' n ;;
      ret (Some x)
  | _, _ => ret t
  end.

Definition block_temporary (b : block_id) (n : Z) : M (option instr_id) :=
  block_temporary_rec b b n.

Definition get_ftype (c : fd3_compile_context) : type_t :=
  if half_precision (so c) then TYPE_F16 else TYPE_F32.

Definition get_utype (c : fd3_compile_context) : type_t :=
  if half_precision (so c) then TYPE_U16 else TYPE_U32.

(** [create_immed(ctx, val)]; [val] is given by its IEEE-754 bits. *)
Definition create_immed (val : Z) : M instr_id :=
  c <- get ;;
  b <- deref (block c) ;;
  instr <- ir3_instr_create b 1 0 ;;
  update_instr instr (Instr.set_cat1 (get_ftype c) (get_ftype c)) ;;;
  ir3_reg_create instr 0 0 ;;;
  r <- ir3_reg_create instr 0 IR3_REG_IMMED ;;
  update_reg r (Reg.set_fim_val val) ;;;
  ret instr.

Definition or_flags (bit : Z) (r : ir3_register) : ir3_register :=
  Reg.set_flags (Z.lor (Reg.flags r) bit) r.

Definition ssa_src (reg : reg_ptr) (src : tgsi_src_register) (chan : Z) : M unit :=
  c <- get ;;
  let n := regid (Src.Index src) chan in
  match Src.File src with
  | TGSI_FILE_INPUT =>
      update_reg reg (or_flags IR3_REG_SSA) ;;;
      b <- deref (block c) ;;
      v <- block_input b n ;;
      update_reg reg (Reg.set_instr v)
  | TGSI_FILE_OUTPUT =>
      update_reg reg (or_flags IR3_REG_SSA) ;;;
      b <- deref (block c) ;;
      blk <- get_block b ;;
      v <- deref (zlookup (Block.outputs blk) n) ;;
      update_reg reg (Reg.set_instr v) ;;;
      compile_assert (bool_decide (is_Some v))
  | TGSI_FILE_TEMPORARY =>
      update_reg reg (or_flags IR3_REG_SSA) ;;;
      b <- deref (block c) ;;
      v <- block_temporary b n ;;
      update_reg reg (Reg.set_instr v)
  | _ => ret tt
  end ;;;
  r <- get_reg reg ;;
  if has_flag (Reg.flags r) IR3_REG_SSA && negb (bool_decide (is_Some (Reg.instr r)))
  then
    i <- create_immed 0 ;;
    update_reg reg (Reg.set_instr (Some i))
  else ret tt.

(** ** Operands *)

Definition bit (i : Z) : Z := Z.shiftl 1 i.

Definition add_dst_reg_wrmask (instr : instr_id) (dst : tgsi_dst_register)
    (chan wrmask : Z) : M reg_ptr :=
  c <- get ;;
  num <- match Dst.File dst with
         | TGSI_FILE_OUTPUT | TGSI_FILE_TEMPORARY =>
             ret (Dst.Index dst + base_reg c (Dst.File dst))
         | TGSI_FILE_ADDRESS => ret REG_A0
         | _ => compile_error
         end ;;
  let flags :=
    Z.lor (if Dst.Indirect dst then IR3_REG_RELATIV else 0)
          (if half_precision (so c) then IR3_REG_HALF else 0) in
  reg <- ir3_reg_create instr (regid num chan) flags ;;
  update_reg reg (Reg.set_wrmask wrmask) ;;;
  (if wrmask =? 1 then
     if atomic c then ret tt else ssa_dst instr dst chan
   else
     match Dst.File dst with
     | TGSI_FILE_TEMPORARY | TGSI_FILE_OUTPUT =>
         forM chans (fun i =>
           if has_flag wrmask (bit i) then
             b <- deref (block c) ;;
             collect <- ir3_instr_create b (-1) OPC_META_FO ;;
             update_instr collect (Instr.set_fo_off i) ;;;
             ir3_reg_create collect 0 0 ;;;
             r <- ir3_reg_create collect 0 IR3_REG_SSA ;;
             update_reg r (Reg.set_instr (Some instr)) ;;;
             if atomic c then ret tt else ssa_dst collect dst (chan + i)
           else ret tt)
     | _ => ret tt
     end) ;;;
  ret reg.

Definition add_dst_reg (instr : instr_id) (dst : tgsi_dst_register) (chan : Z)
    : M reg_ptr :=
  add_dst_reg_wrmask instr dst chan 1.

(** [~x] and [x - 1] on 32-bit unsigned values. *)
Definition not32 (x : Z) : Z := Z.lxor (x mod 2^32) (2^32 - 1).
Definition sub32 (x y : Z) : Z := (x - y) mod 2^32.

(** [wrmask & ~((i << i) - 1)], the test that decides whether a position
    the mask leaves out gets a dummy source. *)
Definition filler_needed (wrmask i : Z) : bool :=
  negb (Z.land wrmask (not32 (sub32 (Z.shiftl i i) 1)) =? 0).

Definition add_src_reg_wrmask (instr : instr_id) (src : tgsi_src_register)
    (chan wrmask : Z) : M reg_ptr :=
  c <- get ;;
  compile_assert (Src.Index src <? 64) ;;;
  res <- match Src.File src with
         | TGSI_FILE_IMMEDIATE | TGSI_FILE_CONSTANT =>
             ret (IR3_REG_CONST, Src.Index src + base_reg c (Src.File src))
         | TGSI_FILE_OUTPUT | TGSI_FILE_INPUT | TGSI_FILE_TEMPORARY =>
             ret (0, Src.Index src + base_reg c (Src.File src))
         | _ => compile_error
         end ;;
  let flags :=
    Z.lor (Z.lor (Z.lor (Z.lor res.1
      (if Src.Absolute src then IR3_REG_ABS else 0))
      (if Src.Negate src then IR3_REG_NEGATE else 0))
      (if Src.Indirect src then IR3_REG_RELATIV else 0))
      (if half_precision (so c) then IR3_REG_HALF else 0) in
  reg <- ir3_reg_create instr (regid res.2 chan) flags ;;
  update_reg reg (Reg.set_wrmask wrmask) ;;;
  (if wrmask =? 1 then ssa_src reg src chan
   else
     match Src.File src with
     | TGSI_FILE_TEMPORARY | TGSI_FILE_OUTPUT | TGSI_FILE_INPUT =>
         b <- deref (block c) ;;
         collect <- ir3_instr_create b (-1) OPC_META_FI ;;
         ir3_reg_create collect 0 0 ;;;
         forM chans (fun i =>
           if has_flag wrmask (bit i) then
             r <- ir3_reg_create collect 0 IR3_REG_SSA ;;
             ssa_src r src (chan + i)
           else if filler_needed wrmask i then
             ir3_reg_create collect 0 0 ;;; ret tt
           else ret tt) ;;;
         update_reg reg (or_flags IR3_REG_SSA) ;;;
         update_reg reg (Reg.set_instr (Some collect))
     | _ => ret tt
     end) ;;;
  ret reg.

Definition add_src_reg (instr : instr_id) (src : tgsi_src_register) (chan : Z)
    : M reg_ptr :=
  add_src_reg_wrmask instr src chan 1.

Definition src_from_dst (dst : tgsi_dst_register) : tgsi_src_register :=
  Src.mk (Dst.File dst) (Dst.Indirect dst) (Dst.Dimension dst) (Dst.Index dst)
    false false TGSI_SWIZZLE_X TGSI_SWIZZLE_Y TGSI_SWIZZLE_Z TGSI_SWIZZLE_W.

(** ** Internal temporaries

    [get_internal_temp] fills the caller's [tmp_dst] and returns a pointer
    into [ctx->internal_temps]; here it returns the destination and the
    index of the entry.  Handlers read the entry while nothing writes it,
    so they take it by value with [internal_temp]. *)
Definition get_internal_temp : M (tgsi_dst_register * nat) :=
  c <- get ;;
  let n := num_internal_temps c in
  modify (set_num_internal_temps (n + 1)) ;;;
  compile_assert (n <? 6) ;;;
  let tmp_dst :=
    Dst.mk TGSI_FILE_TEMPORARY TGSI_WRITEMASK_XYZW false false
      (file_max (info c) TGSI_FILE_TEMPORARY + n + 1) in
  arr <- deref (zinsert n (src_from_dst tmp_dst) (internal_temps c)) ;;
  modify (set_internal_temps arr) ;;;
  ret (tmp_dst, Z.to_nat n).

Definition get_internal_temp_hr : M (tgsi_dst_register * nat) :=
  c <- get ;;
  if half_precision (so c) then get_internal_temp
  else
    let n := num_internal_temps c in
    modify (set_num_internal_temps (n + 1)) ;;;
    compile_assert (n <? 6) ;;;
    let tmp_dst := Dst.mk TGSI_FILE_TEMPORARY TGSI_WRITEMASK_XYZW false false 0 in
    arr <- deref (zinsert n (src_from_dst tmp_dst) (internal_temps c)) ;;
    modify (set_internal_temps arr) ;;;
    ret (tmp_dst, Z.to_nat n).

(** [*tmp_src] *)
Definition internal_temp (n : nat) : M tgsi_src_register :=
  c <- get ;; deref (internal_temps c !! n).

Definition is_const (src : tgsi_src_register) : bool :=
  match Src.File src with
  | TGSI_FILE_CONSTANT | TGSI_FILE_IMMEDIATE => true
  | _ => false
  end.

Definition is_relative (src : tgsi_src_register) : bool := Src.Indirect src.

Definition is_rel_or_const (src : tgsi_src_register) : bool :=
  is_relative src || is_const src.

(** [src_swiz(src, chan)]; a [chan] outside 0..3 trips a plain [assert]. *)
Definition src_swiz (src : tgsi_src_register) (chan : Z) : Z :=
  if chan =? 0 then Src.SwizzleX src
  else if chan =? 1 then Src.SwizzleY src
  else if chan =? 2 then Src.SwizzleZ src
  else if chan =? 3 then Src.SwizzleW src
  else 0.

(** ** Immediates

    Values are the 32-bit patterns [fui(x)] of the floats. *)
Definition fui_0_0 : Z := 0.
Definition fui_1_0 : Z := 0x3f800000.
Definition fui_minus_1_0 : Z := 0xbf800000.

(** [-val] on [uint32_t]. *)
Definition neg32 (val : Z) : Z := (- val) mod 2^32.

(** The search loop of [get_immediate]: [n] iterations from index [i].
    [None]: a read past the pool; [Some None]: the loop ran to its end. *)
Fixpoint scan_immediates (n : nat) (i val : Z) (imms : list Z)
    : option (option (Z * bool)) :=
  match n with
  | O => Some None
  | S n' =>
      match zlookup imms i with
      | None => None
      | Some x =>
          if x =? val then Some (Some (i, false))
          else if x =? neg32 val then Some (Some (i, true))
          else scan_immediates n' (i + 1) val imms
      end
  end.

Definition set_immediates (v : list Z) (count : Z) (s : fd3_shader_stateobj) :=
  mk_so (so_type s) (half_precision s) (first_immediate s) count v.

Definition get_immediate (val : Z) : M tgsi_src_register :=
  c <- get ;;
  found <- deref (scan_immediates (Z.to_nat (immediate_idx c)) 0 val
                    (immediates (so c))) ;;
  res <- match found with
         | Some (i, neg) => ret (i mod 4, i / 4, neg)
         | None =>
             let i := immediate_idx c in
             arr <- deref (zinsert i val (immediates (so c))) ;;
             modify (set_so (set_immediates arr (i / 4 + 1) (so c))) ;;;
             modify (set_immediate_idx (i + 1)) ;;;
             ret (i mod 4, i / 4, false)
         end ;;
  let '(swiz, idx, neg) := res in
  ret (Src.mk TGSI_FILE_IMMEDIATE false false idx false neg swiz swiz swiz swiz).

(** ** Moves, clamps, vector expansion *)

Definition create_mov (dst : tgsi_dst_register) (src : tgsi_src_register) : M unit :=
  c <- get ;;
  let type_mov := get_ftype c in
  forM chans (fun i =>
    if has_flag (Dst.WriteMask dst) (bit i) then
      instr <- (if Src.Absolute src || Src.Negate src then
                  instr_create 2 OPC_ABSNEG_F
                else
                  instr <- instr_create 1 0 ;;
                  update_instr instr (Instr.set_cat1 type_mov type_mov) ;;;
                  ret instr) ;;
      add_dst_reg instr dst i ;;;
      add_src_reg instr src (src_swiz src i) ;;;
      ret tt
    else ret tt).

(** for instructions that cannot take a const register as src *)
Definition get_unconst (src : tgsi_src_register) : M tgsi_src_register :=
  compile_assert (is_rel_or_const src) ;;;
  t <- get_internal_temp ;;
  tmp_src <- internal_temp t.2 ;;
  create_mov t.1 src ;;;
  ret tmp_src.

(** One [(src, flags)] pair of [vectorize]'s variable arguments: a
    pointer to a source register, or an integer passed in its place when
    [flags] has [IR3_REG_IMMED]. *)
Inductive vararg : Type :=
| ArgSrc (src : tgsi_src_register)
| ArgInt (v : Z).

Definition arg_src (a : vararg) : M tgsi_src_register :=
  match a with ArgSrc s => ret s | ArgInt _ => fault end.

Definition arg_int (a : vararg) : M Z :=
  match a with ArgInt v => ret v | ArgSrc _ => fault end.

Fixpoint enumerate_from {A} (j : nat) (l : list A) : list (nat * A) :=
  match l with
  | [] => []
  | a :: l' => (j, a) :: enumerate_from (S j) l'
  end.

(** "fix-up src register component": operand [j] of [cur], for
    component [i]. *)
Definition vectorize_src (cur : instr_id) (i : Z) (j : nat) (a : vararg)
    (flags : Z) : M unit :=
  reg <- get_reg (cur, S j) ;;
  if has_flag (Reg.flags reg) IR3_REG_SSA then
    src <- arg_src a ;;
    ssa_src (cur, S j) src (src_swiz src i)
  else if negb (has_flag flags IR3_REG_IMMED) then
    src <- arg_src a ;;
    update_reg (cur, S j)
      (Reg.set_num (regid (Z.shiftr (Reg.num reg) 2) (src_swiz src i)))
  else ret tt.

(** The body of the component loop of [vectorize] for an enabled [i]. *)
Definition vectorize_chan (instr : instr_id) (dst : tgsi_dst_register)
    (srcs : list (vararg * Z)) (i : Z) (n : Z) : M unit :=
  cur <- (if n =? 0 then ret instr else instr_clone instr) ;;
  ssa_dst cur dst i ;;;
  r0 <- get_reg (cur, O) ;;
  update_reg (cur, O) (Reg.set_num (regid (Z.shiftr (Reg.num r0) 2) i)) ;;;
  forM (enumerate_from 0 srcs) (fun x => vectorize_src cur i x.1 x.2.1 x.2.2).

Fixpoint vectorize_chans (instr : instr_id) (dst : tgsi_dst_register)
    (srcs : list (vararg * Z)) (l : list Z) (n : Z) : M unit :=
  match l with
  | [] => ret tt
  | i :: l' =>
      if has_flag (Dst.WriteMask dst) (bit i) then
        vectorize_chan instr dst srcs i n ;;;
        vectorize_chans instr dst srcs l' (n + 1)
      else vectorize_chans instr dst srcs l' n
  end.

(** Attaching one operand to the template at component X. *)
Definition vectorize_arg (instr : instr_id) (a : vararg) (flags : Z) : M unit :=
  reg <- (if has_flag flags IR3_REG_IMMED then
            reg <- ir3_reg_create instr 0 IR3_REG_IMMED ;;
            v <- arg_int a ;;
            update_reg reg (Reg.set_iim_val v) ;;;
            ret reg
          else
            src <- arg_src a ;;
            add_src_reg instr src TGSI_SWIZZLE_X) ;;
  update_reg reg (or_flags (Z.land flags (Z.lnot IR3_REG_NEGATE))) ;;;
  if has_flag flags IR3_REG_NEGATE then
    update_reg reg (fun r => Reg.set_flags (Z.lxor (Reg.flags r) IR3_REG_NEGATE) r)
  else ret tt.

Definition vectorize_srcs (instr : instr_id) (srcs : list (vararg * Z)) : M unit :=
  forM srcs (fun x => vectorize_arg instr x.1 x.2).

Definition vectorize (instr : instr_id) (dst : tgsi_dst_register)
    (srcs : list (vararg * Z)) : M unit :=
  instr_atomic_start ;;;
  add_dst_reg instr dst TGSI_SWIZZLE_X ;;;
  vectorize_srcs instr srcs ;;;
  vectorize_chans instr dst srcs chans 0 ;;;
  instr_atomic_end.

Definition create_clamp (dst : tgsi_dst_register)
    (val minval maxval : tgsi_src_register) : M unit :=
  instr <- instr_create 2 OPC_MAX_F ;;
  vectorize instr dst [(ArgSrc val, 0); (ArgSrc minval, 0)] ;;;
  instr <- instr_create 2 OPC_MIN_F ;;
  vectorize instr dst [(ArgSrc val, 0); (ArgSrc maxval, 0)].

Definition create_clamp_imm (dst : tgsi_dst_register) (minval maxval : Z) : M unit :=
  let src := src_from_dst dst in
  minconst <- get_immediate minval ;;
  maxconst <- get_immediate maxval ;;
  create_clamp dst src minconst maxconst.

(** ** Destination-equals-source hazards *)

Definition trivial_reuse (dst : tgsi_dst_register) (src : tgsi_src_register) : bool :=
  (Dst.WriteMask dst =? TGSI_WRITEMASK_XYZW)
  && (Src.SwizzleX src =? TGSI_SWIZZLE_X)
  && (Src.SwizzleY src =? TGSI_SWIZZLE_Y)
  && (Src.SwizzleZ src =? TGSI_SWIZZLE_Z)
  && (Src.SwizzleW src =? TGSI_SWIZZLE_W).

Definition same_register (dst : tgsi_dst_register) (src : tgsi_src_register) : bool :=
  bool_decide (Src.File src = Dst.File dst) && (Src.Index src =? Dst.Index dst).

Definition with_WriteMask (m : Z) (d : tgsi_dst_register) : tgsi_dst_register :=
  Dst.mk (Dst.File d) m (Dst.Indirect d) (Dst.Dimension d) (Dst.Index d).

Fixpoint get_dst_loop (dst : tgsi_dst_register) (srcs : list tgsi_src_register)
    : M dst_ptr :=
  match srcs with
  | [] => ret DstInst
  | src :: rest =>
      if same_register dst src then
        if trivial_reuse dst src then get_dst_loop dst rest
        else
          t <- get_internal_temp ;;
          modify (set_tmp_dst t.1) ;;;
          modify (set_tmp_src (Some t.2)) ;;;
          modify (fun c => set_tmp_dst (with_WriteMask (Dst.WriteMask dst) (tmp_dst c)) c) ;;;
          ret DstTmp
      else get_dst_loop dst rest
  end.

Definition get_dst (inst : tgsi_full_instruction) : M dst_ptr :=
  get_dst_loop (Dst0 inst) (SrcRegs inst).

(** [*dst] *)
Definition read_dst (inst : tgsi_full_instruction) (dst : dst_ptr)
    : M tgsi_dst_register :=
  match dst with
  | DstInst => ret (Dst0 inst)
  | DstTmp => gets tmp_dst
  end.

Definition put_dst (inst : tgsi_full_instruction) (dst : dst_ptr) : M unit :=
  match dst with
  | DstInst => ret tt
  | DstTmp =>
      c <- get ;;
      n <- deref (tmp_src c) ;;
      src <- internal_temp n ;;
      create_mov (Dst0 inst) src
  end.

(** ** Handlers without a 1:1 mapping *)

(** One row of [translaters] without its function pointer. *)
Record instr_translater : Type := mk_t {
  tgsi_opc : tgsi_opcode;
  opc : Z;
  hopc : Z;
  arg : tgsi_opcode
}.

(** [&inst->Src[k].Register], read. *)
Definition src_reg (inst : tgsi_full_instruction) (k : nat) : M tgsi_src_register :=
  deref (SrcRegs inst !! k).

Definition trans_clamp (t : instr_translater) (inst : tgsi_full_instruction) : M unit :=
  dp <- get_dst inst ;;
  dst <- read_dst inst dp ;;
  src0 <- src_reg inst 0 ;;
  src1 <- src_reg inst 1 ;;
  src2 <- src_reg inst 2 ;;
  create_clamp dst src0 src1 src2 ;;;
  put_dst inst dp.

Definition or_half (p : reg_ptr) : M unit := update_reg p (or_flags IR3_REG_HALF).

Definition trans_arl (t : instr_translater) (inst : tgsi_full_instruction) : M unit :=
  let dst := Dst0 inst in
  src <- src_reg inst 0 ;;
  let chan := Src.SwizzleX src in
  compile_assert (bool_decide (Dst.File dst = TGSI_FILE_ADDRESS)) ;;;
  tmp <- get_internal_temp_hr ;;
  tmp_src <- internal_temp tmp.2 ;;
  c <- get ;;
  instr <- instr_create 1 0 ;;
  update_instr instr (Instr.set_cat1 (get_ftype c) TYPE_S16) ;;;
  r <- add_dst_reg instr tmp.1 chan ;; or_half r ;;;
  add_src_reg instr src chan ;;;
  instr <- instr_create 2 OPC_SHL_B ;;
  r <- add_dst_reg instr tmp.1 chan ;; or_half r ;;;
  r <- add_src_reg instr tmp_src chan ;; or_half r ;;;
  r <- ir3_reg_create instr 0 IR3_REG_IMMED ;;
  update_reg r (Reg.set_iim_val 2) ;;;
  instr <- instr_create 1 0 ;;
  update_instr instr (Instr.set_cat1 TYPE_S16 TYPE_S16) ;;;
  r <- add_dst_reg instr dst 0 ;; or_half r ;;;
  r <- add_src_reg instr tmp_src chan ;; or_half r.

(** The first loop of [trans_samp]: from [i], while [order[i] >= 0] and no
    mismatch was found. *)
Fixpoint samp_needs_mov (coord : tgsi_src_register) (order : list Z) (i : Z) : bool :=
  match order with
  | [] => false
  | o :: rest =>
      if o <? 0 then false
      else if negb (src_swiz coord i =? src_swiz coord 0 + o) then true
      else samp_needs_mov coord rest (i + 1)
  end.

(** The second loop: one move per [order[j] >= 0]. *)
Fixpoint samp_shuffle (tmp_dst : tgsi_dst_register) (coord : tgsi_src_register)
    (order : list Z) (j : Z) : M unit :=
  match order with
  | [] => ret tt
  | o :: rest =>
      if o <? 0 then ret tt
      else
        c <- get ;;
        instr <- instr_create 1 0 ;;
        update_instr instr (Instr.set_cat1 (get_ftype c) (get_ftype c)) ;;;
        add_dst_reg instr tmp_dst j ;;;
        add_src_reg instr coord (src_swiz coord o) ;;;
        samp_shuffle tmp_dst coord rest (j + 1)
  end.

Definition trans_samp (t : instr_translater) (inst : tgsi_full_instruction) : M unit :=
  coord <- src_reg inst 0 ;;
  samp <- src_reg inst 1 ;;
  let tex := Texture inst in
  sel <- match arg t with
         | TGSI_OPCODE_TEX =>
             match tex with
             | TGSI_TEXTURE_2D => ret ([0; 1; -1; -1], TGSI_WRITEMASK_XY, 0)
             | _ => ret ([0; 1; 2; -1], TGSI_WRITEMASK_XYZ, 0)
             end
         | TGSI_OPCODE_TXP =>
             match tex with
             | TGSI_TEXTURE_2D => ret ([0; 1; 3; -1], TGSI_WRITEMASK_XYZ, IR3_INSTR_P)
             | _ => ret ([0; 1; 2; 3], TGSI_WRITEMASK_XYZW, IR3_INSTR_P)
             end
         | _ => compile_error
         end ;;
  let '(order, src_wrmask, flags0) := sel in
  let flags :=
    match tex with
    | TGSI_TEXTURE_3D | TGSI_TEXTURE_CUBE => Z.lor flags0 IR3_INSTR_3D
    | _ => flags0
    end in
  let needs_mov := is_rel_or_const coord || samp_needs_mov coord (tail order) 1 in
  coord <- (if needs_mov then
              tmp <- get_internal_temp ;;
              tmp_src <- internal_temp tmp.2 ;;
              samp_shuffle tmp.1 coord order 0 ;;;
              ret tmp_src
            else ret coord) ;;
  c <- get ;;
  instr <- instr_create 5 (opc t) ;;
  update_instr instr (Instr.set_cat5 (get_ftype c) (Src.Index samp) (Src.Index samp)) ;;;
  update_instr instr (fun i => Instr.set_flags (Z.lor (Instr.flags i) flags) i) ;;;
  add_dst_reg_wrmask instr (Dst0 inst) 0 (Dst.WriteMask (Dst0 inst)) ;;;
  add_src_reg_wrmask instr coord (Src.SwizzleX coord) src_wrmask ;;;
  ret tt.

Definition sel_opc (c : fd3_compile_context) : Z :=
  if half_precision (so c) then OPC_SEL_F16 else OPC_SEL_F32.

Definition trans_cmp (t : instr_translater) (inst : tgsi_full_instruction) : M unit :=
  dp <- get_dst inst ;;
  dst <- read_dst inst dp ;;
  tmp <- get_internal_temp ;;
  tmp_src <- internal_temp tmp.2 ;;
  sel <- match tgsi_opc t with
         | TGSI_OPCODE_SEQ | TGSI_OPCODE_SNE =>
             a0 <- src_reg inst 1 ;; a1 <- src_reg inst 0 ;; ret (a0, a1, IR3_COND_EQ)
         | TGSI_OPCODE_SGE | TGSI_OPCODE_SLT =>
             a0 <- src_reg inst 0 ;; a1 <- src_reg inst 1 ;; ret (a0, a1, IR3_COND_GE)
         | TGSI_OPCODE_SLE | TGSI_OPCODE_SGT =>
             a0 <- src_reg inst 1 ;; a1 <- src_reg inst 0 ;; ret (a0, a1, IR3_COND_GE)
         | TGSI_OPCODE_CMP =>
             constval0 <- get_immediate fui_0_0 ;;
             a0 <- src_reg inst 0 ;; ret (a0, constval0, IR3_COND_GE)
         | _ => compile_error
         end ;;
  let '(a0, a1, condition) := sel in
  a0 <- (if is_const a0 && is_const a1 then get_unconst a0 else ret a0) ;;
  instr <- instr_create 2 OPC_CMPS_F ;;
  update_instr instr (Instr.set_cat2_condition condition) ;;;
  vectorize instr tmp.1 [(ArgSrc a0, 0); (ArgSrc a1, 0)] ;;;
  match tgsi_opc t with
  | TGSI_OPCODE_SEQ | TGSI_OPCODE_SGE | TGSI_OPCODE_SLE =>
      c <- get ;;
      instr <- instr_create 1 0 ;;
      update_instr instr (Instr.set_cat1 (get_utype c) (get_ftype c)) ;;;
      vectorize instr dst [(ArgSrc tmp_src, 0)]
  | TGSI_OPCODE_SNE | TGSI_OPCODE_SGT | TGSI_OPCODE_SLT | TGSI_OPCODE_CMP =>
      instr <- instr_create 2 OPC_ADD_S ;;
      vectorize instr tmp.1 [(ArgSrc tmp_src, 0); (ArgInt (-1), IR3_REG_IMMED)] ;;;
      match tgsi_opc t with
      | TGSI_OPCODE_CMP =>
          c <- get ;;
          instr <- instr_create 3 (sel_opc c) ;;
          src2 <- src_reg inst 2 ;;
          src1 <- src_reg inst 1 ;;
          vectorize instr dst [(ArgSrc src2, 0); (ArgSrc tmp_src, 0); (ArgSrc src1, 0)]
      | _ =>
          constval0 <- get_immediate fui_0_0 ;;
          constval1 <- get_immediate fui_1_0 ;;
          c <- get ;;
          instr <- instr_create 3 (sel_opc c) ;;
          vectorize instr dst
            [(ArgSrc constval0, 0); (ArgSrc tmp_src, 0); (ArgSrc constval1, 0)]
      end
  | _ => ret tt
  end ;;;
  put_dst inst dp.

(** ** Conditionals *)

Definition push_branch (instr : instr_id) : M unit :=
  c <- get ;;
  arr <- deref (zinsert (branch_count c) (Some instr) (branch c)) ;;
  modify (set_branch arr) ;;;
  modify (set_branch_count (branch_count c + 1)).

Definition pop_branch : M instr_id :=
  c <- get ;;
  let n := sub32 (branch_count c) 1 in
  modify (set_branch_count n) ;;;
  e <- deref (zlookup (branch c) n) ;;
  deref e.

Definition trans_if (t : instr_translater) (inst : tgsi_full_instruction) : M unit :=
  src <- src_reg inst 0 ;;
  constval <- get_immediate fui_0_0 ;;
  tmp <- get_internal_temp ;;
  tmp_src <- internal_temp tmp.2 ;;
  src <- (if is_const src then get_unconst src else ret src) ;;
  instr <- instr_create 2 OPC_CMPS_F ;;
  add_dst_reg instr tmp.1 0 ;;;
  add_src_reg instr src (Src.SwizzleX src) ;;;
  add_src_reg instr constval (Src.SwizzleX constval) ;;;
  update_instr instr (Instr.set_cat2_condition IR3_COND_EQ) ;;;
  instr <- instr_create 2 OPC_ADD_S ;;
  add_dst_reg instr tmp.1 TGSI_SWIZZLE_X ;;;
  add_src_reg instr tmp_src TGSI_SWIZZLE_X ;;;
  r <- ir3_reg_create instr 0 IR3_REG_IMMED ;;
  update_reg r (Reg.set_iim_val (-1)) ;;;
  instr <- instr_create (-1) OPC_META_FLOW ;;
  ir3_reg_create instr 0 0 ;;;
  add_src_reg instr tmp_src TGSI_SWIZZLE_X ;;;
  push_branch instr ;;;
  b <- push_block ;;
  update_instr instr (Instr.set_flow_if_block (Some b)).

Definition is_meta_flow (i : ir3_instruction) : bool :=
  (Instr.category i =? -1) && (Instr.opc i =? OPC_META_FLOW).

Definition trans_else (t : instr_translater) (inst : tgsi_full_instruction) : M unit :=
  pop_block ;;;
  instr <- pop_branch ;;
  ins <- get_instr instr ;;
  compile_assert (is_meta_flow ins) ;;;
  push_branch instr ;;;
  b <- push_block ;;
  update_instr instr (Instr.set_flow_else_block (Some b)).

(** [find_temporary] and [find_output] only read the blocks.
    [None]: a read outside the arena or an array. *)
Fixpoint find_slot_rec (kind : slot_kind) (bs : list ir3_block) (fuel : nat)
    (b : block_id) (n : Z) : option (option instr_id) :=
  match bs !! b with
  | None => None
  | Some blk =>
      let arr := match kind with
                 | SlotTemporary => Block.temporaries blk
                 | SlotOutput => Block.outputs blk
                 end in
      match zlookup arr n with
      | None => None
      | Some v =>
          match Block.parent blk, v with
          | Some p, None =>
              match fuel with
              | O => None
              | S fuel' => find_slot_rec kind bs fuel' p n
              end
          | _, _ => Some v
          end
      end
  end.

Definition find_temporary (bs : list ir3_block) (b : block_id) (n : Z) :=
  find_slot_rec SlotTemporary bs b b n.

Definition find_output (bs : list ir3_block) (b : block_id) (n : Z) :=
  find_slot_rec SlotOutput bs b b n.

Definition create_phi (cond : instr_id) (a b : option instr_id) : M instr_id :=
  a <- match a with Some a => ret a | None => create_immed 0 end ;;
  b <- match b with Some b => ret b | None => create_immed 0 end ;;
  phi <- instr_create (-1) OPC_META_PHI ;;
  ir3_reg_create phi 0 0 ;;;
  r <- ir3_reg_create phi 0 IR3_REG_SSA ;; update_reg r (Reg.set_instr (Some cond)) ;;;
  r <- ir3_reg_create phi 0 IR3_REG_SSA ;; update_reg r (Reg.set_instr (Some a)) ;;;
  r <- ir3_reg_create phi 0 IR3_REG_SSA ;; update_reg r (Reg.set_instr (Some b)) ;;;
  ret phi.

(** The arrays [ifout] and [elseout] with their fill counts. *)
Record endif_outs : Type := mk_outs {
  ifnout : Z;
  elsenout : Z;
  ifout : list (option instr_id);
  elseout : list (option instr_id)
}.

Definition slots_of (kind : slot_kind) (blk : ir3_block) : list (option instr_id) :=
  match kind with
  | SlotTemporary => Block.temporaries blk
  | SlotOutput => Block.outputs blk
  end.

(** Modelled from the spec: ir3.c is not among the sources; [ir3_alloc]
    hands out memory from the "memory arena for the instruction graph",
    here an array of exactly the requested number of entries. *)
Definition ir3_alloc (n : nat) : list (option instr_id) := replicate n None.

(** The first two loops of [trans_endif] count the slots each block wrote;
    they read the first [ifb->ntemporaries] and [ifb->noutputs] entries
    of both blocks. *)
Definition count_written (l : list (option instr_id)) : nat :=
  length (filter (fun o => is_Some o) l).

Definition read_prefix {A} (n : nat) (arr : list A) : M (list A) :=
  if decide (n <= length arr)%nat then ret (take n arr) else fault.

(** One iteration of the PHI loops of [trans_endif] at slot [i]. *)
Definition endif_slot (kind : slot_kind) (instr : instr_id) (ifb elseb : block_id)
    (has_else : bool) (i : Z) (o : endif_outs) : M endif_outs :=
  ifblk <- get_block ifb ;;
  elseblk <- get_block elseb ;;
  a <- deref (zlookup (slots_of kind ifblk) i) ;;
  b <- deref (zlookup (slots_of kind elseblk) i) ;;
  if bool_decide (is_Some a) || (has_else && bool_decide (is_Some b)) then
    c <- get ;;
    a <- match a with
         | Some _ => ret a
         | None => deref (find_slot_rec kind (blocks (ir c)) ifb ifb i)
         end ;;
    b <- match b with
         | Some _ => ret b
         | None => deref (find_slot_rec kind (blocks (ir c)) elseb elseb i)
         end ;;
    ifout' <- deref (zinsert (ifnout o) a (ifout o)) ;;
    a' <- create_output ifb a (ifnout o) ;;
    o' <- (if has_else then
             elseout' <- deref (zinsert (elsenout o) b (elseout o)) ;;
             b' <- create_output elseb b (elsenout o) ;;
             ret (Some b', mk_outs (ifnout o + 1) (elsenout o + 1) ifout' elseout')
           else ret (b, mk_outs (ifnout o + 1) (elsenout o) ifout' (elseout o))) ;;
    phi <- create_phi instr (Some a') o'.1 ;;
    c <- get ;;
    cur <- deref (block c) ;;
    store_slot (mk_slot cur kind i) (Some phi) ;;;
    ret o'.2
  else ret o.

Fixpoint endif_slots (kind : slot_kind) (instr : instr_id) (ifb elseb : block_id)
    (has_else : bool) (n : nat) (i : Z) (o : endif_outs) : M endif_outs :=
  match n with
  | O => ret o
  | S n' =>
      o' <- endif_slot kind instr ifb elseb has_else i o ;;
      endif_slots kind instr ifb elseb has_else n' (i + 1) o'
  end.

Definition trans_endif (t : instr_translater) (inst : tgsi_full_instruction) : M unit :=
  pop_block ;;;
  instr <- pop_branch ;;
  ins <- get_instr instr ;;
  compile_assert (is_meta_flow ins) ;;;
  ifb <- deref (Instr.flow_if_block ins) ;;
  ifblk <- get_block ifb ;;
  elseb <- deref (match Instr.flow_else_block ins with
                  | Some e => Some e
                  | None => Block.parent ifblk
                  end) ;;
  elseblk <- get_block elseb ;;
  let has_else := negb (bool_decide (Some elseb = Block.parent ifblk)) in
  let ntemporaries := length (Block.temporaries ifblk) in
  let noutputs := length (Block.outputs ifblk) in
  etmps <- read_prefix ntemporaries (Block.temporaries elseblk) ;;
  eouts <- read_prefix noutputs (Block.outputs elseblk) ;;
  let ifcount := (count_written (Block.temporaries ifblk)
                  + count_written (Block.outputs ifblk))%nat in
  let elsecount := (count_written etmps + count_written eouts)%nat in
  let o := mk_outs 0 0 (ir3_alloc ifcount)
             (if has_else then ir3_alloc elsecount else []) in
  o <- endif_slots SlotTemporary instr ifb elseb has_else ntemporaries 0 o ;;
  o <- endif_slots SlotOutput instr ifb elseb has_else noutputs 0 o ;;
  update_block ifb (Block.set_outputs (take (Z.to_nat (ifnout o)) (ifout o))) ;;;
  if has_else then
    update_block elseb (Block.set_outputs (take (Z.to_nat (elsenout o)) (elseout o)))
  else ret tt.

(** ** Handlers with a 1:1 mapping *)

Definition instr_cat0 (t : instr_translater) (inst : tgsi_full_instruction) : M unit :=
  instr_create 0 (opc t) ;;; ret tt.

Definition instr_cat1 (t : instr_translater) (inst : tgsi_full_instruction) : M unit :=
  dp <- get_dst inst ;;
  dst <- read_dst inst dp ;;
  src <- src_reg inst 0 ;;
  (if Src.Negate src then
     instr <- instr_create 2 OPC_ADD_F ;;
     constval <- get_immediate fui_0_0 ;;
     vectorize instr dst [(ArgSrc src, 0); (ArgSrc constval, 0)]
   else create_mov dst src) ;;;
  put_dst inst dp.

Definition one_src_opc (o : Z) : bool :=
  bool_decide (o ∈ [OPC_ABSNEG_F; OPC_ABSNEG_S; OPC_CLZ_B; OPC_CLZ_S; OPC_SIGN_F;
                    OPC_FLOOR_F; OPC_CEIL_F; OPC_RNDNE_F; OPC_RNDAZ_F; OPC_TRUNC_F;
                    OPC_NOT_B; OPC_BFREV_B; OPC_SETRM; OPC_CBITS_B]).

Definition instr_cat2 (t : instr_translater) (inst : tgsi_full_instruction) : M unit :=
  dp <- get_dst inst ;;
  dst <- read_dst inst dp ;;
  src0 <- src_reg inst 0 ;;
  let src0_flags := match tgsi_opc t with TGSI_OPCODE_ABS => IR3_REG_ABS | _ => 0 end in
  let src1_flags := match tgsi_opc t with TGSI_OPCODE_SUB => IR3_REG_NEGATE | _ => 0 end in
  (if one_src_opc (opc t) then
     instr <- instr_create 2 (opc t) ;;
     vectorize instr dst [(ArgSrc src0, src0_flags)]
   else
     src1 <- src_reg inst 1 ;;
     src0 <- (if is_const src0 && is_const src1 then get_unconst src0 else ret src0) ;;
     instr <- instr_create 2 (opc t) ;;
     vectorize instr dst [(ArgSrc src0, src0_flags); (ArgSrc src1, src1_flags)]) ;;;
  put_dst inst dp.

(** Modelled from the spec: instr-a3xx.h is not among the sources;
    [is_mad] holds of the "multiply-add family" of category 3, the
    opcodes below the selects. *)
Definition is_mad (o : Z) : bool := (0 <=? o) && (o <=? OPC_MAD_F32).

Definition instr_cat3 (t : instr_translater) (inst : tgsi_full_instruction) : M unit :=
  dp <- get_dst inst ;;
  dst <- read_dst inst dp ;;
  src0 <- src_reg inst 0 ;;
  src1 <- src_reg inst 1 ;;
  srcs <- (if is_rel_or_const src1 then
             if is_mad (opc t) && negb (is_rel_or_const src0) then ret (src1, src0)
             else src1' <- get_unconst src1 ;; ret (src0, src1')
           else ret (src0, src1)) ;;
  c <- get ;;
  instr <- instr_create 3 (if half_precision (so c) then hopc t else opc t) ;;
  src2 <- src_reg inst 2 ;;
  vectorize instr dst [(ArgSrc srcs.1, 0); (ArgSrc srcs.2, 0); (ArgSrc src2, 0)] ;;;
  put_dst inst dp.

Definition instr_cat4 (t : instr_translater) (inst : tgsi_full_instruction) : M unit :=
  dp <- get_dst inst ;;
  dst <- read_dst inst dp ;;
  src <- src_reg inst 0 ;;
  src <- (if is_const src then get_unconst src else ret src) ;;
  forM chans (fun i =>
    if has_flag (Dst.WriteMask dst) (bit i) then
      instr <- instr_create 4 (opc t) ;;
      add_dst_reg instr dst i ;;;
      add_src_reg instr src (Src.SwizzleX src) ;;;
      ret tt
    else ret tt) ;;;
  put_dst inst dp.

Definition handler : Type := instr_translater -> tgsi_full_instruction -> M unit.

(** The table [translaters]: [None] where [fxn] is NULL. *)
Definition translaters (o : tgsi_opcode) : option (handler * instr_translater) :=
  let INSTR f opc hopc arg := Some (f, mk_t o opc hopc arg) in
  match o with
  | TGSI_OPCODE_MOV => INSTR instr_cat1 0 0 TGSI_OPCODE_ARL
  | TGSI_OPCODE_RCP => INSTR instr_cat4 OPC_RCP 0 TGSI_OPCODE_ARL
  | TGSI_OPCODE_RSQ => INSTR instr_cat4 OPC_RSQ 0 TGSI_OPCODE_ARL
  | TGSI_OPCODE_SQRT => INSTR instr_cat4 OPC_SQRT 0 TGSI_OPCODE_ARL
  | TGSI_OPCODE_MUL => INSTR instr_cat2 OPC_MUL_F 0 TGSI_OPCODE_ARL
  | TGSI_OPCODE_ADD => INSTR instr_cat2 OPC_ADD_F 0 TGSI_OPCODE_ARL
  | TGSI_OPCODE_SUB => INSTR instr_cat2 OPC_ADD_F 0 TGSI_OPCODE_ARL
  | TGSI_OPCODE_MIN => INSTR instr_cat2 OPC_MIN_F 0 TGSI_OPCODE_ARL
  | TGSI_OPCODE_MAX => INSTR instr_cat2 OPC_MAX_F 0 TGSI_OPCODE_ARL
  | TGSI_OPCODE_MAD => INSTR instr_cat3 OPC_MAD_F32 OPC_MAD_F16 TGSI_OPCODE_ARL
  | TGSI_OPCODE_TRUNC => INSTR instr_cat2 OPC_TRUNC_F 0 TGSI_OPCODE_ARL
  | TGSI_OPCODE_CLAMP => INSTR trans_clamp 0 0 TGSI_OPCODE_ARL
  | TGSI_OPCODE_FLR => INSTR instr_cat2 OPC_FLOOR_F 0 TGSI_OPCODE_ARL
  | TGSI_OPCODE_ROUND => INSTR instr_cat2 OPC_RNDNE_F 0 TGSI_OPCODE_ARL
  | TGSI_OPCODE_ARL => INSTR trans_arl 0 0 TGSI_OPCODE_ARL
  | TGSI_OPCODE_EX2 => INSTR instr_cat4 OPC_EXP2 0 TGSI_OPCODE_ARL
  | TGSI_OPCODE_LG2 => INSTR instr_cat4 OPC_LOG2 0 TGSI_OPCODE_ARL
  | TGSI_OPCODE_ABS => INSTR instr_cat2 OPC_ABSNEG_F 0 TGSI_OPCODE_ARL
  | TGSI_OPCODE_COS => INSTR instr_cat4 OPC_COS 0 TGSI_OPCODE_ARL
  | TGSI_OPCODE_SIN => INSTR instr_cat4 OPC_SIN 0 TGSI_OPCODE_ARL
  | TGSI_OPCODE_TEX => INSTR trans_samp OPC_SAM 0 TGSI_OPCODE_TEX
  | TGSI_OPCODE_TXP => INSTR trans_samp OPC_SAM 0 TGSI_OPCODE_TXP
  | TGSI_OPCODE_SGT | TGSI_OPCODE_SLT | TGSI_OPCODE_SGE | TGSI_OPCODE_SLE
  | TGSI_OPCODE_SNE | TGSI_OPCODE_SEQ | TGSI_OPCODE_CMP =>
      INSTR trans_cmp 0 0 TGSI_OPCODE_ARL
  | TGSI_OPCODE_IF => INSTR trans_if 0 0 TGSI_OPCODE_ARL
  | TGSI_OPCODE_ELSE => INSTR trans_else 0 0 TGSI_OPCODE_ARL
  | TGSI_OPCODE_ENDIF => INSTR trans_endif 0 0 TGSI_OPCODE_ARL
  | TGSI_OPCODE_END => INSTR instr_cat0 OPC_END 0 TGSI_OPCODE_ARL
  | TGSI_OPCODE_KILL => INSTR instr_cat0 OPC_KILL 0 TGSI_OPCODE_ARL
  | TGSI_OPCODE_DP3 => None
  end.

(** ** The driver *)

Definition TGSI_PARSE_OK : Z := 0.
Definition TGSI_PARSE_ERROR : Z := 1.

Definition u32 (x : Z) : Z := x mod 2^32.

Definition relocated_files : Z :=
  Z.lor (Z.lor (Z.lor (Z.lor (FM TGSI_FILE_TEMPORARY) (FM TGSI_FILE_INPUT))
    (FM TGSI_FILE_OUTPUT)) (FM TGSI_FILE_IMMEDIATE)) (FM TGSI_FILE_CONSTANT).

(** What [compile_init] learns from its collaborators: the scan of the
    tokens, and the result and shader kind [tgsi_parse_init] returns. *)
Record parsed_tokens : Type := mk_tokens {
  scan : tgsi_shader_info;
  parse_init : Z;
  processor : shader_t
}.

Definition set_first_immediate (v : Z) (s : fd3_shader_stateobj) :=
  mk_so (so_type s) (half_precision s) v (immediates_count s) (immediates s).

(** [compile_init]: the context it leaves and the value it returns.  The
    fields it does not assign keep what [ctx] held. *)
Definition compile_init (ctx : fd3_compile_context) (so0 : fd3_shader_stateobj)
    (ir0 : ir3_shader) (tokens : parsed_tokens) : Z * fd3_compile_context :=
  let info := scan tokens in
  let c0 :=
    mk_ctx ir0 so0 None None [] false (type ctx) info 0 (internal_temps ctx)
      (fun _ => 0) (immediate_idx ctx) (branch ctx) 0 (tmp_dst ctx) (tmp_src ctx) in
  if negb (Z.land (indirect_files info) relocated_files =? 0) then
    (TGSI_PARSE_ERROR, c0)
  else
    let base := match so_type so0, half_precision so0 with
                | SHADER_FRAGMENT, false => 1
                | _, _ => 0
                end in
    let fm := file_max info in
    let base_reg' (f : tgsi_file) : Z :=
      match f with
      | TGSI_FILE_CONSTANT => 0
      | TGSI_FILE_IMMEDIATE => u32 (fm TGSI_FILE_CONSTANT + 1)
      | TGSI_FILE_INPUT => base
      | TGSI_FILE_OUTPUT => u32 (base + fm TGSI_FILE_INPUT + 1)
      | TGSI_FILE_TEMPORARY =>
          u32 (base + fm TGSI_FILE_INPUT + 1 + fm TGSI_FILE_OUTPUT + 1)
      | _ => 0
      end in
    let so1 := set_first_immediate (base_reg' TGSI_FILE_IMMEDIATE) so0 in
    let c1 :=
      mk_ctx ir0 so1 None None [] false (type ctx) info 0 (internal_temps ctx)
        base_reg' (u32 (4 * (fm TGSI_FILE_IMMEDIATE + 1))) (branch ctx) 0
        (tmp_dst ctx) (tmp_src ctx) in
    if parse_init tokens =? TGSI_PARSE_OK then
      (parse_init tokens,
       mk_ctx ir0 so1 None None [] false (processor tokens) info 0 (internal_temps ctx)
         base_reg' (u32 (4 * (fm TGSI_FILE_IMMEDIATE + 1))) (branch ctx) 0
         (tmp_dst ctx) (tmp_src ctx))
    else (parse_init tokens, c1).

(** The [TGSI_TOKEN_TYPE_INSTRUCTION] case of [compile_instructions]. *)
Definition compile_instruction (inst : tgsi_full_instruction) : M unit :=
  match translaters (Opcode inst) with
  | Some (fxn, t) => fxn t inst ;;; modify (set_num_internal_temps 0)
  | None => compile_error
  end ;;;
  match Saturate inst with
  | TGSI_SAT_ZERO_ONE => create_clamp_imm (Dst0 inst) fui_0_0 fui_1_0
  | TGSI_SAT_MINUS_PLUS_ONE => create_clamp_imm (Dst0 inst) fui_minus_1_0 fui_1_0
  | TGSI_SAT_NONE => ret tt
  end ;;;
  instr_finish.

(** ** Declarations and the token loop

    The declarations fill the linkage tables of the shader state object
    and the slots of the outermost block.  [struct fd3_shader_stateobj]
    and [fd3_semantic_name] are defined in headers that are not among the
    sources: the tables below have the fields this file assigns, as wide
    as the values it assigns, and [fd3_semantic_name] is a parameter. *)

Inductive tgsi_semantic : Type :=
| TGSI_SEMANTIC_POSITION | TGSI_SEMANTIC_COLOR | TGSI_SEMANTIC_FOG
| TGSI_SEMANTIC_PSIZE | TGSI_SEMANTIC_GENERIC | TGSI_SEMANTIC_TEXCOORD
| TGSI_SEMANTIC_BCOLOR.   (* stands for every name the switches do not list *)

Record tgsi_full_declaration : Type := mk_decl {
  Declaration_File : tgsi_file;
  Declaration_Semantic : bool;
  Range_First : Z;
  Range_Last : Z;
  Semantic_Name : tgsi_semantic;
  Semantic_Index : Z
}.

(** [&parser.FullToken]: one token of the stream. *)
Inductive tgsi_full_token : Type :=
| TGSI_TOKEN_TYPE_DECLARATION (decl : tgsi_full_declaration)
| TGSI_TOKEN_TYPE_IMMEDIATE (u : Z * Z * Z * Z)
| TGSI_TOKEN_TYPE_INSTRUCTION (inst : tgsi_full_instruction)
| TGSI_TOKEN_TYPE_PROPERTY.

Definition OPC_BARY_F : Z := 57.

Fixpoint foldM {A T} (l : list A) (f : A -> T -> M T) (s : T) : M T :=
  match l with
  | [] => ret s
  | a :: l' => s' <- f a s ;; foldM l' f s'
  end.

(** [for (i = first; i <= last; i++)] *)
Definition range (first last : Z) : list Z := seqZ first (last - first + 1).

(** [*instrp = v] for [&block->inputs[n]]. *)
Definition store_input (b : block_id) (n : Z) (v : option instr_id) : M unit :=
  blk <- get_block b ;;
  arr <- deref (zinsert n v (Block.inputs blk)) ;;
  update_block b (Block.set_inputs arr).

Section Declarations.

Context {fd3_semantic : Type}.
Variable fd3_semantic_name : tgsi_semantic -> Z -> fd3_semantic.

(** [so->inputs[n]] and [so->outputs[n]]. *)
Record so_input : Type := mk_input {
  in_semantic : fd3_semantic;
  in_compmask : Z;
  in_regid : Z;
  in_inloc : Z
}.

Record so_output : Type := mk_output {
  out_semantic : fd3_semantic;
  out_regid : Z
}.

(** The linkage tables and counters of [struct fd3_shader_stateobj], and
    the two fields of the context that only the declarations and the
    token loop use. *)
Record fd3_linkage : Type := mk_linkage {
  inputs_count : Z;
  inputs : list so_input;
  total_in : Z;
  outputs_count : Z;
  outputs : list so_output;
  writes_pos : bool;
  samplers_count : Z;
  next_inloc : Z;                  (* ctx->next_inloc *)
  frag_pos : option instr_id       (* ctx->frag_pos *)
}.

Definition set_writes_pos (v : bool) (l : fd3_linkage) : fd3_linkage :=
  mk_linkage (inputs_count l) (inputs l) (total_in l) (outputs_count l) (outputs l)
    v (samplers_count l) (next_inloc l) (frag_pos l).

Definition set_frag_pos (v : option instr_id) (l : fd3_linkage) : fd3_linkage :=
  mk_linkage (inputs_count l) (inputs l) (total_in l) (outputs_count l) (outputs l)
    (writes_pos l) (samplers_count l) (next_inloc l) v.

Definition decl_semantic (decl : tgsi_full_declaration) : fd3_semantic :=
  fd3_semantic_name (Semantic_Name decl) (Semantic_Index decl).

(** One round of the component loop of [decl_in]. *)
Definition decl_in_comp (l : fd3_linkage) (i r inloc flags j : Z) : M unit :=
  c <- get ;;
  instr <- match type c with
           | SHADER_FRAGMENT =>
               instr <- instr_create 2 OPC_BARY_F ;;
               ir3_reg_create instr (r + j) flags ;;;
               p <- ir3_reg_create instr 0 IR3_REG_IMMED ;;
               update_reg p (Reg.set_iim_val (inloc + j - 8)) ;;;
               src <- ir3_reg_create instr (regid 0 0) IR3_REG_SSA ;;
               update_reg src (Reg.set_wrmask 3) ;;;
               update_reg src (Reg.set_instr (frag_pos l)) ;;;
               ret instr
           | SHADER_VERTEX =>
               b <- deref (block c) ;;
               create_input b None (i * 4 + j)
           end ;;
  c <- get ;;
  b <- deref (block c) ;;
  store_input b (i * 4 + j) (Some instr).

(** One round of the register loop of [decl_in]. *)
Definition decl_in_reg (decl : tgsi_full_declaration) (base flags i : Z)
    (l : fd3_linkage) : M fd3_linkage :=
  let n := inputs_count l in
  let r := regid (i + base) 0 in
  let ncomp := 4 in
  let inloc := next_inloc l in
  arr <- deref (zinsert n (mk_input (decl_semantic decl) (Z.shiftl 1 ncomp - 1) r inloc)
                  (inputs l)) ;;
  let l' :=
    mk_linkage (n + 1) arr (total_in l + ncomp) (outputs_count l) (outputs l)
      (writes_pos l) (samplers_count l) (inloc + ncomp) (frag_pos l) in
  forM chans (decl_in_comp l' i r inloc flags) ;;;
  ret l'.

Definition decl_in (decl : tgsi_full_declaration) (l : fd3_linkage) : M fd3_linkage :=
  c <- get ;;
  let base := base_reg c TGSI_FILE_INPUT in
  compile_assert (match type c with
                  | SHADER_VERTEX => true
                  | SHADER_FRAGMENT => false
                  end || Declaration_Semantic decl) ;;;
  let flags := if half_precision (so c) then IR3_REG_HALF else 0 in
  foldM (range (Range_First decl) (Range_Last decl)) (decl_in_reg decl base flags) l.

(** One round of the component loop of [decl_out]: "avoid undefined
    outputs, stick a dummy mov from imm{0.0}". *)
Definition decl_out_comp (i j : Z) : M unit :=
  instr <- create_immed 0 ;;
  c <- get ;;
  b <- deref (block c) ;;
  store_slot (mk_slot b SlotOutput (i * 4 + j)) (Some instr).

(** One round of the register loop of [decl_out]. *)
Definition decl_out_reg (decl : tgsi_full_declaration) (base comp i : Z)
    (l : fd3_linkage) : M fd3_linkage :=
  let n := outputs_count l in
  arr <- deref (zinsert n (mk_output (decl_semantic decl) (regid (i + base) comp))
                  (outputs l)) ;;
  forM chans (decl_out_comp i) ;;;
  ret (mk_linkage (inputs_count l) (inputs l) (total_in l) (n + 1) arr
         (writes_pos l) (samplers_count l) (next_inloc l) (frag_pos l)).

Definition decl_out (decl : tgsi_full_declaration) (l : fd3_linkage) : M fd3_linkage :=
  c <- get ;;
  let base := base_reg c TGSI_FILE_OUTPUT in
  let name := Semantic_Name decl in
  compile_assert (Declaration_Semantic decl) ;;;
  sel <- match type c with
         | SHADER_VERTEX =>
             match name with
             | TGSI_SEMANTIC_POSITION => ret (0, set_writes_pos true l)
             | TGSI_SEMANTIC_PSIZE | TGSI_SEMANTIC_COLOR | TGSI_SEMANTIC_GENERIC
             | TGSI_SEMANTIC_FOG | TGSI_SEMANTIC_TEXCOORD => ret (0, l)
             | _ => compile_error
             end
         | SHADER_FRAGMENT =>
             match name with
             | TGSI_SEMANTIC_POSITION => ret (2, set_writes_pos true l)
             | TGSI_SEMANTIC_COLOR => ret (0, l)
             | _ => compile_error
             end
         end ;;
  foldM (range (Range_First decl) (Range_Last decl))
    (decl_out_reg decl base sel.1) sel.2.

Definition decl_samp (decl : tgsi_full_declaration) (l : fd3_linkage) : M fd3_linkage :=
  ret (mk_linkage (inputs_count l) (inputs l) (total_in l) (outputs_count l) (outputs l)
         (writes_pos l) (samplers_count l + 1) (next_inloc l) (frag_pos l)).

(** [memcpy(so->immediates[n].val, imm->u, 16)] *)
Definition store_immediate (n : Z) (u : Z * Z * Z * Z) (imms : list Z)
    : option (list Z) :=
  let '(x, y, z, w) := u in
  match zinsert (4 * n) x imms with
  | Some a =>
      match zinsert (4 * n + 1) y a with
      | Some a =>
          match zinsert (4 * n + 2) z a with
          | Some a => zinsert (4 * n + 3) w a
          | None => None
          end
      | None => None
      end
  | None => None
  end.

(** The body of the token loop of [compile_instructions]. *)
Definition compile_token (tok : tgsi_full_token) (l : fd3_linkage) : M fd3_linkage :=
  match tok with
  | TGSI_TOKEN_TYPE_DECLARATION decl =>
      match Declaration_File decl with
      | TGSI_FILE_OUTPUT => decl_out decl l
      | TGSI_FILE_INPUT => decl_in decl l
      | TGSI_FILE_SAMPLER => decl_samp decl l
      | _ => ret l
      end
  | TGSI_TOKEN_TYPE_IMMEDIATE u =>
      c <- get ;;
      let n := immediates_count (so c) in
      arr <- deref (store_immediate n u (immediates (so c))) ;;
      modify (set_so (set_immediates arr (n + 1) (so c))) ;;;
      ret l
  | TGSI_TOKEN_TYPE_INSTRUCTION inst => compile_instruction inst ;;; ret l
  | TGSI_TOKEN_TYPE_PROPERTY => ret l
  end.

(** [compile_instructions]; the parser hands over the tokens one by one,
    here they are the list [tokens]. *)
Definition compile_instructions (tokens : list tgsi_full_token) (l : fd3_linkage)
    : M fd3_linkage :=
  push_block ;;;
  c <- get ;;
  l <- match type c with
       | SHADER_FRAGMENT =>
           b <- deref (block c) ;;
           instr <- ir3_instr_create b (-1) OPC_META_FI ;;
           ir3_reg_create instr 0 0 ;;;
           ir3_reg_create instr 0 IR3_REG_SSA ;;;
           ir3_reg_create instr 0 IR3_REG_SSA ;;;
           ret (set_frag_pos (Some instr) l)
       | SHADER_VERTEX => ret l
       end ;;
  l <- foldM tokens compile_token l ;;
  c <- get ;;
  match type c with
  | SHADER_FRAGMENT =>
      b <- deref (block c) ;;
      update_block b (fun blk => Block.set_inputs (take 2 (Block.inputs blk)) blk) ;;;
      instr <- create_input b None 0 ;;
      store_input b 0 (Some instr) ;;;
      fp <- deref (frag_pos l) ;;
      update_reg (fp, 1%nat) (Reg.set_instr (Some instr)) ;;;
      instr <- create_input b None 1 ;;
      store_input b 1 (Some instr) ;;;
      fp <- deref (frag_pos l) ;;
      update_reg (fp, 2%nat) (Reg.set_instr (Some instr)) ;;;
      ret l
  | SHADER_VERTEX => ret l
  end.

End Declarations.
(** * Specification vocabulary and example shaders *)

(** The value a slot holds ([None]: no such slot). *)
Definition read_slot (c : fd3_compile_context) (s : slot) : option (option instr_id) :=
  match blocks (ir c) !! slot_block s with
  | Some blk =>
      match slot_file s with
      | SlotOutput => zlookup (Block.outputs blk) (slot_n s)
      | SlotTemporary => zlookup (Block.temporaries blk) (slot_n s)
      end
  | None => None
  end.

(** The value the queue holds for a slot: its last entry for that slot. *)
Fixpoint queued (q : list output_update) (s : slot) : option instr_id :=
  match q with
  | [] => None
  | u :: q' =>
      match queued q' s with
      | Some i => Some i
      | None => if decide (upd_instrp u = s) then Some (upd_instr u) else None
      end
  end.

(** Everything but the blocks' slots. *)
Definition same_but_blocks (c c' : fd3_compile_context) : Prop :=
  exists bs, c' = set_blocks bs c.


(** ** Register ranges after [compile_init] *)

(** Register [r] belongs to file [f]: [base_reg[f] <= r <= base_reg[f] +
    file_max[f]]. *)
Definition in_file_range (c : fd3_compile_context) (f : tgsi_file) (r : Z) : Prop :=
  base_reg c f <= r <= base_reg c f + file_max (info c) f.

(** The register reserved for r0.xy of a full-precision fragment shader. *)
Definition reserved_prefix (s : fd3_shader_stateobj) : Z :=
  match so_type s, half_precision s with
  | SHADER_FRAGMENT, false => 1
  | _, _ => 0
  end.

Definition gpr_file (f : tgsi_file) : Prop :=
  f = TGSI_FILE_INPUT \/ f = TGSI_FILE_OUTPUT \/ f = TGSI_FILE_TEMPORARY.

(** ** Example shaders *)

Definition blank_src : tgsi_src_register :=
  Src.mk TGSI_FILE_NULL false false 0 false false 0 0 0 0.

Definition blank_dst : tgsi_dst_register :=
  Dst.mk TGSI_FILE_NULL 0 false false 0.

(** Memory before [compile_init]: six internal temporaries, sixteen branch
    records, an immediate pool of four vec4. *)
Definition blank_so (t : shader_t) : fd3_shader_stateobj :=
  mk_so t false 0 0 (replicate 16 0).

Definition blank_ctx : fd3_compile_context :=
  mk_ctx (mk_ir [] []) (blank_so SHADER_VERTEX) None None [] false SHADER_VERTEX
    (mk_info (fun _ => -1) 0) 0 (replicate 6 blank_src) (fun _ => 0) 0
    (replicate 16 None) 0 blank_dst None.

(** A vertex shader with CONST[0], IN[0], OUT[0], TEMP[0..1]. *)
Definition ex_file_max (f : tgsi_file) : Z :=
  match f with
  | TGSI_FILE_CONSTANT | TGSI_FILE_INPUT | TGSI_FILE_OUTPUT => 0
  | TGSI_FILE_TEMPORARY => 1
  | _ => -1
  end.

Definition ex_tokens : parsed_tokens :=
  mk_tokens (mk_info ex_file_max 0) TGSI_PARSE_OK SHADER_VERTEX.

Definition ex_init : fd3_compile_context :=
  (compile_init blank_ctx (blank_so SHADER_VERTEX) (mk_ir [] []) ex_tokens).2.

Definition TEMP (i : Z) : tgsi_src_register :=
  Src.mk TGSI_FILE_TEMPORARY false false i false false 0 1 2 3.
Definition IN (i : Z) : tgsi_src_register :=
  Src.mk TGSI_FILE_INPUT false false i false false 0 1 2 3.
Definition OUT (i : Z) : tgsi_src_register :=
  Src.mk TGSI_FILE_OUTPUT false false i false false 0 1 2 3.
Definition swizzled (x y z w : Z) (s : tgsi_src_register) : tgsi_src_register :=
  Src.mk (Src.File s) (Src.Indirect s) (Src.Dimension s) (Src.Index s)
    (Src.Absolute s) (Src.Negate s) x y z w.
Definition TEMP_dst (i mask : Z) : tgsi_dst_register :=
  Dst.mk TGSI_FILE_TEMPORARY mask false false i.

Definition INST (o : tgsi_opcode) (dst : tgsi_dst_register)
    (srcs : list tgsi_src_register) : tgsi_full_instruction :=
  mk_inst o TGSI_SAT_NONE dst srcs TGSI_TEXTURE_2D.

(** Lowering a list of instructions in the outermost block. *)
Definition lower (insts : list tgsi_full_instruction) : M unit :=
  push_block ;;; forM insts compile_instruction.

Definition IF_ (s : tgsi_src_register) := INST TGSI_OPCODE_IF blank_dst [s].
Definition ELSE_ := INST TGSI_OPCODE_ELSE blank_dst [].
Definition ENDIF_ := INST TGSI_OPCODE_ENDIF blank_dst [].
Definition MOV_ (d : tgsi_dst_register) (s : tgsi_src_register) :=
  INST TGSI_OPCODE_MOV d [s].

Definition state_of {A} (o : outcome (A * fd3_compile_context)) : option fd3_compile_context :=
  match o with Done (_, c) => Some c | _ => None end.

Definition CONST (i : Z) : tgsi_src_register :=
  Src.mk TGSI_FILE_CONSTANT false false i false false 0 1 2 3.

(** [-x] on the bits of a float: the sign bit flipped. *)
Definition fneg_bits (v : Z) : Z := Z.lxor v (2^31).

(** The operand shape a fan-in node is meant to have for a mask: one
    entry per position up to the highest selected one, [true] for a
    selected position (an SSA reference) and [false] for a placeholder. *)
Fixpoint up_to_last_selected (sel : list bool) : list bool :=
  match sel with
  | [] => []
  | b :: rest =>
      match up_to_last_selected rest with
      | [] => if b then [b] else []
      | t => b :: t
      end
  end.

Definition intended_fanin (wrmask : Z) : list bool :=
  up_to_last_selected (map (fun i => has_flag wrmask (bit i)) chans).

(** The shape of the source operands of a node: [true] for an SSA
    reference. *)
Definition operand_shape (ins : ir3_instruction) : list bool :=
  map (fun r => has_flag (Reg.flags r) IR3_REG_SSA) (tail (Instr.regs ins)).

(** IF c; TEMP[1].x := CONST[0].x; ELSE *)
Definition ex_then_only : list tgsi_full_instruction :=
  [MOV_ (TEMP_dst 0 1) (CONST 0); IF_ (TEMP 0); MOV_ (TEMP_dst 1 1) (CONST 0); ELSE_].

Definition value_of {A} (d : A) (o : outcome (A * fd3_compile_context)) : A :=
  match o with Done (a, _) => a | _ => d end.

Definition run_from {A} (m : M A) (c : fd3_compile_context) : fd3_compile_context :=
  default c (state_of (m c)).

(** The kind of a node: its category and opcode. *)
Definition kind_of (c : fd3_compile_context) (i : instr_id) : option (Z * Z) :=
  (fun ins => (Instr.category ins, Instr.opc ins)) <$> instrs (ir c) !! i.

(** The instruction an operand of a node refers to. *)
Definition operand_instr (c : fd3_compile_context) (p : reg_ptr) : option (option instr_id) :=
  Reg.instr <$> (instrs (ir c) !! p.1 ≫= fun ins => Instr.regs ins !! p.2).

(** Requesting 1.0, then -1.0. *)
Definition ex_two_immediates : M (tgsi_src_register * tgsi_src_register) :=
  r1 <- get_immediate fui_1_0 ;; r2 <- get_immediate fui_minus_1_0 ;; ret (r1, r2).

(** A sample instruction reading TEMP[0] through a fan-in node. *)
Definition ex_fanin (wrmask : Z) : M (instr_id * reg_ptr) :=
  lower [MOV_ (TEMP_dst 0 15) (CONST 0)] ;;;
  i <- instr_create 5 OPC_SAM ;;
  r <- add_src_reg_wrmask i (TEMP 0) 0 wrmask ;;
  ret (i, r).

Definition fanin_of (wrmask : Z) : option (list bool) :=
  let o := ex_fanin wrmask ex_init in
  let c := run_from (ex_fanin wrmask) ex_init in
  match operand_instr c (value_of (O, (O, O)) o).2 with
  | Some (Some collect) => operand_shape <$> instrs (ir c) !! collect
  | _ => None
  end.

(** ** The nodes the resolver synthesizes *)

(** [mov dst, imm(val)] as [create_immed] builds it. *)
Definition immed_node (b : block_id) (ty : type_t) (val : Z) : ir3_instruction :=
  Instr.set_regs [new_reg 0 0; Reg.set_fim_val val (new_reg 0 IR3_REG_IMMED)]
    (Instr.set_cat1 ty ty (new_instr b 1 0)).

(** The operands of a boundary node for slot [n] that imports [v]. *)
Definition inout_regs (v : option instr_id) (n : Z) : list ir3_register :=
  new_reg n 0 ::
  match v with
  | Some x => [Reg.set_instr (Some x) (new_reg 0 IR3_REG_SSA)]
  | None => []
  end.

(** [meta:input] and [meta:output] as [create_input] and [create_output]
    build them. *)
Definition input_node (b : block_id) (v : option instr_id) (n : Z) : ir3_instruction :=
  Instr.set_regs (inout_regs v n)
    (Instr.set_inout_block (Some b) (new_instr b (-1) OPC_META_INPUT)).

Definition output_node (b : block_id) (v : option instr_id) (n : Z) : ir3_instruction :=
  Instr.set_regs (inout_regs v n)
    (Instr.set_inout_block (Some b) (new_instr b (-1) OPC_META_OUTPUT)).

(** ** What resolution may change

    Resolving a source appends nodes to the arena and fills input slots of
    blocks; it leaves the existing nodes, the parents, the temporaries and
    the outputs of every block, and the rest of the context alone. *)
Definition block_agree (x y : ir3_block) : Prop :=
  Block.parent x = Block.parent y
  /\ Block.temporaries x = Block.temporaries y
  /\ Block.outputs x = Block.outputs y
  /\ length (Block.inputs x) = length (Block.inputs y).

Definition blocks_agree (bs bs' : list ir3_block) : Prop :=
  Forall2 block_agree bs bs'.

Definition ext (c c' : fd3_compile_context) : Prop :=
  exists L bs',
    c' = set_instrs (instrs (ir c) ++ L) (set_blocks bs' c)
    /\ blocks_agree (blocks (ir c)) bs'.

(** ** Well-formed scopes

    [push_block] links a new block to one created before it and gives it
    [ntmp] temporaries and as many input slots: slot [n] can be followed
    up the parents from every block. *)
Definition wf_block (n : Z) (b : block_id) (blk : ir3_block) : bool :=
  in_range n (Block.temporaries blk)
  && match Block.parent blk with
     | Some p => (p <? b)%nat && in_range n (Block.inputs blk)
     | None => true
     end.

Definition wf_scopes (n : Z) (bs : list ir3_block) : Prop :=
  forall b blk, bs !! b = Some blk -> wf_block n b blk = true.

Fixpoint wf_scopes_from (n : Z) (b : block_id) (bs : list ir3_block) : bool :=
  match bs with
  | [] => true
  | blk :: rest => wf_block n b blk && wf_scopes_from n (S b) rest
  end.

(** Inside the "then" block of [IF TEMP[0].x], with TEMP[0].x written
    before the IF. *)
Definition ex_in_then : fd3_compile_context :=
  run_from (lower [MOV_ (TEMP_dst 0 1) (CONST 0); IF_ (TEMP 0)]) ex_init.

(** Resolving the same temporary twice. *)
Definition resolve_twice (b : block_id) (n : Z) : M (option instr_id * option instr_id) :=
  r1 <- block_temporary b n ;; r2 <- block_temporary b n ;; ret (r1, r2).

(** ** Operand records in the arena *)

(** The operand record a pointer denotes. *)
Definition reg_at (c : fd3_compile_context) (p : reg_ptr) : option ir3_register :=
  instrs (ir c) !! p.1 ≫= fun ins => Instr.regs ins !! p.2.

(** The arena with one operand record replaced. *)
Definition set_operand (p : reg_ptr) (r' : ir3_register)
    (arena : list ir3_instruction) : list ir3_instruction :=
  match arena !! p.1 with
  | Some ins => <[p.1 := Instr.set_regs (<[p.2 := r']> (Instr.regs ins)) ins]> arena
  | None => arena
  end.

(** The record [ssa_src] leaves for a source it resolved to [p]. *)
Definition resolved_to (p : instr_id) (r : ir3_register) : ir3_register :=
  Reg.set_instr (Some p) (or_flags IR3_REG_SSA r).

Definition ssa_file (f : tgsi_file) : bool :=
  match f with
  | TGSI_FILE_INPUT | TGSI_FILE_OUTPUT | TGSI_FILE_TEMPORARY => true
  | _ => false
  end.

(** A fresh [mov] with one operand record, and a read through it. *)
Definition ex_operand (src : tgsi_src_register) (chan : Z) : M reg_ptr :=
  i <- instr_create 1 0 ;;
  r <- ir3_reg_create i 0 0 ;;
  ssa_src r src chan ;;;
  ret r.

(** The outermost block of the example shader, nothing written yet. *)
Definition ex_top : fd3_compile_context := run_from (lower []) ex_init.

(** [ex_top] with a fresh [mov] that has one operand record. *)
Definition ex_top_operand : fd3_compile_context :=
  run_from (i <- instr_create 1 0 ;; ir3_reg_create i 0 0) ex_top.

(** ** Live values and the records of ordinary operands *)

(** The value a slot will hold once the queue is flushed. *)
Definition live (c : fd3_compile_context) (s : slot) : option (option instr_id) :=
  match queued (output_updates c) s with
  | Some i => Some (Some i)
  | None => read_slot c s
  end.

(** The register number and flags [add_dst_reg_wrmask] gives a
    destination. *)
Definition dst_num (c : fd3_compile_context) (dst : tgsi_dst_register) : option Z :=
  match Dst.File dst with
  | TGSI_FILE_OUTPUT | TGSI_FILE_TEMPORARY =>
      Some (Dst.Index dst + base_reg c (Dst.File dst))
  | TGSI_FILE_ADDRESS => Some REG_A0
  | _ => None
  end.

Definition dst_flags (c : fd3_compile_context) (dst : tgsi_dst_register) : Z :=
  Z.lor (if Dst.Indirect dst then IR3_REG_RELATIV else 0)
        (if half_precision (so c) then IR3_REG_HALF else 0).

Definition dst_record (c : fd3_compile_context) (dst : tgsi_dst_register)
    (num chan : Z) : ir3_register :=
  Reg.set_wrmask 1 (new_reg (regid num chan) (dst_flags c dst)).

(** The register number and flags [add_src_reg_wrmask] gives a source. *)
Definition src_num (c : fd3_compile_context) (src : tgsi_src_register) : option Z :=
  match Src.File src with
  | TGSI_FILE_IMMEDIATE | TGSI_FILE_CONSTANT
  | TGSI_FILE_OUTPUT | TGSI_FILE_INPUT | TGSI_FILE_TEMPORARY =>
      Some (Src.Index src + base_reg c (Src.File src))
  | _ => None
  end.

Definition src_flags (c : fd3_compile_context) (src : tgsi_src_register) : Z :=
  Z.lor (Z.lor (Z.lor (Z.lor
    (if is_const src then IR3_REG_CONST else 0)
    (if Src.Absolute src then IR3_REG_ABS else 0))
    (if Src.Negate src then IR3_REG_NEGATE else 0))
    (if Src.Indirect src then IR3_REG_RELATIV else 0))
    (if half_precision (so c) then IR3_REG_HALF else 0).

Definition src_record (c : fd3_compile_context) (src : tgsi_src_register)
    (num chan : Z) : ir3_register :=
  Reg.set_wrmask 1 (new_reg (regid num chan) (src_flags c src)).

(** The slot a write to component [chan] of [dst] goes to. *)
Definition dst_slot (b : block_id) (dst : tgsi_dst_register) (chan : Z) : option slot :=
  match Dst.File dst with
  | TGSI_FILE_OUTPUT => Some (mk_slot b SlotOutput (regid (Dst.Index dst) chan))
  | TGSI_FILE_TEMPORARY => Some (mk_slot b SlotTemporary (regid (Dst.Index dst) chan))
  | _ => None
  end.

(** An instruction with one more operand record. *)
Definition add_reg (r : ir3_register) (ins : ir3_instruction) : ir3_instruction :=
  Instr.set_regs (Instr.regs ins ++ [r]) ins.

(** Every queued write goes to a slot that exists. *)
Definition wf_queue (c : fd3_compile_context) : Prop :=
  Forall (fun u => is_Some (read_slot c (upd_instrp u))) (output_updates c).

(** ** Destination-equals-source hazards *)

(** Some source names the destination register and the reuse is not the
    trivial one (full write-mask, identity swizzle). *)
Definition reuses_dst (inst : tgsi_full_instruction) : bool :=
  existsb (fun src => same_register (Dst0 inst) src
                      && negb (trivial_reuse (Dst0 inst) src))
          (SrcRegs inst).

(** The internal temporary [get_dst] hands out in state [c]. *)
Definition fresh_temporary (mask : Z) (c : fd3_compile_context) : tgsi_dst_register :=
  Dst.mk TGSI_FILE_TEMPORARY mask false false
    (file_max (info c) TGSI_FILE_TEMPORARY + num_internal_temps c + 1).

(** The state [get_dst] leaves when it redirects the destination. *)
Definition redirected (dst : tgsi_dst_register) (c : fd3_compile_context)
    : fd3_compile_context :=
  let n := num_internal_temps c in
  set_tmp_dst (fresh_temporary (Dst.WriteMask dst) c)
    (set_tmp_src (Some (Z.to_nat n))
       (set_internal_temps
          (<[Z.to_nat n := src_from_dst (fresh_temporary TGSI_WRITEMASK_XYZW c)]>
             (internal_temps c))
          (set_num_internal_temps (n + 1) c))).

(** The components a write-mask enables, in increasing order. *)
Definition enabled (mask : Z) : list Z :=
  filter (fun i => has_flag mask (bit i) = true) chans.

(** The slot of the current block a read of component [i] of the
    temporary [src] looks at. *)
Definition src_slot (b : block_id) (src : tgsi_src_register) (i : Z) : slot :=
  mk_slot b SlotTemporary (regid (Src.Index src) (src_swiz src i)).

(** [mov dst.i, src.swiz(i)] as [create_mov] builds it, the source
    resolved to the instruction [p]. *)
Definition mov_node (c : fd3_compile_context) (b : block_id)
    (dst : tgsi_dst_register) (src : tgsi_src_register) (i : Z) (p : instr_id)
    : ir3_instruction :=
  add_reg
    (resolved_to p
       (src_record c src (Src.Index src + base_reg c (Src.File src)) (src_swiz src i)))
    (add_reg (dst_record c dst (Dst.Index dst + base_reg c (Dst.File dst)) i)
       (Instr.set_cat1 (get_ftype c) (get_ftype c) (new_instr b 1 0))).

(** The slot of the current block a write of component [i] of [dst]
    goes to (a destination outside OUT and TEMP has none). *)
Definition dst_slot_of (b : block_id) (dst : tgsi_dst_register) (i : Z) : slot :=
  default (mk_slot b SlotOutput 0) (dst_slot b dst i).

(** The kinds of the nodes a run appends to the arena. *)
Definition new_kinds {A} (m : M A) (c : fd3_compile_context) : option (list (Z * Z)) :=
  (fun c' => map (fun ins => (Instr.category ins, Instr.opc ins))
               (drop (length (instrs (ir c))) (instrs (ir c'))))
  <$> state_of (m c).

(** TEMP[0] := CONST[0]. *)
Definition ex_hazard_pre : fd3_compile_context :=
  run_from (lower [MOV_ (TEMP_dst 0 15) (CONST 0)]) ex_init.

(** ADD TEMP[0].xy, TEMP[0].yxzw, CONST[0] *)
Definition ex_hazard : tgsi_full_instruction :=
  INST TGSI_OPCODE_ADD (TEMP_dst 0 3) [swizzled 1 0 2 3 (TEMP 0); CONST 0].

(** MOV TEMP[0], TEMP[0] *)
Definition ex_trivial : tgsi_full_instruction := MOV_ (TEMP_dst 0 15) (TEMP 0).

(** [ex_hazard] up to its main instructions, as [instr_cat2] goes. *)
Definition ex_hazard_main : M unit :=
  dp <- get_dst ex_hazard ;;
  dst <- read_dst ex_hazard dp ;;
  instr <- instr_create 2 OPC_ADD_F ;;
  vectorize instr dst [(ArgSrc (swizzled 1 0 2 3 (TEMP 0)), 0); (ArgSrc (CONST 0), 0)].

Definition ex_hazard_mid : fd3_compile_context := run_from ex_hazard_main ex_hazard_pre.

(** ** Vector expansion *)

(** What the steps of [vectorize] keep of the state: the arena only
    grows, the blocks keep their temporaries and outputs, and the fields
    the lowering reads stay as they are. *)
Definition evolves (c c' : fd3_compile_context) : Prop :=
  (length (instrs (ir c)) <= length (instrs (ir c')))%nat
  /\ blocks_agree (blocks (ir c)) (blocks (ir c'))
  /\ block c' = block c /\ atomic c' = atomic c /\ so c' = so c
  /\ info c' = info c /\ base_reg c' = base_reg c.

(** A step that replaces the operand record [r] at [p] by [r'], and
    otherwise only appends nodes. *)
Definition rewrites (p : reg_ptr) (r r' : ir3_register)
    (c c' : fd3_compile_context) : Prop :=
  evolves c c'
  /\ output_updates c' = output_updates c
  /\ (forall k, k <> p.1 -> (k < length (instrs (ir c)))%nat ->
        instrs (ir c') !! k = instrs (ir c) !! k)
  /\ exists ins,
       instrs (ir c) !! p.1 = Some ins
       /\ Instr.regs ins !! p.2 = Some r
       /\ instrs (ir c') !! p.1
          = Some (Instr.set_regs (<[p.2 := r']> (Instr.regs ins)) ins).

(** The source operand [r] of the template, as the round of component
    [i] leaves it in [r']: an SSA operand is resolved again, to the
    value live for the register's component [src_swiz(src, i)] when the
    current block has one; another register operand gets that component;
    an immediate stays. *)
Definition fixed_operand (c : fd3_compile_context) (a : vararg) (flags i : Z)
    (r r' : ir3_register) : Prop :=
  if has_flag (Reg.flags r) IR3_REG_SSA then
    exists s, a = ArgSrc s
      /\ (ssa_file (Src.File s) = true ->
          exists p, r' = resolved_to p r
            /\ forall b v, block c = Some b ->
                 Src.File s = TGSI_FILE_TEMPORARY ->
                 read_slot c (src_slot b s i) = Some (Some v) -> p = v)
  else if negb (has_flag flags IR3_REG_IMMED) then
    exists s, a = ArgSrc s
      /\ r' = Reg.set_num (regid (Z.shiftr (Reg.num r) 2) (src_swiz s i)) r
  else r' = r.

(** The write [ssa_dst] queues for component [i] of [dst], by the
    instruction [cur]. *)
Definition pending (c : fd3_compile_context) (cur : instr_id)
    (dst : tgsi_dst_register) (i : Z) : list output_update :=
  match block c with
  | Some b =>
      match dst_slot b dst i with
      | Some s => [mk_update cur s]
      | None => []
      end
  | None => []
  end.

(** The operand record [vectorize] attaches to the template for the
    argument [(a, flags)]: a register operand at component X, flagged
    SSA when its file is resolved, or an immediate with its value. *)
Definition template_operand (c : fd3_compile_context) (a : vararg) (flags : Z)
    (r : ir3_register) : Prop :=
  has_flag (Reg.flags r) IR3_REG_SSA
  = (match a with ArgSrc s => ssa_file (Src.File s) | ArgInt _ => false end)
    || has_flag flags IR3_REG_SSA
  /\ match a with
     | ArgSrc s =>
         has_flag flags IR3_REG_IMMED = false
         /\ exists num, src_num c s = Some num /\ Reg.num r = regid num TGSI_SWIZZLE_X
     | ArgInt v =>
         has_flag flags IR3_REG_IMMED = true /\ Reg.iim_val r = v
     end.

(** What every round keeps of an operand record of the template: its
    SSA flag goes with the file of the argument, a register operand
    keeps its register number and an immediate its value. *)
Definition operand_inv (c : fd3_compile_context) (a : vararg) (flags : Z)
    (r : ir3_register) : Prop :=
  match a with
  | ArgSrc s =>
      has_flag (Reg.flags r) IR3_REG_SSA = ssa_file (Src.File s)
      /\ has_flag flags IR3_REG_IMMED = false
      /\ exists num comp, src_num c s = Some num /\ Reg.num r = regid num comp
  | ArgInt v =>
      has_flag (Reg.flags r) IR3_REG_SSA = false
      /\ has_flag flags IR3_REG_IMMED = true
      /\ Reg.iim_val r = v
  end.

(** The operand record for the argument [(a, flags)] in the instruction
    of component [i]: an operand of a resolved file refers to a
    producing instruction, the value live for component
    [src_swiz(src, i)] of the register when the current block has one;
    an operand of another file names that component of its register. *)
Definition operand_of (c : fd3_compile_context) (a : vararg) (flags i : Z)
    (r : ir3_register) : Prop :=
  operand_inv c a flags r
  /\ match a with
     | ArgSrc s =>
         if ssa_file (Src.File s) then
           exists p, Reg.instr r = Some p
             /\ forall b v, block c = Some b ->
                  Src.File s = TGSI_FILE_TEMPORARY ->
                  read_slot c (src_slot b s i) = Some (Some v) -> p = v
         else
           exists num, src_num c s = Some num
                       /\ Reg.num r = regid num (src_swiz s i)
     | ArgInt _ => True
     end.

(** The template once its operands are attached: the destination
    record names a component of register [dnum], and one record per
    argument follows. *)
Definition prepared (c : fd3_compile_context) (tmpl : ir3_instruction) (dnum : Z)
    (srcs : list (vararg * Z)) (ins : ir3_instruction) : Prop :=
  exists d rs comp,
    ins = Instr.set_regs (d :: rs) tmpl
    /\ Reg.num d = regid dnum comp
    /\ Reg.wrmask d = 1
    /\ Forall2 (fun x r => operand_inv c x.1 x.2 r) srcs rs.

(** The instruction of component [i]: the template's category and
    opcode, a destination record for component [i] of register [dnum],
    and the operands of component [i]. *)
Definition expanded (c : fd3_compile_context) (tmpl : ir3_instruction) (dnum : Z)
    (srcs : list (vararg * Z)) (i : Z) (ins : ir3_instruction) : Prop :=
  exists d rs,
    ins = Instr.set_regs (d :: rs) tmpl
    /\ Reg.num d = regid dnum i
    /\ Reg.wrmask d = 1
    /\ Forall2 (fun x r => operand_of c x.1 x.2 i r) srcs rs.

(** ADD TEMP[1], TEMP[0].wzyx, CONST[0] after TEMP[0] := CONST[0]: the
    state once the template (node 4) is created, and the expansion. *)
Definition ex_vec_pre : fd3_compile_context :=
  run_from (instr_create 2 OPC_ADD_F) ex_hazard_pre.

Definition ex_vec_post : fd3_compile_context :=
  run_from (vectorize 4 (TEMP_dst 1 15)
              [(ArgSrc (swizzled 3 2 1 0 (TEMP 0)), 0); (ArgSrc (CONST 0), 0)])
    ex_vec_pre.

(** An argument [vectorize] can attach and fix up within the current
    block: an immediate, a register of the constant bank, or a temporary
    whose four components hold values in the block. *)
Definition local_arg (c : fd3_compile_context) (a : vararg) (flags : Z) : Prop :=
  has_flag flags IR3_REG_SSA = false
  /\ match a with
     | ArgSrc s =>
         has_flag flags IR3_REG_IMMED = false
         /\ Src.Index s < 64
         /\ (is_const s = true
             \/ Src.File s = TGSI_FILE_TEMPORARY
                /\ exists b, block c = Some b
                   /\ forall comp, 0 <= comp < 4 ->
                        exists v,
                          read_slot c (mk_slot b SlotTemporary
                                         (regid (Src.Index s) comp))
                          = Some (Some v))
     | ArgInt _ => has_flag flags IR3_REG_IMMED = true
     end.
(** ** Vocabulary of the further properties *)

(** The block [push_block] makes inside the block [block c]. *)
Definition nested_block (c : fd3_compile_context) : ir3_block :=
  let ntmp := Z.to_nat (SCALAR_REGS c TGSI_FILE_TEMPORARY + 4 * 4) in
  Block.mk (block c) (replicate ntmp None) (replicate ntmp None)
    (replicate (Z.to_nat (SCALAR_REGS c TGSI_FILE_OUTPUT)) None).

(** Every block was created after its parent. *)
Definition parents_older (bs : list ir3_block) : Prop :=
  forall b blk p, bs !! b = Some blk -> Block.parent blk = Some p -> (p < b)%nat.

(** [outermost bs b t]: following the parent links from block [b] ends at
    the block [t], which has no parent. *)
Inductive outermost (bs : list ir3_block) : block_id -> block_id -> Prop :=
| outermost_top b blk :
    bs !! b = Some blk -> Block.parent blk = None -> outermost bs b b
| outermost_up b blk p t :
    bs !! b = Some blk -> Block.parent blk = Some p -> outermost bs p t ->
    outermost bs b t.

(** [nearest kind bs n b v]: [v] is slot [n] of the nearest block, from
    [b] up the parent links, in which the slot is set; it is unset when
    the slot is set in none of them. *)
Inductive nearest (kind : slot_kind) (bs : list ir3_block) (n : Z)
    : block_id -> option instr_id -> Prop :=
| nearest_here b blk v :
    bs !! b = Some blk -> zlookup (slots_of kind blk) n = Some (Some v) ->
    nearest kind bs n b (Some v)
| nearest_none b blk :
    bs !! b = Some blk -> Block.parent blk = None ->
    zlookup (slots_of kind blk) n = Some None ->
    nearest kind bs n b None
| nearest_up b blk p v :
    bs !! b = Some blk -> Block.parent blk = Some p ->
    zlookup (slots_of kind blk) n = Some None ->
    nearest kind bs n p v ->
    nearest kind bs n b v.

Fixpoint parents_older_from (b : block_id) (bs : list ir3_block) : bool :=
  match bs with
  | [] => true
  | blk :: rest =>
      match Block.parent blk with
      | Some p => (p <? b)%nat
      | None => true
      end && parents_older_from (S b) rest
  end.

(** An SSA operand record that points at the instruction [p]. *)
Definition ssa_operand (p : instr_id) : ir3_register :=
  Reg.set_instr (Some p) (new_reg 0 IR3_REG_SSA).

(** The node [create_phi] makes in block [b]: a dummy destination, then
    the condition and the two values. *)
Definition phi_node (b : block_id) (cond x y : instr_id) : ir3_instruction :=
  Instr.set_regs [new_reg 0 0; ssa_operand cond; ssa_operand x; ssa_operand y]
    (new_instr b (-1) OPC_META_PHI).

(** The nodes [create_phi] makes for the sides that have no value. *)
Definition phi_zeros (c : fd3_compile_context) (b : block_id)
    (x y : option instr_id) : list ir3_instruction :=
  match x with Some _ => [] | None => [immed_node b (get_ftype c) 0] end
  ++ match y with Some _ => [] | None => [immed_node b (get_ftype c) 0] end.

(** The fields of the context outside the graph under construction:
    everything but the arena, the pending writes and the current
    instruction. *)
Definition rest_of (c : fd3_compile_context) :=
  (so c, block c, atomic c, type c, info c, num_internal_temps c, internal_temps c,
   base_reg c, immediate_idx c, branch c, branch_count c, tmp_dst c, tmp_src c).

(** The instruction [create_mov] starts from: [absneg.f] when the source
    has a modifier, a [mov] otherwise. *)
Definition mov_base (c : fd3_compile_context) (b : block_id)
    (src : tgsi_src_register) : ir3_instruction :=
  if Src.Absolute src || Src.Negate src then new_instr b 2 OPC_ABSNEG_F
  else Instr.set_cat1 (get_ftype c) (get_ftype c) (new_instr b 1 0).

(** [mov dst.i, src.swiz(i)] as [create_mov] builds it for a constant. *)
Definition const_mov (c : fd3_compile_context) (b : block_id)
    (dst : tgsi_dst_register) (src : tgsi_src_register) (i : Z) : ir3_instruction :=
  add_reg
    (src_record c src (Src.Index src + base_reg c (Src.File src)) (src_swiz src i))
    (add_reg (dst_record c dst (Dst.Index dst + base_reg c (Dst.File dst)) i)
       (mov_base c b src)).

(** ** Declarations *)


(** The output slots of block [b] a declaration covers: four per
    register of its range. *)
Definition decl_slots (b : block_id) (kind : slot_kind) (decl : tgsi_full_declaration)
    : list slot :=
  flat_map (fun i => map (fun j => mk_slot b kind (i * 4 + j)) chans)
    (range (Range_First decl) (Range_Last decl)).

(** The semantic names [decl_out] accepts for a shader of type [t], and
    the component the output register is given. *)
Definition output_semantic (t : shader_t) (name : tgsi_semantic) : option Z :=
  match t, name with
  | SHADER_VERTEX, (TGSI_SEMANTIC_POSITION | TGSI_SEMANTIC_PSIZE | TGSI_SEMANTIC_COLOR
                    | TGSI_SEMANTIC_GENERIC | TGSI_SEMANTIC_FOG | TGSI_SEMANTIC_TEXCOORD) =>
      Some 0
  | SHADER_FRAGMENT, TGSI_SEMANTIC_POSITION => Some 2
  | SHADER_FRAGMENT, TGSI_SEMANTIC_COLOR => Some 0
  | _, _ => None
  end.

(** An example: semantics kept as their index, empty linkage tables with
    room for two inputs and two outputs, and the declaration
    [DCL OUT[0], POSITION]. *)
Definition ex_semantic_name (name : tgsi_semantic) (index : Z) : Z := index.

Definition ex_linkage : fd3_linkage :=
  mk_linkage 0 (replicate 2 (mk_input 0 0 0 0)) 0 0 (replicate 2 (mk_output 0 0))
    false 0 8 None.


(** The value of an input slot ([None]: no such slot). *)
Definition read_input (c : fd3_compile_context) (b : block_id) (n : Z)
    : option (option instr_id) :=
  blocks (ir c) !! b ≫= fun blk => zlookup (Block.inputs blk) n.

(** [declared c c' b entries]: from [c] to [c'], the nodes of [entries]
    were appended, in their order, and each stored into the input slot
    of block [b] it is paired with; the other input slots, the
    temporaries, the outputs and the parents of all blocks, the existing
    nodes, the pending writes and the rest of the context are as they
    were. *)
Definition declared (c c' : fd3_compile_context) (b : block_id)
    (entries : list (Z * ir3_instruction)) : Prop :=
  instrs (ir c') = instrs (ir c) ++ map snd entries
  /\ rest_of c' = rest_of c
  /\ output_updates c' = output_updates c
  /\ (forall k e, entries !! k = Some e ->
        read_input c' b e.1 = Some (Some (length (instrs (ir c)) + k)%nat))
  /\ (forall b' n, b' <> b \/ n ∉ map fst entries ->
        read_input c' b' n = read_input c b' n)
  /\ (forall s, read_slot c' s = read_slot c s)
  /\ (forall b', Block.parent <$> blocks (ir c') !! b'
                 = Block.parent <$> blocks (ir c) !! b').

(** The [bary.f] instruction [decl_in] makes for one component of a
    fragment shader input: destination, input position, and the
    position pair [r0.xy] it is based on. *)
Definition bary_node (b : block_id) (num flags inloc : Z) (fp : option instr_id)
    : ir3_instruction :=
  Instr.set_regs
    [new_reg num flags;
     Reg.set_iim_val inloc (new_reg 0 IR3_REG_IMMED);
     Reg.set_instr fp (Reg.set_wrmask 3 (new_reg (regid 0 0) IR3_REG_SSA))]
    (new_instr b 2 OPC_BARY_F).

(** The input slots a declaration covers, each with the node [decl_in]
    makes for it: in a vertex shader an input node without producer; in
    a fragment shader the varying fetch of location
    [next_inloc + 4 * (i - First) + j - 8]. *)
Definition decl_in_node {S} (c : fd3_compile_context) (l : @fd3_linkage S)
    (decl : tgsi_full_declaration) (b : block_id) (i j : Z) : ir3_instruction :=
  match type c with
  | SHADER_VERTEX => input_node b None (i * 4 + j)
  | SHADER_FRAGMENT =>
      bary_node b (regid (i + base_reg c TGSI_FILE_INPUT) 0 + j)
        (if half_precision (so c) then IR3_REG_HALF else 0)
        (next_inloc l + 4 * (i - Range_First decl) + j - 8) (frag_pos l)
  end.

Definition decl_in_entries {S} (c : fd3_compile_context) (l : @fd3_linkage S)
    (decl : tgsi_full_declaration) (b : block_id) : list (Z * ir3_instruction) :=
  flat_map (fun i => map (fun j => (i * 4 + j, decl_in_node c l decl b i j)) chans)
    (range (Range_First decl) (Range_Last decl)).

(** The numbers of the input slots a declaration covers. *)
Definition decl_inputs (decl : tgsi_full_declaration) : list Z :=
  flat_map (fun i => map (fun j => i * 4 + j) chans)
    (range (Range_First decl) (Range_Last decl)).

(** [DCL IN[0], GENERIC[3]] *)
Definition ex_decl_in : tgsi_full_declaration :=
  mk_decl TGSI_FILE_INPUT true 0 0 TGSI_SEMANTIC_GENERIC 3.

(** The outermost block of a full-precision fragment shader with the
    registers of the example vertex shader, nothing lowered yet. *)
Definition ex_frag_init : fd3_compile_context :=
  (compile_init blank_ctx (blank_so SHADER_FRAGMENT) (mk_ir [] [])
     (mk_tokens (mk_info ex_file_max 0) TGSI_PARSE_OK SHADER_FRAGMENT)).2.

Definition ex_frag_top : fd3_compile_context := run_from push_block ex_frag_init.

(** The four words of an immediate token. *)
Definition words (u : Z * Z * Z * Z) : list Z :=
  let '(x, y, z, w) := u in [x; y; z; w].

(** The example vertex shader with one declared immediate. *)
Definition ex_imm_init : fd3_compile_context :=
  (compile_init blank_ctx (blank_so SHADER_VERTEX) (mk_ir [] [])
     (mk_tokens
        (mk_info (fun f => match f with
                           | TGSI_FILE_IMMEDIATE => 0
                           | _ => ex_file_max f
                           end) 0)
        TGSI_PARSE_OK SHADER_VERTEX)).2.

(** ** Fan-out *)

(** The collect node [add_dst_reg_wrmask] makes for component [i] of an
    instruction that writes several: a dummy destination and the
    instruction as its source. *)
Definition fo_node (b : block_id) (instr : instr_id) (i : Z) : ir3_instruction :=
  Instr.set_regs [new_reg 0 0; ssa_operand instr]
    (Instr.set_fo_off i (new_instr b (-1) OPC_META_FO)).

(** ** Imports across scopes *)

(** [held_from bs n b path w]: seen from block [b], the scopes hold [w]
    for temporary slot [n].  [w] is the value of the nearest block, from
    [b] up the parent links, that has written the slot or has imported it
    before (its input slot then holds what it imported); it is the value
    of the outermost block, possibly none, when there is no such block.
    [path] lists the scopes crossed on the way, nearest first: the blocks
    that have not written the slot, up to and including the first one
    that has imported it. *)
Inductive held_from (bs : list ir3_block) (n : Z)
    : block_id -> list block_id -> option instr_id -> Prop :=
| held_written b blk x :
    bs !! b = Some blk ->
    zlookup (Block.temporaries blk) n = Some (Some x) ->
    held_from bs n b [] (Some x)
| held_top b blk :
    bs !! b = Some blk ->
    Block.parent blk = None ->
    zlookup (Block.temporaries blk) n = Some None ->
    held_from bs n b [] None
| held_cached b blk p y :
    bs !! b = Some blk ->
    Block.parent blk = Some p ->
    zlookup (Block.temporaries blk) n = Some None ->
    zlookup (Block.inputs blk) n = Some (Some y) ->
    held_from bs n b [b] (Some y)
| held_up b blk p path w :
    bs !! b = Some blk ->
    Block.parent blk = Some p ->
    zlookup (Block.temporaries blk) n = Some None ->
    zlookup (Block.inputs blk) n = Some None ->
    held_from bs n p path w ->
    held_from bs n b (b :: path) w.

Definition held (bs : list ir3_block) (n : Z) (b : block_id)
    (w : option instr_id) : Prop :=
  exists path, held_from bs n b path w.

(** [chain arena n N path r w]: the nodes [N], [N + 1], ... of the arena
    [arena] are boundary nodes for slot [n], one per scope of [path], the
    outermost scope first; the first imports [w], each of the others
    imports the node before it, and [r] is the last of them ([r] is [w]
    when no scope is crossed). *)
Inductive chain (arena : list ir3_instruction) (n : Z) (N : nat)
    : list block_id -> option instr_id -> option instr_id -> Prop :=
| chain_nil w : chain arena n N [] w w
| chain_cons b path v w :
    arena !! (N + length path)%nat = Some (input_node b v n) ->
    chain arena n N path v w ->
    chain arena n N (b :: path) (Some (N + length path)%nat) w.

(** [imports N arena n v w]: [v] is [w], or a boundary node for slot [n],
    made at position [N] of the arena or later, that imports [w]
    directly or through other such nodes. *)
Inductive imports (N : nat) (arena : list ir3_instruction) (n : Z)
    : option instr_id -> option instr_id -> Prop :=
| imports_refl v : imports N arena n v v
| imports_step i b v w :
    (N <= i)%nat ->
    arena !! i = Some (input_node b v n) ->
    imports N arena n v w ->
    imports N arena n (Some i) w.

(** What a resolution of slot [n] may do to the input slots: a block of
    [c'] has the input slots it had in [c], or it is a nested block that
    had neither written nor imported slot [n], and its input slot [n] now
    holds a value that imports what the scopes held for it. *)
Definition caches (c c' : fd3_compile_context) (n : Z) : Prop :=
  forall q blk', blocks (ir c') !! q = Some blk' ->
    exists blk,
      blocks (ir c) !! q = Some blk
      /\ (Block.inputs blk' = Block.inputs blk
          \/ is_Some (Block.parent blk)
             /\ zlookup (Block.temporaries blk) n = Some None
             /\ zlookup (Block.inputs blk) n = Some None
             /\ exists v w,
                  Block.inputs blk' = <[Z.to_nat n := v]> (Block.inputs blk)
                  /\ held (blocks (ir c)) n q w
                  /\ imports (length (instrs (ir c))) (instrs (ir c')) n v w).

(** ** Immediates *)

(** The pattern of -4.0; it is [-val] on [uint32_t] for the pattern of
    1.0. *)
Definition fui_minus_4_0 : Z := 0xc0800000.

(** The example shader with the pattern of -4.0 as the only immediate of
    the pool. *)
Definition ex_pool_minus_4 : fd3_compile_context :=
  run_from (get_immediate fui_minus_4_0) ex_init.

(** ** What resolutions leave behind *)

(** A node the resolver makes: a boundary node, or the move of an
    immediate 0.0 that stands for an undefined value. *)
Definition resolver_node (ins : ir3_instruction) : Prop :=
  (exists b v n, ins = input_node b v n)
  \/ (exists b ty, ins = immed_node b ty 0).

(** [traced N c0 c]: what the scopes hold in [c] goes back to what they
    held in [c0], through boundary nodes made at position [N] or
    later. *)
Definition traced (N : nat) (c0 c : fd3_compile_context) : Prop :=
  forall b n w,
    held (blocks (ir c)) n b w ->
    exists w0,
      held (blocks (ir c0)) n b w0 /\ imports N (instrs (ir c)) n w w0.

(** The blocks without parent are as they were. *)
Definition tops_kept (c0 c : fd3_compile_context) : Prop :=
  forall b blk,
    blocks (ir c0) !! b = Some blk -> Block.parent blk = None ->
    blocks (ir c) !! b = Some blk.

(** [grows M c c']: from [c] to [c'] the resolver has worked: the nodes
    from position [M] on are nodes it made, what the scopes hold goes
    back to what they held, and the outermost blocks are untouched. *)
Definition grows (M : nat) (c c' : fd3_compile_context) : Prop :=
  (forall j, (M <= j < length (instrs (ir c')))%nat ->
     exists ins, instrs (ir c') !! j = Some ins /\ resolver_node ins)
  /\ traced M c c'
  /\ tops_kept c c'.

(** The move of 0.0 made at position [N] or later for an undefined
    value read in block [b]. *)
Definition new_immed (N : nat) (c0 c1 : fd3_compile_context) (b : block_id)
    (p : instr_id) : Prop :=
  (N <= p)%nat
  /\ instrs (ir c1) !! p = Some (immed_node b (get_ftype c0) 0).

(** [producer N c0 c1 s comp p]: [p] is the instruction a read of
    component [comp] of the register [s] refers to, when the read is
    resolved in the current block of [c0] and [c1] is a later state.
    - INPUT: the value of the slot in the outermost block, or a new move
      of 0.0 when it has none;
    - OUTPUT: the value of the slot in the current block;
    - TEMPORARY: the value of the slot in the current block when it has
      one; a new move of 0.0 when the block is the outermost one; in a
      nested block, a new boundary node of the block that imports, maybe
      through boundary nodes of the scopes crossed, what the scopes held
      for the slot.
    New nodes lie at position [N] or later. *)
Definition producer (N : nat) (c0 c1 : fd3_compile_context)
    (s : tgsi_src_register) (comp : Z) (p : instr_id) : Prop :=
  exists b,
    block c0 = Some b
    /\ let n := regid (Src.Index s) comp in
       match Src.File s with
       | TGSI_FILE_INPUT =>
           exists top v,
             outermost (blocks (ir c0)) b top
             /\ read_input c0 top n = Some v
             /\ match v with
                | Some x => p = x
                | None => new_immed N c0 c1 b p
                end
       | TGSI_FILE_OUTPUT =>
           read_slot c0 (mk_slot b SlotOutput n) = Some (Some p)
       | TGSI_FILE_TEMPORARY =>
           exists blk t,
             blocks (ir c0) !! b = Some blk
             /\ zlookup (Block.temporaries blk) n = Some t
             /\ match t, Block.parent blk with
                | Some x, _ => p = x
                | None, None => new_immed N c0 c1 b p
                | None, Some _ =>
                    exists v w,
                      (N <= p)%nat
                      /\ instrs (ir c1) !! p = Some (input_node b v n)
                      /\ imports N (instrs (ir c1)) n v w
                      /\ held (blocks (ir c0)) n b w
                end
       | _ => False
       end.

(** What the first part of [ssa_src] finds for a resolved file: the value
    [v] of the slot read, and the nodes [L] made on the way. *)
Definition found (N : nat) (c c2 : fd3_compile_context) (src : tgsi_src_register)
    (chan : Z) (v : option instr_id) (L : list ir3_instruction) : Prop :=
  exists b,
    block c = Some b
    /\ let n := regid (Src.Index src) chan in
       match Src.File src with
       | TGSI_FILE_INPUT =>
           L = []
           /\ exists top, outermost (blocks (ir c)) b top /\ read_input c top n = Some v
       | TGSI_FILE_OUTPUT =>
           L = [] /\ is_Some v /\ read_slot c (mk_slot b SlotOutput n) = Some v
       | TGSI_FILE_TEMPORARY =>
           exists blk t,
             blocks (ir c) !! b = Some blk
             /\ zlookup (Block.temporaries blk) n = Some t
             /\ match t, Block.parent blk with
                | Some x, _ => v = Some x /\ L = []
                | None, None => v = None /\ L = []
                | None, Some _ =>
                    exists p v' w,
                      v = Some p
                      /\ (N <= p)%nat
                      /\ instrs (ir c2) !! p = Some (input_node b v' n)
                      /\ imports N (instrs (ir c2)) n v' w
                      /\ held (blocks (ir c)) n b w
                end
       | _ => False
       end.

(** ** Vector expansion, per component *)

(** The component of its register the source [s] reads for the [m]-th
    destination component: the swizzle of the source for that
    component. *)
Definition selected (s : tgsi_src_register) (m : nat) : Z :=
  nth m [Src.SwizzleX s; Src.SwizzleY s; Src.SwizzleZ s; Src.SwizzleW s] 0.

(** The operand record [r] of the instruction of component [m], made
    for the argument [a] between [c] and [c']: an operand of a resolved
    file refers to the producer of the component the swizzle selects for
    [m]; an operand of another file names that component of its
    register. *)
Definition sourced (c c' : fd3_compile_context) (a : vararg) (m : nat)
    (r : ir3_register) : Prop :=
  match a with
  | ArgSrc s =>
      if ssa_file (Src.File s) then
        exists p,
          Reg.instr r = Some p
          /\ producer (length (instrs (ir c))) c c' s (selected s m) p
      else
        exists num, src_num c s = Some num /\ Reg.num r = regid num (selected s m)
  | ArgInt _ => True
  end.

(** ** Fan-in nodes *)

(** The positions the loop of [add_src_reg_wrmask] gives an entry of the
    fan-in node, in order: [true] for a position the mask selects, which
    gets an SSA reference, and [false] for a position the filler test
    gives a placeholder. *)
Definition fanin_positions (wrmask : Z) (ps : list Z) : list (Z * bool) :=
  flat_map (fun i => if has_flag wrmask (bit i) then [(i, true)]
                     else if filler_needed wrmask i then [(i, false)]
                     else []) ps.

(** Position [i] lies at or below a position the mask selects. *)
Definition covered (wrmask i : Z) : bool :=
  existsb (fun j => (i <=? j) && has_flag wrmask (bit j)) chans.

(** The entry [e] of a fan-in node for the position [x.1]: a reference
    to the producer of the component when the position is selected, a
    placeholder when it is not. *)
Definition fanin_entry (M : nat) (c c' : fd3_compile_context)
    (src : tgsi_src_register) (chan : Z) (x : Z * bool) (e : ir3_register)
    : Prop :=
  if x.2 then
    has_flag (Reg.flags e) IR3_REG_SSA = true
    /\ exists p, Reg.instr e = Some p /\ producer M c c' src (chan + x.1) p
  else e = new_reg 0 0.

(** A read of several components of [src], from component [chan] on,
    gathered between [c] and [c'] behind the operand [reg] of [instr]:
    the operand refers to a new fan-in node, made at the end of the
    arena, whose entries, after the unused destination, are those of the
    intended shape, position by position. *)
Definition fanin_gathered (instr : instr_id) (src : tgsi_src_register)
    (chan wrmask : Z) (c : fd3_compile_context) (reg : reg_ptr)
    (c' : fd3_compile_context) : Prop :=
  let collect := length (instrs (ir c)) in
  exists b r es,
    block c = Some b
    /\ reg.1 = instr
    /\ reg_at c' reg = Some r
    /\ Reg.wrmask r = wrmask
    /\ has_flag (Reg.flags r) IR3_REG_SSA = true
    /\ Reg.instr r = Some collect
    /\ instrs (ir c') !! collect
       = Some (Instr.set_regs (new_reg 0 0 :: es) (new_instr b (-1) OPC_META_FI))
    /\ Forall2 (fanin_entry (S collect) c c' src chan)
         (imap (fun i sel => (Z.of_nat i, sel)) (intended_fanin wrmask)) es
    /\ operand_shape (Instr.set_regs (new_reg 0 0 :: es) (new_instr b (-1) OPC_META_FI))
       = intended_fanin wrmask
    /\ (forall j, (S collect <= j < length (instrs (ir c')))%nat ->
          exists ins, instrs (ir c') !! j = Some ins /\ resolver_node ins)
    /\ (forall k, (k < collect)%nat -> k <> instr ->
          instrs (ir c') !! k = instrs (ir c) !! k).

(** A sample instruction that has no operand yet, after
    TEMP[0] := CONST[0]. *)
Definition ex_sam_pre : fd3_compile_context :=
  run_from (lower [MOV_ (TEMP_dst 0 15) (CONST 0)] ;;; instr_create 5 OPC_SAM)
    ex_init.

(** TEX TEMP[1], TEMP[0], SAMP[0], 2D, and its row of [translaters]. *)
Definition SAMP (i : Z) : tgsi_src_register :=
  Src.mk TGSI_FILE_SAMPLER false false i false false 0 1 2 3.
Definition ex_tex : tgsi_full_instruction :=
  INST TGSI_OPCODE_TEX (TEMP_dst 1 15) [TEMP 0; SAMP 0].
Definition ex_tex_t : instr_translater :=
  mk_t TGSI_OPCODE_TEX OPC_SAM 0 TGSI_OPCODE_TEX.
Definition ex_tex_pre : fd3_compile_context :=
  run_from (lower [MOV_ (TEMP_dst 0 15) (CONST 0)]) ex_init.
(** * Properties *)

(** ** Reasoning in the monad *)

Lemma bind_Done {A B} (m : M A) (k : A -> M B) c r :
  bind m k c = Done r ->
  exists a c1, m c = Done (a, c1) /\ k a c1 = Done r.
Proof.
  unfold bind. destruct (m c) as [[a c1]| |]; try discriminate.
  intros H. eauto.
Qed.

Lemma bind_Done_intro {A B} (m : M A) (k : A -> M B) c a c1 :
  m c = Done (a, c1) -> bind m k c = k a c1.
Proof. unfold bind. intros ->. reflexivity. Qed.

Lemma deref_Done {A} (o : option A) c r :
  deref o c = Done r -> exists a, o = Some a /\ r = (a, c).
Proof. destruct o; simpl; [intros [= <-]; eauto | discriminate]. Qed.

Lemma compile_assert_Done b c r :
  compile_assert b c = Done r -> b = true /\ r = (tt, c).
Proof. destruct b; simpl; [intros [= <-]; eauto | discriminate]. Qed.

Lemma ret_Done {A} (a : A) c r : ret a c = Done r -> r = (a, c).
Proof. by intros [= <-]. Qed.

Lemma get_Done c r : get c = Done r -> r = (c, c).
Proof. by intros [= <-]. Qed.

Lemma modify_Done f c r : modify f c = Done r -> r = (tt, f c).
Proof. by intros [= <-]. Qed.

Lemma get_block_Done b c r :
  get_block b c = Done r -> exists blk, blocks (ir c) !! b = Some blk /\ r = (blk, c).
Proof.
  unfold get_block, bind, get. simpl.
  destruct (blocks (ir c) !! b); simpl; [intros [= <-]; eauto | discriminate].
Qed.

Lemma get_instr_Done i c r :
  get_instr i c = Done r -> exists ins, instrs (ir c) !! i = Some ins /\ r = (ins, c).
Proof.
  unfold get_instr, bind, get. simpl.
  destruct (instrs (ir c) !! i); simpl; [intros [= <-]; eauto | discriminate].
Qed.

(** Split a successful run into the runs of its steps. *)
Ltac minv1 :=
  match goal with
  | H : bind _ _ _ = Done _ |- _ =>
      let H1 := fresh "Hrun" in
      apply bind_Done in H; destruct H as (? & ? & H1 & H)
  | H : deref _ _ = Done _ |- _ =>
      let E := fresh "Hderef" in
      apply deref_Done in H; destruct H as (? & E & H);
      first [injection H as <- <- | injection H as -> ->
            | injection H as <- -> | injection H as -> <-]
  | H : compile_assert _ _ = Done _ |- _ =>
      let E := fresh "Hassert" in
      apply compile_assert_Done in H; destruct H as (E & H);
      first [injection H as <- <- | injection H as -> ->
            | injection H as <- -> | injection H as -> <-]
  | H : ret _ _ = Done _ |- _ =>
      apply ret_Done in H;
      first [injection H as <- <- | injection H as -> ->
            | injection H as <- -> | injection H as -> <-]
  | H : get _ = Done _ |- _ =>
      apply get_Done in H;
      first [injection H as <- <- | injection H as -> ->
            | injection H as <- -> | injection H as -> <-]
  | H : modify _ _ = Done _ |- _ =>
      apply modify_Done in H;
      first [injection H as <- <- | injection H as -> ->
            | injection H as <- -> | injection H as -> <-]
  | H : get_instr _ _ = Done _ |- _ =>
      let E := fresh "Hinstr" in
      apply get_instr_Done in H; destruct H as (? & E & H);
      first [injection H as <- <- | injection H as -> ->
            | injection H as <- -> | injection H as -> <-]
  | H : get_block _ _ = Done _ |- _ =>
      let E := fresh "Hblock" in
      apply get_block_Done in H; destruct H as (? & E & H);
      first [injection H as <- <- | injection H as -> ->
            | injection H as <- -> | injection H as -> <-]
  | H : Done _ = Done _ |- _ =>
      first [injection H as <- <- | injection H as -> ->
            | injection H as <- -> | injection H as -> <-
            | injection H as <- | injection H as ->]
  | H : fault _ = Done _ |- _ => discriminate H
  | H : compile_error _ = Done _ |- _ => discriminate H
  | H : CompileError = Done _ |- _ => discriminate H
  | H : Fault = Done _ |- _ => discriminate H
  end.

Ltac minv := repeat minv1.

(** The primitive accesses, run on a state where they succeed. *)

Lemma run_get_block b c blk :
  blocks (ir c) !! b = Some blk -> get_block b c = Done (blk, c).
Proof. unfold get_block, bind, get. simpl. by intros ->. Qed.

Lemma run_update_block b f c blk :
  blocks (ir c) !! b = Some blk ->
  update_block b f c = Done (tt, set_blocks (<[b := f blk]> (blocks (ir c))) c).
Proof. intros H. unfold update_block. by rewrite (bind_Done_intro _ _ _ _ _ (run_get_block _ _ _ H)). Qed.

Lemma run_get_instr i c ins :
  instrs (ir c) !! i = Some ins -> get_instr i c = Done (ins, c).
Proof. unfold get_instr, bind, get. simpl. by intros ->. Qed.

Lemma run_update_instr i f c ins :
  instrs (ir c) !! i = Some ins ->
  update_instr i f c = Done (tt, set_instrs (<[i := f ins]> (instrs (ir c))) c).
Proof. intros H. unfold update_instr. by rewrite (bind_Done_intro _ _ _ _ _ (run_get_instr _ _ _ H)). Qed.

(** ** Arrays *)

Lemma in_range_lt {A} n (arr : list A) :
  in_range n arr = true <-> 0 <= n /\ (Z.to_nat n < length arr)%nat.
Proof. unfold in_range. rewrite andb_true_iff, Z.leb_le, Z.ltb_lt. lia. Qed.

Lemma zinsert_in_range {A} n (v : A) arr :
  in_range n arr = true -> zinsert n v arr = Some (<[Z.to_nat n := v]> arr).
Proof. unfold zinsert, in_range. intros ->. reflexivity. Qed.

Lemma zinsert_Some {A} n (v : A) arr arr' :
  zinsert n v arr = Some arr' ->
  in_range n arr = true /\ arr' = <[Z.to_nat n := v]> arr.
Proof.
  unfold zinsert, in_range.
  destruct (_ && _); [intros [= <-]; auto | discriminate].
Qed.

Lemma zlookup_insert_eq {A} n (v : A) arr :
  in_range n arr = true -> zlookup (<[Z.to_nat n := v]> arr) n = Some v.
Proof.
  intros H. apply in_range_lt in H as [H0 H1]. unfold zlookup.
  destruct (Z.ltb_spec n 0); [lia|]. by apply list_lookup_insert_eq.
Qed.

Lemma zlookup_insert_ne {A} n m (v : A) arr :
  0 <= n -> n <> m -> zlookup (<[Z.to_nat n := v]> arr) m = zlookup arr m.
Proof.
  intros H0 Hne. unfold zlookup.
  destruct (Z.ltb_spec m 0); [done|]. apply list_lookup_insert_ne. lia.
Qed.

Lemma zlookup_in_range {A} n (arr : list A) :
  is_Some (zlookup arr n) <-> in_range n arr = true.
Proof.
  unfold zlookup. rewrite in_range_lt. destruct (Z.ltb_spec n 0).
  - split; [intros [? [=]] | lia].
  - rewrite lookup_lt_is_Some. split; [auto | tauto].
Qed.

Lemma in_range_insert {A} n m (v : A) arr :
  in_range m (<[n := v]> arr) = in_range m arr.
Proof. unfold in_range. by rewrite length_insert. Qed.

(** ** The deferred-write queue *)

Lemma same_but_blocks_refl c : same_but_blocks c c.
Proof. exists (blocks (ir c)). by destruct c as [[]]. Qed.

Lemma same_but_blocks_trans c1 c2 c3 :
  same_but_blocks c1 c2 -> same_but_blocks c2 c3 -> same_but_blocks c1 c3.
Proof. intros [bs1 ->] [bs2 ->]. by exists bs2. Qed.

Lemma store_slot_spec s v c :
  is_Some (read_slot c s) ->
  exists c', store_slot s v c = Done (tt, c')
    /\ same_but_blocks c c'
    /\ read_slot c' s = Some v
    /\ (forall s', s' <> s -> read_slot c' s' = read_slot c s').
Proof.
  unfold read_slot, store_slot. destruct s as [b k n]; simpl.
  destruct (blocks (ir c) !! b) as [blk|] eqn:Hb; [|intros [? [=]]].
  assert (Hlt : (b < length (blocks (ir c)))%nat) by (eapply lookup_lt_Some; eauto).
  rewrite (bind_Done_intro _ _ _ _ _ (run_get_block _ _ _ Hb)).
  intros Hs.
  destruct k; apply zlookup_in_range in Hs.
  all: rewrite (bind_Done_intro _ _ _ _ _
               (f_equal (fun o => deref o c) (zinsert_in_range n v _ Hs))).
  all: rewrite (run_update_block _ _ _ _ Hb).
  all: eexists; split; [reflexivity|].
  all: split; [eexists; reflexivity|].
  all: simpl; split;
    [rewrite list_lookup_insert_eq by done; simpl; by apply zlookup_insert_eq|].
  all: intros [b' k' n'] Hne; simpl.
  all: destruct (decide (b' = b)) as [->|Hb'];
     [rewrite list_lookup_insert_eq by done; rewrite Hb; simpl
     |by rewrite list_lookup_insert_ne by done].
  all: destruct k'; try reflexivity.
  all: apply zlookup_insert_ne; [apply in_range_lt in Hs; lia | congruence].
Qed.

Lemma flush_spec q : forall c,
  (forall u, u ∈ q -> is_Some (read_slot c (upd_instrp u))) ->
  exists c',
    forM q (fun u => store_slot (upd_instrp u) (Some (upd_instr u))) c = Done (tt, c')
    /\ same_but_blocks c c'
    /\ (forall s, is_Some (read_slot c s) ->
          read_slot c' s = match queued q s with
                           | Some i => Some (Some i)
                           | None => read_slot c s
                           end).
Proof.
  induction q as [|u q IH]; intros c Hq; simpl.
  - exists c. split; [done|]. split; [apply same_but_blocks_refl | done].
  - destruct (store_slot_spec (upd_instrp u) (Some (upd_instr u)) c)
      as (c1 & Hst & Hsame & Heq & Hne).
    { apply Hq. left. }
    assert (Hvalid : forall s, is_Some (read_slot c s) -> is_Some (read_slot c1 s)).
    { intros s Hs. destruct (decide (s = upd_instrp u)) as [->|Hd].
      - rewrite Heq. eauto.
      - by rewrite Hne. }
    destruct (IH c1) as (c' & Hrun & Hsame' & Hread).
    { intros u' Hu'. apply Hvalid, Hq. by right. }
    exists c'. split; [by rewrite (bind_Done_intro _ _ _ _ _ Hst)|].
    split; [eapply same_but_blocks_trans; eauto|].
    intros s Hs. rewrite (Hread s (Hvalid s Hs)).
    destruct (queued q s); [done|].
    destruct (decide (upd_instrp u = s)) as [<-|Hd]; [done|].
    apply Hne. congruence.
Qed.

Lemma ir3_instr_create_Done b category opc c r :
  ir3_instr_create b category opc c = Done r ->
  r = (length (instrs (ir c)),
       set_instrs (instrs (ir c) ++ [new_instr b category opc]) c).
Proof. by intros [= <-]. Qed.

Lemma instr_finish_atomic c : atomic c = true -> instr_finish c = Done (tt, c).
Proof. unfold instr_finish, bind, get. simpl. by intros ->. Qed.

Lemma instr_create_atomic category opc c i c' :
  atomic c = true ->
  instr_create category opc c = Done (i, c') ->
  i = length (instrs (ir c))
  /\ c' = set_current_instr (Some i)
            (set_instrs (instrs (ir c) ++
               [new_instr (default O (block c)) category opc]) c).
Proof.
  intros Hat H. unfold instr_create in H.
  rewrite (bind_Done_intro _ _ _ _ _ (instr_finish_atomic c Hat)) in H.
  minv. apply ir3_instr_create_Done in Hrun1 as [= -> ->].
  rewrite Hderef. done.
Qed.

Lemma instr_clone_atomic t c i c' :
  atomic c = true ->
  instr_clone t c = Done (i, c') ->
  exists ins, instrs (ir c) !! t = Some ins
  /\ i = length (instrs (ir c))
  /\ c' = set_current_instr (Some i) (set_instrs (instrs (ir c) ++ [ins]) c).
Proof.
  intros Hat H. unfold instr_clone in H.
  rewrite (bind_Done_intro _ _ _ _ _ (instr_finish_atomic c Hat)) in H.
  unfold ir3_instr_clone in H. minv. eauto.
Qed.

(** C3.  While an atomic group is open, [instr_finish] changes nothing,
    and [instr_create] and [instr_clone], which call it first, leave the
    deferred-write queue and every block's slots as they were: a source
    resolved inside the group sees the values from before the group.
    [instr_atomic_end] closes the group, stores every queued write into its
    slot (the last write to a slot wins), touches no other slot and leaves
    the queue empty. *)
Theorem atomic_group_defers_then_commits (c : fd3_compile_context) :
  (atomic c = true ->
     instr_finish c = Done (tt, c)
     /\ (forall category opc i c',
           instr_create category opc c = Done (i, c') ->
           atomic c' = true
           /\ output_updates c' = output_updates c
           /\ blocks (ir c') = blocks (ir c))
     /\ (forall t i c',
           instr_clone t c = Done (i, c') ->
           atomic c' = true
           /\ output_updates c' = output_updates c
           /\ blocks (ir c') = blocks (ir c)))
  /\ ((forall u, u ∈ output_updates c -> is_Some (read_slot c (upd_instrp u))) ->
      exists c',
        instr_atomic_end c = Done (tt, c')
        /\ atomic c' = false
        /\ output_updates c' = []
        /\ instrs (ir c') = instrs (ir c)
        /\ (forall s, is_Some (read_slot c s) ->
              read_slot c' s = match queued (output_updates c) s with
                               | Some i => Some (Some i)
                               | None => read_slot c s
                               end)).
Proof.
  split.
  - intros Hat. split; [by apply instr_finish_atomic|]. split.
    + intros category opc i c' H.
      apply (instr_create_atomic _ _ _ _ _ Hat) in H as [-> ->]. by simpl.
    + intros t i c' H.
      apply (instr_clone_atomic _ _ _ _ Hat) in H as (ins & _ & -> & ->). by simpl.
  - intros Hq.
    destruct (flush_spec (output_updates c) (set_atomic false c))
      as (c1 & Hrun & [bs ->] & Hread); [exact Hq|].
    exists (set_output_updates [] (set_blocks bs (set_atomic false c))).
    split; [|split; [done|split; [done|split; [done|]]]].
    + unfold instr_atomic_end, instr_finish.
      unfold bind at 1, modify at 1. unfold bind at 1, get at 1. simpl.
      by rewrite (bind_Done_intro _ _ _ _ _ Hrun).
    + intros s Hs. exact (Hread s Hs).
Qed.

(** ** Base offsets *)

Lemma u32_small x : 0 <= x < 2^32 -> u32 x = x.
Proof. intros. unfold u32. by apply Z.mod_small. Qed.

(** C5, as stated, fails: in a vertex shader with one constant and one
    input, register 0 lies both in the range of the constants and in the
    range of the inputs (they are numbered in different banks). *)
Lemma compile_init_constant_input_overlap :
  (compile_init blank_ctx (blank_so SHADER_VERTEX) (mk_ir [] []) ex_tokens).1
    = TGSI_PARSE_OK
  /\ in_file_range ex_init TGSI_FILE_CONSTANT 0
  /\ in_file_range ex_init TGSI_FILE_INPUT 0.
Proof. vm_compute. intuition discriminate. Qed.

(** C5, amended.  When the scan reports no indirect addressing on the
    five relocated files, [compile_init] numbers the constant bank from 0
    with the immediates right after the last constant, and the general
    registers from the reserved prefix (one register exactly for a
    fragment shader in full precision): inputs, then outputs right after
    the last input, then temporaries right after the last output.  The
    ranges of constants and immediates are disjoint, and the ranges of
    inputs, outputs and temporaries are disjoint from each other and lie
    above the reserved prefix. *)
Theorem compile_init_base_offsets ctx so0 ir0 tokens :
  (forall f, -1 <= file_max (scan tokens) f < 2^15) ->
  Z.land (indirect_files (scan tokens)) relocated_files = 0 ->
  let c := (compile_init ctx so0 ir0 tokens).2 in
  let fm := file_max (scan tokens) in
  let base := reserved_prefix so0 in
  (compile_init ctx so0 ir0 tokens).1 = parse_init tokens
  /\ info c = scan tokens
  /\ (base = 1 <-> so_type so0 = SHADER_FRAGMENT /\ half_precision so0 = false)
  /\ (base = 0 \/ base = 1)
  /\ base_reg c TGSI_FILE_CONSTANT = 0
  /\ base_reg c TGSI_FILE_IMMEDIATE = fm TGSI_FILE_CONSTANT + 1
  /\ base_reg c TGSI_FILE_INPUT = base
  /\ base_reg c TGSI_FILE_OUTPUT = base + fm TGSI_FILE_INPUT + 1
  /\ base_reg c TGSI_FILE_TEMPORARY =
       base + fm TGSI_FILE_INPUT + 1 + fm TGSI_FILE_OUTPUT + 1
  /\ (forall r, in_file_range c TGSI_FILE_CONSTANT r ->
                in_file_range c TGSI_FILE_IMMEDIATE r -> False)
  /\ (forall f g r, gpr_file f -> gpr_file g -> f <> g ->
                    in_file_range c f r -> in_file_range c g r -> False)
  /\ (forall f r, gpr_file f -> in_file_range c f r -> base <= r).
Proof.
  intros Hfm Hind c fm base.
  assert (Hbase : base = 0 \/ base = 1).
  { subst base. unfold reserved_prefix. destruct (so_type so0), (half_precision so0); auto. }
  pose proof (Hfm TGSI_FILE_CONSTANT) as Hc.
  pose proof (Hfm TGSI_FILE_INPUT) as Hi.
  pose proof (Hfm TGSI_FILE_OUTPUT) as Ho.
  pose proof (Hfm TGSI_FILE_TEMPORARY) as Ht.
  pose proof (Hfm TGSI_FILE_IMMEDIATE) as Him.
  assert (Hpow : 2^15 = 32768 /\ 2^32 = 4294967296) by (split; reflexivity).
  assert (Hinfo : info c = scan tokens /\
            (compile_init ctx so0 ir0 tokens).1 = parse_init tokens /\
            base_reg c = fun f =>
              match f with
              | TGSI_FILE_CONSTANT => 0
              | TGSI_FILE_IMMEDIATE => u32 (fm TGSI_FILE_CONSTANT + 1)
              | TGSI_FILE_INPUT => base
              | TGSI_FILE_OUTPUT => u32 (base + fm TGSI_FILE_INPUT + 1)
              | TGSI_FILE_TEMPORARY =>
                  u32 (base + fm TGSI_FILE_INPUT + 1 + fm TGSI_FILE_OUTPUT + 1)
              | _ => 0
              end).
  { subst c. unfold compile_init. rewrite Hind. simpl.
    destruct (parse_init tokens =? TGSI_PARSE_OK); simpl; auto. }
  destruct Hinfo as (Hinfo & Hret & Hbr).
  assert (HI : base_reg c TGSI_FILE_IMMEDIATE = fm TGSI_FILE_CONSTANT + 1).
  { rewrite Hbr. apply u32_small. fold fm in Hc. lia. }
  assert (HO : base_reg c TGSI_FILE_OUTPUT = base + fm TGSI_FILE_INPUT + 1).
  { rewrite Hbr. apply u32_small. fold fm in Hi. lia. }
  assert (HT : base_reg c TGSI_FILE_TEMPORARY =
               base + fm TGSI_FILE_INPUT + 1 + fm TGSI_FILE_OUTPUT + 1).
  { rewrite Hbr. apply u32_small. fold fm in Hi, Ho. lia. }
  assert (HC : base_reg c TGSI_FILE_CONSTANT = 0) by (by rewrite Hbr).
  assert (HIn : base_reg c TGSI_FILE_INPUT = base) by (by rewrite Hbr).
  split; [done|]. split; [done|]. split.
  { subst base. unfold reserved_prefix.
    destruct (so_type so0), (half_precision so0); intuition discriminate. }
  split; [done|]. do 5 (split; [done|]).
  unfold in_file_range. rewrite Hinfo. fold fm.
  split; [|split].
  - intros r. rewrite HC, HI. lia.
  - intros f g r [-> | [-> | ->]] [-> | [-> | ->]] Hne; try done;
      rewrite ?HIn, ?HO, ?HT; fold fm in Hi, Ho, Ht; lia.
  - intros f r [-> | [-> | ->]]; rewrite ?HIn, ?HO, ?HT; fold fm in Hi, Ho, Ht; lia.
Qed.

(** The example shader is an instance: a vertex shader, no reserved
    prefix, outputs at r1, temporaries from r2. *)
Lemma compile_init_base_offsets_example :
  base_reg ex_init TGSI_FILE_IMMEDIATE = 1
  /\ base_reg ex_init TGSI_FILE_OUTPUT = 1
  /\ base_reg ex_init TGSI_FILE_TEMPORARY = 2.
Proof.
  assert (Hfm : forall f, -1 <= file_max (scan ex_tokens) f < 2^15).
  { intros []; vm_compute; intuition discriminate. }
  destruct (compile_init_base_offsets blank_ctx (blank_so SHADER_VERTEX) (mk_ir [] [])
              ex_tokens Hfm eq_refl)
    as (_ & _ & _ & _ & _ & HI & _ & HO & HT & _).
  exact (conj HI (conj HO HT)).
Defined.

(** ** Immediates *)

(** C8, on the code.  The pool is empty; 1.0 is requested, then -1.0.
    The second request does not find the slot of 1.0: [get_immediate]
    compares with [-val] computed on the 32-bit pattern, which for 1.0 is
    the pattern of -4.0.  It takes a second slot and no reference is
    flagged negate. *)
Lemma get_immediate_sign_not_folded :
  fui_minus_1_0 = fneg_bits fui_1_0
  /\ neg32 fui_1_0 = 0xc0800000
  /\ immediate_idx ex_init = 0
  /\ (let r := value_of (blank_src, blank_src) (ex_two_immediates ex_init) in
      let c := run_from ex_two_immediates ex_init in
      ex_two_immediates ex_init = Done (r, c)
      /\ (Src.Index r.1, Src.SwizzleX r.1, Src.Negate r.1) = (0, 0, false)
      /\ (Src.Index r.2, Src.SwizzleX r.2, Src.Negate r.2) = (0, 1, false)
      /\ immediate_idx c = 2
      /\ take 2 (immediates (so c)) = [fui_1_0; fui_minus_1_0]).
Proof. vm_compute. repeat split; reflexivity. Qed.

(** ** The branch stack *)

Lemma push_branch_never_reports instr c : push_branch instr c <> CompileError.
Proof.
  unfold push_branch, bind, get, deref, modify. simpl.
  destruct (zinsert _ _ _); simpl; discriminate.
Qed.

(** C9, on the code.  [push_branch] has no test against the sixteen
    entries of [ctx->branch]: it never reports a compile error, sixteen
    nested IFs fill the array, and the seventeenth stores past its end. *)
Lemma push_branch_unchecked :
  (forall instr c, push_branch instr c <> CompileError)
  /\ (let ifs := lower (replicate 16 (IF_ (TEMP 0))) in
      let c := run_from ifs ex_init in
      ifs ex_init = Done (tt, c)
      /\ branch_count c = 16
      /\ length (branch c) = 16%nat
      /\ compile_instruction (IF_ (TEMP 0)) c = Fault).
Proof.
  split; [exact push_branch_never_reports|].
  vm_compute. repeat split; reflexivity.
Qed.

(** ** Fan-in nodes *)

(** The filler test never asks for a placeholder at position 0. *)
Lemma filler_needed_0 wrmask : filler_needed wrmask 0 = false.
Proof.
  unfold filler_needed. change (not32 (sub32 (Z.shiftl 0 0) 1)) with 0.
  by rewrite Z.land_0_r.
Qed.

(** The test leaves position 0 without a placeholder whatever the mask:
    a read of TEMP[0].yz (mask 0110), a mask no call passes, would
    build a fan-in node with two sources, both SSA references, where the
    intended shape has three entries.  With position 0 selected (mask
    1101) the code and the intended shape agree. *)
Lemma fanin_no_placeholder_at_0 :
  (forall wrmask, filler_needed wrmask 0 = false)
  /\ intended_fanin 6 = [false; true; true]
  /\ fanin_of 6 = Some [true; true]
  /\ intended_fanin 13 = [true; false; true; true]
  /\ fanin_of 13 = Some [true; false; true; true].
Proof.
  split; [exact filler_needed_0|].
  vm_compute. repeat split; reflexivity.
Qed.

(** ** Conditionals *)

(** C1, on the code.  TEMP[1].x is written in the "then" branch only and
    the conditional has an (empty) ELSE.  [trans_endif] sizes [elseout] by
    the slots the else block wrote, none here, and then stores the else
    side of the merged slot into [elseout[0]]: a store past the end of the
    array.  Without the ELSE the same conditional is closed and the slot
    holds a PHI. *)
Lemma trans_endif_overruns_elseout :
  (let c := run_from (lower ex_then_only) ex_init in
   lower ex_then_only ex_init = Done (tt, c)
   /\ block c = Some 2%nat
   /\ Block.parent <$> blocks (ir c) !! 1%nat = Some (Some 0%nat)
   /\ Block.parent <$> blocks (ir c) !! 2%nat = Some (Some 0%nat)
   /\ read_slot c (mk_slot 1%nat SlotTemporary 4) = Some (Some 4%nat)
   /\ count_written <$> (Block.temporaries <$> blocks (ir c) !! 2%nat) = Some 0%nat
   /\ compile_instruction ENDIF_ c = Fault)
  /\ (let m := lower [MOV_ (TEMP_dst 0 1) (CONST 0); IF_ (TEMP 0);
                      MOV_ (TEMP_dst 1 1) (CONST 0); ENDIF_] in
      let c := run_from m ex_init in
      m ex_init = Done (tt, c)
      /\ (read_slot c (mk_slot 0%nat SlotTemporary 4) ≫= fun o => o ≫= kind_of c)
           = Some (-1, OPC_META_PHI)).
Proof. vm_compute. repeat split; reflexivity. Qed.

(** ** The arena, step by step *)

Lemma lookup_snoc {A} (l : list A) x : (l ++ [x]) !! length l = Some x.
Proof. by apply list_lookup_middle. Qed.

Lemma insert_snoc {A} (l : list A) x y : <[length l := y]> (l ++ [x]) = l ++ [y].
Proof.
  replace (length l) with (length l + 0)%nat by lia. by rewrite insert_app_r.
Qed.

Lemma update_instr_eq i f c :
  update_instr i f c =
  match instrs (ir c) !! i with
  | Some ins => Done (tt, set_instrs (<[i := f ins]> (instrs (ir c))) c)
  | None => Fault
  end.
Proof.
  unfold update_instr, get_instr, bind, get, deref, modify. simpl.
  by destruct (instrs (ir c) !! i).
Qed.

Lemma get_reg_eq p c :
  get_reg p c =
  match instrs (ir c) !! p.1 ≫= (fun ins => Instr.regs ins !! p.2) with
  | Some r => Done (r, c)
  | None => Fault
  end.
Proof.
  unfold get_reg, get_instr, bind, get, deref. simpl.
  destruct (instrs (ir c) !! p.1) as [ins|]; simpl; [|done].
  by destruct (Instr.regs ins !! p.2).
Qed.

Lemma update_reg_eq p f c :
  update_reg p f c =
  match instrs (ir c) !! p.1 with
  | Some ins =>
      match Instr.regs ins !! p.2 with
      | Some r =>
          Done (tt, set_instrs
                      (<[p.1 := Instr.set_regs (<[p.2 := f r]> (Instr.regs ins)) ins]>
                         (instrs (ir c))) c)
      | None => Fault
      end
  | None => Fault
  end.
Proof.
  unfold update_reg, get_instr, bind, get, deref, modify. simpl.
  destruct (instrs (ir c) !! p.1) as [ins|]; simpl; [|done].
  by destruct (Instr.regs ins !! p.2).
Qed.

Lemma ir3_reg_create_eq i num flags c :
  ir3_reg_create i num flags c =
  match instrs (ir c) !! i with
  | Some ins =>
      Done ((i, length (Instr.regs ins)),
            set_instrs (<[i := Instr.set_regs (Instr.regs ins ++ [new_reg num flags]) ins]>
                          (instrs (ir c))) c)
  | None => Fault
  end.
Proof.
  unfold ir3_reg_create, bind at 1, get_instr, bind at 1, get, deref. simpl.
  destruct (instrs (ir c) !! i) as [ins|] eqn:E; simpl; [|done].
  unfold bind. rewrite update_instr_eq, E. done.
Qed.

Lemma get_block_eq b c :
  get_block b c =
  match blocks (ir c) !! b with Some blk => Done (blk, c) | None => Fault end.
Proof. unfold get_block, bind, get, deref. simpl. by destruct (_ !! _). Qed.

Lemma update_block_eq b f c :
  update_block b f c =
  match blocks (ir c) !! b with
  | Some blk => Done (tt, set_blocks (<[b := f blk]> (blocks (ir c))) c)
  | None => Fault
  end.
Proof.
  unfold update_block, bind. rewrite get_block_eq.
  by destruct (blocks (ir c) !! b).
Qed.

(** Simplify a run through the primitives. *)
Ltac mrun :=
  repeat first
    [ progress (unfold bind at 1)
    | rewrite update_instr_eq | rewrite update_reg_eq | rewrite ir3_reg_create_eq
    | rewrite get_reg_eq | rewrite get_block_eq | rewrite update_block_eq
    | rewrite lookup_snoc | rewrite insert_snoc
    | progress (unfold ret, get, gets, modify, fault, compile_error, ir3_instr_create)
    | progress (cbn [deref compile_assert fst snd ir instrs blocks
                     set_instrs set_blocks set_ir set_current_instr set_output_updates
                     set_atomic block atomic output_updates so info base_reg
                     Instr.regs Instr.set_regs mbind option_bind]) ].

(** Unfold the sequencing and reduce what is decided. *)
Ltac msimp :=
  repeat first
    [ progress (unfold bind at 1)
    | progress (unfold ret, get, gets, modify, fault, compile_error, ir3_instr_create)
    | progress (cbn [deref compile_assert fst snd ir instrs blocks
                     set_instrs set_blocks set_ir set_current_instr set_output_updates
                     set_atomic block atomic output_updates so info base_reg
                     Instr.regs Instr.set_regs mbind option_bind]) ].

(** Reduce what is decided; open the next step of a sequence. *)
Lemma ret_run {A} (a : A) c : ret a c = Done (a, c).
Proof. reflexivity. Qed.
Lemma get_run c : get c = Done (c, c).
Proof. reflexivity. Qed.
Lemma gets_run {A} (f : fd3_compile_context -> A) c : gets f c = Done (f c, c).
Proof. reflexivity. Qed.
Lemma modify_run f c : modify f c = Done (tt, f c).
Proof. reflexivity. Qed.
Lemma fault_run {A} c : @fault A c = Fault.
Proof. reflexivity. Qed.
Lemma compile_error_run {A} c : @compile_error A c = CompileError.
Proof. reflexivity. Qed.
Lemma ir3_instr_create_run b category opc c :
  ir3_instr_create b category opc c =
  Done (length (instrs (ir c)),
        set_instrs (instrs (ir c) ++ [new_instr b category opc]) c).
Proof. reflexivity. Qed.

Ltac mred :=
  repeat first
    [ rewrite ret_run | rewrite get_run | rewrite gets_run | rewrite modify_run
    | rewrite fault_run | rewrite compile_error_run | rewrite ir3_instr_create_run
    | progress (cbn [deref compile_assert fst snd ir instrs blocks
                     set_instrs set_blocks set_ir set_current_instr set_output_updates
                     set_atomic block atomic output_updates so info base_reg
                     Instr.regs Instr.set_regs mbind option_bind]) ].

Ltac mstep := unfold bind at 1; mred.

Lemma create_immed_eq val c :
  create_immed val c =
  match block c with
  | Some b =>
      Done (length (instrs (ir c)),
            set_instrs (instrs (ir c) ++ [immed_node b (get_ftype c) val]) c)
  | None => Fault
  end.
Proof.
  unfold create_immed. mrun. destruct (block c) as [b|]; [|reflexivity].
  mrun. reflexivity.
Qed.

Lemma create_input_eq b v n c :
  create_input b v n c =
  Done (length (instrs (ir c)), set_instrs (instrs (ir c) ++ [input_node b v n]) c).
Proof. unfold create_input. mrun. destruct v; mrun; reflexivity. Qed.

Lemma create_output_eq b v n c :
  create_output b v n c =
  Done (length (instrs (ir c)), set_instrs (instrs (ir c) ++ [output_node b v n]) c).
Proof. unfold create_output. mrun. destruct v; mrun; reflexivity. Qed.

(** [block_input] only reads. *)
Lemma block_input_rec_pure fuel : forall b n c r c',
  block_input_rec fuel b n c = Done (r, c') -> c' = c.
Proof.
  induction fuel as [|fuel IH]; intros b n c r c' H; simpl in H.
  - unfold bind in H. rewrite get_block_eq in H.
    destruct (blocks (ir c) !! b) as [blk|]; [|done].
    destruct (Block.parent blk); [done|].
    destruct (zlookup _ _); simpl in H; [|done]. by injection H as _ <-.
  - unfold bind in H. rewrite get_block_eq in H.
    destruct (blocks (ir c) !! b) as [blk|]; [|done].
    destruct (Block.parent blk) as [p|]; [by eapply IH|].
    destruct (zlookup _ _); simpl in H; [|done]. by injection H as _ <-.
Qed.

(** ** Resolution extends the state *)

Lemma block_agree_refl x : block_agree x x.
Proof. by repeat split. Qed.

Lemma block_agree_trans x y z : block_agree x y -> block_agree y z -> block_agree x z.
Proof.
  intros (? & ? & ? & ?) (? & ? & ? & ?). repeat split; congruence.
Qed.

Lemma blocks_agree_refl bs : blocks_agree bs bs.
Proof. apply Forall_Forall2_diag, Forall_forall. intros. apply block_agree_refl. Qed.

Lemma blocks_agree_trans bs1 bs2 bs3 :
  blocks_agree bs1 bs2 -> blocks_agree bs2 bs3 -> blocks_agree bs1 bs3.
Proof.
  unfold blocks_agree. intros H12. revert bs3.
  induction H12 as [|x y l k Hxy _ IH]; intros bs3 H23; inversion H23; subst.
  - constructor.
  - constructor; [by eapply block_agree_trans | by apply IH].
Qed.

Lemma blocks_agree_lookup bs bs' b blk :
  blocks_agree bs bs' -> bs !! b = Some blk ->
  exists blk', bs' !! b = Some blk' /\ block_agree blk blk'.
Proof. intros H Hb. by eapply Forall2_lookup_l. Qed.

Lemma blocks_agree_set_inputs bs bs' b blk' arr :
  blocks_agree bs bs' -> bs' !! b = Some blk' ->
  length arr = length (Block.inputs blk') ->
  blocks_agree bs (<[b := Block.set_inputs arr blk']> bs').
Proof.
  intros H Hb Hlen. apply Forall2_same_length_lookup.
  apply Forall2_same_length_lookup in H as [Hl H].
  split; [by rewrite length_insert|].
  intros i x y Hx Hy. destruct (decide (i = b)) as [->|Hne].
  - rewrite list_lookup_insert_eq in Hy by (by eapply lookup_lt_Some).
    injection Hy as <-. destruct (H _ _ _ Hx Hb) as (? & ? & ? & ?).
    repeat split; simpl; congruence.
  - rewrite list_lookup_insert_ne in Hy by done. by eapply H.
Qed.

Lemma ext_refl c : ext c c.
Proof.
  exists [], (blocks (ir c)). split; [|apply blocks_agree_refl].
  rewrite app_nil_r. by destruct c as [[]].
Qed.

Lemma ext_trans c1 c2 c3 : ext c1 c2 -> ext c2 c3 -> ext c1 c3.
Proof.
  intros (L1 & bs1 & -> & H1) (L2 & bs2 & -> & H2).
  exists (L1 ++ L2), bs2. split.
  - simpl. by rewrite <- app_assoc.
  - simpl in H2. by eapply blocks_agree_trans.
Qed.

Lemma ext_append c x : ext c (set_instrs (instrs (ir c) ++ [x]) c).
Proof.
  exists [x], (blocks (ir c)). split; [by destruct c as [[]]|apply blocks_agree_refl].
Qed.

Lemma ext_set_inputs c b blk arr :
  blocks (ir c) !! b = Some blk ->
  length arr = length (Block.inputs blk) ->
  ext c (set_blocks (<[b := Block.set_inputs arr blk]> (blocks (ir c))) c).
Proof.
  intros Hb Hlen. exists [], (<[b := Block.set_inputs arr blk]> (blocks (ir c))). split.
  - rewrite app_nil_r. by destruct c as [[]].
  - apply blocks_agree_set_inputs; [apply blocks_agree_refl|done..].
Qed.

Lemma ext_instrs_prefix c c' i ins :
  ext c c' -> instrs (ir c) !! i = Some ins -> instrs (ir c') !! i = Some ins.
Proof. intros (L & bs & -> & _) H. simpl. by apply lookup_app_l_Some. Qed.

Lemma ext_length c c' : ext c c' -> (length (instrs (ir c)) <= length (instrs (ir c')))%nat.
Proof. intros (L & bs & -> & _). simpl. rewrite length_app. lia. Qed.

Lemma ext_block c c' b blk :
  ext c c' -> blocks (ir c) !! b = Some blk ->
  exists blk', blocks (ir c') !! b = Some blk' /\ block_agree blk blk'.
Proof. intros (L & bs & -> & H) Hb. simpl. by eapply blocks_agree_lookup. Qed.

Lemma ext_ctx c c' :
  ext c c' ->
  block c' = block c /\ atomic c' = atomic c /\ output_updates c' = output_updates c
  /\ so c' = so c /\ info c' = info c /\ base_reg c' = base_reg c
  /\ current_instr c' = current_instr c.
Proof. intros (L & bs & -> & _). by simpl. Qed.

Lemma ext_read_slot c c' s : ext c c' -> is_Some (read_slot c s) -> read_slot c' s = read_slot c s.
Proof.
  intros Hext. unfold read_slot.
  destruct (blocks (ir c) !! slot_block s) as [blk|] eqn:Hb; [|by intros [? [=]]].
  destruct (ext_block _ _ _ _ Hext Hb) as (blk' & -> & (_ & Ht & Ho & _)).
  by rewrite Ht, Ho.
Qed.

(** What [block_temporary] returns and leaves behind: the block's own
    value when it wrote the register or is the outermost one; otherwise a
    new [meta:input] node at the end of the arena, which imports what the
    block's input slot holds afterwards. *)
Lemma block_temporary_rec_spec fuel : forall b n c r c',
  block_temporary_rec fuel b n c = Done (r, c') ->
  ext c c'
  /\ exists blk t,
       blocks (ir c) !! b = Some blk
       /\ zlookup (Block.temporaries blk) n = Some t
       /\ ((Block.parent blk = None \/ is_Some t) /\ r = t /\ c' = c
           \/ (is_Some (Block.parent blk) /\ t = None
               /\ exists is1 v blk',
                    instrs (ir c') = is1 ++ [input_node b v n]
                    /\ r = Some (length is1)
                    /\ (length (instrs (ir c)) <= length is1)%nat
                    /\ blocks (ir c') !! b = Some blk'
                    /\ zlookup (Block.inputs blk') n = Some v
                    /\ (forall x, zlookup (Block.inputs blk) n = Some (Some x) ->
                          v = Some x
                          /\ c' = set_instrs (instrs (ir c) ++ [input_node b v n]) c))).
Proof.
  induction fuel as [|fuel IH]; intros b n c r c' H; simpl in H.
  all: unfold bind at 1 in H; rewrite get_block_eq in H.
  all: destruct (blocks (ir c) !! b) as [blk|] eqn:Hb; [|done].
  all: unfold bind at 1 in H.
  all: destruct (zlookup (Block.temporaries blk) n) as [t|] eqn:Ht; simpl in H; [|done].
  all: destruct (Block.parent blk) as [p|] eqn:Hp;
    [|injection H as <- <-; split; [apply ext_refl|];
      exists blk, t; repeat split; try done; left; auto].
  all: destruct t as [x|];
    [injection H as <- <-; split; [apply ext_refl|];
     exists blk, (Some x); repeat split; try done; left; eauto|].
  all: unfold bind at 1 in H.
  all: destruct (zlookup (Block.inputs blk) n) as [i|] eqn:Hi; simpl in H; [|done].
  all: destruct i as [x|];
    [revert H; mrun; rewrite Hb; mrun; rewrite Hi; mrun; rewrite create_input_eq;
     mrun|].
  all: try (
     intros [= <- <-]; split; [apply ext_append|];
     exists blk, None; repeat split; try done; right;
     split; [done|]; split; [done|];
     exists (instrs (ir c)), (Some x), blk; simpl; repeat split; try done;
     congruence).
  - revert H. by mrun.
  - revert H. mrun.
    destruct (block_temporary_rec fuel p n c) as [[v c1]| |] eqn:Hrec; [|done..].
    apply IH in Hrec as [Hext _].
    destruct (ext_block _ _ _ _ Hext Hb) as (blk1 & Hb1 & (Hp1 & Ht1 & Ho1 & Hl1)).
    mrun. rewrite Hb1. mrun.
    destruct (zinsert n v (Block.inputs blk1)) as [arr|] eqn:Harr; [|done].
    apply zinsert_Some in Harr as [Hr ->].
    mrun. rewrite Hb1. mrun.
    rewrite list_lookup_insert_eq by (by eapply lookup_lt_Some). mrun.
    cbn [Block.inputs Block.set_inputs]. rewrite zlookup_insert_eq by done. mrun.
    rewrite create_input_eq. mrun. intros [= <- <-].
    split.
    { apply (ext_trans c c1); [exact Hext|].
      apply (ext_trans c1 (set_blocks
               (<[b:=Block.set_inputs (<[Z.to_nat n:=v]> (Block.inputs blk1)) blk1]>
                  (blocks (ir c1))) c1)).
      - apply ext_set_inputs; [done|by rewrite length_insert].
      - apply (ext_append (set_blocks _ c1)). }
    exists blk, None. repeat split; try done. right.
    split; [done|]. split; [done|].
    exists (instrs (ir c1)), v, (Block.set_inputs (<[Z.to_nat n:=v]> (Block.inputs blk1)) blk1).
    simpl. repeat split; try done.
    + by apply ext_length.
    + by rewrite list_lookup_insert_eq by (by eapply lookup_lt_Some).
    + simpl. by apply zlookup_insert_eq.
    + rewrite Hi in H. done.
    + rewrite Hi in H. done.
Qed.

Lemma wf_scopes_from_sound n bs : forall b0,
  wf_scopes_from n b0 bs = true ->
  forall b blk, bs !! b = Some blk -> wf_block n (b0 + b) blk = true.
Proof.
  induction bs as [|x bs IH]; intros b0 H b blk Hb; [done|].
  simpl in H. apply andb_true_iff in H as [Hx Hrest].
  destruct b as [|b]; simpl in Hb.
  - injection Hb as <-. by rewrite Nat.add_0_r.
  - replace (b0 + S b)%nat with (S b0 + b)%nat by lia. by eapply IH.
Qed.

Lemma wf_scopes_check n bs : wf_scopes_from n 0 bs = true -> wf_scopes n bs.
Proof. intros H b blk Hb. by apply (wf_scopes_from_sound n bs 0 H b blk). Qed.

Lemma wf_scopes_ext n c c' : ext c c' -> wf_scopes n (blocks (ir c)) -> wf_scopes n (blocks (ir c')).
Proof.
  intros (L & bs & -> & Hag) Hwf b blk' Hb. simpl in Hb.
  destruct (Forall2_lookup_r _ _ _ _ _ Hag Hb) as (blk & Hblk & (Hp & Ht & _ & Hl)).
  specialize (Hwf b blk Hblk). unfold wf_block, in_range in *.
  by rewrite <- Hp, <- Ht, <- Hl.
Qed.

(** With well-formed scopes the walk up the parents always returns. *)
Lemma block_temporary_rec_total n fuel : forall b c,
  wf_scopes n (blocks (ir c)) ->
  (b <= fuel)%nat ->
  is_Some (blocks (ir c) !! b) ->
  exists r c', block_temporary_rec fuel b n c = Done (r, c').
Proof.
  induction fuel as [|fuel IH]; intros b c Hwf Hle [blk Hb].
  all: pose proof (Hwf b blk Hb) as Hw; unfold wf_block in Hw.
  all: apply andb_true_iff in Hw as [Ht Hw].
  all: apply zlookup_in_range in Ht as [t Ht].
  all: simpl; mrun; rewrite Hb; mrun; rewrite Ht; mrun.
  all: destruct (Block.parent blk) as [p|] eqn:Hp; [|by eauto].
  all: destruct t as [x|]; [by eauto|].
  all: apply andb_true_iff in Hw as [Hlt Hi]; apply Nat.ltb_lt in Hlt.
  all: pose proof Hi as Hi'; apply zlookup_in_range in Hi' as [i Hi'].
  all: mrun; rewrite Hi'; mrun.
  all: destruct i as [x|];
    [mrun; rewrite Hb; mrun; rewrite Hi'; mrun; rewrite create_input_eq; mrun; by eauto|].
  - lia.
  - destruct (IH p c Hwf) as (v & c1 & Hrec); [lia| |].
    { apply lookup_lt_is_Some. apply lookup_lt_Some in Hb. lia. }
    mrun. rewrite Hrec.
    apply block_temporary_rec_spec in Hrec as [Hext _].
    destruct (ext_block _ _ _ _ Hext Hb) as (blk1 & Hb1 & (Hp1 & Ht1 & Ho1 & Hl1)).
    mrun. rewrite Hb1. mrun.
    assert (Hi1 : in_range n (Block.inputs blk1) = true).
    { unfold in_range in *. by rewrite <- Hl1. }
    rewrite (zinsert_in_range _ _ _ Hi1). mrun. rewrite Hb1. mrun.
    rewrite list_lookup_insert_eq by (by eapply lookup_lt_Some). mrun.
    cbn [Block.inputs Block.set_inputs]. rewrite zlookup_insert_eq by done. mrun.
    rewrite create_input_eq. mrun. by eauto.
Qed.

(** A cached import is reused: one new node, nothing else changes. *)
Lemma block_temporary_rec_cached fuel b n c blk x :
  blocks (ir c) !! b = Some blk ->
  is_Some (Block.parent blk) ->
  zlookup (Block.temporaries blk) n = Some None ->
  zlookup (Block.inputs blk) n = Some (Some x) ->
  block_temporary_rec fuel b n c =
  Done (Some (length (instrs (ir c))),
        set_instrs (instrs (ir c) ++ [input_node b (Some x) n]) c).
Proof.
  intros Hb [p Hp] Ht Hi.
  destruct fuel; simpl; mrun; rewrite Hb; mrun; rewrite Ht; mrun; rewrite Hp;
    mrun; rewrite Hi; mrun; rewrite Hb; mrun; rewrite Hi; mrun;
    rewrite create_input_eq; by mrun.
Qed.

(** C6, as stated, fails: in the "then" block of the example, TEMP[0].x
    is resolved twice and the two resolutions return different nodes. *)
Lemma block_temporary_returns_new_node :
  block ex_in_then = Some 1%nat
  /\ Block.parent <$> blocks (ir ex_in_then) !! 1%nat = Some (Some 0%nat)
  /\ read_slot ex_in_then (mk_slot 1%nat SlotTemporary 0) = Some None
  /\ value_of (None, None) (resolve_twice 1%nat 0 ex_in_then) = (Some 4%nat, Some 5%nat)
  /\ (value_of (None, None) (resolve_twice 1%nat 0 ex_in_then)).1
     <> (value_of (None, None) (resolve_twice 1%nat 0 ex_in_then)).2.
Proof. vm_compute. repeat split; try reflexivity. discriminate. Qed.

(** ** Operand records *)

Lemma reg_at_Some c p r :
  reg_at c p = Some r <->
  exists ins, instrs (ir c) !! p.1 = Some ins /\ Instr.regs ins !! p.2 = Some r.
Proof.
  unfold reg_at. destruct (instrs (ir c) !! p.1) as [ins|]; simpl.
  - split; [eauto|]. by intros (? & [= <-] & ?).
  - split; [done|]. by intros (? & [=] & _).
Qed.

Lemma set_operand_length p r' arena : length (set_operand p r' arena) = length arena.
Proof. unfold set_operand. destruct (arena !! p.1); [by rewrite length_insert|done]. Qed.

Lemma set_operand_lookup_ne p r' arena k :
  k <> p.1 -> set_operand p r' arena !! k = arena !! k.
Proof.
  intros Hne. unfold set_operand. destruct (arena !! p.1); [|done].
  by rewrite list_lookup_insert_ne.
Qed.

Lemma set_operand_lookup p r' arena ins :
  arena !! p.1 = Some ins ->
  set_operand p r' arena !! p.1 = Some (Instr.set_regs (<[p.2 := r']> (Instr.regs ins)) ins).
Proof.
  intros H. unfold set_operand. rewrite H.
  apply list_lookup_insert_eq. by eapply lookup_lt_Some.
Qed.

Lemma set_operand_twice p r1 r2 arena :
  set_operand p r2 (set_operand p r1 arena) = set_operand p r2 arena.
Proof.
  unfold set_operand at 2. destruct (arena !! p.1) as [ins|] eqn:E; [|done].
  unfold set_operand. rewrite list_lookup_insert_eq by (by eapply lookup_lt_Some).
  rewrite E, list_insert_insert_eq. cbn [Instr.regs Instr.set_regs].
  by rewrite list_insert_insert_eq.
Qed.

Lemma set_operand_app p r' arena L :
  (p.1 < length arena)%nat -> set_operand p r' (arena ++ L) = set_operand p r' arena ++ L.
Proof.
  intros Hlt. unfold set_operand. rewrite lookup_app_l by done.
  destruct (arena !! p.1); [|done]. by rewrite insert_app_l.
Qed.

Lemma reg_at_set_operand c p r r' arena :
  reg_at c p = Some r ->
  reg_at (set_instrs (set_operand p r' (instrs (ir c) ++ arena)) c) p = Some r'.
Proof.
  intros (ins & Hi & Hr)%reg_at_Some. apply reg_at_Some.
  eexists. cbn [ir instrs set_instrs set_ir]. split.
  - apply set_operand_lookup. by apply lookup_app_l_Some.
  - cbn [Instr.regs Instr.set_regs]. apply list_lookup_insert_eq. by eapply lookup_lt_Some.
Qed.

Lemma reg_at_set_operand0 c p r r' :
  reg_at c p = Some r ->
  reg_at (set_instrs (set_operand p r' (instrs (ir c))) c) p = Some r'.
Proof.
  intros H. pose proof (reg_at_set_operand c p r r' [] H) as H'.
  by rewrite app_nil_r in H'.
Qed.

Lemma reg_at_app c p r L :
  reg_at c p = Some r -> reg_at (set_instrs (instrs (ir c) ++ L) c) p = Some r.
Proof.
  intros (ins & Hi & Hr)%reg_at_Some. apply reg_at_Some.
  exists ins. split; [|done]. simpl. by apply lookup_app_l_Some.
Qed.

Lemma update_reg_run p f c r :
  reg_at c p = Some r ->
  update_reg p f c = Done (tt, set_instrs (set_operand p (f r) (instrs (ir c))) c).
Proof.
  intros (ins & Hi & Hr)%reg_at_Some. rewrite update_reg_eq, Hi, Hr.
  unfold set_operand. by rewrite Hi.
Qed.

Lemma update_reg_Done p f c x c' :
  update_reg p f c = Done (x, c') ->
  exists r, reg_at c p = Some r
            /\ c' = set_instrs (set_operand p (f r) (instrs (ir c))) c.
Proof.
  rewrite update_reg_eq. unfold reg_at, set_operand.
  destruct (instrs (ir c) !! p.1) as [ins|]; [|done]. simpl.
  destruct (Instr.regs ins !! p.2) as [r|]; [|done].
  intros [= <- <-]. eauto.
Qed.

Lemma get_reg_run p c r : reg_at c p = Some r -> get_reg p c = Done (r, c).
Proof. intros H. rewrite get_reg_eq. fold (reg_at c p). by rewrite H. Qed.

(** Flags *)

Lemma has_flag_lor f g m : has_flag (Z.lor f g) m = has_flag f m || has_flag g m.
Proof.
  unfold has_flag. rewrite Z.land_lor_distr_l.
  destruct (Z.eqb_spec (Z.land f m) 0) as [E|E], (Z.eqb_spec (Z.land g m) 0) as [E'|E'];
    simpl; rewrite ?E, ?E'.
  - by rewrite Z.lor_0_l.
  - rewrite Z.lor_0_l. by destruct (Z.eqb_spec (Z.land g m) 0).
  - rewrite Z.lor_0_r. by destruct (Z.eqb_spec (Z.land f m) 0).
  - destruct (Z.eqb_spec (Z.lor (Z.land f m) (Z.land g m)) 0) as [E2|]; [|done].
    apply Z.lor_eq_0_iff in E2. tauto.
Qed.

Lemma has_flag_resolved p r : has_flag (Reg.flags (resolved_to p r)) IR3_REG_SSA = true.
Proof. unfold resolved_to. simpl. rewrite has_flag_lor. by rewrite orb_true_r. Qed.

(** ** Resolving a source operand *)

(** The last step of [ssa_src]: an SSA operand without a producer gets a
    new [mov] of immediate 0.0. *)
Lemma ssa_src_zero reg c r b :
  reg_at c reg = Some r ->
  has_flag (Reg.flags r) IR3_REG_SSA = true ->
  Reg.instr r = None ->
  block c = Some b ->
  (r <- get_reg reg ;;
   if has_flag (Reg.flags r) IR3_REG_SSA && negb (bool_decide (is_Some (Reg.instr r)))
   then i <- create_immed 0 ;; update_reg reg (Reg.set_instr (Some i))
   else ret tt) c =
  Done (tt, set_instrs
              (set_operand reg (Reg.set_instr (Some (length (instrs (ir c)))) r)
                 (instrs (ir c) ++ [immed_node b (get_ftype c) 0])) c).
Proof.
  intros Hr Hf Hi Hb. unfold bind at 1. rewrite (get_reg_run _ _ _ Hr).
  rewrite Hf, Hi. simpl. unfold bind at 1. rewrite create_immed_eq, Hb.
  erewrite update_reg_run.
  - reflexivity.
  - apply reg_at_Some in Hr as (ins & Hins & Hreg). apply reg_at_Some.
    exists ins. split; [|done]. simpl. by apply lookup_app_l_Some.
Qed.

Lemma ssa_src_keep reg c r :
  reg_at c reg = Some r ->
  has_flag (Reg.flags r) IR3_REG_SSA && negb (bool_decide (is_Some (Reg.instr r))) = false ->
  (r <- get_reg reg ;;
   if has_flag (Reg.flags r) IR3_REG_SSA && negb (bool_decide (is_Some (Reg.instr r)))
   then i <- create_immed 0 ;; update_reg reg (Reg.set_instr (Some i))
   else ret tt) c = Done (tt, c).
Proof.
  intros Hr Hf. unfold bind at 1. rewrite (get_reg_run _ _ _ Hr). by rewrite Hf.
Qed.

Lemma block_temporary_local b n c blk v :
  blocks (ir c) !! b = Some blk ->
  zlookup (Block.temporaries blk) n = Some (Some v) ->
  block_temporary b n c = Done (Some v, c).
Proof.
  intros Hb Hv. unfold block_temporary.
  destruct b; simpl; msimp; rewrite get_block_eq, Hb; msimp; rewrite Hv; msimp;
    by destruct (Block.parent blk).
Qed.

Lemma block_temporary_top b n c blk t :
  blocks (ir c) !! b = Some blk ->
  Block.parent blk = None ->
  zlookup (Block.temporaries blk) n = Some t ->
  block_temporary b n c = Done (t, c).
Proof.
  intros Hb Hp Hv. unfold block_temporary.
  destruct b; simpl; msimp; rewrite get_block_eq, Hb; msimp; rewrite Hv; msimp;
    by rewrite Hp.
Qed.

(** A temporary the current block holds (the block wrote it, or is the
    outermost one): the operand refers to that value. *)
Lemma ssa_src_temporary_local reg src chan c r b blk v :
  Src.File src = TGSI_FILE_TEMPORARY ->
  reg_at c reg = Some r ->
  block c = Some b ->
  blocks (ir c) !! b = Some blk ->
  zlookup (Block.temporaries blk) (regid (Src.Index src) chan) = Some (Some v) ->
  ssa_src reg src chan c =
  Done (tt, set_instrs (set_operand reg (resolved_to v r) (instrs (ir c))) c).
Proof.
  intros Hf Hr Hb Hblk Hv. unfold ssa_src. rewrite Hf.
  mstep. mstep. mstep. rewrite (update_reg_run _ _ _ _ Hr). mred.
  mstep. rewrite Hb. mred. mstep.
  erewrite (block_temporary_local b _ _ blk v); [|exact Hblk|exact Hv]. mred.
  erewrite update_reg_run; [|by apply (reg_at_set_operand0 c reg r)]. mred.
  rewrite set_operand_twice.
  erewrite ssa_src_keep; [reflexivity|by apply (reg_at_set_operand0 c reg r)|].
  simpl. apply andb_false_r.
Qed.

Lemma reg_at_lt c p r : reg_at c p = Some r -> (p.1 < length (instrs (ir c)))%nat.
Proof. intros (ins & Hi & _)%reg_at_Some. by eapply lookup_lt_Some. Qed.

Lemma set_operand_over p r0 r' l L :
  (p.1 < length l)%nat ->
  set_operand p r' (set_operand p r0 l ++ L) = set_operand p r' (l ++ L).
Proof.
  intros Hlt. rewrite !set_operand_app by (by rewrite ?set_operand_length).
  by rewrite set_operand_twice.
Qed.

Lemma update_reg_None p f c : reg_at c p = None -> update_reg p f c = Fault.
Proof.
  rewrite update_reg_eq. unfold reg_at.
  destruct (instrs (ir c) !! p.1) as [ins|]; [|done]. simpl.
  by destruct (Instr.regs ins !! p.2).
Qed.

Lemma get_reg_None p c : reg_at c p = None -> get_reg p c = Fault.
Proof. rewrite get_reg_eq. fold (reg_at c p). by intros ->. Qed.

(** A temporary without a value in the outermost block. *)
Lemma ssa_src_temporary_undefined reg src chan c r b blk :
  Src.File src = TGSI_FILE_TEMPORARY ->
  reg_at c reg = Some r ->
  block c = Some b ->
  blocks (ir c) !! b = Some blk ->
  Block.parent blk = None ->
  zlookup (Block.temporaries blk) (regid (Src.Index src) chan) = Some None ->
  ssa_src reg src chan c =
  Done (tt, set_instrs
              (set_operand reg (resolved_to (length (instrs (ir c))) r)
                 (instrs (ir c) ++ [immed_node b (get_ftype c) 0])) c).
Proof.
  intros Hf Hr Hb Hblk Hp Hv. unfold ssa_src. rewrite Hf.
  mstep. mstep. mstep. rewrite (update_reg_run _ _ _ _ Hr). mred.
  mstep. rewrite Hb. mred. mstep.
  erewrite (block_temporary_top b _ _ blk None); [|exact Hblk|exact Hp|exact Hv]. mred.
  erewrite update_reg_run; [|by apply (reg_at_set_operand0 c reg r)]. mred.
  rewrite set_operand_twice.
  erewrite ssa_src_zero; [|by apply (reg_at_set_operand0 c reg r)| | |exact Hb].
  - mred. rewrite set_operand_length.
    rewrite set_operand_over by (by eapply reg_at_lt). reflexivity.
  - simpl. rewrite has_flag_lor. by rewrite orb_true_r.
  - reflexivity.
Qed.

Lemma block_input_rec_blocks fuel : forall b n c c0 v,
  blocks (ir c0) = blocks (ir c) ->
  block_input_rec fuel b n c = Done (v, c) ->
  block_input_rec fuel b n c0 = Done (v, c0).
Proof.
  induction fuel as [|fuel IH]; intros b n c c0 v Hbs; simpl.
  all: unfold bind; rewrite !get_block_eq, Hbs.
  all: destruct (blocks (ir c) !! b) as [blk|]; [|done].
  all: destruct (Block.parent blk) as [p|]; [|by destruct (zlookup _ _); [intros [= <-]|]].
  - done.
  - by apply IH.
Qed.

(** An input: the value of the outermost block, or zero without one. *)
Lemma ssa_src_input reg src chan c r b v :
  Src.File src = TGSI_FILE_INPUT ->
  reg_at c reg = Some r ->
  block c = Some b ->
  block_input b (regid (Src.Index src) chan) c = Done (v, c) ->
  ssa_src reg src chan c =
  Done (tt,
        match v with
        | Some p => set_instrs (set_operand reg (resolved_to p r) (instrs (ir c))) c
        | None =>
            set_instrs
              (set_operand reg (resolved_to (length (instrs (ir c))) r)
                 (instrs (ir c) ++ [immed_node b (get_ftype c) 0])) c
        end).
Proof.
  intros Hf Hr Hb Hv. unfold ssa_src. rewrite Hf.
  mstep. mstep. mstep. rewrite (update_reg_run _ _ _ _ Hr). mred.
  mstep. rewrite Hb. mred. mstep.
  unfold block_input in *.
  erewrite (block_input_rec_blocks b b _ c _ v); [|reflexivity|exact Hv]. mred.
  erewrite update_reg_run; [|by apply (reg_at_set_operand0 c reg r)]. mred.
  rewrite set_operand_twice. destruct v as [p|].
  - erewrite ssa_src_keep; [reflexivity|by apply (reg_at_set_operand0 c reg r)|].
    simpl. apply andb_false_r.
  - erewrite ssa_src_zero; [|by apply (reg_at_set_operand0 c reg r)| | |exact Hb].
    + mred. rewrite set_operand_length.
      rewrite set_operand_over by (by eapply reg_at_lt). reflexivity.
    + simpl. rewrite has_flag_lor. by rewrite orb_true_r.
    + reflexivity.
Qed.

(** An output is looked up in the current block only; one that block has
    not written trips the assertion. *)
Lemma ssa_src_output reg src chan c r b blk v :
  Src.File src = TGSI_FILE_OUTPUT ->
  reg_at c reg = Some r ->
  block c = Some b ->
  blocks (ir c) !! b = Some blk ->
  zlookup (Block.outputs blk) (regid (Src.Index src) chan) = Some v ->
  ssa_src reg src chan c =
  match v with
  | Some p => Done (tt, set_instrs (set_operand reg (resolved_to p r) (instrs (ir c))) c)
  | None => CompileError
  end.
Proof.
  intros Hf Hr Hb Hblk Hv. unfold ssa_src. rewrite Hf.
  mstep. mstep. mstep. rewrite (update_reg_run _ _ _ _ Hr). mred.
  mstep. rewrite Hb. mred. mstep. rewrite get_block_eq. mred. rewrite Hblk.
  mstep. rewrite Hv. mred. mstep.
  erewrite update_reg_run; [|by apply (reg_at_set_operand0 c reg r)]. mred.
  rewrite set_operand_twice. destruct v as [p|]; [|reflexivity].
  change (bool_decide (is_Some (Some p))) with true. mred.
  erewrite ssa_src_keep; [reflexivity|by apply (reg_at_set_operand0 c reg r)|].
  simpl. apply andb_false_r.
Qed.

(** Other files: [ssa_src] leaves an operand that is not flagged SSA. *)
Lemma ssa_src_other reg src chan c r :
  ssa_file (Src.File src) = false ->
  reg_at c reg = Some r ->
  has_flag (Reg.flags r) IR3_REG_SSA = false ->
  ssa_src reg src chan c = Done (tt, c).
Proof.
  intros Hf Hr Hfl. unfold ssa_src. mstep.
  unfold bind at 1.
  match goal with |- match ?m c with _ => _ end = _ => replace (m c) with (Done (tt, c)) end.
  - apply (ssa_src_keep reg c r); [done|]. by rewrite Hfl.
  - by destruct (Src.File src).
Qed.

(** The tail of [ssa_src], whenever it returns. *)
Lemma ssa_src_tail_Done reg c r c' :
  reg_at c reg = Some r ->
  has_flag (Reg.flags r) IR3_REG_SSA = true ->
  (r <- get_reg reg ;;
   if has_flag (Reg.flags r) IR3_REG_SSA && negb (bool_decide (is_Some (Reg.instr r)))
   then i <- create_immed 0 ;; update_reg reg (Reg.set_instr (Some i))
   else ret tt) c = Done (tt, c') ->
  exists p L,
    c' = set_instrs (set_operand reg (Reg.set_instr (Some p) r) (instrs (ir c) ++ L)) c
    /\ (Reg.instr r = None \/ Reg.instr r = Some p /\ L = []).
Proof.
  intros Hr Hf H. destruct (Reg.instr r) as [p|] eqn:Hi.
  - rewrite (ssa_src_keep reg c r) in H; [|done|by rewrite Hf, Hi].
    injection H as <-. exists p, []. split; [|auto].
    rewrite app_nil_r. apply reg_at_Some in Hr as (ins & Hins & Hreg).
    unfold set_operand. rewrite Hins.
    replace (Reg.set_instr (Some p) r) with r by (by destruct r; simpl in *; subst).
    rewrite (list_insert_id _ _ _ Hreg).
    replace (Instr.set_regs (Instr.regs ins) ins) with ins by (by destruct ins).
    rewrite (list_insert_id _ _ _ Hins). by destruct c as [[]].
  - destruct (block c) as [b|] eqn:Hb.
    + rewrite (ssa_src_zero _ _ _ b Hr Hf Hi Hb) in H. injection H as <-.
      exists (length (instrs (ir c))), [immed_node b (get_ftype c) 0]. auto.
    + exfalso. revert H. mstep. rewrite (get_reg_run _ _ _ Hr). mred.
      rewrite Hf, Hi. simpl. mstep. by rewrite create_immed_eq, Hb.
Qed.

(** Whenever [ssa_src] returns for an input, output or temporary, the
    operand is flagged SSA and refers to an instruction; the arena only
    grew, and the blocks kept their parents, temporaries and outputs. *)
Lemma ssa_src_Done reg src chan c c' :
  ssa_file (Src.File src) = true ->
  ssa_src reg src chan c = Done (tt, c') ->
  exists r p L bs',
    reg_at c reg = Some r
    /\ c' = set_instrs (set_operand reg (resolved_to p r) (instrs (ir c) ++ L))
              (set_blocks bs' c)
    /\ blocks_agree (blocks (ir c)) bs'.
Proof.
  intros Hf H. unfold ssa_src in H.
  apply bind_Done in H as (c0 & ? & [= <- <-] & H).
  apply bind_Done in H as ([] & c2 & Hsw & Htail).
  assert (Hmid : exists r v L bs',
            reg_at c reg = Some r
            /\ c2 = set_instrs (set_operand reg (Reg.set_instr v (or_flags IR3_REG_SSA r))
                                  (instrs (ir c) ++ L)) (set_blocks bs' c)
            /\ blocks_agree (blocks (ir c)) bs').
  { clear Htail. destruct (Src.File src); try discriminate Hf.
    - (* INPUT *)
      apply bind_Done in Hsw as ([] & c1 & (r & Hr & ->)%update_reg_Done & Hsw).
      apply bind_Done in Hsw as (? & c1 & (b & Hb & [= -> ->])%deref_Done & Hsw).
      apply bind_Done in Hsw as (v & c1 & Hin & Hsw).
      pose proof (block_input_rec_pure _ _ _ _ _ _ Hin) as ->.
      apply update_reg_Done in Hsw as (r1 & Hr1 & ->).
      rewrite (reg_at_set_operand0 c reg r _ Hr) in Hr1. injection Hr1 as <-.
      exists r, v, [], (blocks (ir c)). split; [done|]. split; [|apply blocks_agree_refl].
      mred. rewrite set_operand_twice, app_nil_r. by destruct c as [[]].
    - (* OUTPUT *)
      apply bind_Done in Hsw as ([] & c1 & (r & Hr & ->)%update_reg_Done & Hsw).
      apply bind_Done in Hsw as (? & c1 & (b & Hb & [= -> ->])%deref_Done & Hsw).
      apply bind_Done in Hsw as (? & c1 & (blk & Hblk & [= -> ->])%get_block_Done & Hsw).
      apply bind_Done in Hsw as (? & c1 & (v & Hv & [= -> ->])%deref_Done & Hsw).
      apply bind_Done in Hsw as ([] & c1 & (r1 & Hr1 & ->)%update_reg_Done & Hsw).
      apply compile_assert_Done in Hsw as [_ [= ->]].
      rewrite (reg_at_set_operand0 c reg r _ Hr) in Hr1. injection Hr1 as <-.
      exists r, v, [], (blocks (ir c)). split; [done|]. split; [|apply blocks_agree_refl].
      mred. rewrite set_operand_twice, app_nil_r. by destruct c as [[]].
    - (* TEMPORARY *)
      apply bind_Done in Hsw as ([] & c1 & (r & Hr & ->)%update_reg_Done & Hsw).
      apply bind_Done in Hsw as (? & c1 & (b & Hb & [= -> ->])%deref_Done & Hsw).
      apply bind_Done in Hsw as (v & c1 & Hbt & Hsw).
      apply block_temporary_rec_spec in Hbt as [(L & bs' & -> & Hag) _].
      apply update_reg_Done in Hsw as (r1 & Hr1 & ->).
      assert (Hlt : (reg.1 < length (instrs (ir c)))%nat) by (by eapply reg_at_lt).
      assert (r1 = or_flags IR3_REG_SSA r) as ->.
      { assert (Some r1 = Some (or_flags IR3_REG_SSA r)) as [= ->]; [|done].
        rewrite <- Hr1.
        exact (reg_at_app _ reg _ L (reg_at_set_operand0 c reg r _ Hr)). }
      exists r, v, L, bs'. split; [done|]. split; [|done].
      mred. by rewrite set_operand_over. }
  destruct Hmid as (r & v & L & bs' & Hr & -> & Hag).
  assert (Hlt : (reg.1 < length (instrs (ir c)))%nat) by (by eapply reg_at_lt).
  pose proof (reg_at_set_operand (set_blocks bs' c) reg r
                (Reg.set_instr v (or_flags IR3_REG_SSA r)) L Hr) as Hr2.
  assert (Hf2 : has_flag (Reg.flags (Reg.set_instr v (or_flags IR3_REG_SSA r)))
                  IR3_REG_SSA = true).
  { simpl. rewrite has_flag_lor. by rewrite orb_true_r. }
  destruct (ssa_src_tail_Done reg _ _ c' Hr2 Hf2 Htail) as (p & L2 & -> & _).
  exists r, p, (L ++ L2), bs'. split; [done|]. split; [|done].
  mred. rewrite app_assoc.
  rewrite set_operand_over by (rewrite length_app; lia). reflexivity.
Qed.

(** C7, as stated, fails for the OUTPUT file: inside the "then" block of
    the example, OUT[0].x was written neither in the block nor in the
    enclosing one, and reading it trips [compile_assert] instead of
    yielding a zero. *)
Lemma ssa_src_unwritten_output_asserts :
  block ex_in_then = Some 1%nat
  /\ read_slot ex_in_then (mk_slot 1%nat SlotOutput 0) = Some None
  /\ read_slot ex_in_then (mk_slot 0%nat SlotOutput 0) = Some None
  /\ ex_operand (OUT 0) 0 ex_in_then = CompileError
  /\ compile_instruction (MOV_ (TEMP_dst 1 1) (OUT 0)) ex_in_then = CompileError.
Proof. vm_compute. repeat split; reflexivity. Qed.

(** C7, amended.  An INPUT operand whose register holds no value in the
    outermost block, and a TEMPORARY operand read in the outermost block
    before any write, get a new [mov] of immediate 0.0 as producer, the
    node at the end of the arena.  An OUTPUT operand is looked up in the
    current block alone and one it has not written is an assertion
    failure.  Whenever resolution of an input, output or temporary
    returns, the operand is flagged SSA and refers to an instruction. *)
Theorem ssa_src_undefined_read reg src chan c r b blk :
  reg_at c reg = Some r ->
  block c = Some b ->
  blocks (ir c) !! b = Some blk ->
  let n := regid (Src.Index src) chan in
  let zero := length (instrs (ir c)) in
  let c_zero :=
    set_instrs (set_operand reg (resolved_to zero r)
                  (instrs (ir c) ++ [immed_node b (get_ftype c) 0])) c in
  (reg_at c_zero reg = Some (resolved_to zero r)
   /\ instrs (ir c_zero) !! zero = Some (immed_node b (get_ftype c) 0)
   /\ (Reg.flags <$> Instr.regs (immed_node b (get_ftype c) 0) !! 1%nat,
       Reg.fim_val <$> Instr.regs (immed_node b (get_ftype c) 0) !! 1%nat)
      = (Some IR3_REG_IMMED, Some 0))
  /\ (Src.File src = TGSI_FILE_INPUT ->
      block_input b n c = Done (None, c) ->
      ssa_src reg src chan c = Done (tt, c_zero))
  /\ (Src.File src = TGSI_FILE_TEMPORARY ->
      Block.parent blk = None ->
      zlookup (Block.temporaries blk) n = Some None ->
      ssa_src reg src chan c = Done (tt, c_zero))
  /\ (Src.File src = TGSI_FILE_OUTPUT ->
      zlookup (Block.outputs blk) n = Some None ->
      ssa_src reg src chan c = CompileError)
  /\ (ssa_file (Src.File src) = true ->
      forall c', ssa_src reg src chan c = Done (tt, c') ->
      exists p, reg_at c' reg = Some (resolved_to p r)
                /\ has_flag (Reg.flags (resolved_to p r)) IR3_REG_SSA = true
                /\ Reg.instr (resolved_to p r) = Some p).
Proof.
  intros Hr Hb Hblk n zero c_zero.
  assert (Hlt : (reg.1 < length (instrs (ir c)))%nat) by (by eapply reg_at_lt).
  split; [|split; [|split; [|split]]].
  - split; [by apply (reg_at_set_operand c reg r)|]. split; [|reflexivity].
    subst c_zero zero. mred. rewrite set_operand_lookup_ne by lia. apply lookup_snoc.
  - intros Hf Hv. by rewrite (ssa_src_input reg src chan c r b None Hf Hr Hb Hv).
  - intros Hf Hp Hv. by apply (ssa_src_temporary_undefined reg src chan c r b blk).
  - intros Hf Hv. by rewrite (ssa_src_output reg src chan c r b blk None Hf Hr Hb Hblk Hv).
  - intros Hf c' H. apply (ssa_src_Done _ _ _ _ _ Hf) in H as (r' & p & L & bs' & Hr' & -> & _).
    rewrite Hr in Hr'. injection Hr' as <-. exists p.
    split; [apply (reg_at_set_operand (set_blocks bs' c) reg r _ L Hr)|].
    split; [apply has_flag_resolved|reflexivity].
Qed.

(** In the outermost block of the example TEMP[0].x is read before any
    write: the operand gets the zero. *)
Lemma ssa_src_undefined_read_example :
  ssa_src (0%nat, 0%nat) (TEMP 0) 0 ex_top_operand =
  Done (tt, set_instrs
              (set_operand (0%nat, 0%nat) (resolved_to 1%nat (new_reg 0 0))
                 (instrs (ir ex_top_operand) ++ [immed_node 0%nat TYPE_F32 0]))
              ex_top_operand).
Proof.
  destruct (blocks (ir ex_top_operand) !! 0%nat) as [blk|] eqn:Hblk;
    [|vm_compute in Hblk; discriminate].
  destruct (ssa_src_undefined_read (0%nat, 0%nat) (TEMP 0) 0 ex_top_operand
              (new_reg 0 0) 0%nat blk eq_refl eq_refl Hblk) as (_ & _ & Htemp & _).
  apply Htemp; [reflexivity|..]; vm_compute in Hblk; injection Hblk as <-; reflexivity.
Defined.

(** ** The emitter, whenever it returns *)

Lemma store_slot_Done s v c c' :
  store_slot s v c = Done (tt, c') ->
  same_but_blocks c c'
  /\ read_slot c' s = Some v
  /\ (forall s', s' <> s -> read_slot c' s' = read_slot c s').
Proof.
  intros H.
  assert (Hs : is_Some (read_slot c s)).
  { unfold store_slot in H. unfold read_slot.
    apply bind_Done in H as (blk & c1 & (? & Hb & [= -> ->])%get_block_Done & H).
    rewrite Hb. destruct (slot_file s);
      apply bind_Done in H as (arr & c1 & (? & Harr & _)%deref_Done & _);
      apply zinsert_Some in Harr as [Hr _]; by apply zlookup_in_range. }
  destruct (store_slot_spec s v c Hs) as (c2 & Hrun & H1 & H2 & H3).
  rewrite Hrun in H. by injection H as <-.
Qed.

Lemma flush_Done q : forall c c',
  forM q (fun u => store_slot (upd_instrp u) (Some (upd_instr u))) c = Done (tt, c') ->
  same_but_blocks c c'
  /\ (forall s, read_slot c' s = match queued q s with
                                 | Some i => Some (Some i)
                                 | None => read_slot c s
                                 end).
Proof.
  induction q as [|u q IH]; intros c c' H; simpl in H.
  - injection H as <-. split; [apply same_but_blocks_refl|done].
  - apply bind_Done in H as ([] & c1 & Hst & H).
    apply store_slot_Done in Hst as (Hs1 & Heq & Hne).
    apply IH in H as (Hs2 & Hread).
    split; [by eapply same_but_blocks_trans|].
    intros s. rewrite Hread. simpl. destruct (queued q s); [done|].
    destruct (decide (upd_instrp u = s)) as [<-|Hd]; [done|].
    apply Hne. congruence.
Qed.

(** [instr_finish] outside an atomic group: the slots take their live
    values and the queue is empty. *)
Lemma instr_finish_Done c c' :
  atomic c = false ->
  instr_finish c = Done (tt, c') ->
  exists bs, c' = set_output_updates [] (set_blocks bs c)
             /\ (forall s, read_slot c' s = live c s).
Proof.
  intros Hat H. unfold instr_finish in H.
  apply bind_Done in H as (? & ? & [= <- <-] & H). rewrite Hat in H.
  apply bind_Done in H as ([] & c1 & Hfl & [= <-]).
  apply flush_Done in Hfl as ([bs ->] & Hread).
  exists bs. split; [done|]. intros s. exact (Hread s).
Qed.

Lemma instr_create_Done category opc c i c' :
  atomic c = false ->
  instr_create category opc c = Done (i, c') ->
  exists bs b,
    block c = Some b
    /\ i = length (instrs (ir c))
    /\ c' = set_current_instr (Some i)
              (set_instrs (instrs (ir c) ++ [new_instr b category opc])
                 (set_output_updates [] (set_blocks bs c)))
    /\ (forall s, read_slot c' s = live c s).
Proof.
  intros Hat H. unfold instr_create in H.
  apply bind_Done in H as ([] & c1 & Hfin & H).
  apply (instr_finish_Done _ _ Hat) in Hfin as (bs & -> & Hread).
  apply bind_Done in H as (? & ? & [= <- <-] & H).
  apply bind_Done in H as (? & ? & (b & Hb & [= -> ->])%deref_Done & H).
  apply bind_Done in H as (? & ? & [= <- <-] & H).
  apply bind_Done in H as ([] & ? & [= <-] & [= <- <-]).
  exists bs, b. split; [done|]. split; [done|]. split; [done|].
  intros s. rewrite <- Hread. reflexivity.
Qed.

Lemma ssa_dst_Done instr dst chan c c' :
  ssa_dst instr dst chan c = Done (tt, c') ->
  (length (output_updates c) < 16)%nat
  /\ match Dst.File dst with
     | TGSI_FILE_OUTPUT | TGSI_FILE_TEMPORARY =>
         exists b s,
           block c = Some b
           /\ dst_slot b dst chan = Some s
           /\ is_Some (read_slot c s)
           /\ c' = set_output_updates (output_updates c ++ [mk_update instr s]) c
     | _ => c' = c
     end.
Proof.
  intros H. unfold ssa_dst in H.
  apply bind_Done in H as (? & ? & [= <- <-] & H).
  apply bind_Done in H as ([] & ? & [Hlen [= <-]]%compile_assert_Done & H).
  split; [apply Z.ltb_lt in Hlen; lia|].
  unfold dst_slot, read_slot.
  destruct (Dst.File dst); try (by injection H as <-).
  all: apply bind_Done in H as (? & ? & (b & Hb & [= -> ->])%deref_Done & H).
  all: apply bind_Done in H as (? & ? & (blk & Hblk & [= -> ->])%get_block_Done & H).
  all: apply bind_Done in H as ([] & ? & [Hr [= <-]]%compile_assert_Done & [= <-]).
  all: exists b; eexists; split; [done|]; split; [reflexivity|]; simpl.
  all: rewrite Hblk; split; [by apply zlookup_in_range|done].
Qed.

Lemma ir3_reg_create_Done i num flags c p c' :
  ir3_reg_create i num flags c = Done (p, c') ->
  exists ins,
    instrs (ir c) !! i = Some ins
    /\ p = (i, length (Instr.regs ins))
    /\ c' = set_instrs (<[i := add_reg (new_reg num flags) ins]> (instrs (ir c))) c.
Proof.
  rewrite ir3_reg_create_eq. destruct (instrs (ir c) !! i) as [ins|]; [|done].
  intros [= <- <-]. eauto.
Qed.

(** A new operand record, then its update. *)
Lemma reg_create_update i num flags f c p c' :
  (p <- ir3_reg_create i num flags ;; update_reg p f ;;; ret p) c = Done (p, c') ->
  exists ins,
    instrs (ir c) !! i = Some ins
    /\ p = (i, length (Instr.regs ins))
    /\ c' = set_instrs (<[i := add_reg (f (new_reg num flags)) ins]> (instrs (ir c))) c.
Proof.
  intros H. apply bind_Done in H as (p' & c1 & (ins & Hins & -> & ->)%ir3_reg_create_Done & H).
  apply bind_Done in H as ([] & c2 & Hup & [= <- <-]).
  exists ins. split; [done|]. split; [done|].
  rewrite update_reg_eq in Hup. revert Hup. mred.
  rewrite list_lookup_insert_eq by (by eapply lookup_lt_Some).
  unfold add_reg at 1. mred. rewrite lookup_snoc. intros [= <-].
  rewrite list_insert_insert_eq. unfold add_reg. mred. by rewrite insert_snoc.
Qed.

(** ** Operand records, whenever [add_dst_reg] and [add_src_reg] return *)

Lemma add_dst_reg_Done instr dst chan c p c' :
  add_dst_reg instr dst chan c = Done (p, c') ->
  exists ins num,
    instrs (ir c) !! instr = Some ins
    /\ dst_num c dst = Some num
    /\ p = (instr, length (Instr.regs ins))
    /\ let c1 := set_instrs (<[instr := add_reg (dst_record c dst num chan) ins]>
                               (instrs (ir c))) c in
       if atomic c then c' = c1 else ssa_dst instr dst chan c1 = Done (tt, c').
Proof.
  intros H. unfold add_dst_reg, add_dst_reg_wrmask in H.
  apply bind_Done in H as (? & ? & [= <- <-] & H).
  apply bind_Done in H as (num & c1 & Hnum & H).
  assert (Hn : dst_num c dst = Some num /\ c1 = c).
  { unfold dst_num. destruct (Dst.File dst); try done; by injection Hnum as <- <-. }
  destruct Hn as [Hn ->]. clear Hnum.
  apply bind_Done in H as (q & c1 & Hreg & H).
  apply bind_Done in H as ([] & c2 & Hup & H).
  assert (Hboth : (q0 <- ir3_reg_create instr (regid num chan) (dst_flags c dst) ;;
                   update_reg q0 (Reg.set_wrmask 1) ;;; ret q0) c = Done (q, c2)).
  { rewrite (bind_Done_intro _ _ _ _ _ Hreg).
    by rewrite (bind_Done_intro _ _ _ _ _ Hup). }
  apply reg_create_update in Hboth as (ins & Hins & -> & ->). clear Hreg Hup.
  apply bind_Done in H as ([] & c3 & H & [= <- <-]).
  exists ins, num. split; [done|]. split; [done|]. split; [done|].
  change (1 =? 1) with true in H. cbv zeta.
  destruct (atomic c); [by injection H as <-|exact H].
Qed.

Lemma add_src_reg_Done instr src chan c p c' :
  add_src_reg instr src chan c = Done (p, c') ->
  exists ins num,
    instrs (ir c) !! instr = Some ins
    /\ Src.Index src < 64
    /\ src_num c src = Some num
    /\ p = (instr, length (Instr.regs ins))
    /\ ssa_src p src chan
         (set_instrs (<[instr := add_reg (src_record c src num chan) ins]>
                        (instrs (ir c))) c) = Done (tt, c').
Proof.
  intros H. unfold add_src_reg, add_src_reg_wrmask in H.
  apply bind_Done in H as (? & ? & [= <- <-] & H).
  apply bind_Done in H as ([] & ? & [Hidx [= ->]]%compile_assert_Done & H).
  apply bind_Done in H as (res & c1 & Hres & H).
  assert (Hn : src_num c src = Some res.2
               /\ res.1 = (if is_const src then IR3_REG_CONST else 0) /\ c1 = c).
  { unfold src_num, is_const. destruct (Src.File src); try done;
      by injection Hres as <- <-. }
  destruct Hn as (Hn & Hfl & ->). clear Hres. rewrite Hfl in H.
  apply bind_Done in H as (q & c1 & Hreg & H).
  apply bind_Done in H as ([] & c2 & Hup & H).
  assert (Hboth : (q0 <- ir3_reg_create instr (regid res.2 chan) (src_flags c src) ;;
                   update_reg q0 (Reg.set_wrmask 1) ;;; ret q0) c = Done (q, c2)).
  { rewrite (bind_Done_intro _ _ _ _ _ Hreg).
    by rewrite (bind_Done_intro _ _ _ _ _ Hup). }
  apply reg_create_update in Hboth as (ins & Hins & -> & ->). clear Hreg Hup.
  apply bind_Done in H as ([] & c3 & H & [= <- <-]).
  exists ins, res.2. split; [done|]. split; [by apply Z.ltb_lt|].
  split; [done|]. split; [done|].
  change (1 =? 1) with true in H. exact H.
Qed.

(** ** The emitter, run forward *)

Lemma instr_finish_run c :
  atomic c = false ->
  wf_queue c ->
  exists bs,
    instr_finish c = Done (tt, set_output_updates [] (set_blocks bs c))
    /\ (forall s, read_slot (set_blocks bs c) s = live c s).
Proof.
  intros Hat Hq.
  destruct (flush_spec (output_updates c) c) as (c1 & Hrun & _ & _).
  { intros u Hu. unfold wf_queue in Hq. rewrite Forall_forall in Hq. by apply Hq. }
  assert (Hfin : instr_finish c = Done (tt, set_output_updates [] c1)).
  { unfold instr_finish. mstep. rewrite Hat.
    by rewrite (bind_Done_intro _ _ _ _ _ Hrun). }
  destruct (instr_finish_Done _ _ Hat Hfin) as (bs & Heq & Hread).
  exists bs. rewrite Hfin, Heq. split; [done|].
  intros s. rewrite <- Hread, Heq. reflexivity.
Qed.

Lemma instr_create_run category opc c b :
  atomic c = false ->
  wf_queue c ->
  block c = Some b ->
  exists bs,
    instr_create category opc c =
      Done (length (instrs (ir c)),
            set_current_instr (Some (length (instrs (ir c))))
              (set_instrs (instrs (ir c) ++ [new_instr b category opc])
                 (set_output_updates [] (set_blocks bs c))))
    /\ (forall s, read_slot (set_blocks bs c) s = live c s).
Proof.
  intros Hat Hq Hb. destruct (instr_finish_run c Hat Hq) as (bs & Hfin & Hread).
  exists bs. split; [|done].
  unfold instr_create. rewrite (bind_Done_intro _ _ _ _ _ Hfin).
  mstep. rewrite Hb. mstep. mstep. mstep. reflexivity.
Qed.

Lemma reg_create_update_run i num flags f c ins :
  instrs (ir c) !! i = Some ins ->
  (p <- ir3_reg_create i num flags ;; update_reg p f ;;; ret p) c =
  Done ((i, length (Instr.regs ins)),
        set_instrs (<[i := add_reg (f (new_reg num flags)) ins]> (instrs (ir c))) c).
Proof.
  intros Hins. unfold bind at 1. rewrite ir3_reg_create_eq, Hins.
  unfold bind at 1. rewrite update_reg_eq. mred.
  rewrite list_lookup_insert_eq by (by eapply lookup_lt_Some).
  mred. rewrite lookup_snoc, list_insert_insert_eq, insert_snoc. reflexivity.
Qed.

Lemma ssa_dst_run instr dst chan c b s :
  (length (output_updates c) < 16)%nat ->
  block c = Some b ->
  dst_slot b dst chan = Some s ->
  is_Some (read_slot c s) ->
  ssa_dst instr dst chan c =
  Done (tt, set_output_updates (output_updates c ++ [mk_update instr s]) c).
Proof.
  intros Hlen Hb Hs Hrd. unfold ssa_dst. mstep.
  replace (Z.of_nat (length (output_updates c)) <? 16) with true
    by (symmetry; apply Z.ltb_lt; lia).
  mstep. unfold dst_slot in Hs. unfold read_slot in Hrd.
  destruct (Dst.File dst); try done; injection Hs as <-; simpl in Hrd;
    destruct (blocks (ir c) !! b) as [blk|] eqn:Hblk; try (by destruct Hrd);
    rewrite Hb; mstep; rewrite (bind_Done_intro _ _ _ _ _ (run_get_block _ _ _ Hblk));
    apply zlookup_in_range in Hrd; rewrite Hrd; mstep; reflexivity.
Qed.

Lemma add_dst_reg_run instr dst chan c ins num :
  instrs (ir c) !! instr = Some ins ->
  dst_num c dst = Some num ->
  add_dst_reg instr dst chan c =
  ((if atomic c then ret tt else ssa_dst instr dst chan) ;;;
   ret (instr, length (Instr.regs ins)))
    (set_instrs (<[instr := add_reg (dst_record c dst num chan) ins]> (instrs (ir c))) c).
Proof.
  intros Hins Hnum. unfold add_dst_reg, add_dst_reg_wrmask. mstep.
  assert (Hn : match Dst.File dst with
               | TGSI_FILE_OUTPUT | TGSI_FILE_TEMPORARY =>
                   ret (Dst.Index dst + base_reg c (Dst.File dst))
               | TGSI_FILE_ADDRESS => ret REG_A0
               | _ => compile_error
               end c = Done (num, c)).
  { unfold dst_num in Hnum. destruct (Dst.File dst); try done; by injection Hnum as <-. }
  rewrite (bind_Done_intro _ _ _ _ _ Hn).
  pose proof (reg_create_update_run instr (regid num chan) (dst_flags c dst)
                (Reg.set_wrmask 1) c ins Hins) as Hreg.
  unfold bind in Hreg |- *. unfold dst_flags in Hreg.
  destruct (ir3_reg_create instr (regid num chan) _ c) as [[q c1]| |]; try done.
  destruct (update_reg q (Reg.set_wrmask 1) c1) as [[[] c2]| |]; try done.
  injection Hreg as -> ->. change (1 =? 1) with true.
  unfold dst_record, dst_flags.
  by destruct ((if atomic c then ret tt else ssa_dst instr dst chan) _) as [[[] ?]| |].
Qed.

Lemma add_src_reg_run instr src chan c ins num :
  instrs (ir c) !! instr = Some ins ->
  Src.Index src < 64 ->
  src_num c src = Some num ->
  add_src_reg instr src chan c =
  (ssa_src (instr, length (Instr.regs ins)) src chan ;;;
   ret (instr, length (Instr.regs ins)))
    (set_instrs (<[instr := add_reg (src_record c src num chan) ins]> (instrs (ir c))) c).
Proof.
  intros Hins Hidx Hnum. unfold add_src_reg, add_src_reg_wrmask. mstep.
  replace (Src.Index src <? 64) with true by (symmetry; by apply Z.ltb_lt).
  mstep.
  assert (Hn : match Src.File src with
               | TGSI_FILE_IMMEDIATE | TGSI_FILE_CONSTANT =>
                   ret (IR3_REG_CONST, Src.Index src + base_reg c (Src.File src))
               | TGSI_FILE_OUTPUT | TGSI_FILE_INPUT | TGSI_FILE_TEMPORARY =>
                   ret (0, Src.Index src + base_reg c (Src.File src))
               | _ => compile_error
               end c = Done ((if is_const src then IR3_REG_CONST else 0, num), c)).
  { unfold src_num, is_const in *. destruct (Src.File src); try done;
      by injection Hnum as <-. }
  rewrite (bind_Done_intro _ _ _ _ _ Hn). mred.
  pose proof (reg_create_update_run instr (regid num chan) (src_flags c src)
                (Reg.set_wrmask 1) c ins Hins) as Hreg.
  unfold bind in Hreg |- *. unfold src_flags in Hreg.
  destruct (ir3_reg_create instr (regid num chan) _ c) as [[q c1]| |]; try done.
  destruct (update_reg q (Reg.set_wrmask 1) c1) as [[[] c2]| |]; try done.
  injection Hreg as -> ->. change (1 =? 1) with true.
  unfold src_record, src_flags. by destruct (ssa_src _ _ _ _) as [[[] ?]| |].
Qed.

(** ** Destination-equals-source hazards *)

Lemma get_dst_loop_keep dst srcs c :
  existsb (fun src => same_register dst src && negb (trivial_reuse dst src)) srcs = false ->
  get_dst_loop dst srcs c = Done (DstInst, c).
Proof.
  induction srcs as [|src rest IH]; simpl; [done|].
  intros [H1 H2]%orb_false_elim.
  destruct (same_register dst src); [|by apply IH].
  destruct (trivial_reuse dst src); [by apply IH|done].
Qed.

Lemma get_dst_loop_redirect dst srcs c :
  existsb (fun src => same_register dst src && negb (trivial_reuse dst src)) srcs = true ->
  0 <= num_internal_temps c < 6 ->
  length (internal_temps c) = 6%nat ->
  get_dst_loop dst srcs c = Done (DstTmp, redirected dst c).
Proof.
  intros Hex Hn Hlen. induction srcs as [|src rest IH]; simpl in *; [done|].
  destruct (same_register dst src); [|by apply IH].
  destruct (trivial_reuse dst src); [by apply IH|]. clear IH Hex.
  unfold get_internal_temp. mstep. mstep. mstep.
  replace (num_internal_temps c <? 6) with true by (symmetry; apply Z.ltb_lt; lia).
  mstep. rewrite zinsert_in_range by (rewrite in_range_lt; lia). 
  repeat mstep. by destruct c.
Qed.

Lemma regid_num n comp : Z.shiftr (regid n comp) 2 = n.
Proof.
  unfold regid. rewrite Z.shiftr_lor, Z.shiftr_shiftl_l by lia.
  change (2 - 2) with 0. rewrite Z.shiftl_0_r.
  rewrite Z.shiftr_land. change (Z.shiftr 3 2) with 0.
  by rewrite Z.land_0_r, Z.lor_0_r.
Qed.

Lemma regid_comp n comp : Z.land (regid n comp) 3 = Z.land comp 3.
Proof.
  unfold regid. rewrite Z.land_lor_distr_l.
  replace (Z.land (Z.shiftl n 2) 3) with 0.
  - rewrite Z.lor_0_l, <- Z.land_assoc. reflexivity.
  - symmetry. apply Z.bits_inj'. intros k Hk.
    rewrite Z.land_spec, Z.bits_0.
    destruct (Z.ltb_spec k 2).
    + rewrite Z.shiftl_spec_low by lia. reflexivity.
    + change 3 with (Z.ones 2). rewrite Z.ones_spec_high by lia. apply andb_false_r.
Qed.

Lemma regid_inj n i j :
  0 <= i < 4 -> 0 <= j < 4 -> regid n i = regid n j -> i = j.
Proof.
  intros Hi Hj H. apply (f_equal (fun x => Z.land x 3)) in H.
  rewrite !regid_comp in H.
  assert (Hs : forall k, 0 <= k < 4 -> Z.land k 3 = k).
  { intros k Hk. assert (k = 0 \/ k = 1 \/ k = 2 \/ k = 3) as [->|[->|[->| ->]]] by lia;
      reflexivity. }
  by rewrite !Hs in H.
Qed.

Lemma live_flushed c bs s :
  live (set_output_updates [] (set_blocks bs c)) s = read_slot (set_blocks bs c) s.
Proof. reflexivity. Qed.

Lemma set_operand_snoc l ins r r' :
  set_operand (length l, length (Instr.regs ins)) r' (l ++ [add_reg r ins])
  = l ++ [add_reg r' ins].
Proof.
  unfold set_operand. cbn [fst snd]. rewrite lookup_snoc, insert_snoc.
  unfold add_reg. destruct ins. cbn [Instr.regs Instr.set_regs].
  by rewrite insert_snoc.
Qed.

(** One round of [create_mov]: one move, whose write is the only one
    pending afterwards. *)
Lemma create_mov_step c b dst src i s v :
  atomic c = false ->
  wf_queue c ->
  block c = Some b ->
  Src.File src = TGSI_FILE_TEMPORARY ->
  Src.Index src < 64 ->
  dst_slot b dst i = Some s ->
  is_Some (live c s) ->
  live c (src_slot b src i) = Some (Some v) ->
  exists c',
    (instr <- (instr <- instr_create 1 0 ;;
               update_instr instr (Instr.set_cat1 (get_ftype c) (get_ftype c)) ;;;
               ret instr) ;;
     add_dst_reg instr dst i ;;;
     add_src_reg instr src (src_swiz src i) ;;;
     ret tt) c = Done (tt, c')
    /\ instrs (ir c') = instrs (ir c) ++ [mov_node c b dst src i v]
    /\ (forall s', live c' s' = if decide (s' = s)
                                then Some (Some (length (instrs (ir c))))
                                else live c s')
    /\ atomic c' = false /\ wf_queue c' /\ block c' = Some b
    /\ so c' = so c /\ base_reg c' = base_reg c.
Proof.
  intros Hat Hq Hb Hf Hidx Hs Hlive Hv.
  destruct (instr_create_run 1 0 c b Hat Hq Hb) as (bs & Hcr & Hread).
  unfold bind at 1. unfold bind at 1. rewrite Hcr.
  unfold bind at 1. rewrite update_instr_eq. mred.
  rewrite lookup_snoc, insert_snoc. mred.
  set (ins0 := Instr.set_cat1 _ _ _).
  assert (Hnum : forall c0, base_reg c0 = base_reg c ->
            dst_num c0 dst = Some (Dst.Index dst + base_reg c (Dst.File dst))).
  { intros c0 Hc0. unfold dst_num, dst_slot in *. rewrite Hc0.
    by destruct (Dst.File dst). }
  unfold bind at 1.
  erewrite (add_dst_reg_run _ dst i _ ins0);
    [|mred; apply lookup_snoc|by apply Hnum].
  mred. rewrite Hat, insert_snoc. unfold bind at 1.
  erewrite (ssa_dst_run _ dst i _ b s); [|simpl; lia|exact Hb|exact Hs|].
  2:{ rewrite <- Hread in Hlive. exact Hlive. }
  mred. unfold bind at 1.
  erewrite (add_src_reg_run _ src _ _ (add_reg _ ins0));
    [|mred; apply lookup_snoc|exact Hidx|by unfold src_num; rewrite Hf].
  mred. rewrite insert_snoc. unfold bind at 1.
  pose proof (Hread (src_slot b src i)) as Hsrc. rewrite Hv in Hsrc.
  unfold read_slot in Hsrc. simpl in Hsrc.
  destruct (bs !! b) as [blk|] eqn:Hblk; [|done].
  erewrite (ssa_src_temporary_local _ src _ _ _ b blk v);
    [|exact Hf| |exact Hb|exact Hblk|exact Hsrc].
  2:{ apply reg_at_Some. eexists. split; [mred; apply lookup_snoc|].
      apply lookup_snoc. }
  mred. eexists. split; [reflexivity|]. mred.
  rewrite set_operand_snoc.
  split; [unfold mov_node; rewrite Hf; reflexivity|]. split.
  { intros s'. unfold live at 1. mred. cbn [app queued upd_instrp upd_instr].
    destruct (decide (s = s')) as [->|Hne].
    - by rewrite decide_True.
    - rewrite decide_False by congruence. apply Hread. }
  split; [exact Hat|]. split; [|done].
  constructor; [|constructor]. cbn [upd_instrp].
  rewrite <- Hread in Hlive. exact Hlive.
Qed.

Lemma mov_node_frame c c' b dst src i p :
  so c' = so c -> base_reg c' = base_reg c ->
  mov_node c' b dst src i p = mov_node c b dst src i p.
Proof.
  intros Hso Hbase.
  unfold mov_node, dst_record, src_record, dst_flags, src_flags, get_ftype.
  by rewrite Hso, Hbase.
Qed.

(** The rounds of [create_mov] over a plain temporary: one move per
    enabled component, in order, each defining its destination slot. *)
Lemma create_mov_loop dst src b ty (p : Z -> instr_id) (sl : Z -> slot) :
  let en := fun i => has_flag (Dst.WriteMask dst) (bit i) = true in
  Src.File src = TGSI_FILE_TEMPORARY ->
  Src.Absolute src = false ->
  Src.Negate src = false ->
  Src.Index src < 64 ->
  forall l c,
    NoDup l ->
    (forall i, i ∈ l -> en i -> dst_slot b dst i = Some (sl i)) ->
    (forall i j, i ∈ l -> j ∈ l -> en i -> en j -> sl i = sl j -> i = j) ->
    (forall i j, i ∈ l -> j ∈ l -> en i -> en j -> sl i <> src_slot b src j) ->
    atomic c = false ->
    wf_queue c ->
    block c = Some b ->
    get_ftype c = ty ->
    (forall i, i ∈ l -> en i -> is_Some (live c (sl i))) ->
    (forall i, i ∈ l -> en i -> live c (src_slot b src i) = Some (Some (p i))) ->
    exists c',
      forM l (fun i =>
        if has_flag (Dst.WriteMask dst) (bit i) then
          instr <- (if Src.Absolute src || Src.Negate src then
                      instr_create 2 OPC_ABSNEG_F
                    else
                      instr <- instr_create 1 0 ;;
                      update_instr instr (Instr.set_cat1 ty ty) ;;;
                      ret instr) ;;
          add_dst_reg instr dst i ;;;
          add_src_reg instr src (src_swiz src i) ;;;
          ret tt
        else ret tt) c = Done (tt, c')
      /\ instrs (ir c') =
           instrs (ir c) ++ map (fun i => mov_node c b dst src i (p i)) (filter en l)
      /\ (forall k i, filter en l !! k = Some i ->
            live c' (sl i) = Some (Some (length (instrs (ir c)) + k)%nat))
      /\ (forall s, (forall i, i ∈ l -> en i -> s <> sl i) -> live c' s = live c s).
Proof.
  intros en Hf Habs Hneg Hidx. rewrite Habs, Hneg. cbn [orb].
  induction l as [|i l IH]; intros c Hnd Hdst Hinj Hsep Hat Hq Hb Hty Hvalid Hsrc.
  - exists c. split; [done|]. split; [by rewrite app_nil_r|]. split; [done|done].
  - apply NoDup_cons in Hnd as [Hi Hnd].
    cbn [forM]. destruct (has_flag (Dst.WriteMask dst) (bit i)) eqn:Hen.
    + destruct (create_mov_step c b dst src i (sl i) (p i)) as
        (c1 & Hrun & Hins & Hlive & Hat1 & Hq1 & Hb1 & Hso & Hbase);
        [done|done|done|done|done|apply Hdst; [left|done]
        |apply Hvalid; [left|done]|apply Hsrc; [left|done]|].
      rewrite Hty in Hrun. unfold bind at 1. rewrite Hrun.
      destruct (IH c1) as (c' & Hrest & Hins' & Hdef & Hframe).
      * done.
      * intros j Hj. apply Hdst. by right.
      * intros j1 j2 H1 H2. apply Hinj; by right.
      * intros j1 j2 H1 H2. apply Hsep; by right.
      * done.
      * done.
      * done.
      * rewrite <- Hty. unfold get_ftype. by rewrite Hso.
      * intros j Hj Hej. rewrite Hlive. destruct (decide _); [eauto|].
        apply Hvalid; [by right|done].
      * intros j Hj Hej. rewrite Hlive. rewrite decide_False.
        -- apply Hsrc; [by right|done].
        -- intros Heq. eapply Hsep; [left|by right|done|done|done].
      * exists c'. split; [exact Hrest|].
        rewrite filter_cons_True by done. split; [|split].
        -- rewrite Hins', Hins, <- app_assoc. cbn [app map]. do 2 f_equal.
           apply map_ext. intros j. by apply mov_node_frame.
        -- intros [|k] j Hk; cbn in Hk.
           ++ injection Hk as <-. rewrite Hframe.
              ** rewrite Hlive, decide_True by done. by rewrite Nat.add_0_r.
              ** intros j Hj Hej Heq. apply Hi.
                 rewrite (Hinj i j); [done|left|by right|done|done|done].
           ++ rewrite (Hdef k j Hk), Hins, length_app. cbn. do 2 f_equal. lia.
        -- intros s Hs. rewrite Hframe.
           ++ rewrite Hlive, decide_False; [done|]. apply Hs; [left|done].
           ++ intros j Hj. apply Hs. by right.
    + unfold bind at 1. rewrite ret_run.
      destruct (IH c) as (c' & Hrest & Hins' & Hdef & Hframe).
      * done.
      * intros j Hj. apply Hdst. by right.
      * intros j1 j2 H1 H2. apply Hinj; by right.
      * intros j1 j2 H1 H2. apply Hsep; by right.
      * done.
      * done.
      * done.
      * done.
      * intros j Hj. apply Hvalid. by right.
      * intros j Hj. apply Hsrc. by right.
      * exists c'. split; [exact Hrest|].
        rewrite filter_cons_False by (unfold en; by rewrite Hen).
        split; [done|]. split; [done|].
        intros s Hs. apply Hframe. intros j Hj. apply Hs. by right.
Qed.

Lemma elem_of_chans i : i ∈ chans -> 0 <= i < 4.
Proof.
  unfold chans. rewrite !elem_of_cons, elem_of_nil. lia.
Qed.

Lemma elem_of_enabled mask i :
  i ∈ enabled mask <-> i ∈ chans /\ has_flag mask (bit i) = true.
Proof. unfold enabled. rewrite list_elem_of_filter. tauto. Qed.

Lemma dst_slot_inj b dst i j :
  0 <= i < 4 -> 0 <= j < 4 ->
  is_Some (dst_slot b dst i) -> dst_slot b dst i = dst_slot b dst j -> i = j.
Proof.
  unfold dst_slot. intros Hi Hj Hs H.
  destruct (Dst.File dst); try (by destruct Hs);
    injection H as H; by apply regid_inj in H.
Qed.

Lemma dst_slot_src_slot b dst src i j :
  Src.File src = TGSI_FILE_TEMPORARY ->
  same_register dst src = false ->
  dst_slot b dst i <> Some (src_slot b src j).
Proof.
  unfold same_register, dst_slot, src_slot. intros Hf Hsame H.
  rewrite Hf in Hsame.
  destruct (Dst.File dst); try done. injection H as H.
  rewrite bool_decide_eq_true_2 in Hsame by done.
  apply (f_equal (fun x => Z.shiftr x 2)) in H. rewrite !regid_num in H.
  apply Z.eqb_neq in Hsame. congruence.
Qed.

(** [put_dst] for a redirected destination. *)
Lemma put_dst_moves inst c n tmp b (p : Z -> instr_id) :
  let dst := Dst0 inst in
  atomic c = false ->
  wf_queue c ->
  block c = Some b ->
  tmp_src c = Some n ->
  internal_temps c !! n = Some tmp ->
  Src.File tmp = TGSI_FILE_TEMPORARY ->
  Src.Absolute tmp = false ->
  Src.Negate tmp = false ->
  Src.Index tmp < 64 ->
  same_register dst tmp = false ->
  (forall i, i ∈ enabled (Dst.WriteMask dst) ->
     exists s, dst_slot b dst i = Some s /\ is_Some (live c s)) ->
  (forall i, i ∈ enabled (Dst.WriteMask dst) ->
     live c (src_slot b tmp i) = Some (Some (p i))) ->
  exists c',
    put_dst inst DstTmp c = Done (tt, c')
    /\ instrs (ir c') =
         instrs (ir c)
         ++ map (fun i => mov_node c b dst tmp i (p i)) (enabled (Dst.WriteMask dst))
    /\ (forall k i s,
          enabled (Dst.WriteMask dst) !! k = Some i ->
          dst_slot b dst i = Some s ->
          live c' s = Some (Some (length (instrs (ir c)) + k)%nat)).
Proof.
  intros dst Hat Hq Hb Hn Htmp Hf Habs Hneg Hidx Hsame Hdst Hsrc.
  assert (Hsl : forall i, i ∈ chans -> has_flag (Dst.WriteMask dst) (bit i) = true ->
            dst_slot b dst i = Some (dst_slot_of b dst i)
            /\ is_Some (live c (dst_slot_of b dst i))).
  { intros i Hi Hen. destruct (Hdst i) as (s & Hs & Hl); [by apply elem_of_enabled|].
    unfold dst_slot_of. by rewrite Hs. }
  destruct (create_mov_loop dst tmp b (get_ftype c) p (dst_slot_of b dst)
              Hf Habs Hneg Hidx chans c) as (c' & Hrun & Hins & Hdef & _).
  - unfold chans. apply (bool_decide_unpack _). by vm_compute.
  - intros i Hi Hen. by apply Hsl.
  - intros i j Hi Hj Hei Hej Heq.
    destruct (Hsl i Hi Hei) as [Hsi _]. destruct (Hsl j Hj Hej) as [Hsj _].
    apply (dst_slot_inj b dst); [by apply elem_of_chans|by apply elem_of_chans| |].
    + rewrite Hsi. eauto.
    + by rewrite Hsi, Hsj, Heq.
  - intros i j Hi Hj Hei Hej Heq. destruct (Hsl i Hi Hei) as [Hsi _].
    rewrite Heq in Hsi. by eapply dst_slot_src_slot.
  - done.
  - done.
  - done.
  - done.
  - intros i Hi Hen. by apply Hsl.
  - intros i Hi Hen. apply Hsrc. by apply elem_of_enabled.
  - exists c'. split; [|split].
    + unfold put_dst. mstep. rewrite Hn. mstep. mstep.
      unfold internal_temp. mstep. rewrite Htmp. mred.
      unfold create_mov. mstep. exact Hrun.
    + exact Hins.
    + intros k i s Hk Hs. rewrite <- (Hdef k i Hk). f_equal.
      unfold dst_slot_of. by rewrite Hs.
Qed.

(** C4, counterexample.  ADD TEMP[0].xy, TEMP[0].yxzw, CONST[0] names
    its destination among its sources non-trivially; lowering it after
    TEMP[0] := CONST[0] appends two additions and then two moves, not
    one. *)
Lemma hazard_appends_two_moves :
  reuses_dst ex_hazard = true
  /\ new_kinds (compile_instruction ex_hazard) ex_hazard_pre
     = Some [(2, OPC_ADD_F); (2, OPC_ADD_F); (1, 0); (1, 0)].
Proof. split; by vm_compute. Qed.

(** C4, as the code has it.  When no source names the destination
    register non-trivially, [get_dst] hands back the instruction's own
    destination and changes nothing, and [put_dst] adds nothing.  When
    one does, [get_dst] redirects to the next internal temporary, with
    the destination's write-mask.  [put_dst] then copies the temporary
    back: it appends one move per component the write-mask enables, in
    increasing order, each reading the value the temporary's component
    holds and each becoming the value of its component of the true
    destination. *)
Theorem get_dst_put_dst_redirect inst :
  let dst := Dst0 inst in
  (forall c,
     reuses_dst inst = false ->
     get_dst inst c = Done (DstInst, c) /\ put_dst inst DstInst c = Done (tt, c))
  /\ (forall c,
        reuses_dst inst = true ->
        0 <= num_internal_temps c < 6 ->
        length (internal_temps c) = 6%nat ->
        get_dst inst c = Done (DstTmp, redirected dst c)
        /\ read_dst inst DstTmp (redirected dst c)
           = Done (fresh_temporary (Dst.WriteMask dst) c, redirected dst c))
  /\ (forall c n tmp b (p : Z -> instr_id),
        atomic c = false ->
        wf_queue c ->
        block c = Some b ->
        tmp_src c = Some n ->
        internal_temps c !! n = Some tmp ->
        Src.File tmp = TGSI_FILE_TEMPORARY ->
        Src.Absolute tmp = false ->
        Src.Negate tmp = false ->
        Src.Index tmp < 64 ->
        same_register dst tmp = false ->
        (forall i, i ∈ enabled (Dst.WriteMask dst) ->
           exists s, dst_slot b dst i = Some s /\ is_Some (live c s)) ->
        (forall i, i ∈ enabled (Dst.WriteMask dst) ->
           live c (src_slot b tmp i) = Some (Some (p i))) ->
        exists c',
          put_dst inst DstTmp c = Done (tt, c')
          /\ instrs (ir c') =
               instrs (ir c)
               ++ map (fun i => mov_node c b dst tmp i (p i))
                    (enabled (Dst.WriteMask dst))
          /\ (forall k i s,
                enabled (Dst.WriteMask dst) !! k = Some i ->
                dst_slot b dst i = Some s ->
                live c' s = Some (Some (length (instrs (ir c)) + k)%nat))).
Proof.
  intros dst. split; [|split].
  - intros c H. split; [|done]. by apply get_dst_loop_keep.
  - intros c H Hn Hlen. split; [|done]. by apply get_dst_loop_redirect.
  - intros c n tmp b p. apply put_dst_moves.
Qed.

(** MOV TEMP[0], TEMP[0] is lowered in place; for
    ADD TEMP[0].xy, TEMP[0].yxzw, CONST[0] the destination becomes
    TEMP[2] and [put_dst] appends the moves of TEMP[2].x and TEMP[2].y. *)
Lemma get_dst_put_dst_redirect_example :
  (get_dst ex_trivial ex_hazard_pre = Done (DstInst, ex_hazard_pre)
   /\ put_dst ex_trivial DstInst ex_hazard_pre = Done (tt, ex_hazard_pre))
  /\ (get_dst ex_hazard ex_hazard_pre
        = Done (DstTmp, redirected (Dst0 ex_hazard) ex_hazard_pre)
      /\ read_dst ex_hazard DstTmp (redirected (Dst0 ex_hazard) ex_hazard_pre)
         = Done (TEMP_dst 2 3, redirected (Dst0 ex_hazard) ex_hazard_pre))
  /\ exists c',
       put_dst ex_hazard DstTmp ex_hazard_mid = Done (tt, c')
       /\ instrs (ir c') =
            instrs (ir ex_hazard_mid)
            ++ [mov_node ex_hazard_mid 0 (TEMP_dst 0 3) (TEMP 2) 0 4;
                mov_node ex_hazard_mid 0 (TEMP_dst 0 3) (TEMP 2) 1 5].
Proof.
  split; [|split].
  - apply (get_dst_put_dst_redirect ex_trivial). by vm_compute.
  - apply (get_dst_put_dst_redirect ex_hazard); [by vm_compute|by vm_compute|by vm_compute].
  - destruct (get_dst_put_dst_redirect ex_hazard) as (_ & _ & H).
    destruct (H ex_hazard_mid 0%nat (TEMP 2) 0%nat
                (fun i => if i =? 0 then 4%nat else 5%nat)) as (c' & Hrun & Hins & _).
    + by vm_compute.
    + by vm_compute.
    + by vm_compute.
    + by vm_compute.
    + by vm_compute.
    + reflexivity.
    + reflexivity.
    + reflexivity.
    + by vm_compute.
    + by vm_compute.
    + intros i Hi. change (enabled _) with [0; 1] in Hi.
      apply elem_of_cons in Hi as [->|Hi];
        [|apply elem_of_cons in Hi as [->|Hi]; [|by apply elem_of_nil in Hi]];
        (eexists; split; [reflexivity|vm_compute; eexists; reflexivity]).
    + intros i Hi. change (enabled _) with [0; 1] in Hi.
      apply elem_of_cons in Hi as [->|Hi];
        [|apply elem_of_cons in Hi as [->|Hi]; [|by apply elem_of_nil in Hi]];
        by vm_compute.
    + exists c'. split; [exact Hrun|exact Hins].
Defined.

(** ** Vector expansion *)

Lemma evolves_refl c : evolves c c.
Proof. unfold evolves. split; [lia|]. split; [apply blocks_agree_refl|done]. Qed.

Lemma evolves_trans c1 c2 c3 : evolves c1 c2 -> evolves c2 c3 -> evolves c1 c3.
Proof.
  intros (H1 & H2 & H3 & H4 & H5 & H6 & H7) (G1 & G2 & G3 & G4 & G5 & G6 & G7).
  unfold evolves. split; [lia|]. split; [by eapply blocks_agree_trans|].
  repeat split; congruence.
Qed.

Lemma evolves_read_slot c c' s : evolves c c' -> read_slot c' s = read_slot c s.
Proof.
  intros (_ & Hbs & _). unfold read_slot.
  destruct (blocks (ir c) !! slot_block s) as [blk|] eqn:Hb.
  - destruct (blocks_agree_lookup _ _ _ _ Hbs Hb) as (blk' & -> & (_ & Ht & Ho & _)).
    by rewrite Ht, Ho.
  - apply lookup_ge_None in Hb. rewrite (Forall2_length _ _ _ Hbs) in Hb.
    apply lookup_ge_None in Hb. by rewrite Hb.
Qed.

Lemma set_regs_set_regs x y ins :
  Instr.set_regs x (Instr.set_regs y ins) = Instr.set_regs x ins.
Proof. by destruct ins. Qed.

Lemma set_regs_id ins : Instr.set_regs (Instr.regs ins) ins = ins.
Proof. by destruct ins. Qed.

(** The shape [ssa_src] leaves is a rewrite of one operand. *)
Lemma rewrites_intro p r r' c L bs' :
  reg_at c p = Some r ->
  blocks_agree (blocks (ir c)) bs' ->
  rewrites p r r' c
    (set_instrs (set_operand p r' (instrs (ir c) ++ L)) (set_blocks bs' c)).
Proof.
  intros (ins & Hi & Hr)%reg_at_Some Hbs.
  assert (Hlt : (p.1 < length (instrs (ir c)))%nat) by (by eapply lookup_lt_Some).
  split; [|split; [done|split]].
  - unfold evolves. mred. rewrite set_operand_length, length_app.
    split; [lia|]. by split.
  - intros k Hk Hlen. mred. rewrite set_operand_lookup_ne by done.
    by apply lookup_app_l.
  - exists ins. split; [done|]. split; [done|]. mred.
    apply set_operand_lookup. by apply lookup_app_l_Some.
Qed.

Lemma rewrites_refl p r c : reg_at c p = Some r -> rewrites p r r c c.
Proof.
  intros (ins & Hi & Hr)%reg_at_Some.
  split; [apply evolves_refl|]. split; [done|]. split; [done|].
  exists ins. split; [done|]. split; [done|].
  by rewrite list_insert_id, set_regs_id.
Qed.

Lemma get_reg_Done p c r c' :
  get_reg p c = Done (r, c') -> reg_at c p = Some r /\ c' = c.
Proof.
  rewrite get_reg_eq. fold (reg_at c p).
  destruct (reg_at c p); [|done]. by intros [= -> ->].
Qed.

Lemma ssa_src_rewrites reg src chan c c' :
  ssa_src reg src chan c = Done (tt, c') ->
  exists r r',
    rewrites reg r r' c c'
    /\ Reg.num r' = Reg.num r
    /\ (ssa_file (Src.File src) = false ->
        has_flag (Reg.flags r) IR3_REG_SSA = false -> r' = r)
    /\ (ssa_file (Src.File src) = true ->
        exists p, r' = resolved_to p r
          /\ forall b v, block c = Some b ->
               Src.File src = TGSI_FILE_TEMPORARY ->
               read_slot c (mk_slot b SlotTemporary (regid (Src.Index src) chan))
               = Some (Some v) -> p = v).
Proof.
  intros H. destruct (ssa_file (Src.File src)) eqn:Hf.
  - destruct (ssa_src_Done _ _ _ _ _ Hf H) as (r & p & L & bs' & Hr & -> & Hbs).
    exists r, (resolved_to p r). split; [by apply rewrites_intro|].
    split; [done|]. split; [done|].
    intros _. exists p. split; [done|]. intros b v Hb Hfile Hv.
    unfold read_slot in Hv. simpl in Hv.
    destruct (blocks (ir c) !! b) as [blk|] eqn:Hblk; [|done].
    rewrite (ssa_src_temporary_local _ _ _ _ r b blk v Hfile Hr Hb Hblk Hv) in H.
    apply (f_equal (fun o => reg_at (run_from (fun _ => o) c) reg)) in H.
    unfold run_from in H. cbn [state_of default id] in H.
    rewrite (reg_at_set_operand0 c reg r _ Hr) in H.
    pose proof (reg_at_set_operand (set_blocks bs' c) reg r (resolved_to p r) L Hr) as H'.
    cbn [set_blocks set_ir ir instrs] in H'. rewrite H' in H.
    by injection H.
  - unfold ssa_src in H.
    apply bind_Done in H as (c0 & ? & [= <- <-] & H).
    apply bind_Done in H as ([] & c2 & Hsw & Htail).
    assert (c2 = c) as -> by (destruct (Src.File src); try done; by injection Hsw).
    clear Hsw. assert (Htail' := Htail).
    apply bind_Done in Htail' as (r & c3 & [Hr ->]%get_reg_Done & _).
    destruct (has_flag (Reg.flags r) IR3_REG_SSA) eqn:Hssa.
    + destruct (ssa_src_tail_Done _ _ _ _ Hr Hssa Htail) as (p & L & -> & _).
      exists r, (Reg.set_instr (Some p) r).
      split; [|split; [done|split; [congruence|done]]].
      pose proof (rewrites_intro reg r (Reg.set_instr (Some p) r) c L
                    (blocks (ir c)) Hr (blocks_agree_refl _)) as Hrw.
      by destruct c as [[] ?].
    + rewrite (ssa_src_keep reg c r Hr) in Htail by (by rewrite Hssa).
      injection Htail as <-. exists r, r. split; [by apply rewrites_refl|done].
Qed.

Lemma rewrites_reg_at p r r' c c' : rewrites p r r' c c' -> reg_at c p = Some r.
Proof. intros (_ & _ & _ & ins & Hi & Hr & _). apply reg_at_Some. eauto. Qed.

Lemma rewrites_update p r r' c :
  reg_at c p = Some r ->
  rewrites p r r' c (set_instrs (set_operand p r' (instrs (ir c))) c).
Proof.
  intros Hr.
  pose proof (rewrites_intro p r r' c [] (blocks (ir c)) Hr (blocks_agree_refl _)) as H.
  rewrite app_nil_r in H. by destruct c as [[] ?].
Qed.

Lemma fixed_operand_evolves c0 c a flags i r r' :
  evolves c0 c -> fixed_operand c a flags i r r' -> fixed_operand c0 a flags i r r'.
Proof.
  intros Hev. unfold fixed_operand.
  destruct (has_flag (Reg.flags r) IR3_REG_SSA); [|done].
  intros (s & -> & H). exists s. split; [done|].
  intros Hf. destruct (H Hf) as (p & -> & Hloc). exists p. split; [done|].
  intros b v Hb Hfile Hv. apply (Hloc b v); [|done|].
  - destruct Hev as (_ & _ & -> & _). done.
  - by rewrite (evolves_read_slot _ _ _ Hev).
Qed.

Lemma vectorize_src_Done cur i j a flags c c' :
  vectorize_src cur i j a flags c = Done (tt, c') ->
  exists r r', rewrites (cur, S j) r r' c c' /\ fixed_operand c a flags i r r'.
Proof.
  intros H. unfold vectorize_src in H.
  apply bind_Done in H as (r & ? & [Hr ->]%get_reg_Done & H).
  exists r. unfold fixed_operand.
  destruct (has_flag (Reg.flags r) IR3_REG_SSA).
  - destruct a as [s|v]; [|done].
    apply bind_Done in H as (? & ? & [= <- <-] & H).
    apply ssa_src_rewrites in H as (r0 & r' & Hrw & _ & _ & Hres).
    assert (r0 = r) as ->.
    { apply rewrites_reg_at in Hrw. congruence. }
    exists r'. split; [done|]. exists s. split; [done|]. exact Hres.
  - destruct (has_flag flags IR3_REG_IMMED); cbn [negb] in *.
    + injection H as <-. exists r. split; [by apply rewrites_refl|done].
    + destruct a as [s|v]; [|done].
      apply bind_Done in H as (? & ? & [= <- <-] & H).
      apply update_reg_Done in H as (r0 & Hr0 & ->).
      assert (r0 = r) as -> by congruence.
      eexists. split; [by apply rewrites_update|]. by exists s.
Qed.

(** The fix-ups of the source operands of [cur], from operand [j0] on. *)
Lemma vectorize_src_loop cur i c0 srcs : forall j0 c c' ins,
  forM (enumerate_from j0 srcs) (fun x => vectorize_src cur i x.1 x.2.1 x.2.2) c
    = Done (tt, c') ->
  evolves c0 c ->
  instrs (ir c) !! cur = Some ins ->
  exists regs',
    instrs (ir c') !! cur = Some (Instr.set_regs regs' ins)
    /\ length regs' = length (Instr.regs ins)
    /\ (forall k, (k < S j0)%nat -> regs' !! k = Instr.regs ins !! k)
    /\ (forall j a flags, srcs !! j = Some (a, flags) ->
          exists r r', Instr.regs ins !! S (j0 + j) = Some r
                       /\ regs' !! S (j0 + j) = Some r'
                       /\ fixed_operand c0 a flags i r r')
    /\ evolves c c'
    /\ output_updates c' = output_updates c
    /\ (forall k, k <> cur -> (k < length (instrs (ir c)))%nat ->
          instrs (ir c') !! k = instrs (ir c) !! k).
Proof.
  induction srcs as [|[a flags] srcs IH]; intros j0 c c' ins H Hev Hins; cbn in H.
  - injection H as <-. exists (Instr.regs ins). rewrite set_regs_id.
    split; [done|]. split; [done|]. split; [done|]. split; [done|].
    split; [apply evolves_refl|done].
  - apply bind_Done in H as ([] & c1 & Hstep & Hrest).
    apply vectorize_src_Done in Hstep as (r & r' & Hrw & Hfix).
    destruct Hrw as (Hev1 & Hq1 & Hframe1 & ins0 & Hins0 & Hr & Hins1).
    cbn [fst snd] in *. assert (ins0 = ins) as -> by congruence.
    destruct (IH (S j0) c1 c' _ Hrest (evolves_trans _ _ _ Hev Hev1) Hins1)
      as (regs' & Hcur & Hlen & Hpre & Hops & Hev2 & Hq2 & Hframe2).
    cbn [Instr.regs Instr.set_regs] in *. rewrite set_regs_set_regs in Hcur.
    exists regs'. split; [done|]. split; [by rewrite Hlen, length_insert|].
    split; [|split; [|split; [|split]]].
    + intros k Hk. rewrite Hpre by lia. apply list_lookup_insert_ne. lia.
    + intros [|j] a' f' Hj; cbn in Hj.
      * injection Hj as <- <-. exists r, r'. rewrite Nat.add_0_r.
        split; [done|]. split.
        -- rewrite Hpre by lia. apply list_lookup_insert_eq. by eapply lookup_lt_Some.
        -- by eapply fixed_operand_evolves.
      * destruct (Hops j a' f' Hj) as (x & x' & Hx & Hx' & Hfx).
        exists x, x'. replace (S (j0 + S j)) with (S (S j0 + j)) by lia.
        split; [|done]. rewrite list_lookup_insert_ne in Hx by lia. done.
    + by eapply evolves_trans.
    + congruence.
    + intros k Hk Hlt. rewrite Hframe2; [by apply Hframe1|done|].
      destruct Hev1 as (Hle & _). lia.
Qed.

Lemma ssa_dst_facts cur dst i c c' :
  ssa_dst cur dst i c = Done (tt, c') ->
  instrs (ir c') = instrs (ir c)
  /\ evolves c c'
  /\ output_updates c' = output_updates c ++ pending c cur dst i.
Proof.
  intros [_ H]%ssa_dst_Done. unfold pending, dst_slot in *.
  destruct (Dst.File dst);
    try (subst c'; split; [done|]; split; [apply evolves_refl|];
         destruct (block c); by rewrite app_nil_r).
  all: destruct H as (b & s & Hb & [= <-] & _ & ->); rewrite Hb.
  all: split; [done|]; split; [|done].
  all: unfold evolves; mred; split; [lia|]; split; [apply blocks_agree_refl|done].
Qed.

(** The node the round works on: the template itself, or a new copy of
    it. *)
Lemma vectorize_cur_Done instr n c cur c1 tmpl :
  atomic c = true ->
  (if n =? 0 then ret instr else instr_clone instr) c = Done (cur, c1) ->
  instrs (ir c) !! instr = Some tmpl ->
  cur = (if n =? 0 then instr else length (instrs (ir c)))
  /\ instrs (ir c1) !! cur = Some tmpl
  /\ evolves c c1
  /\ output_updates c1 = output_updates c
  /\ (forall k, (k < length (instrs (ir c)))%nat ->
        instrs (ir c1) !! k = instrs (ir c) !! k)
  /\ (length (instrs (ir c)) + (if (n =? 0)%Z then 0 else 1)
      <= length (instrs (ir c1)))%nat.
Proof.
  intros Hat H Htmpl. destruct (n =? 0).
  - injection H as <- <-. split; [done|]. split; [done|].
    split; [apply evolves_refl|]. split; [done|]. split; [done|lia].
  - apply (instr_clone_atomic _ _ _ _ Hat) in H as (ins & Hins & -> & ->).
    assert (ins = tmpl) as -> by congruence.
    split; [done|]. mred. split; [apply lookup_snoc|]. split.
    { unfold evolves. mred. rewrite length_app. split; [lia|].
      split; [apply blocks_agree_refl|done]. }
    split; [done|]. split; [|rewrite length_app; simpl; lia].
    intros k Hk. by apply lookup_app_l.
Qed.

(** One round of the component loop of [vectorize]. *)
Lemma vectorize_chan_Done instr dst srcs i n c c' tmpl :
  atomic c = true ->
  vectorize_chan instr dst srcs i n c = Done (tt, c') ->
  instrs (ir c) !! instr = Some tmpl ->
  let cur := if n =? 0 then instr else length (instrs (ir c)) in
  exists r0 regs',
    Instr.regs tmpl !! O = Some r0
    /\ instrs (ir c') !! cur = Some (Instr.set_regs regs' tmpl)
    /\ length regs' = length (Instr.regs tmpl)
    /\ regs' !! O = Some (Reg.set_num (regid (Z.shiftr (Reg.num r0) 2) i) r0)
    /\ (forall j a flags, srcs !! j = Some (a, flags) ->
          exists r r', Instr.regs tmpl !! S j = Some r
                       /\ regs' !! S j = Some r'
                       /\ fixed_operand c a flags i r r')
    /\ evolves c c'
    /\ (length (instrs (ir c)) + (if (n =? 0)%Z then 0 else 1)
        <= length (instrs (ir c')))%nat
    /\ output_updates c' = output_updates c ++ pending c cur dst i
    /\ (forall k, k <> cur -> (k < length (instrs (ir c)))%nat ->
          instrs (ir c') !! k = instrs (ir c) !! k).
Proof.
  intros Hat H Htmpl cur. unfold vectorize_chan in H.
  apply bind_Done in H as (cur' & c1 & Hcur & H).
  destruct (vectorize_cur_Done _ _ _ _ _ _ Hat Hcur Htmpl)
    as (Hcur' & Hins1 & Hev1 & Hq1 & Hframe1 & Hlen1).
  fold cur in Hcur'. subst cur'. clear Hcur.
  apply bind_Done in H as ([] & c2 & (Hins2 & Hev2 & Hq2)%ssa_dst_facts & H).
  apply bind_Done in H as (r0 & ? & [Hr0 ->]%get_reg_Done & H).
  apply bind_Done in H as ([] & c3 & (r0' & Hr0' & ->)%update_reg_Done & H).
  assert (r0' = r0) as -> by congruence. clear Hr0'.
  pose proof (rewrites_update (cur, O) r0
                (Reg.set_num (regid (Z.shiftr (Reg.num r0) 2) i) r0) c2 Hr0)
    as (Hev3 & Hq3 & Hframe3 & ins & Hins & Hr & Hins3).
  cbn [fst snd] in *. rewrite Hins2, Hins1 in Hins. injection Hins as <-.
  assert (Hev03 : evolves c (set_instrs
            (set_operand (cur, O)
               (Reg.set_num (regid (Z.shiftr (Reg.num r0) 2) i) r0) (instrs (ir c2))) c2)).
  { eapply evolves_trans; [exact Hev1|]. eapply evolves_trans; [exact Hev2|exact Hev3]. }
  destruct (vectorize_src_loop cur i c srcs 0 _ c' _ H Hev03 Hins3)
    as (regs' & Hcur & Hlen & Hpre & Hops & Hev4 & Hq4 & Hframe4).
  cbn [Instr.regs Instr.set_regs] in *. rewrite set_regs_set_regs in Hcur.
  exists r0, regs'. split; [done|]. split; [done|].
  split; [by rewrite Hlen, length_insert|]. split.
  { rewrite Hpre by lia. apply list_lookup_insert_eq. by eapply lookup_lt_Some. }
  split.
  { intros j a flags Hj. destruct (Hops j a flags Hj) as (r & r' & Hx & Hx' & Hfix).
    exists r, r'. cbn [Nat.add] in *. split; [|done].
    by rewrite list_lookup_insert_ne in Hx by lia. }
  split; [by eapply evolves_trans|].
  assert (Hlen2 : length (instrs (ir c2)) = length (instrs (ir c1))) by (by rewrite Hins2).
  split.
  { destruct Hev4 as (Hle4 & _). destruct Hev3 as (Hle3 & _). lia. }
  split.
  { rewrite Hq4, Hq3, Hq2, Hq1. f_equal. unfold pending.
    destruct Hev1 as (_ & _ & -> & _). done. }
  intros k Hk Hlt.
  rewrite Hframe4, Hframe3, Hins2; [by apply Hframe1|done|lia|done|].
  destruct Hev3 as (Hle3 & _). lia.
Qed.

Lemma rewrites_trans p r1 r2 r3 c1 c2 c3 :
  rewrites p r1 r2 c1 c2 -> rewrites p r2 r3 c2 c3 -> rewrites p r1 r3 c1 c3.
Proof.
  intros (Hev1 & Hq1 & Hf1 & ins & Hi1 & Hr1 & Hi2)
         (Hev2 & Hq2 & Hf2 & ins2 & Hi2' & Hr2 & Hi3).
  rewrite Hi2 in Hi2'. injection Hi2' as <-.
  split; [by eapply evolves_trans|]. split; [congruence|]. split.
  - intros k Hk Hlt. rewrite Hf2; [by apply Hf1|done|].
    destruct Hev1 as (Hle & _). lia.
  - exists ins. split; [done|]. split; [done|]. rewrite Hi3.
    cbn [Instr.regs Instr.set_regs].
    by rewrite set_regs_set_regs, list_insert_insert_eq.
Qed.

Lemma update_reg_rewrites p f c x c' :
  update_reg p f c = Done (x, c') ->
  exists r, rewrites p r (f r) c c'.
Proof.
  intros (r & Hr & ->)%update_reg_Done. exists r. by apply rewrites_update.
Qed.

(** A new operand record at the end of [ins], then rewrites of it. *)
Lemma rewrites_new i ins r r' c c' :
  instrs (ir c) !! i = Some ins ->
  rewrites (i, length (Instr.regs ins)) r r'
    (set_instrs (<[i := add_reg r ins]> (instrs (ir c))) c) c' ->
  instrs (ir c') !! i = Some (add_reg r' ins)
  /\ evolves c c'
  /\ output_updates c' = output_updates c
  /\ (forall k, k <> i -> (k < length (instrs (ir c)))%nat ->
        instrs (ir c') !! k = instrs (ir c) !! k).
Proof.
  intros Hins (Hev & Hq & Hf & ins1 & Hi1 & Hr & Hi').
  cbn [fst snd] in *. revert Hi1 Hf Hev. mred. intros Hi1 Hf Hev.
  rewrite list_lookup_insert_eq in Hi1 by (by eapply lookup_lt_Some).
  injection Hi1 as <-. split; [|split; [|split]].
  - rewrite Hi'. unfold add_reg. cbn [Instr.regs Instr.set_regs].
    by rewrite set_regs_set_regs, insert_snoc.
  - destruct Hev as (H1 & H2 & H3). revert H1 H2 H3. mred. intros H1 H2 H3.
    rewrite length_insert in H1. by split.
  - done.
  - intros k Hk Hlt. rewrite Hf; [|done|by rewrite length_insert].
    by apply list_lookup_insert_ne.
Qed.

Lemma has_flag_bit x k : 0 <= k -> has_flag x (2 ^ k) = Z.testbit x k.
Proof.
  intros Hk. unfold has_flag. destruct (Z.testbit x k) eqn:Hb.
  - apply negb_true_iff, Z.eqb_neq. intros H0.
    apply (f_equal (fun y => Z.testbit y k)) in H0.
    rewrite Z.land_spec, Hb, Z.pow2_bits_true, Z.bits_0 in H0 by done. done.
  - apply negb_false_iff, Z.eqb_eq. apply Z.bits_inj'. intros m Hm.
    rewrite Z.land_spec, Z.bits_0, Z.pow2_bits_eqb by done.
    destruct (Z.eqb_spec k m) as [<-|]; [by rewrite Hb|apply andb_false_r].
Qed.

Lemma has_flag_SSA x : has_flag x IR3_REG_SSA = Z.testbit x 12.
Proof. by apply (has_flag_bit x 12). Qed.

(** The flags [vectorize] adds to an operand leave its SSA bit to the
    operand and to the caller's flags. *)
Lemma has_flag_SSA_flagged x flags :
  has_flag
    ((if has_flag flags IR3_REG_NEGATE
      then fun y => Z.lxor y IR3_REG_NEGATE else fun y => y)
       (Z.lor x (Z.land flags (Z.lnot IR3_REG_NEGATE)))) IR3_REG_SSA
  = has_flag x IR3_REG_SSA || has_flag flags IR3_REG_SSA.
Proof.
  rewrite !has_flag_SSA.
  assert (H : Z.testbit (Z.lor x (Z.land flags (Z.lnot IR3_REG_NEGATE))) 12
              = Z.testbit x 12 || Z.testbit flags 12).
  { rewrite Z.lor_spec, Z.land_spec, Z.lnot_spec by lia.
    change (Z.testbit IR3_REG_NEGATE 12) with false. by rewrite andb_true_r. }
  destruct (has_flag flags IR3_REG_NEGATE); [|done].
  rewrite Z.lxor_spec, H. change (Z.testbit IR3_REG_NEGATE 12) with false.
  by rewrite xorb_false_r.
Qed.

Lemma has_flag_SSA_src_flags c src : has_flag (src_flags c src) IR3_REG_SSA = false.
Proof.
  unfold src_flags. rewrite !has_flag_lor.
  by destruct (is_const src), (Src.Absolute src), (Src.Negate src),
    (Src.Indirect src), (half_precision (so c)).
Qed.

Lemma reg_at_new i ins r c :
  instrs (ir c) !! i = Some ins ->
  reg_at (set_instrs (<[i := add_reg r ins]> (instrs (ir c))) c)
    (i, length (Instr.regs ins)) = Some r.
Proof.
  intros Hins. apply reg_at_Some. exists (add_reg r ins). cbn [fst snd]. mred.
  split; [apply list_lookup_insert_eq; by eapply lookup_lt_Some|].
  unfold add_reg. cbn [Instr.regs Instr.set_regs]. apply lookup_snoc.
Qed.

Lemma rewrites_after p r1 r2 r3 r4 c1 c2 c3 :
  rewrites p r1 r2 c1 c2 -> rewrites p r3 r4 c2 c3 -> r3 = r2.
Proof.
  intros (_ & _ & _ & x & Hx & Hr & Hx') Hrw2.
  apply rewrites_reg_at, reg_at_Some in Hrw2 as (y & Hy & Hr1).
  rewrite Hx' in Hy. injection Hy as <-. cbn [Instr.regs Instr.set_regs] in Hr1.
  rewrite list_lookup_insert_eq in Hr1 by (by eapply lookup_lt_Some). congruence.
Qed.

(** The last two steps of [vectorize_arg]: the caller's flags. *)
Lemma vectorize_flags_Done p flags c c' :
  (update_reg p (or_flags (Z.land flags (Z.lnot IR3_REG_NEGATE))) ;;;
   if has_flag flags IR3_REG_NEGATE then
     update_reg p (fun r => Reg.set_flags (Z.lxor (Reg.flags r) IR3_REG_NEGATE) r)
   else ret tt) c = Done (tt, c') ->
  exists r r',
    rewrites p r r' c c'
    /\ Reg.num r' = Reg.num r /\ Reg.iim_val r' = Reg.iim_val r
    /\ has_flag (Reg.flags r') IR3_REG_SSA
       = has_flag (Reg.flags r) IR3_REG_SSA || has_flag flags IR3_REG_SSA.
Proof.
  intros H. apply bind_Done in H as ([] & c1 & [r Hrw]%update_reg_rewrites & H).
  pose proof (has_flag_SSA_flagged (Reg.flags r) flags) as Hssa.
  destruct (has_flag flags IR3_REG_NEGATE).
  - apply update_reg_rewrites in H as [r1 Hrw1].
    pose proof (rewrites_after _ _ _ _ _ _ _ _ Hrw Hrw1) as ->.
    eexists r, _. split; [by eapply rewrites_trans|]. by destruct r.
  - injection H as <-. eexists r, _. split; [exact Hrw|]. by destruct r.
Qed.

Lemma vectorize_arg_Done instr a flags c c' ins :
  vectorize_arg instr a flags c = Done (tt, c') ->
  instrs (ir c) !! instr = Some ins ->
  exists r,
    instrs (ir c') !! instr = Some (add_reg r ins)
    /\ template_operand c a flags r
    /\ evolves c c'
    /\ output_updates c' = output_updates c
    /\ (forall k, k <> instr -> (k < length (instrs (ir c)))%nat ->
          instrs (ir c') !! k = instrs (ir c) !! k).
Proof.
  intros H Hins. unfold vectorize_arg in H.
  apply bind_Done in H as (p & c1 & Hreg & H).
  apply vectorize_flags_Done in H as (r1 & r2 & Hrw2 & Hnum & Hiim & Hssa).
  destruct (has_flag flags IR3_REG_IMMED) eqn:Himm.
  - apply bind_Done in Hreg as (p' & c0 & (ins' & Hins' & -> & ->)%ir3_reg_create_Done & Hreg).
    assert (ins' = ins) as -> by congruence.
    destruct a as [s|v]; [done|].
    apply bind_Done in Hreg as (? & ? & [= <- <-] & Hreg).
    apply bind_Done in Hreg as ([] & c2 & [r0 Hrw1]%update_reg_rewrites & [= <- <-]).
    assert (r0 = new_reg 0 IR3_REG_IMMED) as ->.
    { apply rewrites_reg_at in Hrw1. rewrite (reg_at_new _ _ _ _ Hins) in Hrw1. congruence. }
    pose proof (rewrites_after _ _ _ _ _ _ _ _ Hrw1 Hrw2) as ->.
    exists r2. pose proof (rewrites_trans _ _ _ _ _ _ _ Hrw1 Hrw2) as Hrw.
    destruct (rewrites_new _ _ _ _ _ _ Hins Hrw) as (H1 & H2 & H3 & H4).
    split; [done|]. split; [|done].
    split; [by rewrite Hssa|]. split; [done|]. by rewrite Hiim.
  - destruct a as [s|v]; [|done].
    apply bind_Done in Hreg as (? & ? & [= <- <-] & Hreg).
    apply add_src_reg_Done in Hreg as (ins' & num & Hins' & Hidx & Hnum' & -> & Hssa').
    assert (ins' = ins) as -> by congruence.
    apply ssa_src_rewrites in Hssa' as (r0 & r0' & Hrw1 & Hnum0 & Hother & Hres).
    assert (r0 = src_record c s num TGSI_SWIZZLE_X) as ->.
    { apply rewrites_reg_at in Hrw1. rewrite (reg_at_new _ _ _ _ Hins) in Hrw1. congruence. }
    pose proof (rewrites_after _ _ _ _ _ _ _ _ Hrw1 Hrw2) as ->.
    exists r2. pose proof (rewrites_trans _ _ _ _ _ _ _ Hrw1 Hrw2) as Hrw.
    destruct (rewrites_new _ _ _ _ _ _ Hins Hrw) as (H1 & H2 & H3 & H4).
    split; [done|]. split; [|done].
    split; [|split; [done|exists num; split; [done|by rewrite Hnum, Hnum0]]].
    rewrite Hssa. f_equal. destruct (ssa_file (Src.File s)) eqn:Hf.
    + destruct Hres as (p & -> & _); [done|]. apply has_flag_resolved.
    + rewrite Hother; [|done|]; apply has_flag_SSA_src_flags.
Qed.

Lemma template_operand_evolves c0 c a flags r :
  evolves c0 c -> template_operand c a flags r -> template_operand c0 a flags r.
Proof.
  intros (_ & _ & _ & _ & _ & _ & Hbase) [H1 H2]. split; [done|].
  destruct a; [|done]. unfold src_num in *. by rewrite <- Hbase.
Qed.

Lemma template_operand_inv c a flags r :
  has_flag flags IR3_REG_SSA = false ->
  template_operand c a flags r -> operand_inv c a flags r.
Proof.
  intros Hf [H1 H2]. rewrite Hf, orb_false_r in H1. unfold operand_inv.
  destruct a as [s|v].
  - destruct H2 as (H2 & num & Hn & Hr). split; [done|]. split; [done|]. eauto.
  - destruct H2 as (H2 & H3). done.
Qed.

Lemma vectorize_srcs_Done instr c0 srcs : forall c c' ins,
  vectorize_srcs instr srcs c = Done (tt, c') ->
  evolves c0 c ->
  instrs (ir c) !! instr = Some ins ->
  exists rs,
    instrs (ir c') !! instr = Some (Instr.set_regs (Instr.regs ins ++ rs) ins)
    /\ Forall2 (fun x r => template_operand c0 x.1 x.2 r) srcs rs
    /\ evolves c c'
    /\ output_updates c' = output_updates c
    /\ (forall k, k <> instr -> (k < length (instrs (ir c)))%nat ->
          instrs (ir c') !! k = instrs (ir c) !! k).
Proof.
  unfold vectorize_srcs.
  induction srcs as [|[a flags] srcs IH]; intros c c' ins H Hev Hins; cbn in H.
  - injection H as <-. exists []. rewrite app_nil_r, set_regs_id.
    split; [done|]. split; [constructor|]. split; [apply evolves_refl|done].
  - apply bind_Done in H as ([] & c1 & Harg & H).
    destruct (vectorize_arg_Done _ _ _ _ _ _ Harg Hins) as (r & Hi1 & Ht & Hev1 & Hq1 & Hf1).
    destruct (IH c1 c' _ H (evolves_trans _ _ _ Hev Hev1) Hi1)
      as (rs & Hi2 & Hall & Hev2 & Hq2 & Hf2).
    exists (r :: rs). split; [|split; [|split; [|split]]].
    + rewrite Hi2. unfold add_reg. cbn [Instr.regs Instr.set_regs].
      by rewrite set_regs_set_regs, <- app_assoc.
    + constructor; [|done]. by eapply template_operand_evolves.
    + by eapply evolves_trans.
    + congruence.
    + intros k Hk Hlt. rewrite Hf2; [by apply Hf1|done|].
      destruct Hev1 as (Hle & _). lia.
Qed.

Lemma operand_of_inv c a flags i r : operand_of c a flags i r -> operand_inv c a flags r.
Proof. by intros [H _]. Qed.

(** An operand of the template, fixed up for component [i]. *)
Lemma fixed_operand_of c a flags i r r' :
  operand_inv c a flags r ->
  fixed_operand c a flags i r r' ->
  operand_of c a flags i r'.
Proof.
  unfold fixed_operand, operand_of, operand_inv. destruct a as [s|v].
  - intros (Hssa & Himm & num & comp & Hnum & Hr). rewrite Hssa, Himm. cbn [negb].
    destruct (ssa_file (Src.File s)) eqn:Hf.
    + intros (s' & [= <-] & H). destruct (H Hf) as (p & -> & Hloc).
      rewrite ?Hf. split; [|by exists p].
      split; [apply has_flag_resolved|]. split; [done|]. by exists num, comp.
    + intros (s' & [= <-] & ->). cbn [Reg.flags Reg.num Reg.set_num].
      rewrite ?Hf, Hr, regid_num. split; [|by exists num].
      split; [done|]. split; [done|]. by exists num, (src_swiz s i).
  - intros (Hssa & Himm & Hv). rewrite Hssa, Himm. cbn [negb]. by intros ->.
Qed.

Lemma expanded_prepared c tmpl dnum srcs i ins :
  expanded c tmpl dnum srcs i ins -> prepared c tmpl dnum srcs ins.
Proof.
  intros (d & rs & -> & Hd & Hw & Hall). exists d, rs, i.
  split; [done|]. split; [done|]. split; [done|].
  eapply Forall2_impl; [exact Hall|]. intros x r. apply operand_of_inv.
Qed.

(** One round of the component loop, on a prepared template. *)
Lemma vectorize_round instr dst srcs i n c0 c c' tmpl dnum T :
  atomic c = true ->
  evolves c0 c ->
  vectorize_chan instr dst srcs i n c = Done (tt, c') ->
  instrs (ir c) !! instr = Some T ->
  prepared c0 tmpl dnum srcs T ->
  let cur := if n =? 0 then instr else length (instrs (ir c)) in
  exists ins,
    instrs (ir c') !! cur = Some ins
    /\ expanded c0 tmpl dnum srcs i ins
    /\ evolves c c'
    /\ (length (instrs (ir c)) + (if (n =? 0)%Z then 0 else 1)
        <= length (instrs (ir c')))%nat
    /\ output_updates c' = output_updates c ++ pending c cur dst i
    /\ (forall k, k <> cur -> (k < length (instrs (ir c)))%nat ->
          instrs (ir c') !! k = instrs (ir c) !! k).
Proof.
  intros Hat Hev H HT (d & rs & comp & -> & Hd & Hw & Hall) cur.
  destruct (vectorize_chan_Done _ _ _ _ _ _ _ _ Hat H HT)
    as (r0 & regs' & Hr0 & Hcur & Hlen & Hd' & Hops & Hev' & Hle & Hq & Hframe).
  fold cur in Hcur, Hq, Hframe. cbn [Instr.regs Instr.set_regs] in *.
  injection Hr0 as <-. destruct regs' as [|d' rs']; [done|].
  cbn in Hd'. injection Hd' as ->. cbn in Hlen. injection Hlen as Hlen.
  eexists. split; [exact Hcur|]. split; [|done].
  rewrite set_regs_set_regs. eexists _, rs'. split; [reflexivity|].
  cbn [Reg.num Reg.set_num Reg.wrmask]. rewrite Hd, regid_num.
  split; [done|]. split; [by destruct d|].
  apply Forall2_same_length_lookup. split.
  { rewrite Hlen. by eapply Forall2_length. }
  intros j [a flags] r' Hj Hr'. cbn [fst snd].
  destruct (Hops j a flags Hj) as (r & r'' & Hr & Hr'' & Hfix).
  change (rs !! j = Some r) in Hr. change (rs' !! j = Some r'') in Hr''.
  rewrite Hr' in Hr''. injection Hr'' as <-.
  eapply fixed_operand_of.
  - exact (Forall2_lookup_lr _ _ _ _ _ _ Hall Hj Hr).
  - by eapply fixed_operand_evolves.
Qed.

Lemma pending_evolves c c' cur dst i :
  evolves c c' -> pending c' cur dst i = pending c cur dst i.
Proof. intros (_ & _ & Hb & _). unfold pending. by rewrite Hb. Qed.

Lemma expanded_two c tmpl dnum a0 f0 a1 f1 i ins :
  expanded c tmpl dnum [(a0, f0); (a1, f1)] i ins ->
  exists d r0 r1,
    ins = Instr.set_regs [d; r0; r1] tmpl
    /\ Reg.num d = regid dnum i /\ Reg.wrmask d = 1
    /\ operand_of c a0 f0 i r0 /\ operand_of c a1 f1 i r1.
Proof.
  intros (d & rs & -> & Hd & Hw & Hall).
  apply Forall2_cons_inv_l in Hall as (r0 & rs' & H0 & Hall & ->).
  apply Forall2_cons_inv_l in Hall as (r1 & rs'' & H1 & Hall & ->).
  apply Forall2_nil_inv_l in Hall as ->.
  by exists d, r0, r1.
Qed.

(** The template of [vectorize] once the destination and the operands
    are attached. *)
Lemma vectorize_setup instr dst srcs c c1 tmpl :
  atomic c = true ->
  (add_dst_reg instr dst TGSI_SWIZZLE_X ;;; vectorize_srcs instr srcs) c = Done (tt, c1) ->
  instrs (ir c) !! instr = Some tmpl ->
  Instr.regs tmpl = [] ->
  Forall (fun x => has_flag x.2 IR3_REG_SSA = false) srcs ->
  exists dnum T,
    dst_num c dst = Some dnum
    /\ instrs (ir c1) !! instr = Some T
    /\ prepared c tmpl dnum srcs T
    /\ evolves c c1
    /\ output_updates c1 = output_updates c
    /\ (forall k, k <> instr -> (k < length (instrs (ir c)))%nat ->
          instrs (ir c1) !! k = instrs (ir c) !! k).
Proof.
  intros Hat H Htmpl Hregs Hflags.
  apply bind_Done in H as (p & cb & Hdst & Hsrcs).
  apply add_dst_reg_Done in Hdst as (ins & dnum & Hins & Hnum & _ & Hcb).
  assert (ins = tmpl) as -> by congruence. rewrite Hat in Hcb. cbv zeta in Hcb. subst cb.
  set (cb := set_instrs _ c) in Hsrcs.
  assert (Hevb : evolves c cb).
  { unfold evolves, cb. mred. rewrite length_insert. split; [lia|].
    split; [apply blocks_agree_refl|done]. }
  assert (Hib : instrs (ir cb) !! instr
                = Some (add_reg (dst_record c dst dnum TGSI_SWIZZLE_X) tmpl)).
  { unfold cb. mred. apply list_lookup_insert_eq. by eapply lookup_lt_Some. }
  destruct (vectorize_srcs_Done instr c srcs cb c1 _ Hsrcs Hevb Hib)
    as (rs & Hi1 & Hall & Hev1 & Hq1 & Hf1).
  exists dnum. eexists. split; [done|]. split; [exact Hi1|].
  split; [|split; [by eapply evolves_trans|split; [done|]]].
  - unfold add_reg. cbn [Instr.regs Instr.set_regs]. rewrite Hregs, set_regs_set_regs.
    exists (dst_record c dst dnum TGSI_SWIZZLE_X), rs, TGSI_SWIZZLE_X.
    split; [done|]. split; [done|]. split; [done|].
    apply Forall2_same_length_lookup. split; [by eapply Forall2_length|].
    intros j x r Hx Hr. apply template_operand_inv.
    + rewrite Forall_forall in Hflags. apply Hflags. by eapply list_elem_of_lookup_2.
    + exact (Forall2_lookup_lr _ _ _ _ _ _ Hall Hx Hr).
  - intros k Hk Hlt. rewrite Hf1; [|done|by unfold cb; mred; rewrite length_insert].
    unfold cb. mred. by apply list_lookup_insert_ne.
Qed.

(** A round that works on a copy leaves every node it found alone. *)
Lemma vectorize_clone_round instr dst srcs i n c0 c c' tmpl dnum T :
  n <> 0 ->
  atomic c = true ->
  evolves c0 c ->
  vectorize_chan instr dst srcs i n c = Done (tt, c') ->
  instrs (ir c) !! instr = Some T ->
  prepared c0 tmpl dnum srcs T ->
  exists ins,
    instrs (ir c') !! length (instrs (ir c)) = Some ins
    /\ expanded c0 tmpl dnum srcs i ins
    /\ evolves c0 c'
    /\ atomic c' = true
    /\ (length (instrs (ir c)) < length (instrs (ir c')))%nat
    /\ output_updates c'
       = output_updates c ++ pending c0 (length (instrs (ir c))) dst i
    /\ (forall k, (k < length (instrs (ir c)))%nat ->
          instrs (ir c') !! k = instrs (ir c) !! k).
Proof.
  intros Hn Hat Hev H HT Hprep.
  destruct (vectorize_round _ _ _ _ _ _ _ _ _ _ _ Hat Hev H HT Hprep)
    as (ins & Hcur & Hexp & Hev' & Hle & Hq & Hframe).
  apply Z.eqb_neq in Hn. rewrite Hn in *.
  exists ins. split; [done|]. split; [done|].
  split; [by eapply evolves_trans|]. split.
  { destruct Hev' as (_ & _ & _ & -> & _). done. }
  split; [lia|]. split; [by rewrite Hq, (pending_evolves _ _ _ _ _ Hev)|].
  intros k Hk. apply Hframe; [lia|done].
Qed.

(** ** Vector expansion runs *)

Lemma regid_land n comp : regid n comp = regid n (Z.land comp 3).
Proof.
  unfold regid. by rewrite <- Z.land_assoc.
Qed.

Lemma land_3_range comp : 0 <= Z.land comp 3 < 4.
Proof.
  change 3 with (Z.ones 2). rewrite Z.land_ones by lia.
  change (2 ^ 2) with 4. apply Z.mod_pos_bound. lia.
Qed.

Lemma local_arg_evolves c c' a flags :
  evolves c c' -> local_arg c a flags -> local_arg c' a flags.
Proof.
  intros Hev [Hssa H]. split; [done|]. destruct a as [s|v]; [|done].
  destruct H as (Himm & Hidx & [Hc|(Hf & b & Hb & Hlive)]).
  - split; [done|]. split; [done|]. by left.
  - split; [done|]. split; [done|]. right. split; [done|]. exists b. split.
    + destruct Hev as (_ & _ & -> & _). done.
    + intros comp Hcomp. destruct (Hlive comp Hcomp) as [v Hv]. exists v.
      by rewrite (evolves_read_slot _ _ _ Hev).
Qed.

Lemma is_const_ssa_file s : is_const s = true -> ssa_file (Src.File s) = false.
Proof. unfold is_const. by destruct (Src.File s). Qed.

Lemma is_const_src_num c s :
  is_const s = true -> src_num c s = Some (Src.Index s + base_reg c (Src.File s)).
Proof. unfold is_const, src_num. by destruct (Src.File s). Qed.

(** Resolving a source that is local returns. *)
Lemma ssa_src_total p s chan c r :
  reg_at c p = Some r ->
  (ssa_file (Src.File s) = false /\ has_flag (Reg.flags r) IR3_REG_SSA = false
   \/ Src.File s = TGSI_FILE_TEMPORARY
      /\ exists b v, block c = Some b
           /\ read_slot c (mk_slot b SlotTemporary (regid (Src.Index s) chan))
              = Some (Some v)) ->
  exists c', ssa_src p s chan c = Done (tt, c').
Proof.
  intros Hr [[Hf Hssa]|(Hf & b & v & Hb & Hv)].
  - eexists. by apply (ssa_src_other p s chan c r).
  - unfold read_slot in Hv. cbn [slot_block slot_file slot_n] in Hv.
    destruct (blocks (ir c) !! b) as [blk|] eqn:Hblk; [|done].
    eexists. by apply (ssa_src_temporary_local p s chan c r b blk v).
Qed.

Lemma local_arg_live c s flags comp :
  local_arg c (ArgSrc s) flags ->
  ssa_file (Src.File s) = false
  \/ Src.File s = TGSI_FILE_TEMPORARY
     /\ exists b v, block c = Some b
          /\ read_slot c (mk_slot b SlotTemporary (regid (Src.Index s) comp))
             = Some (Some v).
Proof.
  intros (_ & _ & _ & [Hc|(Hf & b & Hb & Hlive)]).
  - left. by apply is_const_ssa_file.
  - right. split; [done|]. rewrite regid_land.
    destruct (Hlive _ (land_3_range comp)) as [v Hv]. by exists b, v.
Qed.

Lemma rewrites_reg_at' p r r' c c' : rewrites p r r' c c' -> reg_at c' p = Some r'.
Proof.
  intros (_ & _ & _ & ins & Hi & Hr & Hi'). apply reg_at_Some.
  eexists. split; [exact Hi'|]. cbn [Instr.regs Instr.set_regs].
  apply list_lookup_insert_eq. by eapply lookup_lt_Some.
Qed.

Lemma vectorize_flags_total p flags c r :
  reg_at c p = Some r ->
  exists c',
    (update_reg p (or_flags (Z.land flags (Z.lnot IR3_REG_NEGATE))) ;;;
     if has_flag flags IR3_REG_NEGATE then
       update_reg p (fun r => Reg.set_flags (Z.lxor (Reg.flags r) IR3_REG_NEGATE) r)
     else ret tt) c = Done (tt, c').
Proof.
  intros Hr. unfold bind at 1. rewrite (update_reg_run _ _ _ _ Hr).
  destruct (has_flag flags IR3_REG_NEGATE); [|by eexists].
  erewrite update_reg_run; [by eexists|].
  by apply (reg_at_set_operand0 c p r).
Qed.

Lemma vectorize_arg_total instr a flags c ins :
  instrs (ir c) !! instr = Some ins ->
  local_arg c a flags ->
  exists c', vectorize_arg instr a flags c = Done (tt, c').
Proof.
  intros Hins Hloc. unfold vectorize_arg. destruct a as [s|v].
  - pose proof (local_arg_live c s flags TGSI_SWIZZLE_X Hloc) as Hlive.
    destruct Hloc as (Hssa & Himm & Hidx & Hfile). rewrite Himm.
    assert (Hnum : exists num, src_num c s = Some num).
    { destruct Hfile as [Hc|[Hf _]]; [by rewrite is_const_src_num; eauto|].
      unfold src_num. rewrite Hf. eauto. }
    destruct Hnum as [num Hnum].
    unfold bind at 1. unfold bind at 1. cbn [arg_src]. rewrite ret_run.
    rewrite (add_src_reg_run _ _ _ _ _ _ Hins Hidx Hnum).
    pose proof (reg_at_new instr ins (src_record c s num TGSI_SWIZZLE_X) c Hins) as Hreg.
    destruct (ssa_src_total _ s TGSI_SWIZZLE_X _ _ Hreg) as [c1 Hrun].
    { destruct Hlive as [Hf|Hl]; [left|by right].
      split; [done|]. apply has_flag_SSA_src_flags. }
    unfold bind at 1. rewrite Hrun. mred.
    apply ssa_src_rewrites in Hrun as (r0 & r1 & Hrw & _).
    apply rewrites_reg_at' in Hrw.
    by apply (vectorize_flags_total _ flags c1 r1).
  - destruct Hloc as (Hssa & Himm). rewrite Himm.
    unfold bind at 1. unfold bind at 1. rewrite ir3_reg_create_eq, Hins.
    unfold bind at 1. mred. cbn [arg_int]. mred. unfold bind at 1.
    fold (add_reg (new_reg 0 IR3_REG_IMMED) ins).
    erewrite update_reg_run; [|by apply (reg_at_new instr ins _ c Hins)]. mred.
    eapply vectorize_flags_total.
    eapply (reg_at_set_operand0 (set_instrs _ c)). by apply reg_at_new.
Qed.

Lemma vectorize_srcs_total instr srcs : forall c ins,
  instrs (ir c) !! instr = Some ins ->
  Forall (fun x => local_arg c x.1 x.2) srcs ->
  exists c', vectorize_srcs instr srcs c = Done (tt, c').
Proof.
  unfold vectorize_srcs.
  induction srcs as [|[a flags] srcs IH]; intros c ins Hins Hloc; cbn [forM].
  - by eexists.
  - apply Forall_cons in Hloc as [Ha Hloc]. cbn [fst snd] in *.
    destruct (vectorize_arg_total _ _ _ _ _ Hins Ha) as [c1 Hrun].
    unfold bind at 1. rewrite Hrun.
    destruct (vectorize_arg_Done _ _ _ _ _ _ Hrun Hins) as (r & Hi1 & _ & Hev & _).
    apply (IH c1 _ Hi1).
    eapply Forall_impl; [exact Hloc|]. intros x. by apply local_arg_evolves.
Qed.

Lemma vectorize_src_total cur i j a flags c0 c ins r :
  instrs (ir c) !! cur = Some ins ->
  Instr.regs ins !! S j = Some r ->
  operand_inv c0 a flags r ->
  local_arg c a flags ->
  exists c', vectorize_src cur i j a flags c = Done (tt, c').
Proof.
  intros Hins Hr Hinv Hloc.
  assert (Hreg : reg_at c (cur, S j) = Some r) by (apply reg_at_Some; eauto).
  unfold vectorize_src. unfold bind at 1. rewrite (get_reg_run _ _ _ Hreg).
  destruct a as [s|v]; cbn [operand_inv] in Hinv.
  - destruct Hinv as (Hssa & Himm & _). rewrite Hssa, Himm. cbn [negb].
    destruct (ssa_file (Src.File s)) eqn:Hf.
    + unfold bind at 1. cbn [arg_src]. rewrite ret_run.
      apply (ssa_src_total _ _ _ _ r Hreg).
      destruct (local_arg_live c s flags (src_swiz s i) Hloc) as [Hn|Hl];
        [congruence|by right].
    + unfold bind at 1. cbn [arg_src]. rewrite ret_run.
      rewrite (update_reg_run _ _ _ _ Hreg). by eexists.
  - destruct Hinv as (Hssa & Himm & _). rewrite Hssa, Himm. by eexists.
Qed.

Lemma vectorize_src_loop_total cur i c0 srcs : forall j0 c ins,
  instrs (ir c) !! cur = Some ins ->
  (forall j a flags, srcs !! j = Some (a, flags) ->
     exists r, Instr.regs ins !! S (j0 + j) = Some r /\ operand_inv c0 a flags r) ->
  Forall (fun x => local_arg c x.1 x.2) srcs ->
  exists c',
    forM (enumerate_from j0 srcs) (fun x => vectorize_src cur i x.1 x.2.1 x.2.2) c
    = Done (tt, c').
Proof.
  induction srcs as [|[a flags] srcs IH]; intros j0 c ins Hins Hregs Hloc;
    cbn [enumerate_from forM].
  - by eexists.
  - apply Forall_cons in Hloc as [Ha Hloc]. cbn [fst snd] in *.
    destruct (Hregs O a flags eq_refl) as (r & Hr & Hinv).
    rewrite Nat.add_0_r in Hr.
    destruct (vectorize_src_total cur i j0 a flags c0 c ins r Hins Hr Hinv Ha)
      as [c1 Hrun].
    unfold bind at 1. rewrite Hrun.
    destruct (vectorize_src_Done _ _ _ _ _ _ _ Hrun)
      as (r0 & r' & (Hev & _ & _ & ins0 & Hi0 & Hr0 & Hi1) & _).
    cbn [fst snd] in *. assert (ins0 = ins) as -> by congruence.
    apply (IH (S j0) c1 _ Hi1).
    + intros j a' f' Hj. destruct (Hregs (S j) a' f' Hj) as (x & Hx & Hxi).
      exists x. split; [|done]. cbn [Instr.regs Instr.set_regs].
      rewrite list_lookup_insert_ne by lia.
      by replace (S (S j0 + j)) with (S (j0 + S j)) by lia.
    + eapply Forall_impl; [exact Hloc|]. intros x. by apply local_arg_evolves.
Qed.

Lemma instr_clone_run instr c T :
  atomic c = true ->
  instrs (ir c) !! instr = Some T ->
  instr_clone instr c =
  Done (length (instrs (ir c)),
        set_current_instr (Some (length (instrs (ir c))))
          (set_instrs (instrs (ir c) ++ [T]) c)).
Proof.
  intros Hat HT. unfold instr_clone.
  rewrite (bind_Done_intro _ _ _ _ _ (instr_finish_atomic c Hat)).
  unfold ir3_instr_clone. unfold bind at 1. unfold bind at 1.
  rewrite (run_get_instr _ _ _ HT). mstep. reflexivity.
Qed.

(** One round of the component loop returns. *)
Lemma vectorize_chan_total instr dst srcs i n c0 c tmpl dnum T b s :
  atomic c = true ->
  instrs (ir c) !! instr = Some T ->
  prepared c0 tmpl dnum srcs T ->
  Forall (fun x => local_arg c x.1 x.2) srcs ->
  block c = Some b ->
  dst_slot b dst i = Some s ->
  is_Some (read_slot c s) ->
  (length (output_updates c) < 16)%nat ->
  exists c', vectorize_chan instr dst srcs i n c = Done (tt, c').
Proof.
  intros Hat HT (d & rs & comp & -> & Hd & Hw & Hall) Hloc Hb Hs Hvalid Hlen.
  unfold vectorize_chan.
  assert (Hcur : exists cur c1,
            (if n =? 0 then ret instr else instr_clone instr) c = Done (cur, c1)).
  { destruct (n =? 0); [by eexists _, _|].
    rewrite (instr_clone_run _ _ _ Hat HT). by eexists _, _. }
  destruct Hcur as (cur & c1 & Hcur). unfold bind at 1. rewrite Hcur.
  destruct (vectorize_cur_Done _ _ _ _ _ _ Hat Hcur HT)
    as (_ & Hi1 & Hev1 & Hq1 & _ & _).
  unfold bind at 1.
  rewrite (ssa_dst_run cur dst i c1 b s).
  2:{ by rewrite Hq1. }
  2:{ destruct Hev1 as (_ & _ & -> & _). done. }
  2:{ done. }
  2:{ by rewrite (evolves_read_slot _ _ _ Hev1). }
  unfold bind at 1. erewrite get_reg_run.
  2:{ apply reg_at_Some. eexists. split; [exact Hi1|].
      cbn [Instr.regs Instr.set_regs snd]. reflexivity. }
  unfold bind at 1. erewrite update_reg_run.
  2:{ apply reg_at_Some. eexists. split; [exact Hi1|].
      cbn [Instr.regs Instr.set_regs snd]. reflexivity. }
  eapply (vectorize_src_loop_total cur i c0 srcs 0).
  - mred. exact (set_operand_lookup (cur, O) _ _ _ Hi1).
  - intros j a flags Hj. cbn [Instr.regs Instr.set_regs fst snd Nat.add].
    destruct (Forall2_lookup_l _ _ _ _ _ Hall Hj) as (r & Hr & Hinv).
    exists r. split; [exact Hr|exact Hinv].
  - eapply Forall_impl; [exact Hloc|]. intros x Hx.
    eapply local_arg_evolves; [|exact Hx].
    eapply evolves_trans; [exact Hev1|].
    unfold evolves. mred. rewrite set_operand_length.
    split; [lia|]. split; [apply blocks_agree_refl|done].
Qed.

Lemma pending_Some c cur dst i b s :
  block c = Some b -> dst_slot b dst i = Some s ->
  pending c cur dst i = [mk_update cur s].
Proof. intros Hb Hs. unfold pending. by rewrite Hb, Hs. Qed.

(** [vectorize] returns when the destination's four slots exist, the
    queue has room for four writes, and the arguments are local. *)
Lemma vectorize_runs instr dst a0 f0 a1 f1 c tmpl b :
  instrs (ir c) !! instr = Some tmpl ->
  Instr.regs tmpl = [] ->
  Dst.WriteMask dst = TGSI_WRITEMASK_XYZW ->
  block c = Some b ->
  wf_queue c ->
  (length (output_updates c) + 4 <= 16)%nat ->
  (forall i, 0 <= i < 4 ->
     exists s, dst_slot b dst i = Some s /\ is_Some (read_slot c s)) ->
  local_arg c a0 f0 ->
  local_arg c a1 f1 ->
  exists c', vectorize instr dst [(a0, f0); (a1, f1)] c = Done (tt, c').
Proof.
  intros Htmpl Hregs Hmask Hb Hq Hlen Hdst Hl0 Hl1.
  set (srcs := [(a0, f0); (a1, f1)]).
  unfold vectorize. unfold bind at 1. unfold instr_atomic_start. rewrite modify_run.
  set (ca := set_atomic true c).
  assert (Hata : atomic ca = true) by done.
  assert (Hloc : Forall (fun x => local_arg ca x.1 x.2) srcs).
  { constructor; [exact Hl0|constructor; [exact Hl1|constructor]]. }
  destruct (Hdst 0 ltac:(lia)) as (s0 & Hs0 & Hv0).
  destruct (Hdst 1 ltac:(lia)) as (s1 & Hs1 & Hv1).
  destruct (Hdst 2 ltac:(lia)) as (s2 & Hs2 & Hv2).
  destruct (Hdst 3 ltac:(lia)) as (s3 & Hs3 & Hv3).
  assert (Hnum : exists dnum, dst_num ca dst = Some dnum).
  { unfold dst_num, dst_slot in *. destruct (Dst.File dst); try done; eauto. }
  destruct Hnum as [dnum Hnum].
  (* the template *)
  assert (Hsetup : exists cs,
            (add_dst_reg instr dst TGSI_SWIZZLE_X ;;; vectorize_srcs instr srcs) ca
            = Done (tt, cs)).
  { unfold bind at 1.
    rewrite (add_dst_reg_run instr dst TGSI_SWIZZLE_X ca tmpl dnum Htmpl Hnum).
    rewrite Hata. unfold bind at 1. mred.
    eapply vectorize_srcs_total.
    - mred. apply list_lookup_insert_eq. by eapply lookup_lt_Some.
    - eapply Forall_impl; [exact Hloc|]. intros x.
      apply local_arg_evolves. unfold evolves. mred. rewrite length_insert.
      split; [lia|]. split; [apply blocks_agree_refl|done]. }
  destruct Hsetup as [cs Hsetup].
  destruct (vectorize_setup _ _ _ _ _ tmpl Hata Hsetup Htmpl Hregs)
    as (dnum' & T & _ & HT & Hprep & Hevs & Hqs & _).
  { constructor; [by destruct Hl0|constructor; [by destruct Hl1|constructor]]. }
  apply bind_Done in Hsetup as (p & cb & Hdstreg & Hsrcs).
  unfold bind at 1. rewrite Hdstreg. unfold bind at 1. rewrite Hsrcs.
  clear Hdstreg Hsrcs.
  cbn [vectorize_chans chans]. rewrite Hmask.
  change (has_flag TGSI_WRITEMASK_XYZW (bit 0)) with true.
  change (has_flag TGSI_WRITEMASK_XYZW (bit 1)) with true.
  change (has_flag TGSI_WRITEMASK_XYZW (bit 2)) with true.
  change (has_flag TGSI_WRITEMASK_XYZW (bit 3)) with true.
  cbv iota.
  assert (Hats : atomic cs = true).
  { destruct Hevs as (_ & _ & _ & -> & _). done. }
  assert (Hblock : forall cx, evolves ca cx -> block cx = Some b).
  { intros cx (_ & _ & -> & _). exact Hb. }
  assert (Hvalid : forall cx s, evolves ca cx -> is_Some (read_slot c s) ->
            is_Some (read_slot cx s)).
  { intros cx s Hev Hs. by rewrite (evolves_read_slot _ _ _ Hev). }
  assert (Hlocal : forall cx, evolves ca cx ->
            Forall (fun x => local_arg cx x.1 x.2) srcs).
  { intros cx Hev. eapply Forall_impl; [exact Hloc|]. intros x.
    by apply local_arg_evolves. }
  (* component 0 *)
  destruct (vectorize_chan_total instr dst srcs 0 0 ca cs tmpl dnum' T b s0)
    as [c0' Hr0]; [done|done|done|by apply Hlocal|by apply Hblock|done
                  |by apply Hvalid|rewrite Hqs; cbn; lia|].
  destruct (vectorize_round _ _ _ _ _ _ _ _ _ _ _ Hats Hevs Hr0 HT Hprep)
    as (T1 & HT1 & Hexp0 & Hev0 & _ & Hq0 & _).
  change (0 =? 0) with true in *. cbv iota in *.
  assert (Hev0' : evolves ca c0') by (by eapply evolves_trans).
  assert (Hat0 : atomic c0' = true).
  { destruct Hev0' as (_ & _ & _ & -> & _). done. }
  rewrite (pending_Some cs instr dst 0 b s0) in Hq0 by (by try apply Hblock).
  unfold bind at 1. unfold bind at 1. rewrite Hr0.
  (* component 1 *)
  destruct (vectorize_chan_total instr dst srcs 1 (0 + 1) ca c0' tmpl dnum' T1 b s1)
    as [c1 Hr1]; [done|done|by eapply expanded_prepared|by apply Hlocal
                 |by apply Hblock|done|by apply Hvalid
                 |rewrite Hq0, Hqs, length_app; cbn; lia|].
  destruct (vectorize_clone_round _ _ _ _ (0 + 1) _ _ _ _ _ _ ltac:(done) Hat0 Hev0' Hr1 HT1
              (expanded_prepared _ _ _ _ _ _ Hexp0))
    as (I1 & _ & _ & Hev1 & Hat1 & Hlt1 & Hq1 & Hframe1).
  assert (HT2 : instrs (ir c1) !! instr = Some T1).
  { rewrite Hframe1; [done|]. by eapply lookup_lt_Some. }
  rewrite (pending_Some ca _ dst 1 b s1) in Hq1 by done.
  unfold bind at 1. rewrite Hr1.
  (* component 2 *)
  destruct (vectorize_chan_total instr dst srcs 2 (0 + 1 + 1) ca c1 tmpl dnum' T1 b s2)
    as [c2 Hr2]; [done|done|by eapply expanded_prepared|by apply Hlocal
                 |by apply Hblock|done|by apply Hvalid
                 |rewrite Hq1, Hq0, Hqs, !length_app; cbn; lia|].
  destruct (vectorize_clone_round _ _ _ _ (0 + 1 + 1) _ _ _ _ _ _ ltac:(done) Hat1 Hev1 Hr2 HT2
              (expanded_prepared _ _ _ _ _ _ Hexp0))
    as (I2 & _ & _ & Hev2 & Hat2 & Hlt2 & Hq2 & Hframe2).
  assert (HT3 : instrs (ir c2) !! instr = Some T1).
  { rewrite Hframe2; [done|]. by eapply lookup_lt_Some. }
  rewrite (pending_Some ca _ dst 2 b s2) in Hq2 by done.
  unfold bind at 1. rewrite Hr2.
  (* component 3 *)
  destruct (vectorize_chan_total instr dst srcs 3 (0 + 1 + 1 + 1) ca c2 tmpl dnum' T1 b s3)
    as [c3 Hr3]; [done|done|by eapply expanded_prepared|by apply Hlocal
                 |by apply Hblock|done|by apply Hvalid
                 |rewrite Hq2, Hq1, Hq0, Hqs, !length_app; cbn; lia|].
  destruct (vectorize_clone_round _ _ _ _ (0 + 1 + 1 + 1) _ _ _ _ _ _ ltac:(done) Hat2 Hev2 Hr3 HT3
              (expanded_prepared _ _ _ _ _ _ Hexp0))
    as (I3 & _ & _ & Hev3 & Hat3 & Hlt3 & Hq3 & Hframe3).
  rewrite (pending_Some ca _ dst 3 b s3) in Hq3 by done.
  unfold bind at 1. rewrite Hr3. rewrite ret_run.
  (* the end of the group *)
  unfold instr_atomic_end. unfold bind at 1. rewrite modify_run.
  destruct (instr_finish_run (set_atomic false c3)) as (bs & Hfin & _); [done| |by eexists].
  unfold wf_queue. mred. rewrite Hq3, Hq2, Hq1, Hq0, Hqs.
  assert (Hv : forall s, is_Some (read_slot c s) ->
            is_Some (read_slot (set_atomic false c3) s)).
  { intros s Hs. change (read_slot (set_atomic false c3) s) with (read_slot c3 s).
    by apply Hvalid. }
  rewrite !Forall_app. repeat split.
  - unfold wf_queue in Hq. eapply Forall_impl; [exact Hq|]. intros u. apply Hv.
  - constructor; [by apply Hv|constructor].
  - constructor; [by apply Hv|constructor].
  - constructor; [by apply Hv|constructor].
  - constructor; [by apply Hv|constructor].
Qed.

(** * Further properties of the lowering *)

Lemma push_block_nested c b :
  block c = Some b ->
  push_block c =
  Done (length (blocks (ir c)),
        set_block (Some (length (blocks (ir c))))
          (set_blocks (blocks (ir c) ++ [nested_block c]) c)).
Proof.
  intros Hb. unfold push_block. mstep. rewrite Hb.
  unfold ir3_block_create. unfold bind at 1. unfold bind at 1.
  rewrite update_block_eq. mred. rewrite lookup_snoc, insert_snoc.
  mstep. unfold nested_block. rewrite Hb. reflexivity.
Qed.

Lemma pop_block_top c b blk :
  block c = Some b ->
  blocks (ir c) !! b = Some blk ->
  Block.parent blk = None ->
  pop_block c = CompileError.
Proof.
  intros Hb Hblk Hp. unfold pop_block. mstep. rewrite Hb. mstep.
  unfold bind at 1. rewrite get_block_eq, Hblk. mstep. by rewrite Hp.
Qed.

(** X1. Entering a nested scope and leaving it again restores the
    current block: inside a block, [push_block] followed by [pop_block]
    leaves the context as it was but for one block appended to the
    arena, whose parent is the current block, which has
    [4 * (file_max[TEMPORARY] + 1) + 16] temporaries and as many inputs,
    [4 * (file_max[OUTPUT] + 1)] outputs, and no slot set. *)
Theorem push_block_pop_block c b :
  block c = Some b ->
  (push_block ;;; pop_block) c
    = Done (tt, set_blocks (blocks (ir c) ++ [nested_block c]) c).
Proof.
  intros Hb. unfold bind at 1. rewrite (push_block_nested c b Hb).
  unfold pop_block. mstep. mstep. cbn [block set_block deref].
  rewrite ret_run. unfold bind at 1.
  rewrite get_block_eq. cbn [set_block set_blocks set_ir ir blocks].
  rewrite lookup_snoc. mstep. unfold nested_block.
  destruct c; cbn in Hb |- *; subst; reflexivity.
Qed.

Lemma push_block_pop_block_example :
  (push_block ;;; pop_block) ex_top
    = Done (tt, set_blocks (blocks (ir ex_top) ++ [nested_block ex_top]) ex_top).
Proof. apply (push_block_pop_block ex_top 0%nat). by vm_compute. Defined.

(** X2. An ELSE or an ENDIF with no IF open is a compile error: in the
    outermost block [pop_block] trips its assertion, and so does the
    lowering of either instruction. *)
Theorem else_endif_without_if inst c b blk :
  Opcode inst = TGSI_OPCODE_ELSE \/ Opcode inst = TGSI_OPCODE_ENDIF ->
  block c = Some b ->
  blocks (ir c) !! b = Some blk ->
  Block.parent blk = None ->
  pop_block c = CompileError /\ compile_instruction inst c = CompileError.
Proof.
  intros Ho Hb Hblk Hp.
  pose proof (pop_block_top c b blk Hb Hblk Hp) as Hpop.
  split; [exact Hpop|].
  unfold compile_instruction.
  destruct Ho as [-> | ->]; cbn [translaters];
    unfold bind at 1; unfold bind at 1;
    [unfold trans_else | unfold trans_endif];
    unfold bind at 1; rewrite Hpop; reflexivity.
Qed.

Lemma else_endif_without_if_example :
  pop_block ex_top = CompileError /\ compile_instruction ENDIF_ ex_top = CompileError.
Proof.
  apply (else_endif_without_if ENDIF_ ex_top 0%nat
           (Block.mk None (replicate 24 None) (replicate 4 None) (replicate 4 None))).
  - right. reflexivity.
  - by vm_compute.
  - by vm_compute.
  - reflexivity.
Defined.

Lemma push_branch_run instr c :
  in_range (branch_count c) (branch c) = true ->
  push_branch instr c =
  Done (tt, set_branch_count (branch_count c + 1)
              (set_branch (<[Z.to_nat (branch_count c) := Some instr]> (branch c)) c)).
Proof.
  intros Hr. unfold push_branch. mstep. unfold bind at 1.
  rewrite (zinsert_in_range _ _ _ Hr). mred. mstep. reflexivity.
Qed.

Lemma pop_branch_eq c :
  pop_branch c =
  match zlookup (branch c) (sub32 (branch_count c) 1) with
  | Some (Some i) => Done (i, set_branch_count (sub32 (branch_count c) 1) c)
  | _ => Fault
  end.
Proof.
  unfold pop_branch. mstep. mstep. unfold bind at 1.
  cbn [branch set_branch_count].
  destruct (zlookup (branch c) (sub32 (branch_count c) 1)) as [[i|]|]; reflexivity.
Qed.

(** X3. The branch stack is last-in first-out while it has room:
    [push_branch] followed by [pop_branch] returns the instruction pushed
    and leaves the count as it was, the entry at the old top overwritten.
    [pop_branch] on an empty stack decrements the unsigned count to
    [2^32 - 1] and reads outside the 16 entries. *)
Theorem push_branch_pop_branch instr c :
  length (branch c) = 16%nat ->
  (0 <= branch_count c < 16 ->
   (push_branch instr ;;; pop_branch) c
     = Done (instr,
             set_branch (<[Z.to_nat (branch_count c) := Some instr]> (branch c)) c))
  /\ (branch_count c = 0 -> pop_branch c = Fault).
Proof.
  intros Hlen. split.
  - intros Hn.
    assert (Hr : in_range (branch_count c) (branch c) = true).
    { apply in_range_lt. lia. }
    rewrite (bind_Done_intro _ _ _ _ _ (push_branch_run instr c Hr)).
    rewrite pop_branch_eq. cbn [branch branch_count set_branch set_branch_count].
    replace (sub32 (branch_count c + 1) 1) with (branch_count c)
      by (unfold sub32; rewrite Z.mod_small; lia).
    rewrite (zlookup_insert_eq _ _ _ Hr).
    destruct c; reflexivity.
  - intros H0. rewrite pop_branch_eq, H0.
    replace (zlookup (branch c) (sub32 0 1)) with (@None (option instr_id)); [reflexivity|].
    unfold zlookup. change (sub32 0 1) with 4294967295. cbn [Z.ltb Z.compare].
    symmetry. apply lookup_ge_None. lia.
Qed.

Lemma push_branch_pop_branch_example :
  (push_branch 7%nat ;;; pop_branch) ex_top
    = Done (7%nat, set_branch (<[0%nat := Some 7%nat]> (branch ex_top)) ex_top)
  /\ pop_branch ex_top = Fault.
Proof.
  destruct (push_branch_pop_branch 7%nat ex_top) as [H1 H2]; [by vm_compute|].
  split; [apply H1; by vm_compute | apply H2; by vm_compute].
Defined.

Lemma queued_snoc q u s :
  queued (q ++ [u]) s
  = if decide (upd_instrp u = s) then Some (upd_instr u) else queued q s.
Proof.
  induction q as [|x q IH]; simpl.
  - done.
  - rewrite IH. destruct (decide (upd_instrp u = s)); [done|].
    reflexivity.
Qed.

Lemma read_slot_set_output_updates q c s :
  read_slot (set_output_updates q c) s = read_slot c s.
Proof. reflexivity. Qed.

Lemma ssa_dst_no_slot instr dst chan c b s :
  block c = Some b ->
  is_Some (blocks (ir c) !! b) ->
  dst_slot b dst chan = Some s ->
  read_slot c s = None ->
  ssa_dst instr dst chan c = CompileError.
Proof.
  intros Hb [blk Hblk] Hs Hr. unfold ssa_dst. mstep. unfold bind at 1.
  destruct (Z.ltb_spec (Z.of_nat (length (output_updates c))) 16) as [Hlt|Hge];
    [|reflexivity].
  mred. unfold dst_slot in Hs. unfold read_slot in Hr.
  destruct (Dst.File dst); try discriminate; injection Hs as <-;
    cbn [slot_block slot_file slot_n] in Hr; rewrite Hblk in Hr;
    rewrite Hb; mstep; unfold bind at 1; rewrite get_block_eq, Hblk;
    unfold bind at 1.
  - destruct (in_range _ (Block.outputs blk)) eqn:E; [|reflexivity].
    apply zlookup_in_range in E. rewrite Hr in E. by destruct E.
  - destruct (in_range _ (Block.temporaries blk)) eqn:E; [|reflexivity].
    apply zlookup_in_range in E. rewrite Hr in E. by destruct E.
Qed.

(** X4. The bounds of a destination write: [ssa_dst] is a compile error
    when 16 writes are already pending, whatever the destination, and
    when the register component has no slot in the current block. *)
Theorem ssa_dst_rejects instr dst chan c :
  (16 <= length (output_updates c))%nat
  \/ (exists b s, block c = Some b /\ is_Some (blocks (ir c) !! b)
                  /\ dst_slot b dst chan = Some s /\ read_slot c s = None) ->
  ssa_dst instr dst chan c = CompileError.
Proof.
  intros [Hfull|(b & s & Hb & Hblk & Hs & Hr)].
  - unfold ssa_dst. mstep. unfold bind at 1.
    destruct (Z.ltb_spec (Z.of_nat (length (output_updates c))) 16) as [Hlt|Hge].
    + lia.
    + reflexivity.
  - by apply (ssa_dst_no_slot instr dst chan c b s).
Qed.

Lemma ssa_dst_rejects_example :
  ssa_dst 0%nat (TEMP_dst 6 15) 0 ex_top = CompileError.
Proof.
  apply ssa_dst_rejects. right.
  exists 0%nat, (mk_slot 0%nat SlotTemporary 24).
  split; [by vm_compute|]. split; [vm_compute; eexists; reflexivity|].
  split; by vm_compute.
Defined.

(** X5. A destination write is visible once the instruction is
    finished: outside an atomic group, [ssa_dst] followed by
    [instr_finish] leaves the queue empty, the written slot holding the
    instruction, every other slot holding the value that was live for it,
    and the arena of instructions as it was. *)
Theorem ssa_dst_instr_finish instr dst chan c b s :
  atomic c = false ->
  wf_queue c ->
  (length (output_updates c) < 16)%nat ->
  block c = Some b ->
  dst_slot b dst chan = Some s ->
  is_Some (read_slot c s) ->
  exists c',
    (ssa_dst instr dst chan ;;; instr_finish) c = Done (tt, c')
    /\ output_updates c' = []
    /\ read_slot c' s = Some (Some instr)
    /\ (forall s', s' <> s -> read_slot c' s' = live c s')
    /\ instrs (ir c') = instrs (ir c).
Proof.
  intros Ha Hwf Hq Hb Hs Hr.
  set (c1 := set_output_updates (output_updates c ++ [mk_update instr s]) c).
  assert (Hwf1 : wf_queue c1).
  { unfold wf_queue, c1. cbn [output_updates set_output_updates].
    apply Forall_app. split.
    - exact Hwf.
    - constructor; [exact Hr|constructor]. }
  destruct (instr_finish_run c1 Ha Hwf1) as (bs & Hrun & Hlive).
  exists (set_output_updates [] (set_blocks bs c1)).
  rewrite (bind_Done_intro _ _ _ _ _ (ssa_dst_run instr dst chan c b s Hq Hb Hs Hr)).
  split; [exact Hrun|]. split; [reflexivity|].
  assert (Hl : forall s', read_slot (set_output_updates [] (set_blocks bs c1)) s'
                          = live c1 s').
  { intros s'. rewrite <- Hlive. reflexivity. }
  split; [|split].
  - rewrite Hl. unfold live, c1. cbn [output_updates set_output_updates].
    rewrite queued_snoc. cbn [upd_instrp upd_instr].
    by rewrite decide_True.
  - intros s' Hne. rewrite Hl. unfold live, c1.
    cbn [output_updates set_output_updates].
    rewrite queued_snoc. cbn [upd_instrp upd_instr].
    rewrite decide_False by done. reflexivity.
  - reflexivity.
Qed.

Lemma ssa_dst_instr_finish_example :
  exists c',
    (ssa_dst 9%nat (TEMP_dst 1 15) 2 ;;; instr_finish) ex_top = Done (tt, c')
    /\ output_updates c' = []
    /\ read_slot c' (mk_slot 0%nat SlotTemporary 6) = Some (Some 9%nat)
    /\ (forall s', s' <> mk_slot 0%nat SlotTemporary 6 -> read_slot c' s' = live ex_top s')
    /\ instrs (ir c') = instrs (ir ex_top).
Proof.
  apply (ssa_dst_instr_finish 9%nat (TEMP_dst 1 15) 2 ex_top 0%nat).
  - by vm_compute.
  - constructor.
  - vm_compute. lia.
  - by vm_compute.
  - by vm_compute.
  - vm_compute. eexists; reflexivity.
Defined.

(** What the search loop of [get_immediate] saw when it stopped. *)
Lemma scan_immediates_found n : forall i0 val imms i neg,
  scan_immediates n i0 val imms = Some (Some (i, neg)) ->
  i0 <= i < i0 + Z.of_nat n
  /\ zlookup imms i = Some (if neg then neg32 val else val)
  /\ (neg = true -> neg32 val <> val)
  /\ (forall j, i0 <= j < i ->
        exists y, zlookup imms j = Some y /\ y <> val /\ y <> neg32 val).
Proof.
  induction n as [|n IH]; intros i0 val imms i neg H; simpl in H; [discriminate|].
  destruct (zlookup imms i0) as [x|] eqn:Hx; [|discriminate].
  destruct (Z.eqb_spec x val) as [->|Hne].
  { injection H as <- <-. split; [lia|]. split; [done|]. split; [done|].
    intros j Hj. lia. }
  destruct (Z.eqb_spec x (neg32 val)) as [->|Hne'].
  { injection H as <- <-. split; [lia|]. split; [done|]. split.
    - intros _ E. by rewrite E in Hne.
    - intros j Hj. lia. }
  apply IH in H as (Hi & Hl & Hn & Hj).
  split; [lia|]. split; [done|]. split; [done|].
  intros j Hjr. destruct (decide (j = i0)) as [->|Hd].
  - by exists x.
  - apply Hj. lia.
Qed.

Lemma scan_immediates_none n : forall i0 val imms,
  scan_immediates n i0 val imms = Some None ->
  forall j, i0 <= j < i0 + Z.of_nat n ->
    exists y, zlookup imms j = Some y /\ y <> val /\ y <> neg32 val.
Proof.
  induction n as [|n IH]; intros i0 val imms H j Hj; [lia|]. simpl in H.
  destruct (zlookup imms i0) as [x|] eqn:Hx; [|discriminate].
  destruct (Z.eqb_spec x val) as [->|Hne]; [discriminate|].
  destruct (Z.eqb_spec x (neg32 val)) as [->|Hne']; [discriminate|].
  destruct (decide (j = i0)) as [->|Hd].
  - by exists x.
  - apply (IH _ _ _ H). lia.
Qed.

Lemma scan_immediates_hit n : forall i0 val imms i,
  i0 <= i < i0 + Z.of_nat n ->
  (forall j, i0 <= j < i ->
     exists y, zlookup imms j = Some y /\ y <> val /\ y <> neg32 val) ->
  zlookup imms i = Some val ->
  scan_immediates n i0 val imms = Some (Some (i, false)).
Proof.
  induction n as [|n IH]; intros i0 val imms i Hi Hj Hx; [lia|]. simpl.
  destruct (decide (i = i0)) as [->|Hd].
  - rewrite Hx, Z.eqb_refl. reflexivity.
  - destruct (Hj i0) as (y & Hy & Hne & Hne'); [lia|]. rewrite Hy.
    destruct (Z.eqb_spec y val); [done|].
    destruct (Z.eqb_spec y (neg32 val)); [done|].
    apply IH; [lia| |exact Hx]. intros j Hjr. apply Hj. lia.
Qed.

Lemma get_immediate_eq val c :
  get_immediate val c =
  let imm i neg :=
    Src.mk TGSI_FILE_IMMEDIATE false false (i / 4) false neg
      (i mod 4) (i mod 4) (i mod 4) (i mod 4) in
  match scan_immediates (Z.to_nat (immediate_idx c)) 0 val (immediates (so c)) with
  | None => Fault
  | Some (Some (i, neg)) => Done (imm i neg, c)
  | Some None =>
      let i := immediate_idx c in
      if in_range i (immediates (so c)) then
        Done (imm i false,
              set_immediate_idx (i + 1)
                (set_so (set_immediates (<[Z.to_nat i := val]> (immediates (so c)))
                           (i / 4 + 1) (so c)) c))
      else Fault
  end.
Proof.
  unfold get_immediate. mstep. unfold bind at 1.
  destruct (scan_immediates _ 0 val _) as [[[i neg]|]|]; mred; try reflexivity.
  unfold bind at 1. unfold bind at 1. unfold zinsert, in_range.
  destruct (_ && _); mred; reflexivity.
Qed.

(** X6. The register [get_immediate] returns names the first pool
    entry that matches the word asked for.  It is an IMMEDIATE register
    with one swizzle on all four components; entry [4 * Index + Swizzle]
    of the pool lies below [immediate_idx] and holds the word [val]
    itself when Negate is clear, and the word [neg32 val] when Negate is
    set: that is [-val] as the code computes it on [uint32_t], the two's
    complement of the bit pattern and not the pattern with the sign bit
    flipped, and a word different from [val].  No entry before it
    holds either word, and no entry below the old [immediate_idx]
    changes.  Either the context is unchanged, or the word was stored at
    the old [immediate_idx], which grows by one. *)
Theorem get_immediate_lookup val c r c1 :
  get_immediate val c = Done (r, c1) ->
  let i := 4 * Src.Index r + Src.SwizzleX r in
  Src.File r = TGSI_FILE_IMMEDIATE
  /\ 0 <= Src.SwizzleX r < 4
  /\ (Src.SwizzleY r, Src.SwizzleZ r, Src.SwizzleW r)
     = (Src.SwizzleX r, Src.SwizzleX r, Src.SwizzleX r)
  /\ 0 <= i < immediate_idx c1
  /\ zlookup (immediates (so c1)) i = Some (if Src.Negate r then neg32 val else val)
  /\ (Src.Negate r = true -> neg32 val <> val)
  /\ (forall j, 0 <= j < i ->
        exists y, zlookup (immediates (so c)) j = Some y /\ y <> val /\ y <> neg32 val)
  /\ (forall j, 0 <= j < immediate_idx c ->
        zlookup (immediates (so c1)) j = zlookup (immediates (so c)) j)
  /\ (c1 = c
      \/ Src.Negate r = false
         /\ i = immediate_idx c
         /\ immediate_idx c1 = immediate_idx c + 1
         /\ immediates_count (so c1) = i / 4 + 1).
Proof.
  rewrite get_immediate_eq. cbv zeta.
  destruct (scan_immediates _ 0 val _) as [[[i neg]|]|] eqn:Hscan; [| |discriminate].
  - intros [= <- <-]. cbn [Src.File Src.Index Src.SwizzleX Src.SwizzleY Src.SwizzleZ
                             Src.SwizzleW Src.Negate].
    pose proof (Z.div_mod i 4 ltac:(lia)) as Hdm.
    pose proof (Z.mod_pos_bound i 4 ltac:(lia)) as Hm.
    apply scan_immediates_found in Hscan as (Hi & Hl & Hn & Hfirst).
    replace (4 * (i / 4) + i mod 4) with i by lia.
    split; [done|]. split; [lia|]. split; [done|]. split; [lia|].
    split; [exact Hl|]. split; [exact Hn|]. split; [exact Hfirst|].
    split; [done|]. by left.
  - destruct (in_range _ _) eqn:Hr; [|discriminate].
    intros [= <- <-]. cbn [Src.File Src.Index Src.SwizzleX Src.SwizzleY Src.SwizzleZ
                             Src.SwizzleW Src.Negate].
    set (i := immediate_idx c) in *.
    pose proof (Z.div_mod i 4 ltac:(lia)) as Hdm.
    pose proof (Z.mod_pos_bound i 4 ltac:(lia)) as Hm.
    pose proof (proj1 (in_range_lt _ _) Hr) as [Hi0 _].
    replace (4 * (i / 4) + i mod 4) with i by lia.
    cbn [immediate_idx set_immediate_idx so set_so immediates set_immediates
         immediates_count].
    split; [done|]. split; [lia|]. split; [done|]. split; [lia|].
    split; [by apply zlookup_insert_eq|]. split; [done|].
    split; [intros j Hj; apply (scan_immediates_none _ _ _ _ Hscan); lia|].
    split; [intros j Hj; apply zlookup_insert_ne; lia|].
    right. repeat split; done.
Qed.

(** The pool holds the pattern of -4.0 and 1.0 is asked for: the entry
    of -4.0 is returned with Negate set, since [-val] on the pattern of
    1.0 is the pattern of -4.0. *)
Lemma get_immediate_lookup_example :
  exists r,
    get_immediate fui_1_0 ex_pool_minus_4 = Done (r, ex_pool_minus_4)
    /\ (Src.Index r, Src.SwizzleX r, Src.Negate r) = (0, 0, true)
    /\ zlookup (immediates (so ex_pool_minus_4)) 0 = Some (neg32 fui_1_0)
    /\ neg32 fui_1_0 = fui_minus_4_0
    /\ neg32 fui_1_0 <> fui_minus_1_0.
Proof.
  set (r := Src.mk TGSI_FILE_IMMEDIATE false false 0 false true 0 0 0 0).
  assert (Hrun : get_immediate fui_1_0 ex_pool_minus_4 = Done (r, ex_pool_minus_4))
    by (vm_compute; reflexivity).
  destruct (get_immediate_lookup fui_1_0 ex_pool_minus_4 r ex_pool_minus_4 Hrun)
    as (_ & _ & _ & _ & Hentry & _).
  exists r. split; [exact Hrun|]. split; [reflexivity|].
  split; [exact Hentry|]. split; [reflexivity|]. by vm_compute.
Defined.

(** X7. Immediates are interned: asking [get_immediate] for a value it
    has just returned a register for gives the same register again and
    leaves the pool and the context as they are. *)
Theorem get_immediate_again val c r c1 :
  get_immediate val c = Done (r, c1) ->
  get_immediate val c1 = Done (r, c1).
Proof.
  rewrite !get_immediate_eq. cbv zeta.
  destruct (scan_immediates _ 0 val (immediates (so c))) as [[[i neg]|]|] eqn:Hscan;
    [| |discriminate].
  - intros [= <- <-]. by rewrite Hscan.
  - destruct (in_range _ _) eqn:Hr; [|discriminate].
    intros [= <- <-].
    cbn [immediate_idx set_immediate_idx so set_so immediates set_immediates].
    set (i := immediate_idx c) in *.
    pose proof (proj1 (in_range_lt _ _) Hr) as [Hi0 _].
    rewrite (scan_immediates_hit _ 0 val _ i).
    + reflexivity.
    + lia.
    + intros j Hj.
      destruct (scan_immediates_none _ _ _ _ Hscan j) as (y & Hy & Hne); [lia|].
      exists y. split; [|exact Hne]. rewrite <- Hy. apply zlookup_insert_ne; lia.
    + by apply zlookup_insert_eq.
Qed.

Lemma get_immediate_again_example :
  get_immediate fui_1_0 (run_from (get_immediate fui_1_0) ex_init)
  = Done (Src.mk TGSI_FILE_IMMEDIATE false false 0 false false 0 0 0 0,
          run_from (get_immediate fui_1_0) ex_init).
Proof. apply (get_immediate_again fui_1_0 ex_init). by vm_compute. Defined.

Lemma regid_add n chan : 0 <= chan < 4 -> regid n chan = 4 * n + chan.
Proof.
  intros Hc.
  pose proof (regid_num n chan) as Hn.
  pose proof (regid_comp n chan) as Hl.
  rewrite Z.shiftr_div_pow2 in Hn by lia.
  change 3 with (Z.ones 2) in Hl. rewrite !Z.land_ones in Hl by lia.
  change (2 ^ 2) with 4 in *.
  rewrite (Z.mod_small chan 4) in Hl by lia.
  pose proof (Z.div_mod (regid n chan) 4 ltac:(lia)). lia.
Qed.

Lemma get_internal_temp_eq c :
  get_internal_temp c =
  let n := num_internal_temps c in
  if n <? 6 then
    if in_range n (internal_temps c) then
      Done ((fresh_temporary TGSI_WRITEMASK_XYZW c, Z.to_nat n),
            set_internal_temps
              (<[Z.to_nat n := src_from_dst (fresh_temporary TGSI_WRITEMASK_XYZW c)]>
                 (internal_temps c))
              (set_num_internal_temps (n + 1) c))
    else Fault
  else CompileError.
Proof.
  unfold get_internal_temp. mstep. mstep. unfold bind at 1. cbv zeta.
  destruct (num_internal_temps c <? 6); mred; [|reflexivity].
  unfold bind at 1. cbn [internal_temps set_num_internal_temps].
  unfold zinsert, in_range. destruct (_ && _); mred; [|reflexivity].
  mstep. reflexivity.
Qed.

(** X8. A block has slots for the first four internal temporaries of an
    instruction only.  [get_internal_temp] hands out up to six, numbered
    from [file_max[TEMPORARY] + 1]; in a block with the
    [4 * (file_max[TEMPORARY] + 1) + 16] temporaries [push_block] gives
    it, a destination write to a component of the first four is queued
    and one to the fifth or sixth is a compile error. *)
Theorem internal_temp_slots c b blk tmp k c1 instr chan :
  block c = Some b ->
  blocks (ir c) !! b = Some blk ->
  length (Block.temporaries blk)
    = Z.to_nat (SCALAR_REGS c TGSI_FILE_TEMPORARY + 4 * 4) ->
  -1 <= file_max (info c) TGSI_FILE_TEMPORARY ->
  (length (output_updates c) < 16)%nat ->
  0 <= chan < 4 ->
  get_internal_temp c = Done ((tmp, k), c1) ->
  0 <= num_internal_temps c < 6
  /\ Dst.Index tmp = file_max (info c) TGSI_FILE_TEMPORARY + num_internal_temps c + 1
  /\ ssa_dst instr tmp chan c1 =
     if num_internal_temps c <? 4 then
       Done (tt, set_output_updates
                   (output_updates c
                    ++ [mk_update instr
                          (mk_slot b SlotTemporary (regid (Dst.Index tmp) chan))]) c1)
     else CompileError.
Proof.
  intros Hb Hblk Hlen Hfm Hq Hc. rewrite get_internal_temp_eq. cbv zeta.
  destruct (Z.ltb_spec (num_internal_temps c) 6) as [Hn6|]; [|discriminate].
  destruct (in_range _ _) eqn:Hr; [|discriminate].
  intros [= <- <- <-].
  pose proof (proj1 (in_range_lt _ _) Hr) as [Hn0 _].
  split; [lia|]. split; [reflexivity|].
  set (c1 := set_internal_temps _ _).
  set (tmp := fresh_temporary TGSI_WRITEMASK_XYZW c).
  assert (Hs : dst_slot b tmp chan
               = Some (mk_slot b SlotTemporary (regid (Dst.Index tmp) chan)))
    by reflexivity.
  assert (Hid : regid (Dst.Index tmp) chan
                = 4 * (file_max (info c) TGSI_FILE_TEMPORARY
                       + num_internal_temps c + 1) + chan).
  { rewrite regid_add by lia. reflexivity. }
  assert (Hread : read_slot c1 (mk_slot b SlotTemporary (regid (Dst.Index tmp) chan))
                  = zlookup (Block.temporaries blk) (regid (Dst.Index tmp) chan)).
  { unfold read_slot. cbn [slot_block slot_file slot_n].
    change (blocks (ir c1)) with (blocks (ir c)). by rewrite Hblk. }
  unfold SCALAR_REGS in Hlen.
  destruct (Z.ltb_spec (num_internal_temps c) 4) as [Hn4|Hn4].
  - apply (ssa_dst_run instr tmp chan c1 b _ Hq Hb Hs).
    rewrite Hread. apply zlookup_in_range, in_range_lt. rewrite Hid, Hlen. lia.
  - apply (ssa_dst_no_slot instr tmp chan c1 b
             (mk_slot b SlotTemporary (regid (Dst.Index tmp) chan)) Hb);
      [by exists blk|exact Hs|].
    rewrite Hread. destruct (zlookup _ _) eqn:E; [|done].
    assert (Hin : is_Some (zlookup (Block.temporaries blk) (regid (Dst.Index tmp) chan)))
      by (by rewrite E).
    apply zlookup_in_range, in_range_lt in Hin. rewrite Hid, Hlen in Hin. lia.
Qed.

Lemma internal_temp_slots_example :
  ssa_dst 0%nat (fresh_temporary TGSI_WRITEMASK_XYZW (set_num_internal_temps 4 ex_top)) 0
    (run_from get_internal_temp (set_num_internal_temps 4 ex_top))
  = CompileError.
Proof.
  pose proof (internal_temp_slots (set_num_internal_temps 4 ex_top) 0%nat
                (Block.mk None (replicate 24 None) (replicate 4 None) (replicate 4 None))
                (fresh_temporary TGSI_WRITEMASK_XYZW (set_num_internal_temps 4 ex_top))
                4%nat (run_from get_internal_temp (set_num_internal_temps 4 ex_top))
                0%nat 0) as H.
  destruct H as (_ & _ & H).
  - by vm_compute.
  - by vm_compute.
  - by vm_compute.
  - by vm_compute.
  - vm_compute. lia.
  - lia.
  - by vm_compute.
  - exact H.
Defined.

Lemma block_input_rec_outermost n c fuel : forall b,
  parents_older (blocks (ir c)) ->
  (b <= fuel)%nat ->
  is_Some (blocks (ir c) !! b) ->
  exists t blk,
    outermost (blocks (ir c)) b t
    /\ blocks (ir c) !! t = Some blk
    /\ Block.parent blk = None
    /\ block_input_rec fuel b n c
       = match zlookup (Block.inputs blk) n with
         | Some v => Done (v, c)
         | None => Fault
         end.
Proof.
  induction fuel as [|fuel IH]; intros b Hold Hle [blk Hblk].
  - assert (b = 0)%nat as -> by lia.
    destruct (Block.parent blk) as [p|] eqn:Hp.
    { specialize (Hold _ _ _ Hblk Hp). lia. }
    exists 0%nat, blk. split; [by eapply outermost_top|]. split; [done|].
    split; [done|].
    cbn [block_input_rec]. unfold bind at 1. rewrite get_block_eq, Hblk, Hp.
    unfold deref. by destruct (zlookup _ _).
  - destruct (Block.parent blk) as [p|] eqn:Hp.
    + pose proof (Hold _ _ _ Hblk Hp) as Hlt.
      destruct (IH p Hold) as (t & tblk & Ht & Htb & Htp & Hrun); [lia| |].
      { apply lookup_lt_is_Some. apply lookup_lt_Some in Hblk. lia. }
      exists t, tblk. split; [by eapply outermost_up|]. split; [done|].
      split; [done|].
      cbn [block_input_rec]. unfold bind at 1. rewrite get_block_eq, Hblk, Hp.
      exact Hrun.
    + exists b, blk. split; [by eapply outermost_top|]. split; [done|].
      split; [done|].
      cbn [block_input_rec]. unfold bind at 1. rewrite get_block_eq, Hblk, Hp.
      unfold deref. by destruct (zlookup _ _).
Qed.

(** X9. A read of the INPUT file is answered by the outermost block:
    from any block of an arena in which every block is younger than its
    parent, [block_input] follows the parent links to the block without
    parent and returns that block's input slot, changing nothing; a slot
    number outside that block's inputs is a read outside the array. *)
Theorem block_input_outermost b n c :
  parents_older (blocks (ir c)) ->
  is_Some (blocks (ir c) !! b) ->
  exists t blk,
    outermost (blocks (ir c)) b t
    /\ blocks (ir c) !! t = Some blk
    /\ Block.parent blk = None
    /\ block_input b n c
       = match zlookup (Block.inputs blk) n with
         | Some v => Done (v, c)
         | None => Fault
         end.
Proof.
  intros Hold Hb. by apply block_input_rec_outermost.
Qed.

Lemma parents_older_from_sound bs : forall b0,
  parents_older_from b0 bs = true ->
  forall b blk p, bs !! b = Some blk -> Block.parent blk = Some p -> (p < b0 + b)%nat.
Proof.
  induction bs as [|x bs IH]; intros b0 H b blk p Hb Hp; [done|].
  simpl in H. apply andb_true_iff in H as [Hx H].
  destruct b as [|b]; simpl in Hb.
  - injection Hb as ->. rewrite Hp in Hx. apply Nat.ltb_lt in Hx. lia.
  - specialize (IH _ H _ _ _ Hb Hp). lia.
Qed.

Lemma parents_older_check bs : parents_older_from 0 bs = true -> parents_older bs.
Proof. intros H b blk p Hb Hp. exact (parents_older_from_sound bs 0 H b blk p Hb Hp). Qed.

Lemma block_input_outermost_example :
  exists t blk,
    outermost (blocks (ir ex_in_then)) 1%nat t
    /\ blocks (ir ex_in_then) !! t = Some blk
    /\ Block.parent blk = None
    /\ block_input 1%nat 0 ex_in_then
       = match zlookup (Block.inputs blk) 0 with
         | Some v => Done (v, ex_in_then)
         | None => Fault
         end.
Proof.
  apply block_input_outermost.
  - apply parents_older_check. by vm_compute.
  - vm_compute. eexists; reflexivity.
Defined.

Lemma find_slot_rec_nearest kind bs n fuel : forall b,
  parents_older bs ->
  (forall b blk, bs !! b = Some blk -> in_range n (slots_of kind blk) = true) ->
  (b <= fuel)%nat ->
  is_Some (bs !! b) ->
  exists v, find_slot_rec kind bs fuel b n = Some v /\ nearest kind bs n b v.
Proof.
  induction fuel as [|fuel IH]; intros b Hold Hin Hle [blk Hblk].
  - assert (b = 0)%nat as -> by lia.
    destruct (Block.parent blk) as [p|] eqn:Hp.
    { specialize (Hold _ _ _ Hblk Hp). lia. }
    destruct (proj2 (zlookup_in_range n (slots_of kind blk)) (Hin _ _ Hblk)) as [v Hv].
    exists v. cbn [find_slot_rec]. rewrite Hblk.
    change (match kind with
            | SlotTemporary => Block.temporaries blk
            | SlotOutput => Block.outputs blk
            end) with (slots_of kind blk).
    rewrite Hv, Hp. split; [reflexivity|].
    destruct v as [v|]; [by eapply nearest_here|by eapply nearest_none].
  - destruct (proj2 (zlookup_in_range n (slots_of kind blk)) (Hin _ _ Hblk)) as [v Hv].
    cbn [find_slot_rec]. rewrite Hblk.
    change (match kind with
            | SlotTemporary => Block.temporaries blk
            | SlotOutput => Block.outputs blk
            end) with (slots_of kind blk).
    rewrite Hv.
    destruct (Block.parent blk) as [p|] eqn:Hp; destruct v as [v|].
    + exists (Some v). split; [reflexivity|]. by eapply nearest_here.
    + pose proof (Hold _ _ _ Hblk Hp) as Hlt.
      destruct (IH p Hold Hin) as (w & Hw & Hn); [lia| |].
      { apply lookup_lt_is_Some. apply lookup_lt_Some in Hblk. lia. }
      exists w. split; [exact Hw|]. by eapply nearest_up.
    + exists (Some v). split; [reflexivity|]. by eapply nearest_here.
    + exists None. split; [reflexivity|]. by eapply nearest_none.
Qed.

(** X10. [find_temporary] and [find_output] return the value of the
    nearest enclosing scope: in an arena in which every block is younger
    than its parent and has slot [n], the search from block [b] returns,
    and its result is slot [n] of the first block up the parent links in
    which that slot is set, or nothing when none of them sets it. *)
Theorem find_slot_nearest kind bs b n :
  parents_older bs ->
  Forall (fun blk => in_range n (slots_of kind blk) = true) bs ->
  is_Some (bs !! b) ->
  exists v,
    match kind with
    | SlotTemporary => find_temporary bs b n
    | SlotOutput => find_output bs b n
    end = Some v
    /\ nearest kind bs n b v.
Proof.
  intros Hold Hin Hb.
  destruct (find_slot_rec_nearest kind bs n b b Hold) as (v & Hv & Hn);
    [|lia|exact Hb|].
  { intros b' blk Hblk. by eapply (proj1 (Forall_lookup _ _) Hin). }
  exists v. split; [|exact Hn]. by destruct kind.
Qed.

Lemma find_slot_nearest_example :
  exists v,
    find_temporary (blocks (ir ex_in_then)) 1%nat 0 = Some v
    /\ nearest SlotTemporary (blocks (ir ex_in_then)) 0 1%nat v.
Proof.
  apply (find_slot_nearest SlotTemporary).
  - apply parents_older_check. by vm_compute.
  - vm_compute. repeat constructor.
  - vm_compute. eexists; reflexivity.
Defined.

Lemma push_block_eq c :
  exists blk,
    push_block c =
      Done (length (blocks (ir c)),
            set_block (Some (length (blocks (ir c))))
              (set_blocks (blocks (ir c) ++ [blk]) c))
    /\ Block.parent blk = block c
    /\ Block.temporaries blk
       = replicate (Z.to_nat (SCALAR_REGS c TGSI_FILE_TEMPORARY + 4 * 4)) None
    /\ (is_Some (block c) ->
        Block.inputs blk
        = replicate (Z.to_nat (SCALAR_REGS c TGSI_FILE_TEMPORARY + 4 * 4)) None).
Proof.
  unfold push_block. eexists. split.
  - mstep. unfold ir3_block_create. unfold bind at 1. unfold bind at 1.
    rewrite update_block_eq. mred. rewrite lookup_snoc, insert_snoc.
    mstep. reflexivity.
  - cbn [Block.parent Block.temporaries Block.inputs]. split; [done|].
    split; [done|]. intros [b Hb]. by rewrite Hb.
Qed.

Lemma in_range_replicate {A} n m (x : A) :
  0 <= n < m -> in_range n (replicate (Z.to_nat m) x) = true.
Proof. intros H. apply in_range_lt. rewrite length_replicate. lia. Qed.

(** X11. [push_block] keeps the scopes well formed.  When the current
    block, if any, is in the arena and slot [n], one of the
    [4 * (file_max[TEMPORARY] + 1) + 16] temporaries of a block, can be
    followed up the parents from every block, the same holds after
    [push_block], the new block is the current one, and a read of that
    temporary from the new block returns. *)
Theorem push_block_keeps_scopes n c :
  (forall b, block c = Some b -> (b < length (blocks (ir c)))%nat) ->
  wf_scopes n (blocks (ir c)) ->
  0 <= n < SCALAR_REGS c TGSI_FILE_TEMPORARY + 4 * 4 ->
  exists b' c',
    push_block c = Done (b', c')
    /\ block c' = Some b'
    /\ (b' < length (blocks (ir c')))%nat
    /\ info c' = info c
    /\ wf_scopes n (blocks (ir c'))
    /\ exists r c2, block_temporary b' n c' = Done (r, c2).
Proof.
  intros Hcur Hwf Hn.
  destruct (push_block_eq c) as (blk & Hrun & Hp & Ht & Hi).
  eexists _, _. split; [exact Hrun|].
  cbn [block set_block set_blocks set_ir ir blocks info].
  assert (Hwf' : wf_scopes n (blocks (ir c) ++ [blk])).
  { intros b x Hx. destruct (decide (b < length (blocks (ir c)))%nat) as [Hlt|Hge].
    - rewrite lookup_app_l in Hx by done. by apply Hwf.
    - apply lookup_lt_Some in Hx as Hb. rewrite length_app in Hb. simpl in Hb.
      assert (b = length (blocks (ir c))) as -> by lia.
      rewrite lookup_snoc in Hx. injection Hx as <-.
      unfold wf_block. rewrite Ht, in_range_replicate by done.
      rewrite Hp. destruct (block c) as [p|] eqn:Hbc; [|done].
      rewrite Hi by done. rewrite in_range_replicate by done.
      rewrite andb_true_r. apply Nat.ltb_lt. by apply Hcur. }
  split; [done|]. split; [rewrite length_app; simpl; lia|]. split; [done|].
  split; [exact Hwf'|].
  apply (block_temporary_rec_total n); [exact Hwf'|lia|].
  cbn [blocks ir set_block set_blocks set_ir]. rewrite lookup_snoc. by eexists.
Qed.

Lemma push_block_keeps_scopes_example :
  exists b' c',
    push_block ex_top = Done (b', c')
    /\ block c' = Some b'
    /\ (b' < length (blocks (ir c')))%nat
    /\ info c' = info ex_top
    /\ wf_scopes 23 (blocks (ir c'))
    /\ exists r c2, block_temporary b' 23 c' = Done (r, c2).
Proof.
  apply push_block_keeps_scopes.
  - intros b Hb. vm_compute in Hb. injection Hb as <-. vm_compute. lia.
  - apply wf_scopes_check. by vm_compute.
  - vm_compute. split; [discriminate|reflexivity].
Defined.

Lemma wf_queue_set_instrs l c : wf_queue c -> wf_queue (set_instrs l c).
Proof. exact id. Qed.

Lemma create_phi_tail l b cond x y c :
  (ir3_reg_create (length l) 0 0 ;;;
   r <- ir3_reg_create (length l) 0 IR3_REG_SSA ;;
   update_reg r (Reg.set_instr (Some cond)) ;;;
   r <- ir3_reg_create (length l) 0 IR3_REG_SSA ;;
   update_reg r (Reg.set_instr (Some x)) ;;;
   r <- ir3_reg_create (length l) 0 IR3_REG_SSA ;;
   update_reg r (Reg.set_instr (Some y)) ;;;
   ret (length l))
    (set_instrs (l ++ [new_instr b (-1) OPC_META_PHI]) c)
  = Done (length l, set_instrs (l ++ [phi_node b cond x y]) c).
Proof.
  mrun. destruct c as [[]]. reflexivity.
Qed.

Lemma create_phi_body cond x y c b :
  atomic c = false ->
  wf_queue c ->
  block c = Some b ->
  exists c',
    (phi <- instr_create (-1) OPC_META_PHI ;;
     ir3_reg_create phi 0 0 ;;;
     r <- ir3_reg_create phi 0 IR3_REG_SSA ;;
     update_reg r (Reg.set_instr (Some cond)) ;;;
     r <- ir3_reg_create phi 0 IR3_REG_SSA ;;
     update_reg r (Reg.set_instr (Some x)) ;;;
     r <- ir3_reg_create phi 0 IR3_REG_SSA ;;
     update_reg r (Reg.set_instr (Some y)) ;;;
     ret phi) c = Done (length (instrs (ir c)), c')
    /\ instrs (ir c') = instrs (ir c) ++ [phi_node b cond x y]
    /\ output_updates c' = []
    /\ (forall s, read_slot c' s = live c s).
Proof.
  intros Ha Hwf Hb.
  destruct (instr_create_run (-1) OPC_META_PHI c b Ha Hwf Hb) as (bs & Hrun & Hlive).
  rewrite (bind_Done_intro _ _ _ _ _ Hrun).
  eexists. split.
  - apply (create_phi_tail (instrs (ir c)) b cond x y
             (set_current_instr (Some (length (instrs (ir c))))
                (set_output_updates [] (set_blocks bs c)))).
  - split; [reflexivity|]. split; [reflexivity|]. exact Hlive.
Qed.

(** X12. A PHI node always has three producers.  Outside an atomic
    group, [create_phi] returns; a side without a value gets a new
    immediate-0.0 node, created in the current block before the PHI; the
    PHI is the last node of the arena, its operands after the dummy
    destination point at the condition and the two values; the pending
    writes are flushed. *)
Theorem create_phi_operands cond x y c b :
  atomic c = false ->
  wf_queue c ->
  block c = Some b ->
  let n := length (instrs (ir c)) in
  let zeros := phi_zeros c b x y in
  let x' := default n x in
  let y' := default (n + match x with Some _ => 0 | None => 1 end)%nat y in
  exists c',
    create_phi cond x y c = Done ((n + length zeros)%nat, c')
    /\ instrs (ir c') = instrs (ir c) ++ zeros ++ [phi_node b cond x' y']
    /\ output_updates c' = []
    /\ (forall s, read_slot c' s = live c s).
Proof.
  intros Ha Hwf Hb n zeros x' y'. unfold create_phi. subst n zeros x' y'.
  destruct x as [x|], y as [y|]; cbn [phi_zeros default app length];
    unfold bind at 1; rewrite ?ret_run, ?create_immed_eq, ?Hb;
    unfold bind at 1; rewrite ?ret_run, ?create_immed_eq; cbn [block set_instrs set_ir];
    rewrite ?Hb.
  - destruct (create_phi_body cond x y c b Ha Hwf Hb) as (c' & H1 & H2 & H3 & H4).
    exists c'. rewrite Nat.add_0_r. done.
  - set (c1 := set_instrs _ c).
    destruct (create_phi_body cond x (length (instrs (ir c))) c1 b Ha Hwf Hb)
      as (c' & H1 & H2 & H3 & H4).
    exists c'. split; [|split; [|split]].
    + rewrite H1. unfold c1. cbn [instrs ir set_instrs set_ir].
      rewrite length_app. reflexivity.
    + rewrite H2. unfold c1. cbn [instrs ir set_instrs set_ir].
      rewrite <- app_assoc, Nat.add_0_r. reflexivity.
    + exact H3.
    + exact H4.
  - set (c1 := set_instrs _ c).
    destruct (create_phi_body cond (length (instrs (ir c))) y c1 b Ha Hwf Hb)
      as (c' & H1 & H2 & H3 & H4).
    exists c'. split; [|split; [|split]].
    + rewrite H1. unfold c1. cbn [instrs ir set_instrs set_ir].
      rewrite length_app. reflexivity.
    + rewrite H2. unfold c1. cbn [instrs ir set_instrs set_ir].
      rewrite <- app_assoc. reflexivity.
    + exact H3.
    + exact H4.
  - set (c1 := set_instrs _ c). set (c2 := set_instrs _ c1).
    destruct (create_phi_body cond (length (instrs (ir c))) (length (instrs (ir c1)))
                c2 b Ha Hwf Hb) as (c' & H1 & H2 & H3 & H4).
    exists c'. split; [|split; [|split]].
    + rewrite H1. unfold c2, c1. cbn [instrs ir set_instrs set_ir].
      rewrite !length_app. simpl. f_equal. f_equal. lia.
    + rewrite H2. unfold c2, c1. cbn [instrs ir set_instrs set_ir].
      rewrite <- !app_assoc, length_app. simpl. reflexivity.
    + exact H3.
    + exact H4.
Qed.

Lemma create_phi_operands_example :
  exists c',
    create_phi 0%nat None None ex_top = Done (2%nat, c')
    /\ instrs (ir c')
       = [immed_node 0%nat TYPE_F32 0; immed_node 0%nat TYPE_F32 0;
          phi_node 0%nat 0%nat 0%nat 1%nat]
    /\ output_updates c' = []
    /\ (forall s, read_slot c' s = live ex_top s).
Proof.
  apply (create_phi_operands 0%nat None None ex_top 0%nat).
  - by vm_compute.
  - constructor.
  - by vm_compute.
Defined.

(** X13. A constant or immediate source is never an SSA operand:
    [add_src_reg] on a CONSTANT or IMMEDIATE register below index 64
    appends one operand record to the instruction, numbered
    [regid(Index + base_reg[File], chan)] and flagged CONST and not SSA,
    and creates no node and touches no block. *)
Theorem add_src_reg_const instr src chan c ins :
  is_const src = true ->
  Src.Index src < 64 ->
  instrs (ir c) !! instr = Some ins ->
  let r := src_record c src (Src.Index src + base_reg c (Src.File src)) chan in
  add_src_reg instr src chan c
    = Done ((instr, length (Instr.regs ins)),
            set_instrs (<[instr := add_reg r ins]> (instrs (ir c))) c)
  /\ Reg.num r = regid (Src.Index src + base_reg c (Src.File src)) chan
  /\ has_flag (Reg.flags r) IR3_REG_CONST = true
  /\ has_flag (Reg.flags r) IR3_REG_SSA = false
  /\ Reg.instr r = None.
Proof.
  intros Hc Hi Hins. cbv zeta.
  pose proof (has_flag_SSA_src_flags c src) as Hssa.
  split; [|split; [reflexivity|split; [|split; [exact Hssa|reflexivity]]]].
  - rewrite (add_src_reg_run instr src chan c ins _ Hins Hi (is_const_src_num c src Hc)).
    unfold bind at 1.
    rewrite (ssa_src_other _ src chan _
               (src_record c src (Src.Index src + base_reg c (Src.File src)) chan)
               (is_const_ssa_file src Hc) (reg_at_new instr ins _ c Hins) Hssa).
    reflexivity.
  - unfold src_record. cbn [Reg.flags Reg.set_wrmask new_reg]. unfold src_flags.
    rewrite Hc, !has_flag_lor. reflexivity.
Qed.

Lemma add_src_reg_const_example :
  add_src_reg 0%nat (CONST 0) 2 ex_top_operand
    = Done ((0%nat, 1%nat),
            set_instrs
              (<[0%nat := add_reg (src_record ex_top_operand (CONST 0) 0 2)
                            (Instr.set_regs [new_reg 0 0] (new_instr 0%nat 1 0))]>
                 (instrs (ir ex_top_operand))) ex_top_operand).
Proof.
  apply (add_src_reg_const 0%nat (CONST 0) 2 ex_top_operand
           (Instr.set_regs [new_reg 0 0] (new_instr 0%nat 1 0))).
  - reflexivity.
  - by vm_compute.
  - by vm_compute.
Defined.

(** X14. Operands of unsupported register files are refused:
    [add_src_reg_wrmask] is a compile error for a source with index 64 or
    more, and for a source in the NULL, SAMPLER or ADDRESS file;
    [add_dst_reg_wrmask] is a compile error for a destination outside the
    OUTPUT, TEMPORARY and ADDRESS files.  Nothing is appended in either
    case. *)
Theorem unsupported_operand_files instr chan wrmask c src dst :
  64 <= Src.Index src
  \/ Src.File src ∈ [TGSI_FILE_NULL; TGSI_FILE_SAMPLER; TGSI_FILE_ADDRESS] ->
  Dst.File dst ∈ [TGSI_FILE_NULL; TGSI_FILE_CONSTANT; TGSI_FILE_INPUT;
                  TGSI_FILE_SAMPLER; TGSI_FILE_IMMEDIATE] ->
  add_src_reg_wrmask instr src chan wrmask c = CompileError
  /\ add_dst_reg_wrmask instr dst chan wrmask c = CompileError.
Proof.
  intros Hs Hd. split.
  - unfold add_src_reg_wrmask. mstep. unfold bind at 1.
    destruct (Z.ltb_spec (Src.Index src) 64) as [Hlt|Hge]; [|reflexivity].
    destruct Hs as [Hs|Hs]; [lia|]. mred. unfold bind at 1.
    repeat (apply elem_of_cons in Hs as [->|Hs]; [reflexivity|]).
    by apply elem_of_nil in Hs.
  - unfold add_dst_reg_wrmask. mstep. unfold bind at 1.
    repeat (apply elem_of_cons in Hd as [->|Hd]; [reflexivity|]).
    by apply elem_of_nil in Hd.
Qed.

Lemma unsupported_operand_files_example :
  add_src_reg_wrmask 0%nat (Src.mk TGSI_FILE_SAMPLER false false 0 false false 0 1 2 3)
    0 1 ex_top_operand = CompileError
  /\ add_dst_reg_wrmask 0%nat (Dst.mk TGSI_FILE_INPUT 15 false false 0)
       0 1 ex_top_operand = CompileError.
Proof.
  apply unsupported_operand_files.
  - right. apply (bool_decide_unpack _). by vm_compute.
  - apply (bool_decide_unpack _). by vm_compute.
Defined.

Lemma mov_base_run c b src ty :
  atomic c = false ->
  wf_queue c ->
  block c = Some b ->
  get_ftype c = ty ->
  exists bs,
    (if Src.Absolute src || Src.Negate src then instr_create 2 OPC_ABSNEG_F
     else instr <- instr_create 1 0 ;;
          update_instr instr (Instr.set_cat1 ty ty) ;;;
          ret instr) c
    = Done (length (instrs (ir c)),
            set_current_instr (Some (length (instrs (ir c))))
              (set_instrs (instrs (ir c) ++ [mov_base c b src])
                 (set_output_updates [] (set_blocks bs c))))
    /\ (forall s, read_slot (set_blocks bs c) s = live c s).
Proof.
  intros Hat Hq Hb Hty. unfold mov_base. rewrite Hty.
  destruct (Src.Absolute src || Src.Negate src).
  - apply (instr_create_run 2 OPC_ABSNEG_F c b Hat Hq Hb).
  - destruct (instr_create_run 1 0 c b Hat Hq Hb) as (bs & Hcr & Hread).
    exists bs. split; [|exact Hread].
    unfold bind at 1. rewrite Hcr. unfold bind at 1. rewrite update_instr_eq. mred.
    rewrite lookup_snoc, insert_snoc. destruct c as [[]]. reflexivity.
Qed.

Lemma create_mov_const_step c b dst src i s ty :
  atomic c = false ->
  wf_queue c ->
  block c = Some b ->
  get_ftype c = ty ->
  is_const src = true ->
  Src.Index src < 64 ->
  dst_slot b dst i = Some s ->
  is_Some (live c s) ->
  exists c',
    (instr <- (if Src.Absolute src || Src.Negate src then instr_create 2 OPC_ABSNEG_F
               else instr <- instr_create 1 0 ;;
                    update_instr instr (Instr.set_cat1 ty ty) ;;;
                    ret instr) ;;
     add_dst_reg instr dst i ;;;
     add_src_reg instr src (src_swiz src i) ;;;
     ret tt) c = Done (tt, c')
    /\ instrs (ir c') = instrs (ir c) ++ [const_mov c b dst src i]
    /\ (forall s', live c' s' = if decide (s' = s)
                                then Some (Some (length (instrs (ir c))))
                                else live c s')
    /\ wf_queue c'
    /\ rest_of c' = rest_of c.
Proof.
  intros Hat Hq Hb Hty Hc Hidx Hs Hlive.
  destruct (mov_base_run c b src ty Hat Hq Hb Hty) as (bs & Hcr & Hread).
  unfold bind at 1. rewrite Hcr.
  set (ins0 := mov_base c b src).
  assert (Hnum : forall c0, base_reg c0 = base_reg c ->
            dst_num c0 dst = Some (Dst.Index dst + base_reg c (Dst.File dst))).
  { intros c0 Hc0. unfold dst_num, dst_slot in *. rewrite Hc0.
    by destruct (Dst.File dst). }
  unfold bind at 1.
  erewrite (add_dst_reg_run _ dst i _ ins0);
    [|mred; apply lookup_snoc|by apply Hnum].
  mred. rewrite Hat, insert_snoc. unfold bind at 1.
  erewrite (ssa_dst_run _ dst i _ b s); [|simpl; lia|exact Hb|exact Hs|].
  2:{ rewrite <- Hread in Hlive. exact Hlive. }
  mred. unfold bind at 1.
  erewrite (add_src_reg_run _ src _ _ (add_reg _ ins0));
    [|mred; apply lookup_snoc|exact Hidx|by apply is_const_src_num].
  mred. rewrite insert_snoc. unfold bind at 1.
  erewrite (ssa_src_other _ src); [|by apply is_const_ssa_file| |].
  2:{ apply reg_at_Some. eexists. split; [mred; apply lookup_snoc|].
      apply lookup_snoc. }
  2:{ exact (has_flag_SSA_src_flags _ src). }
  mred. eexists. split; [reflexivity|]. mred.
  split; [reflexivity|]. split.
  { intros s'. unfold live at 1. mred. cbn [app queued upd_instrp upd_instr].
    destruct (decide (s = s')) as [->|Hne].
    - by rewrite decide_True.
    - rewrite decide_False by congruence. apply Hread. }
  split; [|reflexivity].
  constructor; [|constructor]. cbn [upd_instrp].
  rewrite <- Hread in Hlive. exact Hlive.
Qed.

Lemma rest_of_eq c c' :
  rest_of c' = rest_of c ->
  so c' = so c /\ block c' = block c /\ atomic c' = atomic c /\ info c' = info c
  /\ base_reg c' = base_reg c /\ num_internal_temps c' = num_internal_temps c
  /\ internal_temps c' = internal_temps c.
Proof. unfold rest_of. intros [= -> -> -> _ -> -> -> -> _ _ _ _ _]. done. Qed.

Lemma const_mov_frame c c' b dst src i :
  so c' = so c -> base_reg c' = base_reg c ->
  const_mov c' b dst src i = const_mov c b dst src i.
Proof.
  intros Hso Hbase.
  unfold const_mov, mov_base, src_record, dst_record, src_flags, dst_flags, get_ftype.
  by rewrite Hso, Hbase.
Qed.

Lemma create_mov_const_loop dst src b ty (sl : Z -> slot) :
  let en := fun i => has_flag (Dst.WriteMask dst) (bit i) = true in
  is_const src = true ->
  Src.Index src < 64 ->
  forall l c,
    NoDup l ->
    (forall i, i ∈ l -> en i -> dst_slot b dst i = Some (sl i)) ->
    (forall i j, i ∈ l -> j ∈ l -> en i -> en j -> sl i = sl j -> i = j) ->
    atomic c = false ->
    wf_queue c ->
    block c = Some b ->
    get_ftype c = ty ->
    (forall i, i ∈ l -> en i -> is_Some (live c (sl i))) ->
    exists c',
      forM l (fun i =>
        if has_flag (Dst.WriteMask dst) (bit i) then
          instr <- (if Src.Absolute src || Src.Negate src then
                      instr_create 2 OPC_ABSNEG_F
                    else
                      instr <- instr_create 1 0 ;;
                      update_instr instr (Instr.set_cat1 ty ty) ;;;
                      ret instr) ;;
          add_dst_reg instr dst i ;;;
          add_src_reg instr src (src_swiz src i) ;;;
          ret tt
        else ret tt) c = Done (tt, c')
      /\ instrs (ir c') =
           instrs (ir c) ++ map (const_mov c b dst src) (filter en l)
      /\ (forall k i, filter en l !! k = Some i ->
            live c' (sl i) = Some (Some (length (instrs (ir c)) + k)%nat))
      /\ (forall s, (forall i, i ∈ l -> en i -> s <> sl i) -> live c' s = live c s)
      /\ wf_queue c'
      /\ rest_of c' = rest_of c.
Proof.
  intros en Hc Hidx.
  induction l as [|i l IH]; intros c Hnd Hdst Hinj Hat Hq Hb Hty Hvalid.
  - exists c. split; [done|]. split; [by rewrite app_nil_r|]. done.
  - apply NoDup_cons in Hnd as [Hi Hnd].
    cbn [forM]. destruct (has_flag (Dst.WriteMask dst) (bit i)) eqn:Hen.
    + destruct (create_mov_const_step c b dst src i (sl i) ty) as
        (c1 & Hrun & Hins & Hlive & Hq1 & Hrest1);
        [done|done|done|done|done|done|apply Hdst; [left|done]
        |apply Hvalid; [left|done]|].
      destruct (rest_of_eq _ _ Hrest1) as (Hso & Hb1 & Hat1 & _ & Hbase & _).
      unfold bind at 1. rewrite Hrun.
      destruct (IH c1) as (c' & Hrun' & Hins' & Hdef & Hframe & Hq' & Hrest').
      * done.
      * intros j Hj. apply Hdst. by right.
      * intros j1 j2 H1 H2. apply Hinj; by right.
      * congruence.
      * done.
      * congruence.
      * rewrite <- Hty. unfold get_ftype. by rewrite Hso.
      * intros j Hj Hej. rewrite Hlive. destruct (decide _); [eauto|].
        apply Hvalid; [by right|done].
      * exists c'. split; [exact Hrun'|].
        rewrite filter_cons_True by done.
        split; [|split; [|split; [|split; [done|congruence]]]].
        -- rewrite Hins', Hins, <- app_assoc. cbn [app map]. do 2 f_equal.
           apply map_ext. intros j. by apply const_mov_frame.
        -- intros [|k] j Hk; cbn in Hk.
           ++ injection Hk as <-. rewrite Hframe.
              ** rewrite Hlive, decide_True by done. by rewrite Nat.add_0_r.
              ** intros j Hj Hej Heq. apply Hi.
                 rewrite (Hinj i j); [done|left|by right|done|done|done].
           ++ rewrite (Hdef k j Hk), Hins, length_app. cbn. do 2 f_equal. lia.
        -- intros s Hs. rewrite Hframe.
           ++ rewrite Hlive, decide_False; [done|]. apply Hs; [left|done].
           ++ intros j Hj. apply Hs. by right.
    + unfold bind at 1. rewrite ret_run.
      destruct (IH c) as (c' & Hrun' & Hins' & Hdef & Hframe & Hq' & Hrest').
      * done.
      * intros j Hj. apply Hdst. by right.
      * intros j1 j2 H1 H2. apply Hinj; by right.
      * done.
      * done.
      * done.
      * done.
      * intros j Hj. apply Hvalid. by right.
      * exists c'. split; [exact Hrun'|].
        rewrite filter_cons_False by (unfold en; by rewrite Hen).
        split; [done|]. split; [done|]. split; [|done].
        intros s Hs. apply Hframe. intros j Hj. apply Hs. by right.
Qed.

(** X15. [get_unconst] copies a constant into a fresh temporary.  For a
    CONSTANT or IMMEDIATE source below index 64, outside an atomic group,
    in a block with the temporaries [push_block] gives it and fewer than
    four internal temporaries in use, it returns the next internal
    temporary, a TEMPORARY register with the identity swizzle that is
    neither constant nor relative; it appends one move per component,
    each reading the constant's component [src_swiz(src, i)] as a CONST
    operand; and component [i] of the temporary is then live as the
    [i]-th of these moves. *)
Theorem get_unconst_moves src c b blk :
  is_const src = true ->
  Src.Index src < 64 ->
  atomic c = false ->
  wf_queue c ->
  block c = Some b ->
  blocks (ir c) !! b = Some blk ->
  length (Block.temporaries blk)
    = Z.to_nat (SCALAR_REGS c TGSI_FILE_TEMPORARY + 4 * 4) ->
  -1 <= file_max (info c) TGSI_FILE_TEMPORARY ->
  0 <= num_internal_temps c < 4 ->
  length (internal_temps c) = 6%nat ->
  let tmp := fresh_temporary TGSI_WRITEMASK_XYZW c in
  exists c',
    get_unconst src c = Done (src_from_dst tmp, c')
    /\ is_rel_or_const (src_from_dst tmp) = false
    /\ instrs (ir c') = instrs (ir c) ++ map (const_mov c b tmp src) chans
    /\ (forall k i, chans !! k = Some i ->
          live c' (mk_slot b SlotTemporary (regid (Dst.Index tmp) i))
          = Some (Some (length (instrs (ir c)) + k)%nat))
    /\ num_internal_temps c' = num_internal_temps c + 1.
Proof.
  intros Hc Hidx Hat Hq Hb Hblk Hlen Hfm Hn Hit tmp.
  unfold get_unconst. unfold is_rel_or_const at 1. rewrite Hc, orb_true_r.
  mstep. unfold bind at 1. rewrite get_internal_temp_eq. cbv zeta.
  destruct (Z.ltb_spec (num_internal_temps c) 6) as [_|]; [|lia].
  assert (Hr : in_range (num_internal_temps c) (internal_temps c) = true)
    by (apply in_range_lt; lia).
  rewrite Hr. fold tmp. set (c1 := set_internal_temps _ _). cbn [fst snd].
  unfold bind at 1. unfold internal_temp. unfold bind at 1. rewrite get_run.
  replace (internal_temps c1 !! Z.to_nat (num_internal_temps c))
    with (Some (src_from_dst tmp)).
  2:{ symmetry. unfold c1. cbn [internal_temps set_internal_temps].
      apply list_lookup_insert_eq. lia. }
  mred. unfold bind at 1. unfold create_mov. unfold bind at 1. rewrite get_run.
  set (sl := fun i => mk_slot b SlotTemporary (regid (Dst.Index tmp) i)).
  destruct (create_mov_const_loop tmp src b (get_ftype c1) sl Hc Hidx chans c1)
    as (c' & Hrun & Hins & Hdef & _ & _ & Hrest).
  - apply (bool_decide_unpack _). by vm_compute.
  - intros i _ _. reflexivity.
  - intros i j Hi Hj _ _ [= Heq]. apply elem_of_chans in Hi, Hj.
    by apply (regid_inj (Dst.Index tmp)).
  - exact Hat.
  - exact Hq.
  - exact Hb.
  - reflexivity.
  - intros i Hi%elem_of_chans _. unfold live.
    destruct (queued _ _); [by eexists|].
    unfold read_slot, sl. cbn [slot_block slot_file slot_n].
    change (blocks (ir c1)) with (blocks (ir c)). rewrite Hblk.
    apply zlookup_in_range, in_range_lt. rewrite regid_add by lia.
    rewrite Hlen. unfold SCALAR_REGS. subst tmp. cbn [Dst.Index fresh_temporary]. lia.
  - exists c'. rewrite Hrun. split; [reflexivity|]. split; [reflexivity|].
    split; [exact Hins|]. split.
    + intros k i Hk. apply (Hdef k i). exact Hk.
    + destruct (rest_of_eq _ _ Hrest) as (_ & _ & _ & _ & _ & Hnum & _).
      rewrite Hnum. reflexivity.
Qed.

Lemma get_unconst_moves_example :
  exists c',
    get_unconst (CONST 0) ex_top = Done (TEMP 2, c')
    /\ is_rel_or_const (TEMP 2) = false
    /\ instrs (ir c')
       = instrs (ir ex_top) ++ map (const_mov ex_top 0%nat (TEMP_dst 2 15) (CONST 0)) chans
    /\ (forall k i, chans !! k = Some i ->
          live c' (mk_slot 0%nat SlotTemporary (regid 2 i))
          = Some (Some (length (instrs (ir ex_top)) + k)%nat))
    /\ num_internal_temps c' = num_internal_temps ex_top + 1.
Proof.
  apply (get_unconst_moves (CONST 0) ex_top 0%nat
           (Block.mk None (replicate 24 None) (replicate 4 None) (replicate 4 None))).
  - reflexivity.
  - by vm_compute.
  - by vm_compute.
  - constructor.
  - by vm_compute.
  - by vm_compute.
  - by vm_compute.
  - vm_compute. discriminate.
  - vm_compute. split; [discriminate|reflexivity].
  - by vm_compute.
Defined.

(** ** Declarations *)

(** A loop keeps what every round keeps. *)
Lemma forM_inv {A} (f : A -> M unit) (P : nat -> fd3_compile_context -> Prop) l :
  forall c,
    P 0%nat c ->
    (forall k a c1, l !! k = Some a -> P k c1 ->
       exists c2, f a c1 = Done (tt, c2) /\ P (S k) c2) ->
    exists c', forM l f c = Done (tt, c') /\ P (length l) c'.
Proof.
  revert P. induction l as [|a l IH]; intros P c H0 Hstep.
  - exists c. by split.
  - destruct (Hstep 0%nat a c eq_refl H0) as (c1 & Hrun & H1).
    destruct (IH (fun k => P (S k)) c1 H1) as (c' & Hrun' & HP).
    { intros k x c2 Hk. apply (Hstep (S k)). exact Hk. }
    exists c'. split; [|exact HP].
    cbn [forM]. unfold bind. by rewrite Hrun.
Qed.

Lemma foldM_inv {A T} (f : A -> T -> M T)
    (P : nat -> T -> fd3_compile_context -> Prop) l :
  forall s c,
    P 0%nat s c ->
    (forall k a s1 c1, l !! k = Some a -> P k s1 c1 ->
       exists s2 c2, f a s1 c1 = Done (s2, c2) /\ P (S k) s2 c2) ->
    exists s' c', foldM l f s c = Done (s', c') /\ P (length l) s' c'.
Proof.
  revert P. induction l as [|a l IH]; intros P s c H0 Hstep.
  - exists s, c. by split.
  - destruct (Hstep 0%nat a s c eq_refl H0) as (s1 & c1 & Hrun & H1).
    destruct (IH (fun k => P (S k)) s1 c1 H1) as (s' & c' & Hrun' & HP).
    { intros k x s2 c2 Hk. apply (Hstep (S k)). exact Hk. }
    exists s', c'. split; [|exact HP].
    cbn [foldM]. unfold bind. by rewrite Hrun.
Qed.

Lemma chans_lookup k a : chans !! k = Some a -> a = Z.of_nat k /\ (k < 4)%nat.
Proof.
  destruct k as [|[|[|[|k]]]]; cbn; intros [= <-]; split; try reflexivity; lia.
Qed.

Lemma range_lookup first last k i :
  range first last !! k = Some i -> i = first + Z.of_nat k /\ i <= last.
Proof. unfold range. intros [H1 H2]%lookup_seqZ. lia. Qed.







Lemma slot_of_inj b kind i j i' j' :
  0 <= j < 4 -> 0 <= j' < 4 ->
  mk_slot b kind (i * 4 + j) = mk_slot b kind (i' * 4 + j') -> i = i' /\ j = j'.
Proof. intros Hj Hj' [= H]. lia. Qed.

Lemma elem_of_reg_slots b kind (regs : list Z) s :
  s ∈ flat_map (fun i => map (fun j => mk_slot b kind (i * 4 + j)) chans) regs
  <-> exists i j, i ∈ regs /\ 0 <= j < 4 /\ s = mk_slot b kind (i * 4 + j).
Proof.
  rewrite list_elem_of_In, in_flat_map. split.
  - intros (i & Hi & Hs). apply list_elem_of_In in Hi.
    apply list_elem_of_In, list_elem_of_fmap in Hs as (j & -> & Hj).
    exists i, j. split; [done|]. split; [by apply elem_of_chans|done].
  - intros (i & j & Hi & Hj & ->). exists i. split; [by apply list_elem_of_In|].
    apply list_elem_of_In, list_elem_of_fmap. exists j. split; [done|].
    unfold chans. assert (H : j = 0 \/ j = 1 \/ j = 2 \/ j = 3) by lia.
    destruct H as [-> | [-> | [-> | ->]]]; repeat constructor.
Qed.

Lemma reg_slots_NoDup b kind (regs : list Z) :
  NoDup regs ->
  NoDup (flat_map (fun i => map (fun j => mk_slot b kind (i * 4 + j)) chans) regs).
Proof.
  induction regs as [|i regs IH]; intros Hnd; [constructor|].
  apply NoDup_cons in Hnd as [Hi Hnd]. cbn [flat_map]. apply NoDup_app.
  split; [|split; [|by apply IH]].
  - apply NoDup_fmap_2.
    + intros j j' [= H]. lia.
    + apply (bool_decide_unpack _). by vm_compute.
  - intros s Hs Hs'. apply list_elem_of_fmap in Hs as (j & -> & Hj%elem_of_chans).
    apply elem_of_reg_slots in Hs' as (i' & j' & Hi' & Hj' & Heq).
    apply slot_of_inj in Heq as [-> _]; done.
Qed.

Lemma decl_slots_NoDup b kind decl : NoDup (decl_slots b kind decl).
Proof. apply reg_slots_NoDup. unfold range. apply NoDup_seqZ. Qed.


Section Declarations.

Context {fd3_semantic : Type}.
Variable fd3_semantic_name : tgsi_semantic -> Z -> fd3_semantic.




(** X17. [decl_out] refuses what it cannot place: an output declared
    without semantic information is a compile error, and so is a
    semantic name outside POSITION, PSIZE, COLOR, GENERIC, FOG and
    TEXCOORD in a vertex shader, or outside POSITION and COLOR in a
    fragment shader. *)
Theorem decl_out_rejects decl l c :
  Declaration_Semantic decl = false
  \/ output_semantic (type c) (Semantic_Name decl) = None ->
  decl_out fd3_semantic_name decl l c = CompileError.
Proof.
  intros H. unfold decl_out. mstep.
  destruct (Declaration_Semantic decl); [|reflexivity].
  destruct H as [H|H]; [discriminate|]. mstep. unfold bind at 1.
  unfold output_semantic in H.
  destruct (type c), (Semantic_Name decl); try discriminate; reflexivity.
Qed.

End Declarations.

Lemma declared_nil c b : declared c c b [].
Proof. unfold declared. cbn. rewrite app_nil_r. repeat split; done. Qed.

Lemma declared_app c0 c1 c2 b e1 e2 :
  (forall n, n ∈ map fst e1 -> n ∉ map fst e2) ->
  declared c0 c1 b e1 ->
  declared c1 c2 b e2 ->
  declared c0 c2 b (e1 ++ e2).
Proof.
  intros Hdis (Hi1 & Hr1 & Hq1 & Ha1 & Hb1 & Hs1 & Hp1)
         (Hi2 & Hr2 & Hq2 & Ha2 & Hb2 & Hs2 & Hp2).
  unfold declared. split; [|split; [|split; [|split; [|split; [|split]]]]].
  - rewrite Hi2, Hi1, <- app_assoc, map_app. reflexivity.
  - congruence.
  - congruence.
  - intros k e Hk. destruct (decide (k < length e1)%nat) as [Hlt|Hge].
    + rewrite lookup_app_l in Hk by done.
      rewrite Hb2; [by apply Ha1|]. right. apply Hdis.
      apply list_elem_of_fmap. exists e. split; [done|].
      by eapply list_elem_of_lookup_2.
    + rewrite lookup_app_r in Hk by lia.
      rewrite (Ha2 _ _ Hk), Hi1, length_app, length_map.
      do 2 f_equal. lia.
  - intros b' n Hn. rewrite map_app in Hn.
    rewrite Hb2, Hb1; [done| |].
    + destruct Hn as [Hn|Hn]; [by left|right]. rewrite not_elem_of_app in Hn. tauto.
    + destruct Hn as [Hn|Hn]; [by left|right]. rewrite not_elem_of_app in Hn. tauto.
  - intros s. by rewrite Hs2.
  - intros b'. by rewrite Hp2.
Qed.

Lemma declared_block c c' b entries : declared c c' b entries -> block c' = block c.
Proof. intros (_ & Hr & _). by destruct (rest_of_eq _ _ Hr) as (_ & ? & _). Qed.

Lemma store_input_spec b n v c :
  is_Some (read_input c b n) ->
  exists c',
    store_input b n v c = Done (tt, c')
    /\ same_but_blocks c c'
    /\ read_input c' b n = Some v
    /\ (forall b' n', b' <> b \/ n' <> n -> read_input c' b' n' = read_input c b' n')
    /\ (forall s, read_slot c' s = read_slot c s)
    /\ (forall b', Block.parent <$> blocks (ir c') !! b'
                   = Block.parent <$> blocks (ir c) !! b').
Proof.
  unfold read_input. intros [x Hx].
  destruct (blocks (ir c) !! b) as [blk|] eqn:Hblk; [|done]. cbn in Hx.
  assert (Hr : in_range n (Block.inputs blk) = true)
    by (apply zlookup_in_range; by exists x).
  pose proof (proj1 (in_range_lt _ _) Hr) as [Hn0 Hnl].
  unfold store_input. unfold bind at 1. rewrite get_block_eq, Hblk.
  unfold bind at 1. rewrite (zinsert_in_range _ _ _ Hr). mred.
  rewrite update_block_eq, Hblk.
  eexists. split; [reflexivity|]. split; [by eexists|].
  cbn [blocks ir set_blocks set_ir].
  assert (Hlt : (b < length (blocks (ir c)))%nat) by (by eapply lookup_lt_Some).
  split; [|split; [|split]].
  - rewrite list_lookup_insert_eq by done. cbn. by apply zlookup_insert_eq.
  - intros b' n' Hne. destruct (decide (b' = b)) as [->|Hb'].
    + rewrite list_lookup_insert_eq by done. rewrite Hblk. cbn.
      destruct Hne as [Hne|Hne]; [done|]. apply zlookup_insert_ne; [lia|done].
    + by rewrite list_lookup_insert_ne.
  - intros s. unfold read_slot. cbn [blocks ir set_blocks set_ir].
    destruct (decide (slot_block s = b)) as [->|Hb'].
    + rewrite list_lookup_insert_eq by done. rewrite Hblk. reflexivity.
    + by rewrite list_lookup_insert_ne.
  - intros b'. destruct (decide (b' = b)) as [->|Hb'].
    + rewrite list_lookup_insert_eq by done. by rewrite Hblk.
    + by rewrite list_lookup_insert_ne.
Qed.

Lemma instr_create_idle category opc c b :
  atomic c = false ->
  output_updates c = [] ->
  block c = Some b ->
  instr_create category opc c
  = Done (length (instrs (ir c)),
          set_current_instr (Some (length (instrs (ir c))))
            (set_instrs (instrs (ir c) ++ [new_instr b category opc]) c)).
Proof.
  intros Ha Hq Hb. unfold instr_create, instr_finish.
  unfold bind at 1. unfold bind at 1. rewrite get_run, Ha, Hq. cbn [forM].
  unfold bind at 1. rewrite ret_run, modify_run. mstep. rewrite Hb. mstep. mstep.
  destruct c. cbn in Hq. subst. reflexivity.
Qed.

Lemma bary_node_run l b num flags inloc fp c :
  (ir3_reg_create (length l) num flags ;;;
   p <- ir3_reg_create (length l) 0 IR3_REG_IMMED ;;
   update_reg p (Reg.set_iim_val inloc) ;;;
   src <- ir3_reg_create (length l) (regid 0 0) IR3_REG_SSA ;;
   update_reg src (Reg.set_wrmask 3) ;;;
   update_reg src (Reg.set_instr fp) ;;;
   ret (length l))
    (set_instrs (l ++ [new_instr b 2 OPC_BARY_F]) c)
  = Done (length l, set_instrs (l ++ [bary_node b num flags inloc fp]) c).
Proof. mrun. destruct c as [[]]. reflexivity. Qed.

Lemma declared_one c1 c' b n node p :
  instrs (ir c1) = instrs (ir c') ->
  same_but_blocks c1 c' ->
  read_input c' b n = Some (Some p) ->
  (forall b' n', b' <> b \/ n' <> n -> read_input c' b' n' = read_input c1 b' n') ->
  (forall s, read_slot c' s = read_slot c1 s) ->
  (forall b', Block.parent <$> blocks (ir c') !! b'
              = Block.parent <$> blocks (ir c1) !! b') ->
  forall c,
    instrs (ir c1) = instrs (ir c) ++ [node] ->
    p = length (instrs (ir c)) ->
    rest_of c1 = rest_of c ->
    output_updates c1 = output_updates c ->
    blocks (ir c1) = blocks (ir c) ->
    declared c c' b [(n, node)].
Proof.
  intros Hi [bs ->] Hread Hframe Hslots Hpar c Hins -> Hrest Hq Hbs.
  unfold declared. split; [|split; [|split; [|split; [|split; [|split]]]]].
  - cbn [instrs ir set_blocks set_ir map snd]. exact Hins.
  - exact Hrest.
  - exact Hq.
  - intros [|k] e Hk; [|done]. injection Hk as <-. cbn [fst].
    by rewrite Nat.add_0_r.
  - intros b' n' Hn. rewrite Hframe.
    + unfold read_input. by rewrite Hbs.
    + destruct Hn as [Hn|Hn]; [by left|right]. intros ->. apply Hn. left.
  - intros s. rewrite Hslots. unfold read_slot. by rewrite Hbs.
  - intros b'. rewrite Hpar. by rewrite Hbs.
Qed.

Lemma decl_in_comp_run {S} (l : @fd3_linkage S) i r inloc flags j c b :
  block c = Some b ->
  (type c = SHADER_FRAGMENT -> atomic c = false /\ output_updates c = []) ->
  is_Some (read_input c b (i * 4 + j)) ->
  exists c',
    decl_in_comp l i r inloc flags j c = Done (tt, c')
    /\ declared c c' b
         [(i * 4 + j,
           match type c with
           | SHADER_VERTEX => input_node b None (i * 4 + j)
           | SHADER_FRAGMENT => bary_node b (r + j) flags (inloc + j - 8) (frag_pos l)
           end)].
Proof.
  intros Hb Hfrag Hin. unfold decl_in_comp. mstep. unfold bind at 1.
  destruct (type c) eqn:Hty.
  - unfold bind at 1. rewrite Hb. mred. rewrite create_input_eq.
    set (c1 := set_instrs _ c). mstep. change (block c1) with (block c).
    rewrite Hb. mstep.
    destruct (store_input_spec b (i * 4 + j) (Some (length (instrs (ir c)))) c1 Hin)
      as (c' & Hrun & Hsame & Hread & Hframe & Hslots & Hpar).
    exists c'. split; [exact Hrun|].
    apply (declared_one c1 c' b _ _ (length (instrs (ir c)))); try done.
    destruct Hsame as [bs ->]. reflexivity.
  - destruct (Hfrag eq_refl) as [Ha Hq].
    unfold bind at 1. rewrite (instr_create_idle 2 OPC_BARY_F c b Ha Hq Hb).
    change (set_current_instr (Some (length (instrs (ir c))))
              (set_instrs (instrs (ir c) ++ [new_instr b 2 OPC_BARY_F]) c))
      with (set_instrs (instrs (ir c) ++ [new_instr b 2 OPC_BARY_F])
              (set_current_instr (Some (length (instrs (ir c)))) c)).
    rewrite (bary_node_run (instrs (ir c)) b (r + j) flags (inloc + j - 8) (frag_pos l)
               (set_current_instr (Some (length (instrs (ir c)))) c)).
    set (c1 := set_instrs _ _). mstep. change (block c1) with (block c).
    rewrite Hb. mstep.
    destruct (store_input_spec b (i * 4 + j) (Some (length (instrs (ir c)))) c1 Hin)
      as (c' & Hrun & Hsame & Hread & Hframe & Hslots & Hpar).
    exists c'. split; [exact Hrun|].
    apply (declared_one c1 c' b _ _ (length (instrs (ir c)))); try done.
    destruct Hsame as [bs ->]. reflexivity.
Qed.

Lemma decl_in_comps {S} (l : @fd3_linkage S) i r inloc flags b : forall js c,
  NoDup js ->
  block c = Some b ->
  (type c = SHADER_FRAGMENT -> atomic c = false /\ output_updates c = []) ->
  (forall j, j ∈ js -> is_Some (read_input c b (i * 4 + j))) ->
  exists c',
    forM js (decl_in_comp l i r inloc flags) c = Done (tt, c')
    /\ declared c c' b
         (map (fun j =>
                 (i * 4 + j,
                  match type c with
                  | SHADER_VERTEX => input_node b None (i * 4 + j)
                  | SHADER_FRAGMENT =>
                      bary_node b (r + j) flags (inloc + j - 8) (frag_pos l)
                  end)) js).
Proof.
  induction js as [|j js IH]; intros c Hnd Hb Hfrag Hin.
  - exists c. split; [reflexivity|apply declared_nil].
  - apply NoDup_cons in Hnd as [Hj Hnd].
    destruct (decl_in_comp_run l i r inloc flags j c b Hb Hfrag) as (c1 & Hrun & Hd1).
    { apply Hin. left. }
    pose proof Hd1 as (_ & Hrest & Hq & _ & Hframe & _).
    destruct (rest_of_eq _ _ Hrest) as (_ & Hb1 & Ha1 & _).
    assert (Hty : type c1 = type c).
    { unfold rest_of in Hrest. by injection Hrest. }
    destruct (IH c1 Hnd) as (c' & Hrun' & Hd').
    { by rewrite Hb1. }
    { rewrite Hty, Ha1, Hq. exact Hfrag. }
    { intros j' Hj'. rewrite Hframe; [apply Hin; by right|].
      right. cbn. intros Hel. apply list_elem_of_singleton in Hel.
      assert (j' = j) as -> by lia. done. }
    exists c'. split.
    + cbn [forM]. unfold bind at 1. by rewrite Hrun.
    + rewrite Hty in Hd'. cbn [map].
      apply (declared_app c c1 c' b [_] _); [|exact Hd1|exact Hd'].
      intros n Hn Hn'. cbn in Hn. apply list_elem_of_singleton in Hn. subst n.
      rewrite <- list_fmap_compose in Hn'.
      apply list_elem_of_fmap in Hn' as (j' & Heq & Hj'). cbn in Heq.
      assert (j' = j) as -> by lia. done.
Qed.

Section Inputs.

Context {fd3_semantic : Type}.
Variable fd3_semantic_name : tgsi_semantic -> Z -> fd3_semantic.

Lemma decl_in_loop decl base flags b : forall (n : nat) first l c,
  block c = Some b ->
  (type c = SHADER_FRAGMENT -> atomic c = false /\ output_updates c = []) ->
  (forall i j, first <= i < first + Z.of_nat n -> 0 <= j < 4 ->
     is_Some (read_input c b (i * 4 + j))) ->
  0 <= inputs_count l ->
  inputs_count l + Z.of_nat n <= Z.of_nat (length (inputs l)) ->
  exists ins c',
    foldM (seqZ first (Z.of_nat n)) (decl_in_reg fd3_semantic_name decl base flags) l c
    = Done (mk_linkage (inputs_count l + Z.of_nat n) ins (total_in l + 4 * Z.of_nat n)
              (outputs_count l) (outputs l) (writes_pos l) (samplers_count l)
              (next_inloc l + 4 * Z.of_nat n) (frag_pos l), c')
    /\ declared c c' b
         (flat_map (fun i =>
            map (fun j =>
                   (i * 4 + j,
                    match type c with
                    | SHADER_VERTEX => input_node b None (i * 4 + j)
                    | SHADER_FRAGMENT =>
                        bary_node b (regid (i + base) 0 + j) flags
                          (next_inloc l + 4 * (i - first) + j - 8) (frag_pos l)
                    end)) chans)
            (seqZ first (Z.of_nat n)))
    /\ length ins = length (inputs l)
    /\ (forall i, first <= i < first + Z.of_nat n ->
          zlookup ins (inputs_count l + (i - first))
          = Some (mk_input (decl_semantic fd3_semantic_name decl) 15
                    (regid (i + base) 0) (next_inloc l + 4 * (i - first))))
    /\ (forall m, m < inputs_count l -> zlookup ins m = zlookup (inputs l) m).
Proof.
  induction n as [|n IH]; intros first l c Hb Hfrag Hin Hn0 Hroom.
  - exists (inputs l), c. cbn [Z.of_nat seqZ foldM flat_map].
    rewrite !Z.mul_0_r, !Z.add_0_r.
    split; [by destruct l|]. split; [apply declared_nil|]. split; [done|].
    split; [intros; lia|done].
  - rewrite Nat2Z.inj_succ in *. rewrite seqZ_cons by lia. rewrite Z.pred_succ.
    assert (Hr : in_range (inputs_count l) (inputs l) = true)
      by (apply in_range_lt; lia).
    cbn [foldM]. unfold bind at 1. unfold decl_in_reg at 1. unfold bind at 1.
    rewrite (zinsert_in_range _ _ _ Hr). mred. unfold bind at 1.
    set (l1 := mk_linkage _ _ _ _ _ _ _ _ _).
    destruct (decl_in_comps l1 first (regid (first + base) 0) (next_inloc l) flags b
                chans c) as (c1 & Hrun1 & Hd1).
    { apply (bool_decide_unpack _). by vm_compute. }
    { exact Hb. }
    { exact Hfrag. }
    { intros j Hj%elem_of_chans. apply Hin; lia. }
    rewrite Hrun1. mred.
    pose proof Hd1 as (_ & Hrest & Hq & _ & Hframe & _).
    destruct (rest_of_eq _ _ Hrest) as (_ & Hb1 & Ha1 & _).
    assert (Hty : type c1 = type c).
    { unfold rest_of in Hrest. by injection Hrest. }
    destruct (IH (Z.succ first) l1 c1) as (ins & c' & Hrun & Hd & Hlen & Hent & Hold).
    { by rewrite Hb1. }
    { rewrite Hty, Ha1, Hq. exact Hfrag. }
    { intros i j Hi Hj. rewrite Hframe; [apply Hin; lia|].
      right. rewrite <- list_fmap_compose. intros Hel.
      apply list_elem_of_fmap in Hel as (j' & Heq & Hj'%elem_of_chans). cbn in Heq. lia. }
    { cbn. lia. }
    { cbn. rewrite length_insert. lia. }
    exists ins, c'. split; [|split; [|split; [|split]]].
    + rewrite Hrun. unfold l1. cbn. do 2 f_equal. f_equal; lia.
    + cbn [flat_map].
      apply (declared_app c c1 c' b); [| |].
      * intros k Hk Hk'. rewrite <- list_fmap_compose in Hk.
        apply list_elem_of_fmap in Hk as (j & Heq & Hj%elem_of_chans). cbn in Heq.
        apply list_elem_of_fmap in Hk' as ([k' nd] & Heq' & Hel). cbn in Heq'. subst k'.
        apply list_elem_of_In, in_flat_map in Hel as (i' & Hi' & Hel).
        apply list_elem_of_In, elem_of_seqZ in Hi'.
        apply list_elem_of_In, list_elem_of_fmap in Hel as (j' & [= Heq' _] & Hj'%elem_of_chans).
        lia.
      * replace (next_inloc l + 4 * (first - first)) with (next_inloc l) by lia.
        exact Hd1.
      * rewrite Hty in Hd.
        erewrite flat_map_ext; [exact Hd|].
        intros i. apply map_ext. intros j. unfold l1. cbn. do 2 f_equal.
        destruct (type c); [done|]. f_equal. lia.
    + rewrite Hlen. unfold l1. cbn. apply length_insert.
    + intros i Hi. destruct (decide (i = first)) as [->|Hne].
      * rewrite Hold by (cbn; lia). unfold l1. cbn.
        replace (inputs_count l + (first - first)) with (inputs_count l) by lia.
        rewrite zlookup_insert_eq by done. do 2 f_equal. lia.
      * specialize (Hent i ltac:(lia)). unfold l1 in Hent. cbn in Hent.
        replace (inputs_count l + (i - first))
          with (inputs_count l + 1 + (i - Z.succ first)) by lia.
        rewrite Hent. do 2 f_equal. lia.
    + intros m Hm. rewrite Hold by (cbn; lia). unfold l1. cbn.
      apply zlookup_insert_ne; lia.
Qed.

Lemma elem_of_decl_inputs decl n :
  n ∈ decl_inputs decl
  <-> exists i j, Range_First decl <= i <= Range_Last decl /\ 0 <= j < 4
                  /\ n = i * 4 + j.
Proof.
  unfold decl_inputs. rewrite list_elem_of_In, in_flat_map. unfold range. split.
  - intros (i & Hi & Hn). apply list_elem_of_In, elem_of_seqZ in Hi.
    apply list_elem_of_In, list_elem_of_fmap in Hn as (j & -> & Hj%elem_of_chans).
    exists i, j. split; [lia|done].
  - intros (i & j & Hi & Hj & ->). exists i. split.
    + apply list_elem_of_In, elem_of_seqZ. lia.
    + apply list_elem_of_In, list_elem_of_fmap. exists j. split; [done|].
      unfold chans. assert (H : j = 0 \/ j = 1 \/ j = 2 \/ j = 3) by lia.
      destruct H as [-> | [-> | [-> | ->]]]; repeat constructor.
Qed.

Lemma decl_in_run decl (l : @fd3_linkage fd3_semantic) c b :
  (type c = SHADER_FRAGMENT ->
   Declaration_Semantic decl = true /\ atomic c = false /\ output_updates c = []) ->
  block c = Some b ->
  Forall (fun n => is_Some (read_input c b n)) (decl_inputs decl) ->
  0 <= inputs_count l ->
  inputs_count l + Z.max 0 (Range_Last decl - Range_First decl + 1)
    <= Z.of_nat (length (inputs l)) ->
  let count := Z.max 0 (Range_Last decl - Range_First decl + 1) in
  exists l' c',
    decl_in fd3_semantic_name decl l c = Done (l', c')
    /\ declared c c' b (decl_in_entries c l decl b)
    /\ (inputs_count l', total_in l', next_inloc l')
       = (inputs_count l + count, total_in l + 4 * count, next_inloc l + 4 * count)
    /\ (forall i, Range_First decl <= i <= Range_Last decl ->
          zlookup (inputs l') (inputs_count l + (i - Range_First decl))
          = Some (mk_input (decl_semantic fd3_semantic_name decl) 15
                    (regid (i + base_reg c TGSI_FILE_INPUT) 0)
                    (next_inloc l + 4 * (i - Range_First decl))))
    /\ (forall i j, Range_First decl <= i <= Range_Last decl -> 0 <= j < 4 ->
          exists p,
            read_input c' b (i * 4 + j) = Some (Some p)
            /\ instrs (ir c') !! p = Some (decl_in_node c l decl b i j)).
Proof.
  intros Hfrag Hb Hslots Hn0 Hroom count.
  unfold decl_in. mstep. unfold bind at 1.
  assert (Hassert : match type c with
                    | SHADER_VERTEX => true
                    | SHADER_FRAGMENT => false
                    end || Declaration_Semantic decl = true).
  { destruct (type c); [done|]. by destruct Hfrag as [-> _]. }
  rewrite Hassert. mred.
  set (n := Z.to_nat count).
  assert (Hcount : count = Z.of_nat n) by (unfold n, count; lia).
  assert (Hrange : range (Range_First decl) (Range_Last decl)
                   = seqZ (Range_First decl) (Z.of_nat n)).
  { unfold range, seqZ. do 2 f_equal. unfold n, count. lia. }
  rewrite Hrange, Hcount.
  destruct (decl_in_loop decl (base_reg c TGSI_FILE_INPUT)
              (if half_precision (so c) then IR3_REG_HALF else 0) b n
              (Range_First decl) l c Hb)
    as (ins & c' & Hrun & Hd & Hlen & Hent & Hold).
  { intros Hty. by destruct (Hfrag Hty) as (_ & ? & ?). }
  { intros i j Hi Hj. apply (proj1 (Forall_forall _ _) Hslots).
    apply elem_of_decl_inputs. exists i, j. split; [lia|done]. }
  { exact Hn0. }
  { lia. }
  assert (Hd' : declared c c' b (decl_in_entries c l decl b)).
  { unfold decl_in_entries, decl_in_node. rewrite Hrange.
    erewrite flat_map_ext; [exact Hd|].
    intros i. apply map_ext. intros j. by destruct (type c). }
  eexists _, c'. split; [exact Hrun|]. split; [exact Hd'|].
  cbn [inputs_count total_in next_inloc inputs].
  split; [reflexivity|]. split.
  - intros i Hi. apply Hent. lia.
  - intros i j Hi Hj.
    assert (Hel : (i * 4 + j, decl_in_node c l decl b i j)
                  ∈ decl_in_entries c l decl b).
    { unfold decl_in_entries. apply list_elem_of_In, in_flat_map. exists i. split.
      - apply list_elem_of_In. unfold range. apply elem_of_seqZ. lia.
      - apply list_elem_of_In, list_elem_of_fmap. exists j. split; [done|].
        unfold chans. assert (H : j = 0 \/ j = 1 \/ j = 2 \/ j = 3) by lia.
        destruct H as [-> | [-> | [-> | ->]]]; repeat constructor. }
    apply list_elem_of_lookup_1 in Hel as [k Hk].
    destruct Hd' as (Hins & _ & _ & Hfill & _).
    exists (length (instrs (ir c)) + k)%nat. split.
    + exact (Hfill k _ Hk).
    + rewrite Hins, lookup_app_r by lia.
      replace (length (instrs (ir c)) + k - length (instrs (ir c)))%nat with k by lia.
      rewrite list_lookup_fmap, Hk. reflexivity.
Qed.

Lemma block_input_top b n c blk :
  blocks (ir c) !! b = Some blk ->
  Block.parent blk = None ->
  block_input b n c
  = match zlookup (Block.inputs blk) n with
    | Some v => Done (v, c)
    | None => Fault
    end.
Proof.
  intros Hblk Hp. unfold block_input.
  destruct b; cbn [block_input_rec]; unfold bind at 1;
    rewrite get_block_eq, Hblk, Hp; unfold deref; by destruct (zlookup _ _).
Qed.

(** X18. [decl_in] in a vertex shader makes every declared input
    readable.  In the outermost block it appends one input node per
    component of each register of the range and stores it in the
    component's input slot, so that [block_input] then returns that node;
    it adds one entry per register to the input table, with all four
    components, register [regid(i + base_reg[INPUT], 0)] and a location
    that advances by four per register; nothing else changes.  No
    semantic information is asked for. *)
Theorem decl_in_vertex decl (l : @fd3_linkage fd3_semantic) c b blk :
  type c = SHADER_VERTEX ->
  block c = Some b ->
  blocks (ir c) !! b = Some blk ->
  Block.parent blk = None ->
  Forall (fun n => is_Some (read_input c b n)) (decl_inputs decl) ->
  0 <= inputs_count l ->
  inputs_count l + Z.max 0 (Range_Last decl - Range_First decl + 1)
    <= Z.of_nat (length (inputs l)) ->
  let count := Z.max 0 (Range_Last decl - Range_First decl + 1) in
  exists l' c',
    decl_in fd3_semantic_name decl l c = Done (l', c')
    /\ declared c c' b (decl_in_entries c l decl b)
    /\ (inputs_count l', total_in l', next_inloc l')
       = (inputs_count l + count, total_in l + 4 * count, next_inloc l + 4 * count)
    /\ (forall i, Range_First decl <= i <= Range_Last decl ->
          zlookup (inputs l') (inputs_count l + (i - Range_First decl))
          = Some (mk_input (decl_semantic fd3_semantic_name decl) 15
                    (regid (i + base_reg c TGSI_FILE_INPUT) 0)
                    (next_inloc l + 4 * (i - Range_First decl))))
    /\ (forall i j, Range_First decl <= i <= Range_Last decl -> 0 <= j < 4 ->
          exists p,
            block_input b (i * 4 + j) c' = Done (Some p, c')
            /\ instrs (ir c') !! p = Some (input_node b None (i * 4 + j))).
Proof.
  intros Hty Hb Hblk Hp Hslots Hn0 Hroom count.
  destruct (decl_in_run decl l c b) as (l' & c' & Hrun & Hd & Hcnt & Hent & Hnodes);
    [by rewrite Hty|done|done|done|done|].
  exists l', c'. split; [exact Hrun|]. split; [exact Hd|]. split; [exact Hcnt|].
  split; [exact Hent|].
  intros i j Hi Hj. destruct (Hnodes i j Hi Hj) as (p & Hread & Hnode).
  exists p. unfold decl_in_node in Hnode. rewrite Hty in Hnode. split; [|exact Hnode].
  destruct Hd as (_ & _ & _ & _ & _ & _ & Hpar).
  specialize (Hpar b). rewrite Hblk in Hpar. unfold read_input in Hread.
  destruct (blocks (ir c') !! b) as [blk'|] eqn:Hblk'; [|done].
  cbn in Hpar, Hread. injection Hpar as Hpar. rewrite Hp in Hpar.
  rewrite (block_input_top b _ c' blk' Hblk' Hpar), Hread. reflexivity.
Qed.

(** X19. [decl_in] in a fragment shader fetches every declared input
    with [bary.f].  Between instructions (nothing pending, no atomic
    group) a declaration without semantic information is a compile error;
    with it, one [bary.f] instruction per component of each register is
    appended and stored in the component's input slot: its destination is
    [regid(i + base_reg[INPUT], 0) + j], its immediate operand the
    location [next_inloc + 4 * (i - First) + j - 8], and its source the
    position pair [r0.xy], with write-mask 3, produced by [frag_pos].
    The input table and the counters advance as in a vertex shader. *)
Theorem decl_in_fragment decl (l : @fd3_linkage fd3_semantic) c b :
  type c = SHADER_FRAGMENT ->
  atomic c = false ->
  output_updates c = [] ->
  block c = Some b ->
  Forall (fun n => is_Some (read_input c b n)) (decl_inputs decl) ->
  0 <= inputs_count l ->
  inputs_count l + Z.max 0 (Range_Last decl - Range_First decl + 1)
    <= Z.of_nat (length (inputs l)) ->
  let count := Z.max 0 (Range_Last decl - Range_First decl + 1) in
  if Declaration_Semantic decl then
    exists l' c',
      decl_in fd3_semantic_name decl l c = Done (l', c')
      /\ declared c c' b (decl_in_entries c l decl b)
      /\ (inputs_count l', total_in l', next_inloc l')
         = (inputs_count l + count, total_in l + 4 * count, next_inloc l + 4 * count)
      /\ (forall i j, Range_First decl <= i <= Range_Last decl -> 0 <= j < 4 ->
            exists p,
              read_input c' b (i * 4 + j) = Some (Some p)
              /\ instrs (ir c') !! p
                 = Some (bary_node b (regid (i + base_reg c TGSI_FILE_INPUT) 0 + j)
                           (if half_precision (so c) then IR3_REG_HALF else 0)
                           (next_inloc l + 4 * (i - Range_First decl) + j - 8)
                           (frag_pos l)))
  else decl_in fd3_semantic_name decl l c = CompileError.
Proof.
  intros Hty Ha Hq Hb Hslots Hn0 Hroom count.
  destruct (Declaration_Semantic decl) eqn:Hsem.
  - destruct (decl_in_run decl l c b) as (l' & c' & Hrun & Hd & Hcnt & _ & Hnodes);
      [by rewrite Hsem|done|done|done|done|].
    exists l', c'. split; [exact Hrun|]. split; [exact Hd|]. split; [exact Hcnt|].
    intros i j Hi Hj. destruct (Hnodes i j Hi Hj) as (p & Hread & Hnode).
    exists p. unfold decl_in_node in Hnode. rewrite Hty in Hnode. by split.
  - unfold decl_in. mstep. by rewrite Hty, Hsem.
Qed.

End Inputs.


Lemma decl_out_rejects_example :
  decl_out ex_semantic_name
    (mk_decl TGSI_FILE_OUTPUT true 0 0 TGSI_SEMANTIC_BCOLOR 0) ex_linkage ex_top
  = CompileError.
Proof. apply decl_out_rejects. right. by vm_compute. Defined.

Lemma decl_in_vertex_example :
  exists l' c',
    decl_in ex_semantic_name ex_decl_in ex_linkage ex_top = Done (l', c')
    /\ (inputs_count l', total_in l', next_inloc l') = (1, 4, 12)
    /\ exists p,
         block_input 0%nat 2 c' = Done (Some p, c')
         /\ instrs (ir c') !! p = Some (input_node 0%nat None 2).
Proof.
  destruct (decl_in_vertex ex_semantic_name ex_decl_in ex_linkage ex_top 0%nat
              (Block.mk None (replicate 24 None) (replicate 4 None) (replicate 4 None)))
    as (l' & c' & H1 & _ & H3 & _ & H5).
  - by vm_compute.
  - by vm_compute.
  - by vm_compute.
  - reflexivity.
  - repeat (constructor; [vm_compute; eexists; reflexivity|]). constructor.
  - by vm_compute.
  - by vm_compute.
  - exists l', c'. split; [exact H1|]. split; [exact H3|].
    apply (H5 0 2); [by vm_compute|lia].
Defined.

Lemma decl_in_fragment_example :
  exists l' c',
    decl_in ex_semantic_name ex_decl_in ex_linkage ex_frag_top = Done (l', c')
    /\ exists p,
         read_input c' 0%nat 2 = Some (Some p)
         /\ instrs (ir c') !! p = Some (bary_node 0%nat 6 0 2 None).
Proof.
  pose proof (decl_in_fragment ex_semantic_name ex_decl_in ex_linkage ex_frag_top 0%nat)
    as H.
  cbn [ex_decl_in Declaration_Semantic] in H.
  destruct H as (l' & c' & H1 & _ & _ & H4).
  - by vm_compute.
  - by vm_compute.
  - by vm_compute.
  - by vm_compute.
  - repeat (constructor; [vm_compute; eexists; reflexivity|]). constructor.
  - by vm_compute.
  - by vm_compute.
  - exists l', c'. split; [exact H1|].
    destruct (H4 0 2) as (p & Hp1 & Hp2); [vm_compute; split; discriminate|lia|].
    match type of Hp2 with
    | _ = Some ?x =>
        assert (E : x = bary_node 0%nat 6 0 2 None) by (vm_compute; reflexivity);
        rewrite E in Hp2
    end.
    change (0 * 4 + 2) with 2 in Hp1.
    exists p. exact (conj Hp1 Hp2).
Defined.

Lemma scan_immediates_some n : forall i0 val imms,
  (forall j, i0 <= j < i0 + Z.of_nat n -> is_Some (zlookup imms j)) ->
  (exists j, i0 <= j < i0 + Z.of_nat n /\ zlookup imms j = Some val) ->
  exists i neg, scan_immediates n i0 val imms = Some (Some (i, neg)).
Proof.
  induction n as [|n IH]; intros i0 val imms Hall (j & Hj & Hv); [lia|].
  cbn [scan_immediates]. destruct (Hall i0) as [x Hx]; [lia|]. rewrite Hx.
  destruct (Z.eqb_spec x val) as [->|Hne]; [by eexists _, _|].
  destruct (Z.eqb_spec x (neg32 val)) as [->|Hne']; [by eexists _, _|].
  apply IH.
  - intros k Hk. apply Hall. lia.
  - exists j. split; [|exact Hv]. destruct (decide (j = i0)) as [->|]; [|lia].
    rewrite Hx in Hv. by injection Hv.
Qed.

Lemma store_immediate_run n x y z w imms :
  0 <= n ->
  (Z.to_nat (4 * n + 3) < length imms)%nat ->
  store_immediate n (x, y, z, w) imms
  = Some (<[Z.to_nat (4 * n + 3) := w]>
            (<[Z.to_nat (4 * n + 2) := z]>
               (<[Z.to_nat (4 * n + 1) := y]> (<[Z.to_nat (4 * n) := x]> imms)))).
Proof.
  intros Hn Hlen. unfold store_immediate.
  rewrite zinsert_in_range by (apply in_range_lt; lia).
  rewrite zinsert_in_range by (apply in_range_lt; rewrite length_insert; lia).
  rewrite zinsert_in_range by (apply in_range_lt; rewrite !length_insert; lia).
  rewrite zinsert_in_range by (apply in_range_lt; rewrite !length_insert; lia).
  reflexivity.
Qed.

Section Immediates.

Context {fd3_semantic : Type}.
Variable fd3_semantic_name : tgsi_semantic -> Z -> fd3_semantic.

(** X20. Declared immediates are reused.  An immediate token is stored
    as four words in the next free vec4 of the pool, and the count of
    immediates grows by one.  When that vec4 lies below [immediate_idx],
    where [compile_init] puts the first compiler-generated immediate,
    [get_immediate] then answers a request for each of the four words
    from the pool, which it leaves as it is, with the rest of the
    context: the register it returns names the first entry of the pool
    that holds the word, or (with Negate set) the word [neg32 x], the
    [-x] of the code on [uint32_t].  That entry is the word's own slot,
    with Negate clear, unless an entry before the slot holds one of the
    two words. *)
Theorem immediate_token_reused u (l : @fd3_linkage fd3_semantic) c :
  let n := immediates_count (so c) in
  0 <= n ->
  4 * n + 3 < immediate_idx c ->
  immediate_idx c <= Z.of_nat (length (immediates (so c))) ->
  exists c1,
    compile_token fd3_semantic_name (TGSI_TOKEN_TYPE_IMMEDIATE u) l c = Done (l, c1)
    /\ immediates_count (so c1) = n + 1
    /\ immediate_idx c1 = immediate_idx c
    /\ (forall k x, words u !! k = Some x ->
          zlookup (immediates (so c1)) (4 * n + Z.of_nat k) = Some x)
    /\ (forall m, m < 4 * n \/ 4 * n + 3 < m ->
          zlookup (immediates (so c1)) m = zlookup (immediates (so c)) m)
    /\ (forall k x, words u !! k = Some x ->
          exists i neg,
            get_immediate x c1
            = Done (Src.mk TGSI_FILE_IMMEDIATE false false (i / 4) false neg
                      (i mod 4) (i mod 4) (i mod 4) (i mod 4), c1)
            /\ 0 <= i <= 4 * n + Z.of_nat k
            /\ zlookup (immediates (so c1)) i = Some (if neg then neg32 x else x)
            /\ (forall j, 0 <= j < i ->
                  exists y, zlookup (immediates (so c1)) j = Some y
                            /\ y <> x /\ y <> neg32 x)
            /\ ((forall j y, 0 <= j < 4 * n + Z.of_nat k ->
                    zlookup (immediates (so c1)) j = Some y ->
                    y <> x /\ y <> neg32 x) ->
                i = 4 * n + Z.of_nat k /\ neg = false)).
Proof.
  intros n Hn Hidx Hlen. destruct u as [[[x y] z] w].
  unfold compile_token. mstep. unfold bind at 1. fold n.
  rewrite (store_immediate_run n x y z w) by lia.
  mred. mstep. eexists. split; [reflexivity|].
  cbn [so set_so immediates set_immediates immediates_count immediate_idx].
  set (arr := <[Z.to_nat (4 * n + 3) := w]> _).
  assert (Hw : forall k v, words (x, y, z, w) !! k = Some v ->
                 zlookup arr (4 * n + Z.of_nat k) = Some v).
  { intros k v Hk. unfold arr.
    destruct k as [|[|[|[|k]]]]; cbn in Hk; try discriminate; injection Hk as <-.
    - rewrite !zlookup_insert_ne by lia. rewrite Z.add_0_r.
      apply zlookup_insert_eq, in_range_lt. lia.
    - rewrite !zlookup_insert_ne by lia.
      apply zlookup_insert_eq, in_range_lt. rewrite length_insert. lia.
    - rewrite !zlookup_insert_ne by lia.
      apply zlookup_insert_eq, in_range_lt. rewrite !length_insert. lia.
    - apply zlookup_insert_eq, in_range_lt. rewrite !length_insert. lia. }
  split; [reflexivity|]. split; [reflexivity|]. split; [exact Hw|]. split.
  - intros m Hm. unfold arr. rewrite !zlookup_insert_ne by lia. reflexivity.
  - intros k v Hk. pose proof (lookup_lt_Some _ _ _ Hk) as Hk4. cbn in Hk4.
    rewrite get_immediate_eq. cbv zeta.
    cbn [so set_so immediates set_immediates immediates_count immediate_idx].
    destruct (scan_immediates_some (Z.to_nat (immediate_idx c)) 0 v arr)
      as (i & neg & Hscan).
    + intros j Hj. apply zlookup_in_range, in_range_lt. unfold arr.
      rewrite !length_insert. lia.
    + exists (4 * n + Z.of_nat k). split; [lia|by apply Hw].
    + rewrite Hscan. exists i, neg. split; [reflexivity|].
      apply scan_immediates_found in Hscan as (Hi & Hl & Hneg & Hfirst).
      assert (Hle : i <= 4 * n + Z.of_nat k).
      { destruct (Z_le_gt_dec i (4 * n + Z.of_nat k)) as [|Hgt]; [done|].
        destruct (Hfirst (4 * n + Z.of_nat k)) as (y0 & Hy0 & Hne & _); [lia|].
        rewrite (Hw k v Hk) in Hy0. by injection Hy0 as <-. }
      split; [lia|]. split; [exact Hl|]. split; [exact Hfirst|].
      intros Hnone.
      assert (i = 4 * n + Z.of_nat k) as ->.
      { destruct (Z.eq_dec i (4 * n + Z.of_nat k)) as [|Hd]; [done|].
        destruct (Hnone i _ ltac:(lia) Hl) as [H1 H2]. by destruct neg. }
      split; [done|]. rewrite (Hw k v Hk) in Hl. destruct neg; [|done].
      injection Hl as Hl. symmetry in Hl. by apply Hneg in Hl.
Qed.

End Immediates.

(** The token (-4.0, 1.0, 0, 0): the request for -4.0 is answered by its
    own slot, and the request for 1.0 by the slot of -4.0 with Negate
    set. *)
Lemma immediate_token_reused_example :
  exists c1,
    compile_token ex_semantic_name
      (TGSI_TOKEN_TYPE_IMMEDIATE (fui_minus_4_0, fui_1_0, 0, 0))
      ex_linkage ex_imm_init = Done (ex_linkage, c1)
    /\ (exists i neg,
          get_immediate fui_minus_4_0 c1
          = Done (Src.mk TGSI_FILE_IMMEDIATE false false (i / 4) false neg
                    (i mod 4) (i mod 4) (i mod 4) (i mod 4), c1)
          /\ i = 0 /\ neg = false)
    /\ (exists i neg,
          get_immediate fui_1_0 c1
          = Done (Src.mk TGSI_FILE_IMMEDIATE false false (i / 4) false neg
                    (i mod 4) (i mod 4) (i mod 4) (i mod 4), c1)
          /\ 0 <= i <= 1
          /\ zlookup (immediates (so c1)) i
             = Some (if neg then neg32 fui_1_0 else fui_1_0)).
Proof.
  destruct (immediate_token_reused ex_semantic_name (fui_minus_4_0, fui_1_0, 0, 0)
              ex_linkage ex_imm_init) as (c1 & H1 & _ & _ & _ & _ & H6).
  - by vm_compute.
  - by vm_compute.
  - by vm_compute.
  - exists c1. split; [exact H1|]. split.
    + destruct (H6 0%nat fui_minus_4_0 eq_refl) as (i & neg & Hrun & Hi & _ & _ & Hown).
      exists i, neg. split; [exact Hrun|]. apply Hown. intros j y0 Hj. 
      change (immediates_count (so ex_imm_init)) with 0 in Hj. cbn in Hj. lia.
    + destruct (H6 1%nat fui_1_0 eq_refl) as (i & neg & Hrun & Hi & Hl & _).
      exists i, neg. split; [exact Hrun|]. split; [|exact Hl].
      change (immediates_count (so ex_imm_init)) with 0 in Hi. cbn in Hi. lia.
Defined.

(** ** Fan-out *)

Lemma fanout_step instr dst chan c0 b i c s :
  atomic c0 = false ->
  block c0 = Some b ->
  block c = Some b ->
  (length (output_updates c) < 16)%nat ->
  dst_slot b dst (chan + i) = Some s ->
  is_Some (read_slot c s) ->
  (b <- deref (block c0) ;;
   collect <- ir3_instr_create b (-1) OPC_META_FO ;;
   update_instr collect (Instr.set_fo_off i) ;;;
   ir3_reg_create collect 0 0 ;;;
   r <- ir3_reg_create collect 0 IR3_REG_SSA ;;
   update_reg r (Reg.set_instr (Some instr)) ;;;
   if atomic c0 then ret tt else ssa_dst collect dst (chan + i)) c
  = Done (tt, set_output_updates
                (output_updates c ++ [mk_update (length (instrs (ir c))) s])
                (set_instrs (instrs (ir c) ++ [fo_node b instr i]) c)).
Proof.
  intros Ha Hb0 Hb Hq Hs Hr. rewrite Hb0, Ha. mrun.
  set (c1 := set_instrs _ _).
  rewrite (ssa_dst_run _ dst (chan + i) c1 b s Hq Hb Hs Hr).
  unfold c1. destruct c as [[]]. reflexivity.
Qed.

Lemma fanout_loop instr dst chan wrmask c0 b :
  let en := fun i => has_flag wrmask (bit i) = true in
  atomic c0 = false ->
  block c0 = Some b ->
  forall l c,
    block c = Some b ->
    (length (output_updates c) + length (filter en l) <= 16)%nat ->
    (forall i, i ∈ l -> en i ->
       exists s, dst_slot b dst (chan + i) = Some s /\ is_Some (read_slot c s)) ->
    exists c',
      forM l (fun i =>
        if has_flag wrmask (bit i) then
          b <- deref (block c0) ;;
          collect <- ir3_instr_create b (-1) OPC_META_FO ;;
          update_instr collect (Instr.set_fo_off i) ;;;
          ir3_reg_create collect 0 0 ;;;
          r <- ir3_reg_create collect 0 IR3_REG_SSA ;;
          update_reg r (Reg.set_instr (Some instr)) ;;;
          if atomic c0 then ret tt else ssa_dst collect dst (chan + i)
        else ret tt) c = Done (tt, c')
      /\ instrs (ir c') = instrs (ir c) ++ map (fo_node b instr) (filter en l)
      /\ output_updates c'
         = output_updates c
           ++ imap (fun k i => mk_update (length (instrs (ir c)) + k)
                                (dst_slot_of b dst (chan + i))) (filter en l)
      /\ blocks (ir c') = blocks (ir c)
      /\ rest_of c' = rest_of c.
Proof.
  intros en Ha Hb0. induction l as [|i l IH]; intros c Hb Hq Hslots.
  - exists c. cbn. rewrite !app_nil_r. done.
  - cbn [forM]. destruct (has_flag wrmask (bit i)) eqn:Hen.
    + rewrite filter_cons_True in * by done. cbn [length] in Hq.
      destruct (Hslots i) as (s & Hs & Hr); [left|done|].
      unfold bind at 1.
      rewrite (fanout_step instr dst chan c0 b i c s Ha Hb0 Hb ltac:(lia) Hs Hr).
      set (c1 := set_output_updates _ _).
      destruct (IH c1) as (c' & Hrun & Hins & Hupd & Hbs & Hrest).
      * exact Hb.
      * unfold c1. cbn [output_updates set_output_updates]. rewrite length_app.
        cbn. lia.
      * intros j Hj Hej. apply Hslots; [by right|done].
      * exists c'. split; [exact Hrun|]. split; [|split; [|split]].
        -- rewrite Hins. unfold c1. cbn [instrs ir set_output_updates set_instrs set_ir].
           rewrite <- app_assoc. reflexivity.
        -- rewrite Hupd. unfold c1.
           cbn [instrs ir set_output_updates set_instrs set_ir output_updates].
           rewrite <- app_assoc. cbn [app imap]. f_equal. f_equal.
           ++ rewrite Nat.add_0_r. unfold dst_slot_of. by rewrite Hs.
           ++ apply imap_ext. intros k j _. cbn. rewrite length_app. cbn.
              f_equal. lia.
        -- rewrite Hbs. reflexivity.
        -- rewrite Hrest. reflexivity.
    + rewrite filter_cons_False in * by (unfold en; by rewrite Hen).
      unfold bind at 1. rewrite ret_run.
      apply IH; [exact Hb|exact Hq|].
      intros j Hj Hej. apply Hslots; [by right|done].
Qed.

(** X21. A destination written with several components fans out.
    Outside an atomic group, [add_dst_reg_wrmask] with a write-mask
    other than 1 on a TEMPORARY or OUTPUT register appends to the
    instruction one destination record that carries the mask, creates
    one collect node per enabled component [i], with [fo.off = i] and
    the instruction as its source, and queues that node as the value of
    component [chan + i] of the register; the blocks are not touched. *)
Theorem add_dst_reg_fanout instr dst chan wrmask c b ins :
  wrmask <> 1 ->
  Dst.File dst = TGSI_FILE_TEMPORARY \/ Dst.File dst = TGSI_FILE_OUTPUT ->
  atomic c = false ->
  block c = Some b ->
  instrs (ir c) !! instr = Some ins ->
  (length (output_updates c) + length (enabled wrmask) <= 16)%nat ->
  (forall i, i ∈ enabled wrmask ->
     exists s, dst_slot b dst (chan + i) = Some s /\ is_Some (read_slot c s)) ->
  let r := Reg.set_wrmask wrmask
             (new_reg (regid (Dst.Index dst + base_reg c (Dst.File dst)) chan)
                (dst_flags c dst)) in
  exists c',
    add_dst_reg_wrmask instr dst chan wrmask c
      = Done ((instr, length (Instr.regs ins)), c')
    /\ instrs (ir c')
       = <[instr := add_reg r ins]> (instrs (ir c))
         ++ map (fo_node b instr) (enabled wrmask)
    /\ output_updates c'
       = output_updates c
         ++ imap (fun k i => mk_update (length (instrs (ir c)) + k)
                              (dst_slot_of b dst (chan + i))) (enabled wrmask)
    /\ blocks (ir c') = blocks (ir c)
    /\ rest_of c' = rest_of c.
Proof.
  intros Hw Hfile Ha Hb Hins Hq Hslots r.
  unfold add_dst_reg_wrmask. mstep. unfold bind at 1.
  assert (Hnum : match Dst.File dst with
                 | TGSI_FILE_OUTPUT | TGSI_FILE_TEMPORARY =>
                     ret (Dst.Index dst + base_reg c (Dst.File dst))
                 | TGSI_FILE_ADDRESS => ret REG_A0
                 | _ => compile_error
                 end c = Done (Dst.Index dst + base_reg c (Dst.File dst), c)).
  { by destruct Hfile as [-> | ->]. }
  rewrite Hnum. unfold bind at 1. rewrite ir3_reg_create_eq, Hins.
  unfold bind at 1. rewrite update_reg_eq. mred. cbn [fst snd].
  assert (Hlt : (instr < length (instrs (ir c)))%nat) by (by eapply lookup_lt_Some).
  rewrite list_lookup_insert_eq by done. cbn [Instr.regs Instr.set_regs].
  rewrite lookup_snoc, insert_snoc, list_insert_insert_eq.
  destruct (Z.eqb_spec wrmask 1) as [|_]; [done|].
  set (c1 := set_instrs _ _).
  assert (Hc1 : c1 = set_instrs (<[instr := add_reg r ins]> (instrs (ir c))) c).
  { unfold c1, r, add_reg, dst_flags. destruct c as [[]]. reflexivity. }
  rewrite Hc1. clear c1 Hc1. set (c1 := set_instrs _ c).
  destruct (fanout_loop instr dst chan wrmask c b Ha Hb chans c1)
    as (c' & Hrun & Hi' & Hq' & Hbs & Hrest).
  { exact Hb. }
  { exact Hq. }
  { intros i Hi Hen. apply Hslots. apply elem_of_enabled. by split. }
  exists c'. split.
  - unfold bind at 1.
    replace (match Dst.File dst with
             | TGSI_FILE_OUTPUT | TGSI_FILE_TEMPORARY => _
             | _ => ret ()
             end c1) with (Done (tt, c')).
    + reflexivity.
    + rewrite <- Hrun. by destruct Hfile as [-> | ->].
  - split; [|split; [|split]].
    + rewrite Hi'. reflexivity.
    + rewrite Hq'. unfold c1. cbn [instrs ir set_instrs set_ir].
      by rewrite length_insert.
    + rewrite Hbs. reflexivity.
    + rewrite Hrest. reflexivity.
Qed.

Lemma add_dst_reg_fanout_example :
  exists c',
    add_dst_reg_wrmask 0%nat (TEMP_dst 0 15) 0 3 ex_top_operand = Done ((0%nat, 1%nat), c')
    /\ instrs (ir c')
       = <[0%nat := add_reg
                      (Reg.set_wrmask 3
                         (new_reg (regid (0 + base_reg ex_top_operand TGSI_FILE_TEMPORARY) 0)
                            (dst_flags ex_top_operand (TEMP_dst 0 15))))
                      (Instr.set_regs [new_reg 0 0] (new_instr 0%nat 1 0))]>
           (instrs (ir ex_top_operand))
         ++ map (fo_node 0%nat 0%nat) (enabled 3).
Proof.
  destruct (add_dst_reg_fanout 0%nat (TEMP_dst 0 15) 0 3 ex_top_operand 0%nat
              (Instr.set_regs [new_reg 0 0] (new_instr 0%nat 1 0)))
    as (c' & H1 & H2 & _).
  - discriminate.
  - by left.
  - by vm_compute.
  - by vm_compute.
  - by vm_compute.
  - vm_compute. lia.
  - intros i Hi. eexists. split; [reflexivity|].
    apply elem_of_enabled in Hi as [Hi _]. apply elem_of_chans in Hi.
    unfold read_slot. cbn [slot_block slot_file slot_n].
    replace (blocks (ir ex_top_operand) !! 0%nat)
      with (Some (Block.mk None (replicate 24 None) (replicate 4 None) (replicate 4 None)))
      by (by vm_compute).
    cbn [Block.temporaries]. apply zlookup_in_range, in_range_lt.
    rewrite regid_add by lia. rewrite length_replicate. cbn [Dst.Index TEMP_dst]. lia.
  - exists c'. exact (conj H1 H2).
Defined.

(** ** A whole instruction *)

(** X22. [MOV dst, const] end to end.  Outside an atomic group, the
    lowering of a MOV without saturation from a CONSTANT or IMMEDIATE
    register (not negated) to a TEMPORARY or OUTPUT register appends one
    move per component enabled in the write-mask, each reading component
    [src_swiz(src, i)] of the constant; when [compile_instructions] has
    finished the instruction, the queue is empty, no internal temporary
    is in use, the slot of each written component holds its move, and
    every other slot holds the value that was live for it. *)
Theorem compile_instruction_mov_const dst src tex c b :
  is_const src = true ->
  Src.Negate src = false ->
  Src.Index src < 64 ->
  Dst.File dst = TGSI_FILE_TEMPORARY \/ Dst.File dst = TGSI_FILE_OUTPUT ->
  atomic c = false ->
  wf_queue c ->
  block c = Some b ->
  (forall i, i ∈ enabled (Dst.WriteMask dst) ->
     is_Some (read_slot c (dst_slot_of b dst i))) ->
  exists c',
    compile_instruction (mk_inst TGSI_OPCODE_MOV TGSI_SAT_NONE dst [src] tex) c
      = Done (tt, c')
    /\ instrs (ir c')
       = instrs (ir c) ++ map (const_mov c b dst src) (enabled (Dst.WriteMask dst))
    /\ output_updates c' = []
    /\ num_internal_temps c' = 0
    /\ (forall k i, enabled (Dst.WriteMask dst) !! k = Some i ->
          read_slot c' (dst_slot_of b dst i)
          = Some (Some (length (instrs (ir c)) + k)%nat))
    /\ (forall s, (forall i, i ∈ enabled (Dst.WriteMask dst) -> s <> dst_slot_of b dst i) ->
          read_slot c' s = live c s).
Proof.
  intros Hc Hneg Hidx Hfile Ha Hq Hb Hslots.
  assert (Hds : forall i, dst_slot b dst i = Some (dst_slot_of b dst i)).
  { intros i. unfold dst_slot_of, dst_slot. by destruct Hfile as [-> | ->]. }
  destruct (create_mov_const_loop dst src b (get_ftype c) (dst_slot_of b dst) Hc Hidx
              chans c) as (c1 & Hrun & Hins & Hdef & Hframe & Hq1 & Hrest).
  { apply (bool_decide_unpack _). by vm_compute. }
  { intros i _ _. apply Hds. }
  { intros i j Hi%elem_of_chans Hj%elem_of_chans _ _ Heq.
    apply (dst_slot_inj b dst i j Hi Hj); [by rewrite Hds|by rewrite !Hds, Heq]. }
  { exact Ha. }
  { exact Hq. }
  { exact Hb. }
  { reflexivity. }
  { intros i Hi Hen. unfold live. destruct (queued _ _); [by eexists|].
    apply Hslots. apply elem_of_enabled. by split. }
  destruct (rest_of_eq _ _ Hrest) as (_ & _ & Ha1 & _).
  set (c2 := set_num_internal_temps 0 c1).
  destruct (instr_finish_run c2) as (bs & Hfin & Hlive).
  { exact (eq_trans Ha1 Ha). }
  { exact Hq1. }
  exists (set_output_updates [] (set_blocks bs c2)).
  split; [|split; [|split; [|split; [|split]]]].
  - unfold compile_instruction. cbn [Opcode translaters Saturate].
    unfold bind at 1. unfold bind at 1. unfold instr_cat1. unfold bind at 1.
    unfold get_dst. cbn [Dst0 SrcRegs].
    rewrite (get_dst_loop_keep dst [src] c).
    2:{ cbn [existsb]. unfold same_register.
        assert (Hne : Src.File src <> Dst.File dst).
        { unfold is_const in Hc. destruct Hfile as [-> | ->];
            by destruct (Src.File src). }
        by rewrite bool_decide_eq_false_2. }
    unfold bind at 1. cbn [read_dst Dst0]. rewrite ret_run.
    unfold bind at 1. unfold src_reg. cbn [SrcRegs lookup list_lookup deref].
    rewrite ret_run. rewrite Hneg. unfold bind at 1.
    unfold create_mov. unfold bind at 1. rewrite get_run. rewrite Hrun.
    cbn [put_dst]. rewrite ret_run, modify_run.
    unfold bind at 1. rewrite ret_run. exact Hfin.
  - exact Hins.
  - reflexivity.
  - reflexivity.
  - intros k i Hk.
    change (read_slot (set_blocks bs c2) (dst_slot_of b dst i)
            = Some (Some (length (instrs (ir c)) + k)%nat)).
    rewrite Hlive. exact (Hdef k i Hk).
  - intros s Hs.
    change (read_slot (set_blocks bs c2) s = live c s).
    rewrite Hlive. change (live c2 s) with (live c1 s). apply Hframe.
    intros i Hi Hen. apply Hs. apply elem_of_enabled. by split.
Qed.

Lemma compile_instruction_mov_const_example :
  exists c',
    compile_instruction (MOV_ (TEMP_dst 0 5) (CONST 0)) ex_top = Done (tt, c')
    /\ instrs (ir c')
       = instrs (ir ex_top) ++ map (const_mov ex_top 0%nat (TEMP_dst 0 5) (CONST 0)) (enabled 5)
    /\ output_updates c' = []
    /\ num_internal_temps c' = 0.
Proof.
  destruct (compile_instruction_mov_const (TEMP_dst 0 5) (CONST 0) TGSI_TEXTURE_2D
              ex_top 0%nat) as (c' & H1 & H2 & H3 & H4 & _).
  - reflexivity.
  - reflexivity.
  - by vm_compute.
  - by left.
  - by vm_compute.
  - constructor.
  - by vm_compute.
  - intros i Hi. apply elem_of_enabled in Hi as [Hi _]. apply elem_of_chans in Hi.
    unfold read_slot, dst_slot_of, dst_slot.
    cbn [TEMP_dst Dst.File Dst.Index default slot_block slot_file slot_n].
    replace (blocks (ir ex_top) !! 0%nat)
      with (Some (Block.mk None (replicate 24 None) (replicate 4 None) (replicate 4 None)))
      by (by vm_compute).
    cbn [Block.temporaries]. apply zlookup_in_range, in_range_lt.
    rewrite regid_add by lia. rewrite length_replicate.
    cbn [id slot_n]. lia.
  - exists c'. exact (conj H1 (conj H2 (conj H3 H4))).
Defined.

(** ** Conditionals *)

Lemma pop_block_run c b blk p :
  block c = Some b ->
  blocks (ir c) !! b = Some blk ->
  Block.parent blk = Some p ->
  pop_block c = Done (tt, set_block (Some p) c).
Proof.
  intros Hb Hblk Hp. unfold pop_block. mstep. rewrite Hb. mstep.
  unfold bind at 1. rewrite get_block_eq, Hblk. mstep. rewrite Hp. reflexivity.
Qed.

(** X23. ELSE closes the "then" scope and opens a sibling.  In a nested
    block, with the flow instruction of the IF on top of the branch
    stack, [trans_else] leaves the instructions, the existing blocks and
    the branch stack as they are but for three things: one block is
    appended, as [push_block] makes it, with the parent of the block
    just closed as its parent; it is the current block; and it is
    recorded as the else-block of the flow instruction. *)
Theorem trans_else_sibling t inst c b blk p flow ins :
  block c = Some b ->
  blocks (ir c) !! b = Some blk ->
  Block.parent blk = Some p ->
  length (branch c) = 16%nat ->
  0 < branch_count c <= 16 ->
  zlookup (branch c) (branch_count c - 1) = Some (Some flow) ->
  instrs (ir c) !! flow = Some ins ->
  is_meta_flow ins = true ->
  let nb := length (blocks (ir c)) in
  trans_else t inst c
  = Done (tt, set_instrs (<[flow := Instr.set_flow_else_block (Some nb) ins]>
                            (instrs (ir c)))
                (set_block (Some nb)
                   (set_blocks (blocks (ir c) ++ [nested_block (set_block (Some p) c)])
                      c))).
Proof.
  intros Hb Hblk Hp Hlen Hn Htop Hins Hflow nb.
  unfold trans_else. unfold bind at 1.
  rewrite (pop_block_run c b blk p Hb Hblk Hp).
  set (c1 := set_block (Some p) c).
  unfold bind at 1. rewrite pop_branch_eq.
  change (branch c1) with (branch c). change (branch_count c1) with (branch_count c).
  assert (Hsub : sub32 (branch_count c) 1 = branch_count c - 1).
  { unfold sub32. rewrite Z.mod_small; lia. }
  rewrite Hsub, Htop.
  set (c2 := set_branch_count _ c1).
  unfold bind at 1. unfold get_instr. unfold bind at 1. rewrite get_run.
  change (instrs (ir c2)) with (instrs (ir c)). rewrite Hins. mred.
  rewrite Hflow. mstep. unfold bind at 1.
  assert (Hr : in_range (branch_count c2) (branch c2) = true).
  { apply in_range_lt. unfold c2, c1. cbn [branch_count set_branch_count branch].
    change (branch (set_block (Some p) c)) with (branch c). lia. }
  rewrite (push_branch_run flow c2 Hr).
  set (c3 := set_branch_count _ _).
  unfold bind at 1. rewrite (push_block_nested c3 p eq_refl).
  rewrite update_instr_eq.
  cbn [instrs ir set_block set_blocks set_ir].
  change (instrs (ir c3)) with (instrs (ir c)). rewrite Hins.
  f_equal. f_equal.
  assert (Hbr : <[Z.to_nat (branch_count c - 1) := Some flow]> (branch c) = branch c).
  { apply list_insert_id. unfold zlookup in Htop.
    destruct (branch_count c - 1 <? 0); [done|exact Htop]. }
  unfold c3, c2, c1, nested_block, SCALAR_REGS.
  cbn [branch_count set_branch_count branch set_branch set_block block info].
  change (branch (set_block (Some p) c)) with (branch c).
  rewrite Hbr.
  replace (branch_count c - 1 + 1) with (branch_count c) by lia.
  destruct c as [[]]. reflexivity.
Qed.

Lemma trans_else_sibling_example :
  let ins := default (new_instr 0%nat 0 0) (instrs (ir ex_in_then) !! 3%nat) in
  let nb := length (blocks (ir ex_in_then)) in
  trans_else (mk_t TGSI_OPCODE_ELSE 0 0 TGSI_OPCODE_ARL) ELSE_ ex_in_then
  = Done (tt, set_instrs (<[3%nat := Instr.set_flow_else_block (Some nb) ins]>
                            (instrs (ir ex_in_then)))
                (set_block (Some nb)
                   (set_blocks (blocks (ir ex_in_then)
                                ++ [nested_block (set_block (Some 0%nat) ex_in_then)])
                      ex_in_then))).
Proof.
  intros ins.
  apply (trans_else_sibling (mk_t TGSI_OPCODE_ELSE 0 0 TGSI_OPCODE_ARL) ELSE_
           ex_in_then 1%nat
           (Block.mk (Some 0%nat) (replicate 24 None) (replicate 24 None)
              (replicate 4 None))
           0%nat 3%nat ins).
  - by vm_compute.
  - by vm_compute.
  - reflexivity.
  - by vm_compute.
  - by vm_compute.
  - by vm_compute.
  - by vm_compute.
  - by vm_compute.
Defined.
(** * Resolution across scopes *)

(** What the scopes hold for a slot, and the scopes crossed to reach it,
    are determined by the blocks. *)
Lemma held_from_unique bs n b p1 w1 p2 w2 :
  held_from bs n b p1 w1 -> held_from bs n b p2 w2 -> p1 = p2 /\ w1 = w2.
Proof.
  intros H1. revert p2 w2.
  induction H1 as [b blk x Hb Ht|b blk Hb Hp Ht|b blk p y Hb Hp Ht Hi
                  |b blk p path w Hb Hp Ht Hi Hup IH];
    intros p2 w2 H2;
    inversion H2 as [b0 blk0 x0 Hb0 Ht0|b0 blk0 Hb0 Hp0 Ht0
                    |b0 blk0 p0 y0 Hb0 Hp0 Ht0 Hi0
                    |b0 blk0 p0 path0 w0 Hb0 Hp0 Ht0 Hi0 Hup0]; subst;
    rewrite Hb in Hb0; injection Hb0 as <-; try congruence.
  - split; [done|]. congruence.
  - done.
  - split; [done|]. congruence.
  - assert (p0 = p) as -> by congruence.
    destruct (IH _ _ Hup0) as [-> ->]. done.
Qed.

Lemma block_temporary_rec_eq fuel b n c blk :
  blocks (ir c) !! b = Some blk ->
  block_temporary_rec fuel b n c =
  match zlookup (Block.temporaries blk) n with
  | None => Fault
  | Some t =>
      match Block.parent blk, t with
      | Some p, None =>
          match zlookup (Block.inputs blk) n with
          | None => Fault
          | Some (Some x) =>
              Done (Some (length (instrs (ir c))),
                    set_instrs (instrs (ir c) ++ [input_node b (Some x) n]) c)
          | Some None =>
              match fuel with
              | O => Fault
              | S fuel' =>
                  match block_temporary_rec fuel' p n c with
                  | Done (v, c1) =>
                      match blocks (ir c1) !! b with
                      | Some blk1 =>
                          match zinsert n v (Block.inputs blk1) with
                          | Some arr =>
                              Done (Some (length (instrs (ir c1))),
                                    set_instrs (instrs (ir c1) ++ [input_node b v n])
                                      (set_blocks
                                         (<[b := Block.set_inputs arr blk1]>
                                            (blocks (ir c1))) c1))
                          | None => Fault
                          end
                      | None => Fault
                      end
                  | CompileError => CompileError
                  | Fault => Fault
                  end
              end
          end
      | _, _ => Done (t, c)
      end
  end.
Proof.
  intros Hb.
  destruct fuel as [|fuel]; simpl; mrun; rewrite Hb; mrun.
  all: destruct (zlookup (Block.temporaries blk) n) as [t|] eqn:Ht; mrun; [|done].
  all: destruct (Block.parent blk) as [p|] eqn:Hp; [|done].
  all: destruct t as [x|]; [done|].
  all: mrun; destruct (zlookup (Block.inputs blk) n) as [[x|]|] eqn:Hi; mrun; try done.
  all: try (rewrite Hb; mrun; rewrite Hi; mrun; rewrite create_input_eq; by mrun).
  destruct (block_temporary_rec fuel p n c) as [[v c1]| |] eqn:Hrec; mrun; try done.
  destruct (blocks (ir c1) !! b) as [blk1|] eqn:Hb1; mrun; [|done].
  destruct (zinsert n v (Block.inputs blk1)) as [arr|] eqn:Harr; mrun; [|done].
  rewrite Hb1. mrun.
  rewrite list_lookup_insert_eq by (by eapply lookup_lt_Some). mrun.
  cbn [Block.inputs Block.set_inputs].
  apply zinsert_Some in Harr as [Hr ->].
  rewrite zlookup_insert_eq by done. mrun.
  rewrite create_input_eq. by mrun.
Qed.

Lemma imports_weaken N N' arena n v w :
  (N' <= N)%nat -> imports N arena n v w -> imports N' arena n v w.
Proof.
  intros Hle H. induction H as [|i b v w Hi Hn _ IH]; [constructor|].
  eapply imports_step; [lia|exact Hn|exact IH].
Qed.

Lemma imports_trans N arena n u v w :
  imports N arena n u v -> imports N arena n v w -> imports N arena n u w.
Proof.
  intros H1 H2. induction H1 as [|i b v0 w0 Hi Hn _ IH]; [done|].
  eapply imports_step; [done|exact Hn|by apply IH].
Qed.

(** Imports survive whatever leaves the nodes from [N] on alone. *)
Lemma imports_kept N arena arena' n v w :
  (forall k, (N <= k < length arena)%nat -> arena' !! k = arena !! k) ->
  imports N arena n v w -> imports N arena' n v w.
Proof.
  intros Hsame H. induction H as [|i b v w Hi Hn _ IH]; [constructor|].
  eapply imports_step; [done| |exact IH].
  rewrite Hsame; [done|]. split; [done|]. by eapply lookup_lt_Some.
Qed.

Lemma imports_app N arena L n v w :
  imports N arena n v w -> imports N (arena ++ L) n v w.
Proof.
  apply imports_kept. intros k [_ Hk]. by apply lookup_app_l.
Qed.

Lemma chain_kept N arena arena' n path r w :
  (forall k, (N <= k < length arena)%nat -> arena' !! k = arena !! k) ->
  chain arena n N path r w -> chain arena' n N path r w.
Proof.
  intros Hsame H. induction H as [|b path v w Hn _ IH]; [constructor|].
  apply (chain_cons _ _ _ b path v w); [|exact IH].
  rewrite Hsame; [done|]. split; [lia|]. by eapply lookup_lt_Some.
Qed.

Lemma chain_imports N arena n path r w :
  chain arena n N path r w -> imports N arena n r w.
Proof.
  intros H. induction H as [|b path v w Hn _ IH]; [constructor|].
  eapply imports_step; [lia|exact Hn|exact IH].
Qed.

Lemma chain_one arena n N b w :
  arena !! N = Some (input_node b w n) -> chain arena n N [b] (Some N) w.
Proof.
  intros H. pose proof (chain_cons arena n N b [] w w) as Hc.
  simpl in Hc. rewrite Nat.add_0_r in Hc. apply Hc; [done|constructor].
Qed.

Lemma caches_refl c c' n :
  blocks (ir c') = blocks (ir c) -> caches c c' n.
Proof. intros Hbs q blk' Hq. rewrite Hbs in Hq. exists blk'. auto. Qed.

(** What a resolution of temporary slot [n] from block [b] does: it
    crosses the scopes of [path], appends one boundary node per scope
    crossed, the outermost first, and returns the last of them; the
    first imports what the scopes held.  The input slots change as
    [caches] says. *)
Lemma block_temporary_rec_chain fuel : forall b n c r c',
  block_temporary_rec fuel b n c = Done (r, c') ->
  exists path w L,
    held_from (blocks (ir c)) n b path w
    /\ instrs (ir c') = instrs (ir c) ++ L
    /\ length L = length path
    /\ Forall (fun ins => exists b' v, ins = input_node b' v n) L
    /\ chain (instrs (ir c')) n (length (instrs (ir c))) path r w
    /\ caches c c' n.
Proof.
  induction fuel as [|fuel IH]; intros b n c r c' H.
  all: destruct (blocks (ir c) !! b) as [blk|] eqn:Hb;
    [|by simpl in H; unfold bind at 1 in H; rewrite get_block_eq, Hb in H].
  all: rewrite (block_temporary_rec_eq _ b n c blk Hb) in H.
  all: destruct (zlookup (Block.temporaries blk) n) as [t|] eqn:Ht; [|done].
  all: assert (Hplain : Done (t, c) = Done (r, c') ->
         (is_Some t \/ Block.parent blk = None) ->
         exists path w L,
           held_from (blocks (ir c)) n b path w
           /\ instrs (ir c') = instrs (ir c) ++ L
           /\ length L = length path
           /\ Forall (fun ins => exists b' v, ins = input_node b' v n) L
           /\ chain (instrs (ir c')) n (length (instrs (ir c))) path r w
           /\ caches c c' n).
  1,3: intros [= <- <-] Hcase; exists [], t, [];
    (split; [destruct t as [x|];
               [by eapply held_written
               |destruct Hcase as [[? [=]]|Hp]; by eapply held_top]|]);
    rewrite app_nil_r; repeat split; try done; [constructor|by apply caches_refl].
  all: destruct (Block.parent blk) as [p|] eqn:Hp; [|apply Hplain; auto].
  all: destruct t as [x|]; [apply Hplain; eauto|]. 
  all: clear Hplain.
  all: destruct (zlookup (Block.inputs blk) n) as [[x|]|] eqn:Hi; [| |done].
  1,3: injection H as <- <-; exists [b], (Some x), [input_node b (Some x) n];
    (split; [by eapply held_cached|]); mred;
    (split; [done|]); (split; [done|]);
    (split; [constructor; [eauto|constructor]|]);
    (split; [|by apply caches_refl]);
    apply chain_one, lookup_snoc.
  - done.
  - destruct (block_temporary_rec fuel p n c) as [[v c1]| |] eqn:Hrec; [|done..].
    destruct (IH _ _ _ _ _ Hrec) as (path & w & L & Hheld & Hins & Hlen & HL & Hchain & Hcaches).
    destruct (blocks (ir c1) !! b) as [blk1|] eqn:Hb1; [|done].
    destruct (zinsert n v (Block.inputs blk1)) as [arr|] eqn:Harr; [|done].
    apply zinsert_Some in Harr as [Hr ->]. injection H as <- <-.
    assert (Hlen1 : length (instrs (ir c1)) = (length (instrs (ir c)) + length path)%nat).
    { by rewrite Hins, length_app, Hlen. }
    exists (b :: path), w, (L ++ [input_node b v n]).
    split; [by eapply held_up|]. mred.
    split; [by rewrite Hins, app_assoc|].
    split; [rewrite length_app; simpl; lia|].
    split; [apply Forall_app; split; [done|constructor; [eauto|constructor]]|].
    split.
    + rewrite Hlen1. apply (chain_cons _ _ _ b path v w).
      * rewrite <- Hlen1. apply lookup_snoc.
      * eapply chain_kept; [|exact Hchain]. intros k [_ Hk]. by apply lookup_app_l.
    + unfold caches. mred. intros q blk' Hq. destruct (decide (q = b)) as [->|Hne].
      * rewrite list_lookup_insert_eq in Hq by (by eapply lookup_lt_Some).
        injection Hq as <-. exists blk. split; [done|]. right.
        split; [eauto|]. split; [done|]. split; [done|].
        exists v, w. cbn [Block.inputs Block.set_inputs]. split.
        { destruct (Hcaches b blk1 Hb1) as (blk0 & Hb0 & [-> | (_ & _ & _ & v0 & w0 & -> & _)]).
          - congruence.
          - rewrite Hb in Hb0. injection Hb0 as <-. by rewrite list_insert_insert_eq. }
        split; [by exists (b :: path); eapply held_up|].
        apply imports_app. by eapply chain_imports.
      * rewrite list_lookup_insert_ne in Hq by done.
        destruct (Hcaches q blk' Hq) as (blk0 & Hb0 & Hcase).
        exists blk0. split; [done|].
        destruct Hcase as [->|(H1 & H2 & H3 & v0 & w0 & H4 & H5 & H6)]; [by left|right].
        split; [done|]. split; [done|]. split; [done|].
        exists v0, w0. split; [done|]. split; [done|]. by apply imports_app.
Qed.

Lemma input_node_inj b v n b' v' n' :
  input_node b v n = input_node b' v' n' -> v = v'.
Proof.
  intros H. apply (f_equal Instr.regs) in H.
  unfold input_node, inout_regs in H. cbn [Instr.regs Instr.set_regs] in H.
  destruct v, v'; try done; injection H as _ H.
  by subst.
Qed.

(** C6, amended.  In a nested scope that has not written temporary [n],
    resolving [n] returns a new [meta:input] node of the scope, the last
    node of the arena, which imports a value [v], and leaves [v] in the
    scope's input slot for [n].  [v] is the value resolved from the
    ancestors: with [w] what the scopes held for [n] and [path] the
    scopes crossed above this one to reach it, one boundary node was
    appended per scope of [path], the outermost first, the first
    importing [w] and each importing the one before it, and [v] is the
    last of them ([v] is [w] itself when the parent had written [n] or
    the scope had imported it before).  No existing node changes.  When
    there is a value [v], a second resolution does not walk the
    ancestors again: it changes no block and returns another new node,
    the next one in the arena, which imports the same [v]. *)
Theorem block_temporary_caches_import b n c blk :
  wf_scopes n (blocks (ir c)) ->
  blocks (ir c) !! b = Some blk ->
  is_Some (Block.parent blk) ->
  zlookup (Block.temporaries blk) n = Some None ->
  exists i1 c1 v blk1 path w,
    block_temporary b n c = Done (Some i1, c1)
    /\ i1 = (length (instrs (ir c1)) - 1)%nat
    /\ (length (instrs (ir c)) <= i1)%nat
    /\ instrs (ir c1) !! i1 = Some (input_node b v n)
    /\ blocks (ir c1) !! b = Some blk1
    /\ zlookup (Block.inputs blk1) n = Some v
    /\ held_from (blocks (ir c)) n b (b :: path) w
    /\ chain (instrs (ir c1)) n (length (instrs (ir c))) path v w
    /\ length (instrs (ir c1)) = (length (instrs (ir c)) + S (length path))%nat
    /\ (forall k, (k < length (instrs (ir c)))%nat ->
          instrs (ir c1) !! k = instrs (ir c) !! k)
    /\ (forall x, v = Some x ->
          block_temporary b n c1 =
          Done (Some (S i1), set_instrs (instrs (ir c1) ++ [input_node b v n]) c1)).
Proof.
  intros Hwf Hb Hp Ht.
  destruct (block_temporary_rec_total n b b c Hwf) as (r & c1 & Hrun); [lia|eauto|].
  destruct (block_temporary_rec_spec _ _ _ _ _ _ Hrun) as (Hext & blk0 & t & Hb0 & Ht0 & Hcase).
  rewrite Hb in Hb0. injection Hb0 as <-. rewrite Ht in Ht0. injection Ht0 as <-.
  destruct Hcase as [([Hnone | [? [=]]] & _) | (_ & _ & is1 & v & blk1 & His & -> & Hlen & Hb1 & Hv & _)].
  { rewrite Hnone in Hp. by destruct Hp. }
  destruct (block_temporary_rec_chain _ _ _ _ _ _ Hrun)
    as (path0 & w & L & Hheld & HL & HlenL & _ & Hchain & _).
  assert (Hi1 : length is1 = (length (instrs (ir c1)) - 1)%nat).
  { rewrite His, length_app. simpl. lia. }
  assert (Hnode : instrs (ir c1) !! length is1 = Some (input_node b v n)).
  { rewrite His. apply lookup_snoc. }
  assert (Hpath : exists path, path0 = b :: path).
  { destruct Hp as [p Hp].
    inversion Hheld as [b0 blk0 x Hb0 Ht0|b0 blk0 Hb0 Hp0 Ht0|b0 blk0 p0 y Hb0 Hp0 Ht0 Hi0
                       |b0 blk0 p0 path w0 Hb0 Hp0 Ht0 Hi0 Hup]; subst;
      rewrite Hb in Hb0; injection Hb0 as <-; eauto; congruence. }
  destruct Hpath as [path ->].
  inversion Hchain as [|b' path' v' w' Hn' Hchain' E1 E2 E3]; subst.
  assert (v' = v) as ->.
  { rewrite E2, Hnode in Hn'. symmetry.
    apply (input_node_inj b v n b v' n). congruence. }
  exists (length is1), c1, v, blk1, path, w.
  split; [exact Hrun|]. split; [done|]. split; [done|]. split; [done|].
  split; [done|]. split; [done|]. split; [done|]. split; [done|].
  split; [rewrite HL, length_app, HlenL; simpl; lia|].
  split; [intros k Hk; rewrite HL; by apply lookup_app_l|].
  intros x ->.
  destruct (ext_block _ _ _ _ Hext Hb) as (blk1' & Hb1' & (Hp1 & Ht1 & _)).
  rewrite Hb1 in Hb1'. injection Hb1' as <-.
  unfold block_temporary.
  rewrite (block_temporary_rec_cached b b n c1 blk1 x); try done.
  - rewrite His at 1. rewrite length_app. simpl.
    by replace (length is1 + 1)%nat with (S (length is1)) by lia.
  - by rewrite <- Hp1.
  - by rewrite <- Ht1.
Qed.

(** In the "then" block of the example TEMP[0].x was written by node 0 of
    the outermost block: the first resolution returns node 4, which
    imports node 0, and the second returns node 5, which imports it
    too. *)
Lemma block_temporary_caches_import_example :
  exists c1 blk1,
    block_temporary 1%nat 0 ex_in_then = Done (Some 4%nat, c1)
    /\ instrs (ir c1) !! 4%nat = Some (input_node 1%nat (Some 0%nat) 0)
    /\ blocks (ir c1) !! 1%nat = Some blk1
    /\ zlookup (Block.inputs blk1) 0 = Some (Some 0%nat)
    /\ held_from (blocks (ir ex_in_then)) 0 1%nat [1%nat] (Some 0%nat)
    /\ length (instrs (ir c1)) = 5%nat
    /\ block_temporary 1%nat 0 c1
       = Done (Some 5%nat,
               set_instrs (instrs (ir c1) ++ [input_node 1%nat (Some 0%nat) 0]) c1).
Proof.
  assert (Hwf : wf_scopes 0 (blocks (ir ex_in_then))).
  { apply wf_scopes_check. vm_compute. reflexivity. }
  assert (Hb : blocks (ir ex_in_then) !! 1%nat
               = Some (Block.mk (Some 0%nat) (replicate 24 None) (replicate 24 None)
                         (replicate 4 None))) by (vm_compute; reflexivity).
  assert (Hlen : length (instrs (ir ex_in_then)) = 4%nat) by (vm_compute; reflexivity).
  destruct (block_temporary_caches_import 1%nat 0 ex_in_then _ Hwf Hb)
    as (i1 & c1 & v & blk1 & path & w & Hrun & Hi1 & _ & Hnode & Hb1 & Hv & Hheld
        & Hchain & Hlen1 & _ & Hsecond).
  - eauto.
  - reflexivity.
  - assert (Hpw : path = [] /\ w = Some 0%nat).
    { inversion Hheld as [| |b0 blk0 p0 y Hb' Hp' Ht' Hi'
                         |b0 blk0 p0 path0 w0 Hb' Hp' Ht' Hi' Hup]; subst.
      - vm_compute in Hb'. injection Hb' as <-. vm_compute in Hi'. discriminate Hi'.
      - vm_compute in Hb'. injection Hb' as <-. vm_compute in Hp'. injection Hp' as <-.
        inversion Hup as [b2 blk2 x Hb2 Ht2|b2 blk2 Hb2 Hp2 Ht2
                         |b2 blk2 p2 y Hb2 Hp2 Ht2 Hi2
                         |b2 blk2 p2 path2 w2 Hb2 Hp2 Ht2 Hi2 Hup2]; subst;
          vm_compute in Hb2; injection Hb2 as <-.
        + vm_compute in Ht2. injection Ht2 as <-. split; reflexivity.
        + vm_compute in Ht2. discriminate Ht2.
        + discriminate Hp2.
        + discriminate Hp2. }
    destruct Hpw as [-> ->].
    assert (v = Some 0%nat) as -> by (inversion Hchain; reflexivity).
    rewrite Hlen in Hlen1. change (4 + S (length []))%nat with 5%nat in Hlen1.
    rewrite Hlen1 in Hi1. change (5 - 1)%nat with 4%nat in Hi1. rewrite Hi1 in *.
    exists c1, blk1.
    split; [exact Hrun|]. split; [exact Hnode|]. split; [exact Hb1|].
    split; [exact Hv|]. split; [exact Hheld|]. split; [exact Hlen1|].
    exact (Hsecond 0%nat eq_refl).
Defined.

(** ** What resolutions leave behind *)

(** What the scopes hold after a resolution goes back to what they held
    before it. *)
Lemma caches_traced c c' n0 :
  blocks_agree (blocks (ir c)) (blocks (ir c')) ->
  caches c c' n0 ->
  traced (length (instrs (ir c))) c c'.
Proof.
  intros Hag Hc b n w [path Hheld].
  induction Hheld as [b blk' x Hb Ht|b blk' Hb Hp Ht|b blk' p y Hb Hp Ht Hi
                     |b blk' p path w Hb Hp Ht Hi Hup IH].
  - destruct (Hc b blk' Hb) as (blk & Hblk & _).
    destruct (blocks_agree_lookup _ _ _ _ Hag Hblk) as (blk2 & Hb2 & (_ & Ht2 & _)).
    rewrite Hb in Hb2. injection Hb2 as <-.
    exists (Some x). split; [|constructor].
    exists []. eapply held_written; [exact Hblk|by rewrite Ht2].
  - destruct (Hc b blk' Hb) as (blk & Hblk & _).
    destruct (blocks_agree_lookup _ _ _ _ Hag Hblk) as (blk2 & Hb2 & (Hp2 & Ht2 & _)).
    rewrite Hb in Hb2. injection Hb2 as <-.
    exists None. split; [|constructor].
    exists []. eapply held_top; [exact Hblk|by rewrite Hp2|by rewrite Ht2].
  - destruct (Hc b blk' Hb) as (blk & Hblk & Hcase).
    destruct (blocks_agree_lookup _ _ _ _ Hag Hblk) as (blk2 & Hb2 & (Hp2 & Ht2 & _)).
    rewrite Hb in Hb2. injection Hb2 as <-.
    destruct Hcase as [Hsame|(_ & _ & Hi0 & v & w0 & Hins & Hh & Himp)].
    + exists (Some y). split; [|constructor].
      exists [b]. eapply held_cached; [exact Hblk|by rewrite Hp2|by rewrite Ht2|by rewrite <- Hsame].
    + assert (Hn0 : 0 <= n0).
      { assert (Hr : in_range n0 (Block.inputs blk) = true) by (apply zlookup_in_range; eauto).
        apply in_range_lt in Hr. lia. }
      destruct (decide (n = n0)) as [->|Hne].
      * exists w0. split; [done|].
        assert (v = Some y) as ->; [|done].
        rewrite Hins in Hi. rewrite zlookup_insert_eq in Hi; [congruence|].
        apply zlookup_in_range. eauto.
      * exists (Some y). split; [|constructor].
        exists [b]. eapply held_cached; [exact Hblk|by rewrite Hp2|by rewrite Ht2|].
        rewrite Hins in Hi. by rewrite zlookup_insert_ne in Hi by done.
  - destruct IH as (w0 & [path0 Hh0] & Himp0).
    destruct (Hc b blk' Hb) as (blk & Hblk & Hcase).
    destruct (blocks_agree_lookup _ _ _ _ Hag Hblk) as (blk2 & Hb2 & (Hp2 & Ht2 & _)).
    rewrite Hb in Hb2. injection Hb2 as <-.
    exists w0. split; [|done].
    exists (b :: path0). eapply held_up; [exact Hblk|by rewrite Hp2|by rewrite Ht2| |exact Hh0].
    destruct Hcase as [Hsame|(_ & _ & Hi0 & v & w1 & Hins & Hh & Himp)].
    + by rewrite <- Hsame.
    + assert (Hn0 : 0 <= n0).
      { assert (Hr : in_range n0 (Block.inputs blk) = true) by (apply zlookup_in_range; eauto).
        apply in_range_lt in Hr. lia. }
      destruct (decide (n = n0)) as [->|Hne]; [done|].
      rewrite Hins in Hi. by rewrite zlookup_insert_ne in Hi by done.
Qed.

Lemma caches_tops c c' n :
  blocks_agree (blocks (ir c)) (blocks (ir c')) ->
  caches c c' n ->
  tops_kept c c'.
Proof.
  intros Hag Hc b blk Hb Hp.
  destruct (blocks_agree_lookup _ _ _ _ Hag Hb) as (blk' & Hb' & (Hp' & Ht' & Ho' & _)).
  destruct (Hc b blk' Hb') as (blk0 & Hb0 & Hcase).
  rewrite Hb in Hb0. injection Hb0 as <-.
  destruct Hcase as [Hsame|([p Hp0] & _)]; [|congruence].
  rewrite Hb'. f_equal. destruct blk, blk'. simpl in *. congruence.
Qed.

Lemma traced_same N c c' :
  blocks (ir c') = blocks (ir c) -> traced N c c'.
Proof. intros Hbs b n w Hh. rewrite Hbs in Hh. exists w. split; [done|constructor]. Qed.

Lemma tops_kept_same c c' : blocks (ir c') = blocks (ir c) -> tops_kept c c'.
Proof. intros Hbs b blk Hb _. by rewrite Hbs. Qed.

Lemma tops_kept_trans c1 c2 c3 : tops_kept c1 c2 -> tops_kept c2 c3 -> tops_kept c1 c3.
Proof. intros H1 H2 b blk Hb Hp. apply H2; [|done]. by apply H1. Qed.

(** Resolutions compose: what was traced to [c1] in [c2] stays traced
    in [c3] when the nodes it goes through are left alone. *)
Lemma traced_trans N M c1 c2 c3 :
  (N <= M)%nat ->
  traced N c1 c2 ->
  traced M c2 c3 ->
  (forall k, (N <= k < length (instrs (ir c2)))%nat ->
     instrs (ir c3) !! k = instrs (ir c2) !! k) ->
  traced N c1 c3.
Proof.
  intros Hle H12 H23 Hsame b n w Hh.
  destruct (H23 b n w Hh) as (w2 & Hh2 & Hi2).
  destruct (H12 b n w2 Hh2) as (w1 & Hh1 & Hi1).
  exists w1. split; [done|].
  eapply imports_trans; [by eapply imports_weaken|].
  by eapply imports_kept.
Qed.

Lemma traced_weaken N N' c c' : (N' <= N)%nat -> traced N c c' -> traced N' c c'.
Proof.
  intros Hle H b n w Hh. destruct (H b n w Hh) as (w0 & Hh0 & Hi).
  exists w0. split; [done|]. by eapply imports_weaken.
Qed.

(** [block_input] returns the slot of the outermost block. *)
Lemma block_input_rec_outer fuel : forall b n c v c',
  block_input_rec fuel b n c = Done (v, c') ->
  exists top, outermost (blocks (ir c)) b top /\ read_input c top n = Some v.
Proof.
  induction fuel as [|fuel IH]; intros b n c v c' H; simpl in H.
  all: unfold bind at 1 in H; rewrite get_block_eq in H.
  all: destruct (blocks (ir c) !! b) as [blk|] eqn:Hb; [|done].
  all: destruct (Block.parent blk) as [p|] eqn:Hp.
  - done.
  - exists b. split; [by eapply outermost_top|]. unfold read_input. rewrite Hb. simpl.
    destruct (zlookup (Block.inputs blk) n); simpl in H; [|done]. by injection H as <- _.
  - destruct (IH _ _ _ _ _ H) as (top & Htop & Hv).
    exists top. split; [by eapply outermost_up|done].
  - exists b. split; [by eapply outermost_top|]. unfold read_input. rewrite Hb. simpl.
    destruct (zlookup (Block.inputs blk) n); simpl in H; [|done]. by injection H as <- _.
Qed.

Lemma input_node_resolver b v n : resolver_node (input_node b v n).
Proof. left. eauto. Qed.

Lemma immed_node_resolver b ty : resolver_node (immed_node b ty 0).
Proof. right. eauto. Qed.

(** What [block_temporary] finds. *)
Lemma block_temporary_found b n c v c1 :
  block_temporary b n c = Done (v, c1) ->
  exists L,
    instrs (ir c1) = instrs (ir c) ++ L
    /\ Forall resolver_node L
    /\ ext c c1
    /\ traced (length (instrs (ir c))) c c1
    /\ tops_kept c c1
    /\ exists blk t,
         blocks (ir c) !! b = Some blk
         /\ zlookup (Block.temporaries blk) n = Some t
         /\ match t, Block.parent blk with
            | Some x, _ => v = Some x /\ c1 = c
            | None, None => v = None /\ c1 = c
            | None, Some _ =>
                exists p v' w,
                  v = Some p
                  /\ (length (instrs (ir c)) <= p)%nat
                  /\ instrs (ir c1) !! p = Some (input_node b v' n)
                  /\ imports (length (instrs (ir c))) (instrs (ir c1)) n v' w
                  /\ held (blocks (ir c)) n b w
            end.
Proof.
  unfold block_temporary. intros Hrun.
  destruct (block_temporary_rec_spec _ _ _ _ _ _ Hrun) as (Hext & blk & t & Hb & Ht & _).
  destruct (block_temporary_rec_chain _ _ _ _ _ _ Hrun)
    as (path & w & L & Hheld & HL & HlenL & HLn & Hchain & Hcaches).
  assert (Hag : blocks_agree (blocks (ir c)) (blocks (ir c1))).
  { destruct Hext as (L' & bs' & -> & Hag). exact Hag. }
  exists L. split; [done|]. split.
  { eapply Forall_impl; [exact HLn|]. intros ins (b' & v' & ->). apply input_node_resolver. }
  split; [done|]. split; [by eapply caches_traced|]. split; [by eapply caches_tops|].
  exists blk, t. split; [done|]. split; [done|].
  rewrite (block_temporary_rec_eq _ b n c blk Hb), Ht in Hrun.
  destruct t as [x|].
  { destruct (Block.parent blk); by injection Hrun as <- <-. }
  destruct (Block.parent blk) as [p0|] eqn:Hp; [|by injection Hrun as <- <-].
  assert (Hpath : exists path', path = b :: path').
  { inversion Hheld as [b0 blk0 x Hb0 Ht0|b0 blk0 Hb0 Hp0 Ht0|b0 blk0 p1 y Hb0 Hp0 Ht0 Hi0
                       |b0 blk0 p1 path1 w0 Hb0 Hp0 Ht0 Hi0 Hup]; subst;
      rewrite Hb in Hb0; injection Hb0 as <-; eauto; congruence. }
  destruct Hpath as [path' ->].
  inversion Hchain as [|b' path'' v' w' Hn' Hchain' E1 E2 E3]; subst.
  exists (length (instrs (ir c)) + length path')%nat, v', w.
  split; [done|]. split; [lia|]. split; [done|].
  split; [by eapply chain_imports|by exists (b :: path')].
Qed.

Lemma traced_arena N c0 c c' :
  traced N c0 c ->
  blocks (ir c') = blocks (ir c) ->
  (forall k, (N <= k < length (instrs (ir c)))%nat ->
     instrs (ir c') !! k = instrs (ir c) !! k) ->
  traced N c0 c'.
Proof.
  intros H Hbs Hsame b n w Hh. rewrite Hbs in Hh.
  destruct (H b n w Hh) as (w0 & Hh0 & Hi). exists w0. split; [done|].
  by eapply imports_kept.
Qed.

Lemma traced_from N c0 c0' c :
  traced N c0 c -> blocks (ir c0') = blocks (ir c0) -> traced N c0' c.
Proof.
  intros H Hbs b n w Hh. destruct (H b n w Hh) as (w0 & Hh0 & Hi).
  exists w0. by rewrite Hbs.
Qed.

Lemma tops_kept_blocks c0 c0' c c' :
  tops_kept c0 c -> blocks (ir c0') = blocks (ir c0) -> blocks (ir c') = blocks (ir c) ->
  tops_kept c0' c'.
Proof. intros H H0 H1 b blk. rewrite H0, H1. apply H. Qed.

(** The nodes after the rewritten one, whatever the rewrite. *)
Lemma set_operand_tail p x y l L k :
  (p.1 < length l)%nat -> (length l <= k)%nat ->
  set_operand p x (l ++ L) !! k = (set_operand p y l ++ L) !! k.
Proof.
  intros Hp Hk. rewrite set_operand_app by done.
  rewrite !lookup_app_r by (by rewrite set_operand_length).
  by rewrite !set_operand_length.
Qed.

Lemma set_operand_tail' p x l L k :
  (p.1 < length l)%nat -> (length l <= k)%nat ->
  set_operand p x (l ++ L) !! k = L !! (k - length l)%nat.
Proof.
  intros Hp Hk. rewrite set_operand_app by done.
  rewrite lookup_app_r by (by rewrite set_operand_length).
  by rewrite set_operand_length.
Qed.

(** The first part of [ssa_src], whenever it returns for a resolved
    file. *)
Lemma ssa_src_switch_Done reg src chan c c2 :
  ssa_file (Src.File src) = true ->
  (match Src.File src with
   | TGSI_FILE_INPUT =>
       update_reg reg (or_flags IR3_REG_SSA) ;;;
       b <- deref (block c) ;;
       v <- block_input b (regid (Src.Index src) chan) ;;
       update_reg reg (Reg.set_instr v)
   | TGSI_FILE_OUTPUT =>
       update_reg reg (or_flags IR3_REG_SSA) ;;;
       b <- deref (block c) ;;
       blk <- get_block b ;;
       v <- deref (zlookup (Block.outputs blk) (regid (Src.Index src) chan)) ;;
       update_reg reg (Reg.set_instr v) ;;;
       compile_assert (bool_decide (is_Some v))
   | TGSI_FILE_TEMPORARY =>
       update_reg reg (or_flags IR3_REG_SSA) ;;;
       b <- deref (block c) ;;
       v <- block_temporary b (regid (Src.Index src) chan) ;;
       update_reg reg (Reg.set_instr v)
   | _ => ret tt
   end) c = Done (tt, c2) ->
  exists r v L bs',
    reg_at c reg = Some r
    /\ c2 = set_instrs (set_operand reg (Reg.set_instr v (or_flags IR3_REG_SSA r))
                          (instrs (ir c) ++ L)) (set_blocks bs' c)
    /\ blocks_agree (blocks (ir c)) bs'
    /\ Forall resolver_node L
    /\ traced (length (instrs (ir c))) c c2
    /\ tops_kept c c2
    /\ found (length (instrs (ir c))) c c2 src chan v L.
Proof.
  intros Hf Hsw. destruct (Src.File src) eqn:Hfile; try discriminate Hf.
  - (* INPUT *)
    apply bind_Done in Hsw as ([] & c1 & (r & Hr & ->)%update_reg_Done & Hsw).
    apply bind_Done in Hsw as (? & c1 & (b & Hb & [= -> ->])%deref_Done & Hsw).
    apply bind_Done in Hsw as (v & c1 & Hin & Hsw).
    pose proof (block_input_rec_pure _ _ _ _ _ _ Hin) as ->.
    apply block_input_rec_outer in Hin as (top & Htop & Hv).
    apply update_reg_Done in Hsw as (r1 & Hr1 & ->).
    rewrite (reg_at_set_operand0 c reg r _ Hr) in Hr1. injection Hr1 as <-.
    exists r, v, [], (blocks (ir c)). split; [done|]. split.
    { mred. rewrite set_operand_twice, app_nil_r. by destruct c as [[]]. }
    split; [apply blocks_agree_refl|]. split; [constructor|].
    split; [by apply traced_same|]. split; [by apply tops_kept_same|].
    exists b. split; [done|]. rewrite Hfile. split; [done|]. by exists top.
  - (* OUTPUT *)
    apply bind_Done in Hsw as ([] & c1 & (r & Hr & ->)%update_reg_Done & Hsw).
    apply bind_Done in Hsw as (? & c1 & (b & Hb & [= -> ->])%deref_Done & Hsw).
    apply bind_Done in Hsw as (? & c1 & (blk & Hblk & [= -> ->])%get_block_Done & Hsw).
    apply bind_Done in Hsw as (? & c1 & (v & Hv & [= -> ->])%deref_Done & Hsw).
    apply bind_Done in Hsw as ([] & c1 & (r1 & Hr1 & ->)%update_reg_Done & Hsw).
    apply compile_assert_Done in Hsw as [Hsome [= ->]].
    rewrite (reg_at_set_operand0 c reg r _ Hr) in Hr1. injection Hr1 as <-.
    exists r, v, [], (blocks (ir c)). split; [done|]. split.
    { mred. rewrite set_operand_twice, app_nil_r. by destruct c as [[]]. }
    split; [apply blocks_agree_refl|]. split; [constructor|].
    split; [by apply traced_same|]. split; [by apply tops_kept_same|].
    exists b. split; [done|]. rewrite Hfile. split; [done|].
    split; [by apply bool_decide_eq_true in Hsome|].
    unfold read_slot. cbn. revert Hblk. mred. by intros ->.
  - (* TEMPORARY *)
    apply bind_Done in Hsw as ([] & c1 & (r & Hr & ->)%update_reg_Done & Hsw).
    apply bind_Done in Hsw as (? & c1 & (b & Hb & [= -> ->])%deref_Done & Hsw).
    apply bind_Done in Hsw as (v & c1 & Hbt & Hsw).
    destruct (block_temporary_found _ _ _ _ _ Hbt)
      as (L & HL & HLr & (L' & bs' & -> & Hag) & Htr & Htops & blk & t & Hblk & Ht & Hcase).
    revert HL Htr Htops Hblk Hcase. mred. intros HL Htr Htops Hblk Hcase.
    apply app_inv_head in HL as ->.
    apply update_reg_Done in Hsw as (r1 & Hr1 & Hc2).
    assert (Hlt : (reg.1 < length (instrs (ir c)))%nat) by (by eapply reg_at_lt).
    assert (r1 = or_flags IR3_REG_SSA r) as ->.
    { assert (Some r1 = Some (or_flags IR3_REG_SSA r)) as [= ->]; [|done].
      rewrite <- Hr1.
      exact (reg_at_app _ reg _ L (reg_at_set_operand0 c reg r _ Hr)). }
    revert Hc2. mred. rewrite set_operand_over by done. intros ->.
    exists r, v, L, bs'. split; [done|]. split; [done|].
    split; [done|]. split; [done|].
    rewrite set_operand_length in Htr.
    set (c1 := set_instrs (set_operand reg (or_flags IR3_REG_SSA r) (instrs (ir c))) c) in *.
    set (c2m := set_instrs (set_operand reg (or_flags IR3_REG_SSA r) (instrs (ir c)) ++ L)
                  (set_blocks bs' c1)) in *.
    set (c2 := set_instrs (set_operand reg (Reg.set_instr v (or_flags IR3_REG_SSA r))
                             (instrs (ir c) ++ L)) (set_blocks bs' c)).
    assert (Hsame : forall k, (length (instrs (ir c)) <= k < length (instrs (ir c2m)))%nat ->
              instrs (ir c2) !! k = instrs (ir c2m) !! k).
    { intros k [Hk _]. unfold c2, c2m. mred. by apply set_operand_tail. }
    split; [|split].
    + apply (traced_arena _ c c2m c2); [|done|done].
      by apply (traced_from _ c1 c).
    + by apply (tops_kept_blocks c1 c c2m c2).
    + exists b. split; [done|]. rewrite Hfile. exists blk, t.
      split; [done|]. split; [done|].
      destruct t as [x|].
      { destruct Hcase as [-> Heq]. split; [done|].
        apply (f_equal (fun c => instrs (ir c))) in Heq. revert Heq. unfold c2m, c1. mred.
        intros Heq. rewrite <- (app_nil_r (set_operand _ _ _)) in Heq at 2.
        by apply app_inv_head in Heq. }
      destruct (Block.parent blk) as [p0|].
      * destruct Hcase as (p & v' & w & -> & Hp & Hnode & Himp & Hheld).
        rewrite set_operand_length in Hp, Himp.
        exists p, v', w. split; [done|]. split; [done|].
        split; [|split; [|done]].
        -- rewrite Hsame; [done|]. split; [done|]. by eapply lookup_lt_Some.
        -- by eapply imports_kept.
      * destruct Hcase as [-> Heq]. split; [done|].
        apply (f_equal (fun c => instrs (ir c))) in Heq. revert Heq. unfold c2m, c1. mred.
        intros Heq. rewrite <- (app_nil_r (set_operand _ _ _)) in Heq at 2.
        by apply app_inv_head in Heq.
Qed.

(** The tail of [ssa_src]. *)
Lemma ssa_src_tail_resolved reg c r c' :
  reg_at c reg = Some r ->
  has_flag (Reg.flags r) IR3_REG_SSA = true ->
  (r <- get_reg reg ;;
   if has_flag (Reg.flags r) IR3_REG_SSA && negb (bool_decide (is_Some (Reg.instr r)))
   then i <- create_immed 0 ;; update_reg reg (Reg.set_instr (Some i))
   else ret tt) c = Done (tt, c') ->
  match Reg.instr r with
  | Some p => c' = c
  | None =>
      exists b,
        block c = Some b
        /\ c' = set_instrs
                  (set_operand reg (Reg.set_instr (Some (length (instrs (ir c)))) r)
                     (instrs (ir c) ++ [immed_node b (get_ftype c) 0])) c
  end.
Proof.
  intros Hr Hf H. destruct (Reg.instr r) as [p|] eqn:Hi.
  - rewrite (ssa_src_keep reg c r) in H; [|done|by rewrite Hf, Hi]. by injection H as <-.
  - destruct (block c) as [b|] eqn:Hb.
    + rewrite (ssa_src_zero _ _ _ b Hr Hf Hi Hb) in H. injection H as <-. by exists b.
    + exfalso. revert H. mstep. rewrite (get_reg_run _ _ _ Hr). mred.
      rewrite Hf, Hi. simpl. mstep. by rewrite create_immed_eq, Hb.
Qed.

(** Whenever [ssa_src] returns for an input, output or temporary: the
    operand is flagged SSA and refers to the producer of the component;
    nodes of the resolver were appended, and what the scopes hold goes
    back to what they held. *)
Lemma ssa_src_resolved reg src chan c c' :
  ssa_file (Src.File src) = true ->
  ssa_src reg src chan c = Done (tt, c') ->
  exists r p L bs',
    reg_at c reg = Some r
    /\ c' = set_instrs (set_operand reg (resolved_to p r) (instrs (ir c) ++ L))
              (set_blocks bs' c)
    /\ blocks_agree (blocks (ir c)) bs'
    /\ Forall resolver_node L
    /\ traced (length (instrs (ir c))) c c'
    /\ tops_kept c c'
    /\ producer (length (instrs (ir c))) c c' src chan p.
Proof.
  intros Hf H. unfold ssa_src in H.
  apply bind_Done in H as (c0 & ? & [= <- <-] & H).
  apply bind_Done in H as ([] & c2 & Hsw & Htail).
  destruct (ssa_src_switch_Done _ _ _ _ _ Hf Hsw)
    as (r & v & L & bs' & Hr & -> & Hag & HL & Htr & Htops & Hfound).
  assert (Hlt : (reg.1 < length (instrs (ir c)))%nat) by (by eapply reg_at_lt).
  set (r2 := Reg.set_instr v (or_flags IR3_REG_SSA r)) in *.
  set (c2 := set_instrs (set_operand reg r2 (instrs (ir c) ++ L)) (set_blocks bs' c)) in *.
  assert (Hr2 : reg_at c2 reg = Some r2).
  { exact (reg_at_set_operand (set_blocks bs' c) reg r r2 L Hr). }
  assert (Hf2 : has_flag (Reg.flags r2) IR3_REG_SSA = true).
  { simpl. rewrite has_flag_lor. by rewrite orb_true_r. }
  pose proof (ssa_src_tail_resolved reg c2 r2 c' Hr2 Hf2 Htail) as Hcase.
  change (Reg.instr r2) with v in Hcase.
  destruct v as [p|].
  - subst c'. exists r, p, L, bs'.
    split; [done|]. split; [done|]. split; [done|]. split; [done|].
    split; [done|]. split; [done|].
    destruct Hfound as (b & Hb & Hfound). exists b. split; [done|]. cbv zeta in *.
    destruct (Src.File src); try done.
    + destruct Hfound as (_ & top & Htop & Hv). by exists top, (Some p).
    + by destruct Hfound as (_ & _ & Hv).
    + destruct Hfound as (blk & t & Hblk & Ht & Hcase). exists blk, t.
      split; [done|]. split; [done|].
      destruct t as [x|]; [by destruct Hcase as [[= ->] _]|].
      destruct (Block.parent blk); [|by destruct Hcase].
      destruct Hcase as (p' & v' & w & [= ->] & Hcase). by exists v', w.
  - destruct Hcase as (b' & Hb' & ->).
    assert (HLnil : L = []).
    { destruct Hfound as (b & Hb & Hfound). cbv zeta in *.
      destruct (Src.File src); try done.
      - by destruct Hfound.
      - by destruct Hfound.
      - destruct Hfound as (blk & t & Hblk & Ht & Hcase).
        destruct t as [x|]; [by destruct Hcase|].
        destruct (Block.parent blk); [|by destruct Hcase].
        by destruct Hcase as (p' & v' & w & [=] & _). }
    subst L. subst c2. rewrite !app_nil_r in *.
    set (c2 := set_instrs (set_operand reg r2 (instrs (ir c))) (set_blocks bs' c)) in *.
    set (p := length (instrs (ir c))).
    set (node := immed_node b' (get_ftype c) 0).
    exists r, p, [node], bs'. split; [done|].
    assert (Hc' : set_instrs
                    (set_operand reg (Reg.set_instr (Some (length (instrs (ir c2)))) r2)
                       (instrs (ir c2) ++ [immed_node b' (get_ftype c2) 0])) c2
                  = set_instrs (set_operand reg (resolved_to p r) (instrs (ir c) ++ [node]))
                      (set_blocks bs' c)).
    { unfold c2. mred. rewrite set_operand_length.
      rewrite set_operand_over by done. reflexivity. }
    rewrite Hc'. clear Hc'.
    set (c' := set_instrs (set_operand reg (resolved_to p r) (instrs (ir c) ++ [node]))
                 (set_blocks bs' c)).
    assert (Hnode : instrs (ir c') !! p = Some node).
    { unfold c'. mred. rewrite set_operand_tail' by (unfold p; lia).
      by rewrite Nat.sub_diag. }
    split; [done|]. split; [done|].
    split; [constructor; [apply immed_node_resolver|constructor]|].
    split; [|split].
    + apply (traced_arena _ c c2 c'); [done|done|].
      intros k [Hk1 Hk2]. unfold c2 in Hk2. revert Hk2. mred.
      rewrite set_operand_length. lia.
    + by apply (tops_kept_blocks c c c2 c').
    + destruct Hfound as (b & Hb & Hfound). exists b. split; [done|]. cbv zeta in *.
      assert (b' = b) as -> by (revert Hb'; unfold c2; mred; congruence).
      assert (Hnew : new_immed p c c' b p) by (split; [lia|done]).
      destruct (Src.File src); try done.
      * destruct Hfound as (_ & top & Htop & Hv). by exists top, None.
      * destruct Hfound as (_ & [? [=]] & _).
      * destruct Hfound as (blk & t & Hblk & Ht & Hcase). exists blk, t.
        split; [done|]. split; [done|].
        destruct t as [x|]; [by destruct Hcase|].
        destruct (Block.parent blk); [|done].
        by destruct Hcase as (p' & v' & w & [=] & _).
Qed.

(** ** Producers across steps *)

Lemma outermost_agree bs bs' b t :
  blocks_agree bs bs' -> outermost bs' b t -> outermost bs b t.
Proof.
  intros Hag H. induction H as [b blk' Hb Hp|b blk' p t Hb Hp _ IH].
  - destruct (Forall2_lookup_r _ _ _ _ _ Hag Hb) as (blk & Hblk & (Hp' & _)).
    eapply outermost_top; [exact Hblk|by rewrite Hp'].
  - destruct (Forall2_lookup_r _ _ _ _ _ Hag Hb) as (blk & Hblk & (Hp' & _)).
    eapply outermost_up; [exact Hblk|by rewrite Hp'|exact IH].
Qed.

Lemma outermost_top_block bs b t :
  outermost bs b t -> exists blk, bs !! t = Some blk /\ Block.parent blk = None.
Proof. intros H. induction H; eauto. Qed.

Lemma read_slot_agree c0 c s :
  blocks_agree (blocks (ir c0)) (blocks (ir c)) -> read_slot c s = read_slot c0 s.
Proof.
  intros Hbs. unfold read_slot.
  destruct (blocks (ir c0) !! slot_block s) as [blk|] eqn:Hb.
  - destruct (blocks_agree_lookup _ _ _ _ Hbs Hb) as (blk' & -> & (_ & Ht & Ho & _)).
    by rewrite Ht, Ho.
  - apply lookup_ge_None in Hb. rewrite (Forall2_length _ _ _ Hbs) in Hb.
    apply lookup_ge_None in Hb. by rewrite Hb.
Qed.

Lemma get_ftype_so c c' : so c' = so c -> get_ftype c' = get_ftype c.
Proof. unfold get_ftype. by intros ->. Qed.

(** A producer found between [c] and [c'] is a producer between an
    earlier state [c0] and a later state [c1], when what lies between
    is the work of the resolver and leaves its nodes alone. *)
Lemma producer_transport N M c0 c c' c1 s comp p :
  producer M c c' s comp p ->
  (N <= M)%nat ->
  block c = block c0 ->
  so c = so c0 ->
  blocks_agree (blocks (ir c0)) (blocks (ir c)) ->
  tops_kept c0 c ->
  traced N c0 c ->
  (forall k, (N <= k < length (instrs (ir c)))%nat ->
     instrs (ir c1) !! k = instrs (ir c) !! k) ->
  (forall k, (M <= k < length (instrs (ir c')))%nat ->
     instrs (ir c1) !! k = instrs (ir c') !! k) ->
  producer N c0 c1 s comp p.
Proof.
  intros (b & Hb & H) Hle Hblock Hso Hag Htops Htr Hold Hnew. cbv zeta in H.
  exists b. split; [congruence|]. cbv zeta.
  assert (Himm : new_immed M c c' b p -> new_immed N c0 c1 b p).
  { intros [Hp Hnode]. split; [lia|].
    rewrite Hnew; [|split; [done|by eapply lookup_lt_Some]].
    by rewrite <- (get_ftype_so c0 c Hso). }
  destruct (Src.File s); try done.
  - destruct H as (top & v & Htop & Hv & H).
    exists top, v. split; [by eapply outermost_agree|]. split.
    + apply (outermost_agree _ _ _ _ Hag) in Htop.
      destruct (outermost_top_block _ _ _ Htop) as (blk & Hblk & Hp).
      unfold read_input in *. rewrite Hblk. by rewrite (Htops _ _ Hblk Hp) in Hv.
    + destruct v; [done|by apply Himm].
  - by rewrite <- (read_slot_agree c0 c _ Hag).
  - destruct H as (blk & t & Hblk & Ht & H).
    destruct (Forall2_lookup_r _ _ _ _ _ Hag Hblk) as (blk0 & Hblk0 & (Hp0 & Ht0 & _)).
    exists blk0, t. split; [done|]. split; [by rewrite Ht0|]. rewrite Hp0.
    destruct t as [x|]; [done|]. destruct (Block.parent blk); [|by apply Himm].
    destruct H as (v & w & Hp & Hnode & Himp & Hheld).
    destruct (Htr _ _ _ Hheld) as (w0 & Hheld0 & Himp0).
    exists v, w0. split; [lia|]. split.
    { rewrite Hnew; [done|]. split; [done|]. by eapply lookup_lt_Some. }
    split; [|done].
    eapply imports_trans.
    + eapply imports_weaken; [exact Hle|]. by eapply imports_kept.
    + by eapply imports_kept.
Qed.

(** The same, when only the earlier state differs, and not in what the
    resolver reads. *)
Lemma producer_from N c0 c0' c1 s comp p :
  producer N c0 c1 s comp p ->
  block c0' = block c0 -> so c0' = so c0 -> blocks (ir c0') = blocks (ir c0) ->
  producer N c0' c1 s comp p.
Proof.
  intros (b & Hb & H) Hblock Hso Hbs. exists b. split; [congruence|].
  unfold new_immed, read_input, read_slot in *.
  rewrite (get_ftype_so _ _ Hso), Hbs. exact H.
Qed.

Lemma producer_weaken N N' c0 c1 s comp p :
  (N' <= N)%nat -> producer N c0 c1 s comp p -> producer N' c0 c1 s comp p.
Proof.
  intros Hle (b & Hb & H). exists b. split; [done|]. cbv zeta in *.
  assert (Himm : new_immed N c0 c1 b p -> new_immed N' c0 c1 b p).
  { intros [Hp Hnode]. split; [lia|done]. }
  destruct (Src.File s); try done.
  - destruct H as (top & v & Htop & Hv & H). exists top, v.
    split; [done|]. split; [done|]. destruct v; [done|by apply Himm].
  - destruct H as (blk & t & Hblk & Ht & H). exists blk, t.
    split; [done|]. split; [done|].
    destruct t as [x|]; [done|]. destruct (Block.parent blk); [|by apply Himm].
    destruct H as (v & w & Hp & Hnode & Himp & Hheld).
    exists v, w. split; [lia|]. split; [done|]. split; [|done].
    by eapply imports_weaken.
Qed.

(** ** The work of the resolver, step after step *)

Lemma grows_same c c' :
  blocks (ir c') = blocks (ir c) ->
  length (instrs (ir c')) = length (instrs (ir c)) ->
  grows (length (instrs (ir c))) c c'.
Proof.
  intros Hbs Hlen. split; [intros j Hj; lia|].
  split; [by apply traced_same|by apply tops_kept_same].
Qed.

Lemma grows_step M c1 c2 c3 :
  grows M c1 c2 ->
  grows (length (instrs (ir c2))) c2 c3 ->
  (M <= length (instrs (ir c2)))%nat ->
  (forall k, (M <= k < length (instrs (ir c2)))%nat ->
     instrs (ir c3) !! k = instrs (ir c2) !! k) ->
  grows M c1 c3.
Proof.
  intros (Hf1 & Ht1 & Hk1) (Hf2 & Ht2 & Hk2) Hle Hsame. split; [|split].
  - intros j Hj. destruct (decide (j < length (instrs (ir c2)))%nat) as [Hlt|Hge].
    + rewrite Hsame by lia. apply Hf1. lia.
    + apply Hf2. lia.
  - by eapply traced_trans.
  - by eapply tops_kept_trans.
Qed.

Lemma grows_from M c0 c0' c :
  grows M c0 c -> blocks (ir c0') = blocks (ir c0) -> grows M c0' c.
Proof.
  intros (Hf & Ht & Hk) Hbs. split; [done|].
  split; [by eapply traced_from|]. by apply (tops_kept_blocks c0 c0' c c).
Qed.

Lemma grows_appended reg x c L bs' :
  (reg.1 < length (instrs (ir c)))%nat ->
  Forall resolver_node L ->
  let c' := set_instrs (set_operand reg x (instrs (ir c) ++ L)) (set_blocks bs' c) in
  traced (length (instrs (ir c))) c c' ->
  tops_kept c c' ->
  grows (length (instrs (ir c))) c c'.
Proof.
  intros Hlt HL c' Htr Htops. split; [|done].
  intros j [Hj1 Hj2]. unfold c' in *. revert Hj2. mred.
  rewrite set_operand_length, length_app. intros Hj2.
  rewrite set_operand_tail' by done.
  destruct (L !! (j - length (instrs (ir c)))%nat) as [ins|] eqn:Hins.
  - exists ins. split; [done|]. rewrite Forall_forall in HL. apply HL.
    by eapply list_elem_of_lookup_2.
  - apply lookup_ge_None in Hins. lia.
Qed.

(** Whatever the file, [ssa_src] only does the work of the resolver. *)
Lemma ssa_src_grows reg src chan c c' :
  ssa_src reg src chan c = Done (tt, c') ->
  grows (length (instrs (ir c))) c c'.
Proof.
  intros H. destruct (ssa_file (Src.File src)) eqn:Hf.
  - destruct (ssa_src_resolved _ _ _ _ _ Hf H)
      as (r & p & L & bs' & Hr & -> & Hag & HL & Htr & Htops & _).
    apply grows_appended; [by eapply reg_at_lt|done..].
  - unfold ssa_src in H.
    apply bind_Done in H as (c0 & ? & [= <- <-] & H).
    apply bind_Done in H as ([] & c2 & Hsw & Htail).
    assert (c2 = c) as -> by (destruct (Src.File src); try done; by injection Hsw).
    clear Hsw. assert (Htail' := Htail).
    apply bind_Done in Htail' as (r & c3 & [Hr ->]%get_reg_Done & _).
    destruct (has_flag (Reg.flags r) IR3_REG_SSA) eqn:Hssa.
    + pose proof (ssa_src_tail_resolved _ _ _ _ Hr Hssa Htail) as Hcase.
      destruct (Reg.instr r) as [p|].
      * subst c'. by apply grows_same.
      * destruct Hcase as (b & Hb & ->).
        pose proof (grows_appended reg
                      (Reg.set_instr (Some (length (instrs (ir c)))) r) c
                      [immed_node b (get_ftype c) 0] (blocks (ir c))) as Hg.
        cbv zeta in Hg.
        replace (set_blocks (blocks (ir c)) c) with c in Hg by (by destruct c as [[]]).
        apply Hg.
        -- by eapply reg_at_lt.
        -- constructor; [apply immed_node_resolver|constructor].
        -- by apply traced_same.
        -- by apply tops_kept_same.
    + rewrite (ssa_src_keep reg c r Hr) in Htail by (by rewrite Hssa).
      injection Htail as <-. by apply grows_same.
Qed.

(** The fix-up of one source operand. *)
Lemma vectorize_src_resolved cur i j a flags c c' :
  vectorize_src cur i j a flags c = Done (tt, c') ->
  grows (length (instrs (ir c))) c c'
  /\ forall r s,
       reg_at c (cur, S j) = Some r ->
       has_flag (Reg.flags r) IR3_REG_SSA = true ->
       a = ArgSrc s ->
       ssa_file (Src.File s) = true ->
       exists r' p,
         reg_at c' (cur, S j) = Some r'
         /\ Reg.instr r' = Some p
         /\ producer (length (instrs (ir c))) c c' s (src_swiz s i) p.
Proof.
  intros H. unfold vectorize_src in H.
  apply bind_Done in H as (r & ? & [Hr ->]%get_reg_Done & H).
  destruct (has_flag (Reg.flags r) IR3_REG_SSA) eqn:Hssa.
  - destruct a as [s|v]; [|done].
    apply bind_Done in H as (? & ? & [= <- <-] & H).
    split; [by eapply ssa_src_grows|].
    intros r0 s0 Hr0 _ [= <-] Hf.
    destruct (ssa_src_resolved _ _ _ _ _ Hf H)
      as (r1 & p & L & bs' & Hr1 & -> & Hag & HL & Htr & Htops & Hprod).
    exists (resolved_to p r1), p.
    split; [exact (reg_at_set_operand (set_blocks bs' c) _ r1 _ L Hr1)|].
    split; [done|done].
  - split.
    + destruct (has_flag flags IR3_REG_IMMED); cbn [negb] in H.
      * injection H as <-. by apply grows_same.
      * destruct a as [s|v]; [|done].
        apply bind_Done in H as (? & ? & [= <- <-] & H).
        apply update_reg_Done in H as (r0 & Hr0 & ->).
        apply grows_same; [done|]. mred. apply set_operand_length.
    + intros r0 s Hr0 Hfl. congruence.
Qed.

(** The fix-ups of the source operands of [cur], from operand [j0] on. *)
Lemma vectorize_src_loop_resolved cur i srcs : forall j0 c c' ins,
  forM (enumerate_from j0 srcs) (fun x => vectorize_src cur i x.1 x.2.1 x.2.2) c
    = Done (tt, c') ->
  instrs (ir c) !! cur = Some ins ->
  grows (length (instrs (ir c))) c c'
  /\ (forall j s flags r,
        srcs !! j = Some (ArgSrc s, flags) ->
        ssa_file (Src.File s) = true ->
        Instr.regs ins !! S (j0 + j) = Some r ->
        has_flag (Reg.flags r) IR3_REG_SSA = true ->
        exists r' p,
          reg_at c' (cur, S (j0 + j)) = Some r'
          /\ Reg.instr r' = Some p
          /\ producer (length (instrs (ir c))) c c' s (src_swiz s i) p).
Proof.
  induction srcs as [|[a flags] srcs IH]; intros j0 c c' ins H Hins; cbn in H.
  - injection H as <-. split; [by apply grows_same|]. intros j s flags r Hj. done.
  - apply bind_Done in H as ([] & c1 & Hstep & Hrest).
    destruct (vectorize_src_Done _ _ _ _ _ _ _ Hstep) as (r & r' & Hrw & _).
    destruct Hrw as (Hev1 & Hq1 & Hframe1 & ins0 & Hins0 & Hr & Hins1).
    cbn [fst snd] in *. assert (ins0 = ins) as -> by congruence. clear Hins0.
    destruct (vectorize_src_resolved _ _ _ _ _ _ _ Hstep) as (Hg1 & Hprod1).
    destruct (IH (S j0) c1 c' _ Hrest Hins1) as (Hg2 & Hprods2).
    destruct (vectorize_src_loop cur i c1 srcs (S j0) c1 c' _ Hrest (evolves_refl _) Hins1)
      as (regs' & Hcur & Hlen & Hpre & _ & Hev2 & Hq2 & Hframe2).
    assert (Hlt : (cur < length (instrs (ir c)))%nat) by (by eapply lookup_lt_Some).
    assert (Hle1 : (length (instrs (ir c)) <= length (instrs (ir c1)))%nat).
    { destruct Hev1 as (Hle & _). exact Hle. }
    assert (Hsame : forall k, (length (instrs (ir c)) <= k < length (instrs (ir c1)))%nat ->
              instrs (ir c') !! k = instrs (ir c1) !! k).
    { intros k Hk. apply Hframe2; lia. }
    split; [by eapply grows_step|].
    intros [|j] s fl r0 Hj Hf Hr0 Hssa; cbn in Hj.
    + injection Hj as -> <-. rewrite Nat.add_0_r in *.
      assert (r0 = r) as -> by congruence.
      destruct (Hprod1 r s) as (r1 & p & Hr1 & Hinstr & Hprod); [|done|done|done|].
      { apply reg_at_Some. eauto. }
      exists r1, p. split; [|split; [done|]].
      * apply reg_at_Some in Hr1 as (x & Hx & Hxr). cbn [fst snd] in *.
        apply reg_at_Some. eexists. split; [exact Hcur|].
        cbn [fst snd Instr.regs Instr.set_regs]. rewrite Hpre by lia.
        rewrite Hins1 in Hx. by injection Hx as <-.
      * apply (producer_transport _ _ c c c1 c' _ _ _ Hprod); try done.
        -- apply blocks_agree_refl.
        -- by apply tops_kept_same.
        -- by apply traced_same.
        -- intros k Hk. lia.
    + destruct (Hprods2 j s fl r0 Hj Hf) as (r1 & p & Hr1 & Hinstr & Hprod); [|done|].
      { cbn [Instr.regs Instr.set_regs].
        rewrite list_lookup_insert_ne by lia.
        by replace (S (S j0 + j)) with (S (j0 + S j)) by lia. }
      exists r1, p. replace (S (j0 + S j)) with (S (S j0 + j)) by lia.
      split; [done|]. split; [done|].
      destruct Hg1 as (_ & Htr1 & Htops1).
      destruct Hev1 as (_ & Hag1 & Hb1 & _ & Hso1 & _).
      apply (producer_transport _ _ c c1 c' c' _ _ _ Hprod); try done.
Qed.

Lemma ssa_dst_arena cur dst i c c' :
  ssa_dst cur dst i c = Done (tt, c') ->
  ir c' = ir c /\ block c' = block c /\ so c' = so c.
Proof.
  intros [_ H]%ssa_dst_Done.
  destruct (Dst.File dst); try (by subst c').
  all: by destruct H as (b & s & _ & _ & _ & ->).
Qed.

(** One round of the component loop of [vectorize]: after the copy, if
    one is made, only the resolver adds nodes; each operand of a
    resolved file refers to the producer of its component. *)
Lemma vectorize_chan_resolved instr dst srcs i n c c' T :
  atomic c = true ->
  vectorize_chan instr dst srcs i n c = Done (tt, c') ->
  instrs (ir c) !! instr = Some T ->
  let cur := if n =? 0 then instr else length (instrs (ir c)) in
  let M := (length (instrs (ir c)) + (if (n =? 0)%Z then 0 else 1))%nat in
  grows M c c'
  /\ (forall j s flags r,
        srcs !! j = Some (ArgSrc s, flags) ->
        ssa_file (Src.File s) = true ->
        Instr.regs T !! S j = Some r ->
        has_flag (Reg.flags r) IR3_REG_SSA = true ->
        exists r' p,
          reg_at c' (cur, S j) = Some r'
          /\ Reg.instr r' = Some p
          /\ producer M c c' s (src_swiz s i) p).
Proof.
  intros Hat H HT cur M. unfold vectorize_chan in H.
  apply bind_Done in H as (cur' & c1 & Hcur & H).
  assert (Hc1 : cur' = cur
                /\ instrs (ir c1) !! cur = Some T
                /\ length (instrs (ir c1)) = M
                /\ blocks (ir c1) = blocks (ir c)
                /\ block c1 = block c /\ so c1 = so c).
  { unfold cur, M. destruct (n =? 0).
    - injection Hcur as <- <-.
      repeat split; try done.
    - apply (instr_clone_atomic _ _ _ _ Hat) in Hcur as (ins & Hins & -> & ->).
      assert (ins = T) as -> by congruence. mred.
      split; [done|]. split; [apply lookup_snoc|].
      split; [rewrite length_app; simpl; lia|done]. }
  destruct Hc1 as (-> & Hins1 & Hlen1 & Hbs1 & Hb1 & Hso1). clear Hcur.
  apply bind_Done in H as ([] & c2 & Hdst & H).
  apply ssa_dst_arena in Hdst as (Hir2 & Hb2 & Hso2).
  apply bind_Done in H as (r0 & ? & [Hr0 ->]%get_reg_Done & H).
  apply bind_Done in H as ([] & c3 & (r0' & Hr0' & ->)%update_reg_Done & H).
  set (c3 := set_instrs (set_operand (cur, O) _ (instrs (ir c2))) c2) in *.
  assert (Hins2 : instrs (ir c2) !! cur = Some T) by (by rewrite Hir2).
  assert (Hins3 : exists regs3,
            instrs (ir c3) !! cur = Some (Instr.set_regs regs3 T)
            /\ forall k, k <> O -> regs3 !! k = Instr.regs T !! k).
  { unfold c3. mred. unfold set_operand. cbn [fst snd]. rewrite Hins2.
    eexists. split; [apply list_lookup_insert_eq; by eapply lookup_lt_Some|].
    intros k Hk. by apply list_lookup_insert_ne. }
  destruct Hins3 as (regs3 & Hins3 & Hregs3).
  assert (Hlen3 : length (instrs (ir c3)) = M).
  { unfold c3. mred. by rewrite set_operand_length, Hir2. }
  assert (Hbs3 : blocks (ir c3) = blocks (ir c)).
  { unfold c3. mred. by rewrite Hir2. }
  destruct (vectorize_src_loop_resolved cur i srcs 0 c3 c' _ H Hins3) as (Hg & Hprods).
  rewrite Hlen3 in Hg, Hprods.
  split; [by apply (grows_from _ c3 c)|].
  intros j s flags r Hj Hf Hr Hssa.
  destruct (Hprods j s flags r Hj Hf) as (r' & p & Hr' & Hinstr & Hprod); [|done|].
  { cbn [Nat.add Instr.regs Instr.set_regs]. by rewrite Hregs3. }
  exists r', p. split; [done|]. split; [done|].
  apply (producer_from _ c3 c c'); [done| | |done].
  - unfold c3. mred. congruence.
  - unfold c3. mred. congruence.
Qed.

Lemma grows_to M c c2 c' :
  grows M c c2 ->
  blocks (ir c') = blocks (ir c2) ->
  length (instrs (ir c')) = length (instrs (ir c2)) ->
  (forall k, (M <= k < length (instrs (ir c2)))%nat ->
     instrs (ir c') !! k = instrs (ir c2) !! k) ->
  grows M c c'.
Proof.
  intros (Hf & Ht & Hk) Hbs Hlen Hsame. split; [|split].
  - intros j Hj. rewrite Hsame by lia. apply Hf. lia.
  - by eapply traced_arena.
  - by apply (tops_kept_blocks c c c2 c').
Qed.

(** An update of an operand record leaves the blocks and every other
    node alone. *)
Lemma update_reg_shape p f c x c' :
  update_reg p f c = Done (x, c') ->
  blocks (ir c') = blocks (ir c)
  /\ length (instrs (ir c')) = length (instrs (ir c))
  /\ (p.1 < length (instrs (ir c)))%nat
  /\ (forall k, k <> p.1 -> instrs (ir c') !! k = instrs (ir c) !! k).
Proof.
  intros (r & Hr & ->)%update_reg_Done. mred.
  split; [done|]. split; [apply set_operand_length|].
  split; [by eapply reg_at_lt|].
  intros k Hk. by apply set_operand_lookup_ne.
Qed.

Lemma vectorize_flags_shape p flags c c' :
  (update_reg p (or_flags (Z.land flags (Z.lnot IR3_REG_NEGATE))) ;;;
   if has_flag flags IR3_REG_NEGATE then
     update_reg p (fun r => Reg.set_flags (Z.lxor (Reg.flags r) IR3_REG_NEGATE) r)
   else ret tt) c = Done (tt, c') ->
  blocks (ir c') = blocks (ir c)
  /\ length (instrs (ir c')) = length (instrs (ir c))
  /\ (p.1 < length (instrs (ir c)))%nat
  /\ (forall k, k <> p.1 -> instrs (ir c') !! k = instrs (ir c) !! k).
Proof.
  intros H. apply bind_Done in H as ([] & c1 & (Hb1 & Hl1 & Hp1 & Hf1)%update_reg_shape & H).
  destruct (has_flag flags IR3_REG_NEGATE).
  - apply update_reg_shape in H as (Hb2 & Hl2 & Hp2 & Hf2).
    split; [congruence|]. split; [congruence|]. split; [done|].
    intros k Hk. by rewrite Hf2, Hf1.
  - by injection H as <-.
Qed.

(** Attaching one operand to the template. *)
Lemma vectorize_arg_resolved instr a flags c c' :
  vectorize_arg instr a flags c = Done (tt, c') ->
  (instr < length (instrs (ir c)))%nat
  /\ grows (length (instrs (ir c))) c c'.
Proof.
  intros H. unfold vectorize_arg in H.
  apply bind_Done in H as (p & c1 & Hreg & H).
  apply vectorize_flags_shape in H as (Hb2 & Hl2 & Hp2 & Hf2).
  destruct (has_flag flags IR3_REG_IMMED) eqn:Himm.
  - apply bind_Done in Hreg as (p' & c0 & (ins & Hins & -> & ->)%ir3_reg_create_Done & Hreg).
    destruct a as [s|v]; [done|].
    apply bind_Done in Hreg as (? & ? & [= <- <-] & Hreg).
    apply bind_Done in Hreg as ([] & c2 & (Hb1 & Hl1 & Hp1 & Hf1)%update_reg_shape & [= <- <-]).
    revert Hb1 Hl1. mred. rewrite length_insert. intros Hb1 Hl1.
    split; [by eapply lookup_lt_Some|].
    apply grows_same; congruence.
  - destruct a as [s|v]; [|done].
    apply bind_Done in Hreg as (? & ? & [= <- <-] & Hreg).
    apply add_src_reg_Done in Hreg as (ins & num & Hins & Hidx & Hnum & -> & Hssa).
    assert (Hlt : (instr < length (instrs (ir c)))%nat) by (by eapply lookup_lt_Some).
    split; [done|].
    apply ssa_src_grows in Hssa as Hg. revert Hg. mred. rewrite length_insert. intros Hg.
    apply (grows_from _ _ c) in Hg; [|done].
    apply (grows_to _ c c1 c'); [done|done|done|].
    intros k Hk. apply Hf2. cbn [fst]. lia.
Qed.

Lemma vectorize_srcs_resolved instr srcs : forall c c',
  vectorize_srcs instr srcs c = Done (tt, c') ->
  (instr < length (instrs (ir c)))%nat ->
  grows (length (instrs (ir c))) c c'.
Proof.
  unfold vectorize_srcs.
  induction srcs as [|[a flags] srcs IH]; intros c c' H Hlt; cbn in H.
  - injection H as <-. by apply grows_same.
  - apply bind_Done in H as ([] & c1 & Harg & H).
    destruct (instrs (ir c) !! instr) as [ins|] eqn:Hins;
      [|apply lookup_ge_None in Hins; lia].
    destruct (vectorize_arg_Done _ _ _ _ _ _ Harg Hins) as (r & Hi1 & _ & Hev1 & _ & Hf1).
    destruct (vectorize_arg_resolved _ _ _ _ _ Harg) as (_ & Hg1).
    assert (Hle1 : (length (instrs (ir c)) <= length (instrs (ir c1)))%nat).
    { destruct Hev1 as (Hle & _). exact Hle. }
    assert (Hg2 : grows (length (instrs (ir c1))) c1 c') by (apply IH; [done|lia]).
    destruct (vectorize_srcs_Done instr c1 srcs c1 c' _ H (evolves_refl _) Hi1)
      as (rs & _ & _ & _ & _ & Hf2).
    eapply grows_step; [exact Hg1|exact Hg2|done|].
    intros k Hk. apply Hf2; lia.
Qed.

(** The template of [vectorize], once the destination and the operands
    are attached: only the resolver added nodes. *)
Lemma vectorize_setup_resolved instr dst srcs c c1 :
  atomic c = true ->
  (add_dst_reg instr dst TGSI_SWIZZLE_X ;;; vectorize_srcs instr srcs) c = Done (tt, c1) ->
  grows (length (instrs (ir c))) c c1.
Proof.
  intros Hat H.
  apply bind_Done in H as (p & cb & Hdst & Hsrcs).
  apply add_dst_reg_Done in Hdst as (ins & dnum & Hins & Hnum & _ & Hcb).
  rewrite Hat in Hcb. cbv zeta in Hcb. subst cb.
  apply vectorize_srcs_resolved in Hsrcs.
  - revert Hsrcs. mred. rewrite length_insert. intros Hg.
    by apply (grows_from _ _ c) in Hg.
  - mred. rewrite length_insert. by eapply lookup_lt_Some.
Qed.

(** ** Vector expansion, per component *)

Lemma src_swiz_selected s m : (m < 4)%nat -> src_swiz s (Z.of_nat m) = selected s m.
Proof. intros Hm. by destruct m as [|[|[|[|m]]]]; [..|lia]. Qed.

(** The operand [j] of the instruction a round has made for component
    [m], as the final state [cf] has it. *)
Lemma round_sourced c cr cr' cf M srcs T tmpl dnum cur m j a flags ins r :
  prepared c tmpl dnum srcs T ->
  srcs !! j = Some (a, flags) ->
  (m < 4)%nat ->
  (forall j s flags r,
     srcs !! j = Some (ArgSrc s, flags) ->
     ssa_file (Src.File s) = true ->
     Instr.regs T !! S j = Some r ->
     has_flag (Reg.flags r) IR3_REG_SSA = true ->
     exists r' p,
       reg_at cr' (cur, S j) = Some r'
       /\ Reg.instr r' = Some p
       /\ producer M cr cr' s (src_swiz s (Z.of_nat m)) p) ->
  instrs (ir cr') !! cur = Some ins ->
  Instr.regs ins !! S j = Some r ->
  operand_of c a flags (Z.of_nat m) r ->
  (length (instrs (ir c)) <= M)%nat ->
  block cr = block c ->
  so cr = so c ->
  blocks_agree (blocks (ir c)) (blocks (ir cr)) ->
  tops_kept c cr ->
  traced (length (instrs (ir c))) c cr ->
  (forall k, (length (instrs (ir c)) <= k < length (instrs (ir cr)))%nat ->
     instrs (ir cf) !! k = instrs (ir cr) !! k) ->
  (forall k, (M <= k < length (instrs (ir cr')))%nat ->
     instrs (ir cf) !! k = instrs (ir cr') !! k) ->
  sourced c cf a m r.
Proof.
  intros (d & rs & comp & -> & _ & _ & Hall) Hj Hm Hprods Hins Hr Hop
         HM Hb Hso Hag Htops Htr Hold Hnew.
  unfold sourced. destruct a as [s|v]; [|done].
  destruct (ssa_file (Src.File s)) eqn:Hf.
  - destruct (Forall2_lookup_l _ _ _ _ _ Hall Hj) as (rT & HrT & (Hssa & _)).
    cbn [fst snd] in Hssa.
    destruct (Hprods j s flags rT Hj Hf) as (r' & p & Hr' & Hinstr & Hprod).
    { done. }
    { by rewrite Hssa. }
    apply reg_at_Some in Hr' as (ins' & Hins' & Hr''). cbn [fst snd] in *.
    rewrite Hins in Hins'. injection Hins' as <-.
    rewrite Hr in Hr''. injection Hr'' as <-.
    exists p. split; [done|]. rewrite <- src_swiz_selected by done.
    by eapply producer_transport.
  - destruct Hop as (_ & Hop). rewrite Hf in Hop.
    destruct Hop as (num & Hnum & Hreg). exists num.
    by rewrite <- src_swiz_selected.
Qed.

(** The instruction a round has made for component [m], as the final
    state [cf] has it. *)
Lemma round_packed c cr cr' cf M tmpl dnum a0 f0 a1 f1 T0 cur m ins :
  (m < 4)%nat ->
  instrs (ir cf) !! cur = Some ins ->
  instrs (ir cr') !! cur = Some ins ->
  expanded c tmpl dnum [(a0, f0); (a1, f1)] (Z.of_nat m) ins ->
  prepared c tmpl dnum [(a0, f0); (a1, f1)] T0 ->
  (forall j s flags r,
     [(a0, f0); (a1, f1)] !! j = Some (ArgSrc s, flags) ->
     ssa_file (Src.File s) = true ->
     Instr.regs T0 !! S j = Some r ->
     has_flag (Reg.flags r) IR3_REG_SSA = true ->
     exists r' p,
       reg_at cr' (cur, S j) = Some r'
       /\ Reg.instr r' = Some p
       /\ producer M cr cr' s (src_swiz s (Z.of_nat m)) p) ->
  (length (instrs (ir c)) <= M)%nat ->
  evolves c cr ->
  tops_kept c cr ->
  traced (length (instrs (ir c))) c cr ->
  (forall k, (length (instrs (ir c)) <= k < length (instrs (ir cr)))%nat ->
     instrs (ir cf) !! k = instrs (ir cr) !! k) ->
  (forall k, (M <= k < length (instrs (ir cr')))%nat ->
     instrs (ir cf) !! k = instrs (ir cr') !! k) ->
  exists d r0 r1,
    instrs (ir cf) !! cur = Some (Instr.set_regs [d; r0; r1] tmpl)
    /\ Reg.num d = regid dnum (Z.of_nat m)
    /\ Reg.wrmask d = 1
    /\ operand_of c a0 f0 (Z.of_nat m) r0
    /\ operand_of c a1 f1 (Z.of_nat m) r1
    /\ sourced c cf a0 m r0
    /\ sourced c cf a1 m r1.
Proof.
  intros Hm Hcf Hcr' Hexp Hprep Hprods HM Hev Htops Htr Hold Hnew.
  destruct (expanded_two _ _ _ _ _ _ _ _ _ Hexp) as (d & r0 & r1 & -> & Hd & Hw & Ho0 & Ho1).
  destruct Hev as (_ & Hag & Hb & _ & Hso & _).
  exists d, r0, r1. split; [done|]. split; [done|]. split; [done|].
  split; [done|]. split; [done|]. split.
  - by eapply (round_sourced c cr cr' cf M _ T0 tmpl dnum cur m 0%nat a0 f0).
  - by eapply (round_sourced c cr cr' cf M _ T0 tmpl dnum cur m 1%nat a1 f1).
Qed.

(** [vectorize] on a new template, with two operands and the write-mask
    XYZW, whenever it returns. *)
Lemma vectorize_expands_resolved instr dst a0 f0 a1 f1 c c' tmpl :
  vectorize instr dst [(a0, f0); (a1, f1)] c = Done (tt, c') ->
  instrs (ir c) !! instr = Some tmpl ->
  Instr.regs tmpl = [] ->
  has_flag f0 IR3_REG_SSA = false ->
  has_flag f1 IR3_REG_SSA = false ->
  Dst.WriteMask dst = TGSI_WRITEMASK_XYZW ->
  exists k1 k2 k3 dnum,
    dst_num c dst = Some dnum
    /\ (length (instrs (ir c)) <= k1 < k2)%nat
    /\ (k2 < k3 < length (instrs (ir c')))%nat
    /\ (forall m cur, [instr; k1; k2; k3] !! m = Some cur ->
          exists d r0 r1,
            instrs (ir c') !! cur = Some (Instr.set_regs [d; r0; r1] tmpl)
            /\ Reg.num d = regid dnum (Z.of_nat m)
            /\ Reg.wrmask d = 1
            /\ operand_of c a0 f0 (Z.of_nat m) r0
            /\ operand_of c a1 f1 (Z.of_nat m) r1
            /\ sourced c c' a0 m r0
            /\ sourced c c' a1 m r1)
    /\ (forall j, (length (instrs (ir c)) <= j < length (instrs (ir c')))%nat ->
          j = k1 \/ j = k2 \/ j = k3
          \/ exists ins, instrs (ir c') !! j = Some ins /\ resolver_node ins)
    /\ (forall k, (k < length (instrs (ir c)))%nat -> k <> instr ->
          instrs (ir c') !! k = instrs (ir c) !! k)
    /\ output_updates c' = []
    /\ (forall s, read_slot c' s =
          match queued (output_updates c
                        ++ pending c instr dst 0 ++ pending c k1 dst 1
                        ++ pending c k2 dst 2 ++ pending c k3 dst 3) s with
          | Some v => Some (Some v)
          | None => read_slot c s
          end).
Proof.
  intros H Htmpl Hregs Hf0 Hf1 Hmask. unfold vectorize in H.
  apply bind_Done in H as ([] & ca & [= <-] & H).
  set (ca := set_atomic true c) in *.
  set (srcs := [(a0, f0); (a1, f1)]) in *.
  apply bind_Done in H as (p & cb & Hdst & H).
  apply bind_Done in H as ([] & cs & Hsrcs & H).
  assert (Hsetup : (add_dst_reg instr dst TGSI_SWIZZLE_X ;;;
                    vectorize_srcs instr srcs) ca = Done (tt, cs)).
  { by rewrite (bind_Done_intro _ _ _ _ _ Hdst). }
  clear Hdst Hsrcs.
  assert (Hata : atomic ca = true) by done.
  destruct (vectorize_setup _ _ _ _ _ tmpl Hata Hsetup Htmpl Hregs)
    as (dnum & T & Hnum & HT & Hprep & Hevs & Hqs & Hfs).
  { by repeat constructor. }
  pose proof (vectorize_setup_resolved _ _ _ _ _ Hata Hsetup) as (Hfrs & Htrs & Htops).
  apply bind_Done in H as ([] & c4 & Hchans & Hend).
  cbn [vectorize_chans chans] in Hchans. rewrite Hmask in Hchans.
  change (has_flag TGSI_WRITEMASK_XYZW (bit 0)) with true in Hchans.
  change (has_flag TGSI_WRITEMASK_XYZW (bit 1)) with true in Hchans.
  change (has_flag TGSI_WRITEMASK_XYZW (bit 2)) with true in Hchans.
  change (has_flag TGSI_WRITEMASK_XYZW (bit 3)) with true in Hchans.
  cbv iota in Hchans.
  apply bind_Done in Hchans as ([] & c0' & Hr0 & Hchans).
  apply bind_Done in Hchans as ([] & c1 & Hr1 & Hchans).
  apply bind_Done in Hchans as ([] & c2 & Hr2 & Hchans).
  apply bind_Done in Hchans as ([] & c3 & Hr3 & [= <-]).
  assert (Hats : atomic cs = true).
  { destruct Hevs as (_ & _ & _ & -> & _). done. }
  (* round 0 *)
  destruct (vectorize_round _ _ _ _ _ _ _ _ _ _ _ Hats Hevs Hr0 HT Hprep)
    as (T1 & HT1 & Hexp0 & Hev0 & Hle0 & Hq0 & Hframe0).
  destruct (vectorize_chan_resolved _ _ _ _ _ _ _ _ Hats Hr0 HT) as (Hg0 & Hprod0).
  change (0 =? 0) with true in *. cbv iota in *.
  rewrite Nat.add_0_r in Hg0, Hprod0.
  assert (Hev0' : evolves ca c0') by (by eapply evolves_trans).
  assert (Hat0 : atomic c0' = true).
  { destruct Hev0' as (_ & _ & _ & -> & _). done. }
  assert (Hlt : (instr < length (instrs (ir c0')))%nat) by (by eapply lookup_lt_Some).
  (* round 1 *)
  destruct (vectorize_clone_round _ _ _ _ (0 + 1) _ _ _ _ _ _ ltac:(done) Hat0 Hev0' Hr1 HT1
              (expanded_prepared _ _ _ _ _ _ Hexp0))
    as (I1 & HI1 & Hexp1 & Hev1 & Hat1 & Hlt1 & Hq1 & Hframe1).
  destruct (vectorize_chan_resolved _ _ _ _ _ _ _ _ Hat0 Hr1 HT1) as (Hg1 & Hprod1).
  change (0 + 1 =? 0) with false in *. cbv iota in *.
  assert (HT2 : instrs (ir c1) !! instr = Some T1) by (by rewrite Hframe1).
  (* round 2 *)
  destruct (vectorize_clone_round _ _ _ _ (0 + 1 + 1) _ _ _ _ _ _ ltac:(done) Hat1 Hev1 Hr2 HT2
              (expanded_prepared _ _ _ _ _ _ Hexp0))
    as (I2 & HI2 & Hexp2 & Hev2 & Hat2 & Hlt2 & Hq2 & Hframe2).
  destruct (vectorize_chan_resolved _ _ _ _ _ _ _ _ Hat1 Hr2 HT2) as (Hg2 & Hprod2).
  change (0 + 1 + 1 =? 0) with false in *. cbv iota in *.
  assert (HT3 : instrs (ir c2) !! instr = Some T1) by (rewrite Hframe2; [done|lia]).
  (* round 3 *)
  destruct (vectorize_clone_round _ _ _ _ (0 + 1 + 1 + 1) _ _ _ _ _ _ ltac:(done) Hat2 Hev2 Hr3 HT3
              (expanded_prepared _ _ _ _ _ _ Hexp0))
    as (I3 & HI3 & Hexp3 & Hev3 & Hat3 & Hlt3 & Hq3 & Hframe3).
  destruct (vectorize_chan_resolved _ _ _ _ _ _ _ _ Hat2 Hr3 HT3) as (Hg3 & Hprod3).
  change (0 + 1 + 1 + 1 =? 0) with false in *. cbv iota in *.
  (* the end of the group *)
  unfold instr_atomic_end in Hend.
  apply bind_Done in Hend as ([] & ? & [= <-] & Hend).
  apply instr_finish_Done in Hend as (bs & -> & Hread); [|done].
  set (cf := set_output_updates [] (set_blocks bs (set_atomic false c3))) in *.
  assert (Hcf : instrs (ir cf) = instrs (ir c3)) by done.
  set (N := length (instrs (ir c))).
  assert (HNs : (N <= length (instrs (ir cs)))%nat).
  { destruct Hevs as (Hle & _). exact Hle. }
  assert (HinstrN : (instr < N)%nat) by (by eapply lookup_lt_Some).
  (* the nodes each round leaves alone *)
  assert (F3 : forall k, (k < length (instrs (ir c2)))%nat ->
            instrs (ir cf) !! k = instrs (ir c2) !! k).
  { intros k Hk. rewrite Hcf. by apply Hframe3. }
  assert (F2 : forall k, (k < length (instrs (ir c1)))%nat ->
            instrs (ir cf) !! k = instrs (ir c1) !! k).
  { intros k Hk. rewrite F3 by lia. by apply Hframe2. }
  assert (F1 : forall k, (k < length (instrs (ir c0')))%nat ->
            instrs (ir cf) !! k = instrs (ir c0') !! k).
  { intros k Hk. rewrite F2 by lia. by apply Hframe1. }
  assert (F0 : forall k, (k < length (instrs (ir cs)))%nat -> k <> instr ->
            instrs (ir cf) !! k = instrs (ir cs) !! k).
  { intros k Hk Hne. rewrite F1 by lia. by apply Hframe0. }
  (* what the scopes hold, round after round *)
  destruct Hg0 as (Hfr0 & Htr0 & Htops0).
  destruct Hg1 as (Hfr1 & Htr1 & Htops1).
  destruct Hg2 as (Hfr2 & Htr2 & Htops2).
  destruct Hg3 as (Hfr3 & Htr3 & Htops3).
  assert (Htra0 : traced N ca c0').
  { eapply (traced_trans N _ ca cs c0'); [|exact Htrs|exact Htr0|]; [done|].
    intros k Hk. apply Hframe0; lia. }
  assert (Htopa0 : tops_kept ca c0') by (by eapply tops_kept_trans).
  assert (Htra1 : traced N ca c1).
  { eapply (traced_trans N _ ca c0' c1); [|exact Htra0|exact Htr1|]; [lia|].
    intros k Hk. apply Hframe1; lia. }
  assert (Htopa1 : tops_kept ca c1) by (by eapply tops_kept_trans).
  assert (Htra2 : traced N ca c2).
  { eapply (traced_trans N _ ca c1 c2); [|exact Htra1|exact Htr2|]; [lia|].
    intros k Hk. apply Hframe2; lia. }
  assert (Htopa2 : tops_kept ca c2) by (by eapply tops_kept_trans).
  exists (length (instrs (ir c0'))), (length (instrs (ir c1))), (length (instrs (ir c2))), dnum.
  split; [done|].
  split; [fold N; lia|]. rewrite Hcf. split; [lia|].
  assert (H0 : instrs (ir c3) !! instr = Some T1) by (rewrite Hframe3; [done|lia]).
  assert (H1 : instrs (ir c3) !! length (instrs (ir c0')) = Some I1).
  { rewrite Hframe3, Hframe2; [done|lia|lia]. }
  assert (H2 : instrs (ir c3) !! length (instrs (ir c1)) = Some I2).
  { rewrite Hframe3; [done|lia]. }
  split; [|split; [|split; [|split; [done|]]]].
  - assert (HN0 : (length (instrs (ir ca)) <= length (instrs (ir c0')))%nat).
    { destruct Hev0' as (Hle & _). exact Hle. }
    assert (HiA : (instr < length (instrs (ir ca)))%nat) by exact HinstrN.
    intros m cur Hm.
    destruct m as [|[|[|[|m]]]]; cbn in Hm; try done; injection Hm as <-.
    + apply (round_packed ca cs c0' cf (length (instrs (ir cs))) tmpl dnum a0 f0 a1 f1
               T instr 0%nat T1); try done; try lia; try (by rewrite Hcf).
      all: intros k Hk; first [apply F0; lia|apply F1; lia].
    + apply (round_packed ca c0' c1 cf (length (instrs (ir c0')) + 1)%nat tmpl dnum
               a0 f0 a1 f1 T1 (length (instrs (ir c0'))) 1%nat I1);
        try done; try lia; try (by rewrite Hcf); try (by eapply expanded_prepared).
      all: intros k Hk; first [apply F1; lia|apply F2; lia].
    + apply (round_packed ca c1 c2 cf (length (instrs (ir c1)) + 1)%nat tmpl dnum
               a0 f0 a1 f1 T1 (length (instrs (ir c1))) 2%nat I2);
        try done; try lia; try (by rewrite Hcf); try (by eapply expanded_prepared).
      all: intros k Hk; first [apply F2; lia|apply F3; lia].
    + apply (round_packed ca c2 c3 cf (length (instrs (ir c2)) + 1)%nat tmpl dnum
               a0 f0 a1 f1 T1 (length (instrs (ir c2))) 3%nat I3);
        try done; try lia; try (by rewrite Hcf); try (by eapply expanded_prepared).
      all: intros k Hk; first [apply F3; lia|by rewrite Hcf].
  - intros j Hj. rewrite <- Hcf.
    assert (HNA : N = length (instrs (ir ca))) by done.
    destruct (decide (j < length (instrs (ir cs)))%nat) as [Hj0|Hj0].
    { right. right. right. rewrite F0 by lia. apply Hfrs. lia. }
    destruct (decide (j < length (instrs (ir c0')))%nat) as [Hj1|Hj1].
    { right. right. right. rewrite F1 by lia. apply Hfr0. lia. }
    destruct (decide (j = length (instrs (ir c0')))) as [->|Hj1']; [by left|].
    destruct (decide (j < length (instrs (ir c1)))%nat) as [Hj2|Hj2].
    { right. right. right. rewrite F2 by lia. apply Hfr1. lia. }
    destruct (decide (j = length (instrs (ir c1)))) as [->|Hj2']; [by right; left|].
    destruct (decide (j < length (instrs (ir c2)))%nat) as [Hj3|Hj3].
    { right. right. right. rewrite F3 by lia. apply Hfr2. lia. }
    destruct (decide (j = length (instrs (ir c2)))) as [->|Hj3']; [by right; right; left|].
    right. right. right. rewrite Hcf. apply Hfr3. lia.
  - intros k Hk Hne. rewrite <- Hcf. rewrite F0 by (fold N in HNs; lia).
    apply Hfs; [done|exact Hk].
  - intros s. rewrite Hread. unfold live. mred.
    rewrite Hq3, Hq2, Hq1, Hq0, Hqs, (pending_evolves _ _ _ _ _ Hevs).
    change (read_slot (set_atomic false c3) s) with (read_slot c3 s).
    rewrite (evolves_read_slot _ _ _ Hev3), <- !app_assoc. reflexivity.
Qed.

(** A node of the resolver has at most two operand records: it is no
    copy of an instruction that has three. *)
Lemma resolver_node_regs ins :
  resolver_node ins -> (length (Instr.regs ins) <= 2)%nat.
Proof.
  intros [(b & v & n & ->)|(b & ty & ->)].
  - unfold input_node, inout_regs. cbn [Instr.regs Instr.set_regs length].
    destruct v; cbn; lia.
  - unfold immed_node. cbn. lia.
Qed.

(** A read of a resolved file refers to a producer. *)
Lemma sourced_resolved c c' s m r :
  ssa_file (Src.File s) = true ->
  sourced c c' (ArgSrc s) m r ->
  exists p, Reg.instr r = Some p
    /\ producer (length (instrs (ir c))) c c' s (selected s m) p.
Proof. unfold sourced. by intros ->. Qed.

(** A read of another file names the component of its register. *)
Lemma sourced_named c c' s m r :
  ssa_file (Src.File s) = false ->
  sourced c c' (ArgSrc s) m r ->
  exists num, src_num c s = Some num /\ Reg.num r = regid num (selected s m).
Proof. unfold sourced. by intros ->. Qed.

(** The producer of a TEMPORARY the current block holds is the value it
    holds. *)
Lemma producer_local N c c' s comp p b x :
  producer N c c' s comp p ->
  Src.File s = TGSI_FILE_TEMPORARY ->
  block c = Some b ->
  read_slot c (mk_slot b SlotTemporary (regid (Src.Index s) comp)) = Some (Some x) ->
  p = x.
Proof.
  intros (b' & Hb' & Hp) Hf Hb Hs. rewrite Hf in Hp.
  rewrite Hb in Hb'. injection Hb' as <-.
  destruct Hp as (blk & t & Hblk & Ht & Hp).
  unfold read_slot in Hs. cbn in Hs. rewrite Hblk in Hs. cbn in Hs.
  rewrite Ht in Hs. injection Hs as ->. exact Hp.
Qed.

(** C2.  [vectorize] on a new template, with two operands and the
    write-mask XYZW.  It returns when the destination's slots exist, the
    queue has room and the arguments are local to the block.  Whenever
    it returns, the template and three copies of it, made in this order,
    are the instructions of components 0, 1, 2, 3: each has the
    template's category and opcode, a destination record for its
    component, and its two operands fixed up for its component.  An
    operand of a resolved file is resolved again for each instruction:
    the operand of the instruction of component [m] refers to the
    producer of the component of its register that the swizzle selects
    for [m], whether the register is an INPUT, an OUTPUT, a TEMPORARY
    live in the block, a TEMPORARY imported from the scopes around it,
    or undefined; an operand of another file names that component of
    its register.  No other copy is made: a node added to the arena
    that is none of the three copies is a boundary node or a move of 0.0
    made by a resolution, with two operand records at most, and the
    nodes that were there, the template apart, are as they were.  The four writes are deferred to the end of
    the group, where the destination's slots take the four
    instructions. *)
Theorem vectorize_full_mask instr dst a0 f0 a1 f1 c tmpl :
  instrs (ir c) !! instr = Some tmpl ->
  Instr.regs tmpl = [] ->
  Dst.WriteMask dst = TGSI_WRITEMASK_XYZW ->
  has_flag f0 IR3_REG_SSA = false ->
  has_flag f1 IR3_REG_SSA = false ->
  (forall b,
     block c = Some b ->
     wf_queue c ->
     (length (output_updates c) + 4 <= 16)%nat ->
     (forall i, 0 <= i < 4 ->
        exists s, dst_slot b dst i = Some s /\ is_Some (read_slot c s)) ->
     local_arg c a0 f0 ->
     local_arg c a1 f1 ->
     exists c', vectorize instr dst [(a0, f0); (a1, f1)] c = Done (tt, c'))
  /\ (forall c',
        vectorize instr dst [(a0, f0); (a1, f1)] c = Done (tt, c') ->
        exists k1 k2 k3 dnum,
          dst_num c dst = Some dnum
          /\ (length (instrs (ir c)) <= k1 < k2)%nat
          /\ (k2 < k3 < length (instrs (ir c')))%nat
          /\ (forall m cur, [instr; k1; k2; k3] !! m = Some cur ->
                exists d r0 r1,
                  instrs (ir c') !! cur = Some (Instr.set_regs [d; r0; r1] tmpl)
                  /\ Reg.num d = regid dnum (Z.of_nat m)
                  /\ Reg.wrmask d = 1
                  /\ operand_of c a0 f0 (Z.of_nat m) r0
                  /\ operand_of c a1 f1 (Z.of_nat m) r1
                  /\ sourced c c' a0 m r0
                  /\ sourced c c' a1 m r1)
          /\ (forall j,
                (length (instrs (ir c)) <= j < length (instrs (ir c')))%nat ->
                j = k1 \/ j = k2 \/ j = k3
                \/ exists ins, instrs (ir c') !! j = Some ins
                     /\ resolver_node ins
                     /\ (length (Instr.regs ins) <= 2)%nat)
          /\ (forall k, (k < length (instrs (ir c)))%nat -> k <> instr ->
                instrs (ir c') !! k = instrs (ir c) !! k)
          /\ output_updates c' = []
          /\ (forall s, read_slot c' s =
                match queued (output_updates c
                              ++ pending c instr dst 0 ++ pending c k1 dst 1
                              ++ pending c k2 dst 2 ++ pending c k3 dst 3) s with
                | Some v => Some (Some v)
                | None => read_slot c s
                end)).
Proof.
  intros Htmpl Hregs Hmask Hf0 Hf1. split.
  - intros b. by apply (vectorize_runs instr dst a0 f0 a1 f1 c tmpl b).
  - intros c' H.
    destruct (vectorize_expands_resolved instr dst a0 f0 a1 f1 c c' tmpl
                H Htmpl Hregs Hf0 Hf1 Hmask)
      as (k1 & k2 & k3 & dnum & H1 & H2 & H3 & H4 & H5 & H6).
    exists k1, k2, k3, dnum.
    split; [done|]. split; [done|]. split; [done|]. split; [done|].
    split; [|done].
    intros j Hj. destruct (H5 j Hj) as [->|[->|[->|(ins & Hins & Hres)]]]; auto.
    right. right. right. exists ins. split; [done|]. split; [done|].
    by apply resolver_node_regs.
Qed.

(** ADD TEMP[1], TEMP[0].wzyx, CONST[0] after TEMP[0] := CONST[0], which
    four moves, the nodes 0 to 3, wrote: the template is node 4 and the
    copies are three new nodes; the instruction of component [m] writes
    component [m] of r3, reads the move [3 - m] that wrote the component
    the swizzle selects, and names component [m] of the constant; a new
    node that is none of the copies is a node of the resolver, and the
    nodes 0 to 3 are as they were. *)
Lemma vectorize_full_mask_example :
  exists c' k1 k2 k3,
    vectorize 4 (TEMP_dst 1 15)
      [(ArgSrc (swizzled 3 2 1 0 (TEMP 0)), 0); (ArgSrc (CONST 0), 0)] ex_vec_pre
    = Done (tt, c')
    /\ (5 <= k1 < k2)%nat
    /\ (k2 < k3 < length (instrs (ir c')))%nat
    /\ (forall m cur, [4%nat; k1; k2; k3] !! m = Some cur ->
          exists d r0 r1,
            instrs (ir c') !! cur
            = Some (Instr.set_regs [d; r0; r1] (new_instr 0 2 OPC_ADD_F))
            /\ Reg.num d = regid 3 (Z.of_nat m)
            /\ Reg.wrmask d = 1
            /\ Reg.instr r0 = Some (3 - m)%nat
            /\ Reg.num r1 = regid 0 (Z.of_nat m))
    /\ (forall j, (5 <= j < length (instrs (ir c')))%nat ->
          j = k1 \/ j = k2 \/ j = k3
          \/ exists ins, instrs (ir c') !! j = Some ins
               /\ resolver_node ins
               /\ (length (Instr.regs ins) <= 2)%nat)
    /\ (forall k, (k < 4)%nat -> instrs (ir c') !! k = instrs (ir ex_vec_pre) !! k).
Proof.
  destruct (vectorize_full_mask 4 (TEMP_dst 1 15)
              (ArgSrc (swizzled 3 2 1 0 (TEMP 0))) 0 (ArgSrc (CONST 0)) 0
              ex_vec_pre (new_instr 0 2 OPC_ADD_F)) as [Hruns Hexp].
  - by vm_compute.
  - reflexivity.
  - reflexivity.
  - reflexivity.
  - reflexivity.
  - destruct (Hruns 0%nat) as [c' Hrun].
    + by vm_compute.
    + by vm_compute.
    + vm_compute. lia.
    + intros i Hi. eexists. split; [reflexivity|].
      assert (i = 0 \/ i = 1 \/ i = 2 \/ i = 3) as [->|[->|[->| ->]]] by lia;
        vm_compute; eexists; reflexivity.
    + split; [reflexivity|]. split; [reflexivity|]. split; [reflexivity|].
      right. split; [reflexivity|]. exists 0%nat. split; [by vm_compute|].
      intros comp Hcomp. exists (Z.to_nat comp).
      assert (comp = 0 \/ comp = 1 \/ comp = 2 \/ comp = 3) as [->|[->|[->| ->]]]
        by lia; by vm_compute.
    + split; [reflexivity|]. split; [reflexivity|]. split; [reflexivity|].
      by left.
    + exists c'.
      destruct (Hexp c' Hrun)
        as (k1 & k2 & k3 & dnum & H1 & H2 & H3 & H4 & H5 & H6 & _).
      assert (Hlen : length (instrs (ir ex_vec_pre)) = 5%nat)
        by (vm_compute; reflexivity).
      assert (Hdn : dst_num ex_vec_pre (TEMP_dst 1 15) = Some 3)
        by (vm_compute; reflexivity).
      assert (Hcn : src_num ex_vec_pre (CONST 0) = Some 0)
        by (vm_compute; reflexivity).
      assert (Hblock : block ex_vec_pre = Some 0%nat)
        by (vm_compute; reflexivity).
      rewrite Hdn in H1. injection H1 as <-.
      rewrite Hlen in H2, H5, H6.
      exists k1, k2, k3. split; [exact Hrun|]. split; [exact H2|].
      split; [exact H3|]. split; [|split; [exact H5|]].
      * intros m cur Hm.
        destruct (H4 m cur Hm)
          as (d & r0 & r1 & Hn & Hd & Hw & _ & _ & Hs0 & Hs1).
        exists d, r0, r1. split; [exact Hn|]. split; [exact Hd|].
        split; [exact Hw|].
        apply sourced_resolved in Hs0 as (p & Hp & Hprod); [|reflexivity].
        apply sourced_named in Hs1 as (num & Hnum & Hr1); [|reflexivity].
        rewrite Hcn in Hnum. injection Hnum as <-.
        assert (Hm4 : (m < 4)%nat).
        { apply lookup_lt_Some in Hm. exact Hm. }
        assert (m = 0 \/ m = 1 \/ m = 2 \/ m = 3)%nat
          as [->|[->|[->| ->]]] by lia.
        all: split; [|exact Hr1].
        all: rewrite Hp; f_equal.
        all: apply (producer_local _ _ _ _ _ _ 0%nat _ Hprod);
          [reflexivity | exact Hblock | vm_compute; reflexivity].
      * intros k Hk. apply H6; lia.
Defined.

(** * Fan-in nodes *)

(** The intended shape, position by position: a position has an entry
    when it lies at or below a selected one, and the entry says whether
    the position is selected. *)
Lemma intended_fanin_lookup wrmask i :
  0 <= wrmask < 16 ->
  intended_fanin wrmask !! i
  = if covered wrmask (Z.of_nat i)
    then Some (has_flag wrmask (bit (Z.of_nat i))) else None.
Proof.
  intros Hw.
  assert (Hi : (i = 0 \/ i = 1 \/ i = 2 \/ i = 3 \/ 4 <= i)%nat) by lia.
  assert (Hc : wrmask = 0 \/ wrmask = 1 \/ wrmask = 2 \/ wrmask = 3
               \/ wrmask = 4 \/ wrmask = 5 \/ wrmask = 6 \/ wrmask = 7
               \/ wrmask = 8 \/ wrmask = 9 \/ wrmask = 10 \/ wrmask = 11
               \/ wrmask = 12 \/ wrmask = 13 \/ wrmask = 14 \/ wrmask = 15) by lia.
  destruct Hi as [->|[->|[->|[->|Hi]]]].
  1-4: repeat (destruct Hc as [->|Hc]; [reflexivity|]); by subst.
  replace (covered wrmask (Z.of_nat i)) with false.
  - apply lookup_ge_None.
    repeat (destruct Hc as [->|Hc]; [vm_compute; lia|]). subst. vm_compute. lia.
  - unfold covered, chans. cbn [existsb].
    assert (E : forall j, j <= 3 -> (Z.of_nat i <=? j) = false)
      by (intros j Hj; apply Z.leb_gt; lia).
    by rewrite !E by lia.
Qed.

(** With position 0 selected, the loop gives an entry to the positions
    of the intended shape, and to no other. *)
Lemma fanin_positions_intended wrmask :
  0 <= wrmask < 16 -> has_flag wrmask (bit 0) = true ->
  fanin_positions wrmask chans
  = imap (fun i sel => (Z.of_nat i, sel)) (intended_fanin wrmask).
Proof.
  intros Hw H0.
  assert (Hc : wrmask = 0 \/ wrmask = 1 \/ wrmask = 2 \/ wrmask = 3
               \/ wrmask = 4 \/ wrmask = 5 \/ wrmask = 6 \/ wrmask = 7
               \/ wrmask = 8 \/ wrmask = 9 \/ wrmask = 10 \/ wrmask = 11
               \/ wrmask = 12 \/ wrmask = 13 \/ wrmask = 14 \/ wrmask = 15) by lia.
  repeat (destruct Hc as [->|Hc]; [first [reflexivity | discriminate H0]|]).
  by subst.
Qed.

(** The shape of the entries. *)
Lemma fanin_entry_shape M c c' src chan xs es :
  Forall2 (fanin_entry M c c' src chan) xs es ->
  map (fun r => has_flag (Reg.flags r) IR3_REG_SSA) es = map snd xs.
Proof.
  induction 1 as [|[i sel] e xs es He _ IH]; [done|]. cbn. f_equal; [|done].
  unfold fanin_entry in He. cbn in He. destruct sel; [by destruct He|by subst].
Qed.

Lemma imap_snd (l : list bool) : forall f : nat -> bool -> Z * bool,
  (forall i x, (f i x).2 = x) -> map snd (imap f l) = l.
Proof.
  induction l as [|x l IH]; intros f Hf; [done|]. cbn. f_equal; [apply Hf|].
  apply IH. intros i y. apply Hf.
Qed.

(** An entry stays one when the nodes of the resolver are left alone. *)
Lemma fanin_entry_later M c0 c1 c2 src chan x e :
  fanin_entry M c0 c1 src chan x e ->
  (length (instrs (ir c0)) <= M)%nat ->
  (forall k, (M <= k < length (instrs (ir c1)))%nat ->
     instrs (ir c2) !! k = instrs (ir c1) !! k) ->
  fanin_entry M c0 c2 src chan x e.
Proof.
  unfold fanin_entry. destruct x.2; [|done].
  intros (Hf & p & Hp & Hprod) HM Hframe. split; [done|]. exists p. split; [done|].
  apply (producer_transport M M c0 c0 c1 c2 _ _ _ Hprod); try done.
  - apply blocks_agree_refl.
  - by apply tops_kept_same.
  - by apply traced_same.
  - intros k Hk. lia.
Qed.

(** One position of the loop of [add_src_reg_wrmask]. *)
Lemma fanin_step collect src chan wrmask b c0 i c c1 es :
  ssa_file (Src.File src) = true ->
  length (instrs (ir c0)) = S collect ->
  (if has_flag wrmask (bit i) then
     r <- ir3_reg_create collect 0 IR3_REG_SSA ;;
     ssa_src r src (chan + i)
   else if filler_needed wrmask i then
     ir3_reg_create collect 0 0 ;;; ret tt
   else ret tt) c = Done (tt, c1) ->
  instrs (ir c) !! collect
  = Some (Instr.set_regs (new_reg 0 0 :: es) (new_instr b (-1) OPC_META_FI)) ->
  block c = block c0 -> so c = so c0 ->
  blocks_agree (blocks (ir c0)) (blocks (ir c)) ->
  grows (S collect) c0 c ->
  (S collect <= length (instrs (ir c)))%nat ->
  exists es',
    instrs (ir c1) !! collect
    = Some (Instr.set_regs (new_reg 0 0 :: es ++ es') (new_instr b (-1) OPC_META_FI))
    /\ block c1 = block c0 /\ so c1 = so c0
    /\ blocks_agree (blocks (ir c0)) (blocks (ir c1))
    /\ grows (S collect) c0 c1
    /\ (length (instrs (ir c)) <= length (instrs (ir c1)))%nat
    /\ (forall k, (k < length (instrs (ir c)))%nat -> k <> collect ->
          instrs (ir c1) !! k = instrs (ir c) !! k)
    /\ Forall2 (fanin_entry (S collect) c0 c1 src chan)
         (fanin_positions wrmask [i]) es'.
Proof.
  intros Hf Hlen0 H Hnode Hb Hso Hag Hg Hle.
  assert (Hlt : (collect < length (instrs (ir c)))%nat) by (by eapply lookup_lt_Some).
  unfold fanin_positions. cbn [flat_map]. rewrite app_nil_r.
  set (T := new_instr b (-1) OPC_META_FI) in *.
  assert (Hcreate : forall flags q ca,
            ir3_reg_create collect 0 flags c = Done (q, ca) ->
            q = (collect, S (length es))
            /\ reg_at ca q = Some (new_reg 0 flags)
            /\ instrs (ir ca) !! collect
               = Some (Instr.set_regs (new_reg 0 0 :: es ++ [new_reg 0 flags]) T)
            /\ block ca = block c0 /\ so ca = so c0
            /\ blocks (ir ca) = blocks (ir c)
            /\ length (instrs (ir ca)) = length (instrs (ir c))
            /\ (forall k, k <> collect -> instrs (ir ca) !! k = instrs (ir c) !! k)).
  { intros flags q ca Hq.
    apply ir3_reg_create_Done in Hq as (ins & Hins & -> & ->).
    rewrite Hnode in Hins. injection Hins as <-.
    split; [done|]. split; [by apply reg_at_new|]. mred.
    split; [by rewrite list_lookup_insert_eq|].
    split; [done|]. split; [done|]. split; [done|].
    split; [by rewrite length_insert|].
    intros k Hk. by rewrite list_lookup_insert_ne. }
  assert (Hgrow : forall ca,
            blocks (ir ca) = blocks (ir c) ->
            length (instrs (ir ca)) = length (instrs (ir c)) ->
            (forall k, k <> collect -> instrs (ir ca) !! k = instrs (ir c) !! k) ->
            grows (S collect) c0 ca).
  { intros ca Hbs Hl Hfr. apply (grows_to _ c0 c ca); [done|done|done|].
    intros k Hk. apply Hfr. lia. }
  destruct (has_flag wrmask (bit i)).
  - apply bind_Done in H as (q & ca & Hq & H).
    destruct (Hcreate _ _ _ Hq) as (-> & Hrq & Hnode_a & Hb_a & Hso_a & Hbs_a & Hl_a & Hfr_a).
    destruct (ssa_src_resolved _ _ _ _ _ Hf H)
      as (r0 & p & L & bs' & Hr0 & -> & Hag1 & HL & Htr & Htops & Hprod).
    rewrite Hrq in Hr0. injection Hr0 as <-.
    pose proof (Hgrow ca Hbs_a Hl_a Hfr_a) as Hg_a.
    set (q := (collect, S (length es))) in *.
    set (e := resolved_to p (new_reg 0 IR3_REG_SSA)) in *.
    set (c1 := set_instrs (set_operand q e (instrs (ir ca) ++ L)) (set_blocks bs' ca)) in *.
    assert (Hq1 : (q.1 < length (instrs (ir ca)))%nat) by (cbn; lia).
    assert (Hfr1 : forall k, (k < length (instrs (ir ca)))%nat -> k <> collect ->
              instrs (ir c1) !! k = instrs (ir ca) !! k).
    { intros k Hk Hne. unfold c1. mred. rewrite set_operand_lookup_ne by done.
      by rewrite lookup_app_l. }
    assert (Hg1 : grows (S collect) c0 c1).
    { apply (grows_step _ c0 ca c1); [done| |lia|].
      - apply grows_appended; done.
      - intros k Hk. apply Hfr1; lia. }
    exists [e]. split; [|split; [done|split; [done|split; [|split; [done|split; [|split]]]]]].
    + unfold c1. mred. rewrite set_operand_app by done. rewrite lookup_app_l
        by (by rewrite set_operand_length).
      pose proof (set_operand_lookup q e _ _ Hnode_a) as Hx.
      change (q.1) with collect in Hx. rewrite Hx.
      change (q.2) with (S (length es)). f_equal.
      rewrite set_regs_set_regs. cbn [Instr.regs Instr.set_regs].
      change (new_reg 0 0 :: es ++ [new_reg 0 IR3_REG_SSA])
        with ((new_reg 0 0 :: es) ++ [new_reg 0 IR3_REG_SSA]).
      replace (S (length es)) with (length (new_reg 0 0 :: es)) by done.
      by rewrite insert_snoc.
    + unfold c1. mred. apply (blocks_agree_trans _ (blocks (ir ca))); [by rewrite Hbs_a|done].
    + unfold c1. mred. rewrite set_operand_length, length_app. lia.
    + intros k Hk Hne. rewrite Hfr1 by (by rewrite ?Hl_a). by apply Hfr_a.
    + constructor; [|constructor]. unfold fanin_entry. cbn [snd fst].
      split; [unfold e; cbn; by rewrite has_flag_lor, orb_true_r|].
      exists p. split; [done|].
      destruct Hg_a as (_ & Htr_a & Htops_a).
      apply (producer_transport _ _ c0 ca c1 c1 _ _ _ Hprod); try done.
      * by rewrite Hbs_a.
      * intros k Hk. apply Hfr1; lia.
  - destruct (filler_needed wrmask i).
    + apply bind_Done in H as (q & ca & Hq & [= <-]).
      destruct (Hcreate _ _ _ Hq) as (-> & Hrq & Hnode_a & Hb_a & Hso_a & Hbs_a & Hl_a & Hfr_a).
      exists [new_reg 0 0]. split; [done|]. split; [done|]. split; [done|].
      split; [by rewrite Hbs_a|]. split; [by apply Hgrow|]. split; [lia|].
      split; [intros k _ Hne; by apply Hfr_a|].
      constructor; [done|constructor].
    + injection H as <-. exists []. rewrite app_nil_r.
      split; [done|]. split; [done|]. split; [done|]. split; [done|].
      split; [done|]. split; [lia|]. split; [done|]. constructor.
Qed.

(** The loop of [add_src_reg_wrmask] over the positions [ps], on a
    fan-in node [collect] whose entries so far are [es]: it appends the
    entries of the positions it gives one, each a reference to the
    producer of its component or a placeholder; besides, only the
    resolver adds nodes. *)
Lemma fanin_loop collect src chan wrmask b c0 :
  ssa_file (Src.File src) = true ->
  length (instrs (ir c0)) = S collect ->
  forall ps c c' es,
    forM ps (fun i =>
      if has_flag wrmask (bit i) then
        r <- ir3_reg_create collect 0 IR3_REG_SSA ;;
        ssa_src r src (chan + i)
      else if filler_needed wrmask i then
        ir3_reg_create collect 0 0 ;;; ret tt
      else ret tt) c = Done (tt, c') ->
    instrs (ir c) !! collect
    = Some (Instr.set_regs (new_reg 0 0 :: es) (new_instr b (-1) OPC_META_FI)) ->
    block c = block c0 -> so c = so c0 ->
    blocks_agree (blocks (ir c0)) (blocks (ir c)) ->
    grows (S collect) c0 c ->
    (S collect <= length (instrs (ir c)))%nat ->
    exists es',
      instrs (ir c') !! collect
      = Some (Instr.set_regs (new_reg 0 0 :: es ++ es') (new_instr b (-1) OPC_META_FI))
      /\ block c' = block c0 /\ so c' = so c0
      /\ blocks_agree (blocks (ir c0)) (blocks (ir c'))
      /\ grows (S collect) c0 c'
      /\ (length (instrs (ir c)) <= length (instrs (ir c')))%nat
      /\ (forall k, (k < length (instrs (ir c)))%nat -> k <> collect ->
            instrs (ir c') !! k = instrs (ir c) !! k)
      /\ Forall2 (fanin_entry (S collect) c0 c' src chan)
           (fanin_positions wrmask ps) es'.
Proof.
  intros Hf Hlen0 ps.
  induction ps as [|i ps IH]; intros c c' es H Hnode Hb Hso Hag Hg Hle; cbn in H.
  - injection H as <-. exists []. rewrite app_nil_r.
    split; [done|]. split; [done|]. split; [done|]. split; [done|].
    split; [done|]. split; [lia|]. split; [done|]. apply Forall2_nil_2.
  - apply bind_Done in H as ([] & c1 & Hstep & Hrest).
    destruct (fanin_step _ _ _ _ _ _ _ _ _ _ Hf Hlen0 Hstep Hnode Hb Hso Hag Hg Hle)
      as (es1 & Hnode1 & Hb1 & Hso1 & Hag1 & Hg1 & Hle1 & Hfr1 & Hent1).
    destruct (IH c1 c' (es ++ es1) Hrest Hnode1 Hb1 Hso1 Hag1 Hg1)
      as (es2 & Hnode2 & Hb2 & Hso2 & Hag2 & Hg2 & Hle2 & Hfr2 & Hent2); [lia|].
    exists (es1 ++ es2). rewrite app_assoc.
    split; [done|]. split; [done|]. split; [done|]. split; [done|].
    split; [done|]. split; [lia|]. split.
    + intros k Hk Hne. rewrite Hfr2 by (done || lia). by apply Hfr1.
    + unfold fanin_positions in Hent1 |- *. cbn [flat_map] in Hent1 |- *.
      rewrite app_nil_r in Hent1.
      apply Forall2_app; [|done].
      eapply Forall2_impl; [exact Hent1|].
      intros x e He. apply (fanin_entry_later _ c0 c1 c' _ _ _ _ He); [lia|].
      intros k Hk. apply Hfr2; lia.
Qed.

(** An entry found from [c0] is one found from a state with the same
    scopes. *)
Lemma fanin_entry_from M c0 c0' c1 src chan x e :
  fanin_entry M c0 c1 src chan x e ->
  block c0' = block c0 -> so c0' = so c0 -> blocks (ir c0') = blocks (ir c0) ->
  fanin_entry M c0' c1 src chan x e.
Proof.
  unfold fanin_entry. destruct x.2; [|done].
  intros (Hf & p & Hp & Hprod) Hb Hso Hbs. split; [done|]. exists p.
  split; [done|]. by apply (producer_from _ c0).
Qed.

(** A read of several components, the first among them, of an input,
    an output or a temporary: [add_src_reg_wrmask] gathers it behind a
    fan-in node of the intended shape. *)
Lemma add_src_reg_wrmask_gathers instr src chan wrmask c reg c' :
  0 <= wrmask < 16 -> wrmask <> 1 -> has_flag wrmask (bit 0) = true ->
  ssa_file (Src.File src) = true ->
  add_src_reg_wrmask instr src chan wrmask c = Done (reg, c') ->
  fanin_gathered instr src chan wrmask c reg c'.
Proof.
  intros Hw Hw1 Hw0 Hf H. unfold add_src_reg_wrmask in H.
  apply bind_Done in H as (? & ? & [= <- <-] & H).
  apply bind_Done in H as ([] & ? & [Hidx [= ->]]%compile_assert_Done & H).
  apply bind_Done in H as (res & c1 & Hres & H).
  assert (c1 = c) as ->.
  { destruct (Src.File src); try done; by injection Hres as <- <-. }
  clear Hres.
  apply bind_Done in H as (q & c1 & Hq & H).
  apply ir3_reg_create_Done in Hq as (ins & Hins & -> & Hc1).
  set (q := (instr, length (Instr.regs ins))) in *.
  apply bind_Done in H as ([] & c2 & (r1 & Hr1 & Hc2)%update_reg_Done & H).
  apply bind_Done in H as ([] & c5 & H & [= <- <-]).
  replace (wrmask =? 1) with false in H by (symmetry; by apply Z.eqb_neq).
  assert (H' : (b <- deref (block c) ;;
                collect <- ir3_instr_create b (-1) OPC_META_FI ;;
                ir3_reg_create collect 0 0 ;;;
                forM chans (fun i =>
                  if has_flag wrmask (bit i) then
                    r <- ir3_reg_create collect 0 IR3_REG_SSA ;;
                    ssa_src r src (chan + i)
                  else if filler_needed wrmask i then
                    ir3_reg_create collect 0 0 ;;; ret tt
                  else ret tt) ;;;
                update_reg q (or_flags IR3_REG_SSA) ;;;
                update_reg q (Reg.set_instr (Some collect))) c2 = Done (tt, c5)).
  { destruct (Src.File src); try done; exact H. }
  clear H. rename H' into H.
  assert (Hilt : (instr < length (instrs (ir c)))%nat) by (by eapply lookup_lt_Some).
  assert (Hc1' : block c1 = block c /\ so c1 = so c /\ blocks (ir c1) = blocks (ir c)
                 /\ length (instrs (ir c1)) = length (instrs (ir c))
                 /\ (forall k, k <> instr -> instrs (ir c1) !! k = instrs (ir c) !! k)).
  { subst c1. mred. rewrite length_insert. repeat split; try done.
    intros k Hk. by rewrite list_lookup_insert_ne. }
  destruct Hc1' as (Hb1 & Hso1 & Hbs1 & Hl1 & Hfr1). clear Hc1.
  assert (Hc2' : block c2 = block c /\ so c2 = so c /\ blocks (ir c2) = blocks (ir c)
                 /\ length (instrs (ir c2)) = length (instrs (ir c))
                 /\ (forall k, k <> instr -> instrs (ir c2) !! k = instrs (ir c) !! k)
                 /\ reg_at c2 q = Some (Reg.set_wrmask wrmask r1)).
  { subst c2. mred. rewrite set_operand_length.
    split; [done|]. split; [done|]. split; [done|]. split; [done|]. split.
    - intros k Hk. rewrite set_operand_lookup_ne by done. by apply Hfr1.
    - exact (reg_at_set_operand0 c1 q r1 _ Hr1). }
  destruct Hc2' as (Hb2 & Hso2 & Hbs2 & Hl2 & Hfr2 & Hq2). clear Hc2 Hr1.
  apply bind_Done in H as (b0 & c2' & (b & Hb & [= -> ->])%deref_Done & H).
  apply bind_Done in H as (collect & c3 & [= Hcol Hc3]%ir3_instr_create_Done & H).
  rewrite Hl2 in Hcol. subst collect.
  set (N := length (instrs (ir c))) in *.
  set (T := new_instr b (-1) OPC_META_FI) in *.
  apply bind_Done in H as (qd & c4 & Hqd & H).
  apply ir3_reg_create_Done in Hqd as (insT & HinsT & _ & Hc4).
  assert (insT = T) as ->.
  { subst c3. revert HinsT. mred. rewrite <- Hl2, lookup_snoc. by intros [= <-]. }
  assert (Hc4' : block c4 = block c /\ so c4 = so c /\ blocks (ir c4) = blocks (ir c)
                 /\ length (instrs (ir c4)) = S N
                 /\ (forall k, (k < N)%nat -> instrs (ir c4) !! k = instrs (ir c2) !! k)
                 /\ instrs (ir c4) !! N = Some (Instr.set_regs [new_reg 0 0] T)).
  { subst c4 c3. mred. rewrite length_insert, length_app, Hl2. cbn [length].
    split; [done|]. split; [done|]. split; [done|]. split; [lia|]. split.
    - intros k Hk. rewrite list_lookup_insert_ne by lia.
      apply lookup_app_l. lia.
    - rewrite list_lookup_insert_eq by (rewrite length_app, Hl2; cbn; lia).
      done. }
  destruct Hc4' as (Hb4 & Hso4 & Hbs4 & Hl4 & Hfr4 & Hnode4). clear Hc4 Hc3 HinsT.
  apply bind_Done in H as ([] & c6 & Hloop & H).
  destruct (fanin_loop N src chan wrmask b c4 Hf Hl4 chans c4 c6 [] Hloop Hnode4)
    as (es & Hnode6 & Hb6 & Hso6 & Hag6 & Hg6 & Hle6 & Hfr6 & Hent6);
    [done|done|apply blocks_agree_refl| |lia|].
  { rewrite <- Hl4. by apply grows_same. }
  cbn [app] in Hnode6.
  assert (Hq6 : reg_at c6 q = Some (Reg.set_wrmask wrmask r1)).
  { apply reg_at_Some in Hq2 as (i2 & Hi2 & Hr2). apply reg_at_Some.
    exists i2. split; [|done]. cbn [fst q] in *.
    rewrite Hfr6 by lia. by rewrite Hfr4 by lia. }
  apply bind_Done in H as ([] & c7 & (r6 & Hr6 & ->)%update_reg_Done & H).
  rewrite Hq6 in Hr6. injection Hr6 as <-.
  apply update_reg_Done in H as (r7 & Hr7 & ->).
  rewrite (reg_at_set_operand0 c6 q _ _ Hq6) in Hr7. injection Hr7 as <-.
  set (r6 := or_flags IR3_REG_SSA (Reg.set_wrmask wrmask r1)) in *.
  set (c7 := set_instrs (set_operand q r6 (instrs (ir c6))) c6) in *.
  set (r7 := Reg.set_instr (Some N) r6) in *.
  set (c5 := set_instrs (set_operand q r7 (instrs (ir c7))) c7) in *.
  assert (Hfr5 : forall k, k <> instr -> instrs (ir c5) !! k = instrs (ir c6) !! k).
  { intros k Hk. unfold c5, c7. mred. by rewrite !set_operand_lookup_ne. }
  assert (Hl5 : length (instrs (ir c5)) = length (instrs (ir c6))).
  { unfold c5, c7. mred. by rewrite !set_operand_length. }
  exists b, r7, es.
  split; [done|]. split; [done|].
  split. { apply (reg_at_set_operand0 c7 q r6). apply (reg_at_set_operand0 c6 q _ _ Hq6). }
  split; [done|].
  split. { unfold r7, r6. cbn. by rewrite has_flag_lor, orb_true_r. }
  split; [done|].
  split. { rewrite Hfr5 by lia. exact Hnode6. }
  assert (Hents : Forall2 (fanin_entry (S N) c c5 src chan)
            (imap (fun i sel => (Z.of_nat i, sel)) (intended_fanin wrmask)) es).
  { rewrite <- (fanin_positions_intended wrmask Hw Hw0).
    eapply Forall2_impl; [exact Hent6|]. intros x e He.
    apply (fanin_entry_from _ c4); [|congruence|congruence|congruence].
    apply (fanin_entry_later _ c4 c6 c5 _ _ _ _ He); [lia|].
    intros k Hk. apply Hfr5. lia. }
  split; [exact Hents|].
  split.
  { unfold operand_shape. cbn [Instr.regs Instr.set_regs tail].
    rewrite (fanin_entry_shape _ _ _ _ _ _ _ Hents). by apply imap_snd. }
  split.
  - intros j Hj. rewrite Hl5 in Hj. rewrite Hfr5 by lia.
    destruct Hg6 as (Hres & _). by apply Hres.
  - intros k Hk Hne. rewrite Hfr5 by done. rewrite Hfr6 by lia.
    rewrite Hfr4 by done. by apply Hfr2.
Qed.

(** The source an internal temporary is read through is a TEMPORARY. *)
Lemma internal_temp_file c tmp c1 tmp_src c2 :
  get_internal_temp c = Done (tmp, c1) ->
  internal_temp tmp.2 c1 = Done (tmp_src, c2) ->
  Src.File tmp_src = TGSI_FILE_TEMPORARY.
Proof.
  rewrite get_internal_temp_eq. cbv zeta.
  destruct (num_internal_temps c <? 6); [|done].
  destruct (in_range _ _) eqn:Hr; [|done]. intros [= <- <-].
  unfold internal_temp. intros Hi.
  apply bind_Done in Hi as (? & ? & [= <- <-] & (x & Hx & [= -> ->])%deref_Done).
  cbn [snd internal_temps set_internal_temps] in Hx.
  rewrite list_lookup_insert_eq in Hx.
  - by injection Hx as <-.
  - unfold in_range in Hr. apply andb_true_iff in Hr as [H0 H1]. lia.
Qed.

(** The one call of [add_src_reg_wrmask] with a mask of its own: in
    [trans_samp], for the coordinate, an input, an output or a
    temporary by then, with the mask XY, XYZ or XYZW. *)
Lemma trans_samp_call t inst c c' :
  trans_samp t inst c = Done (tt, c') ->
  exists instr coord wrmask ca reg,
    (wrmask = TGSI_WRITEMASK_XY \/ wrmask = TGSI_WRITEMASK_XYZ
     \/ wrmask = TGSI_WRITEMASK_XYZW)
    /\ ssa_file (Src.File coord) = true
    /\ add_src_reg_wrmask instr coord (Src.SwizzleX coord) wrmask ca
       = Done (reg, c').
Proof.
  intros H. unfold trans_samp in H.
  apply bind_Done in H as (coord & c1 & _ & H).
  apply bind_Done in H as (samp & c2 & _ & H).
  apply bind_Done in H as (sel & c3 & Hsel & H).
  destruct sel as [[order wrmask] flags0].
  assert (Hw : wrmask = TGSI_WRITEMASK_XY \/ wrmask = TGSI_WRITEMASK_XYZ
               \/ wrmask = TGSI_WRITEMASK_XYZW).
  { destruct (arg t); try done; destruct (Texture inst);
      injection Hsel as <- <- <- <-; auto. }
  clear Hsel.
  apply bind_Done in H as (coord' & c4 & Hcoord & H).
  apply bind_Done in H as (? & ? & [= <- <-] & H).
  apply bind_Done in H as (instr & c5 & _ & H).
  apply bind_Done in H as ([] & c6 & _ & H).
  apply bind_Done in H as ([] & c7 & _ & H).
  apply bind_Done in H as (d & c8 & _ & H).
  apply bind_Done in H as (reg & c9 & H & [= <-]).
  exists instr, coord', wrmask, c8, reg. split; [done|]. split; [|done].
  destruct (is_rel_or_const coord || _) eqn:Hmov.
  - apply bind_Done in Hcoord as (tmp & cA & Htmp & Hcoord).
    apply bind_Done in Hcoord as (tmp_src & cB & Hsrc & Hcoord).
    apply bind_Done in Hcoord as ([] & cC & _ & [= <- <-]).
    by rewrite (internal_temp_file _ _ _ _ _ Htmp Hsrc).
  - injection Hcoord as <- <-.
    apply orb_false_iff in Hmov as [Hrc _].
    unfold is_rel_or_const in Hrc. apply orb_false_iff in Hrc as [_ Hconst].
    unfold is_const in Hconst. unfold add_src_reg_wrmask in H.
    apply bind_Done in H as (? & ? & [= <- <-] & H).
    apply bind_Done in H as ([] & ? & _ & H).
    apply bind_Done in H as (res & ? & Hres & _).
    destruct (Src.File coord); done.
Qed.

(** C10.  A read of several components of an input, an output or a
    temporary is gathered through a fan-in node.  [add_src_reg_wrmask]
    is called with a mask of several components from one place,
    [trans_samp], with XY, XYZ or XYZW: masks that select position 0.
    For every mask of four bits that selects position 0 and another
    position, the operand refers to a new fan-in node whose source
    entries, after the unused destination, cover the positions up to and
    including the highest selected one and no other: the entry of a
    selected position is an SSA reference to the producer of that
    component of the register, the entry of a position that is not
    selected is a placeholder.  Besides the fan-in node only the resolver
    adds nodes, and the nodes that were there, the reading instruction
    apart, are as they were.  Whenever [trans_samp] returns, it has
    gathered the coordinate in this way. *)
Theorem fanin_covers_positions :
  (forall instr src chan wrmask c reg c',
     0 <= wrmask < 16 -> wrmask <> 1 -> has_flag wrmask (bit 0) = true ->
     ssa_file (Src.File src) = true ->
     add_src_reg_wrmask instr src chan wrmask c = Done (reg, c') ->
     fanin_gathered instr src chan wrmask c reg c')
  /\ (forall t inst c c',
        trans_samp t inst c = Done (tt, c') ->
        exists instr coord wrmask ca reg,
          (wrmask = TGSI_WRITEMASK_XY \/ wrmask = TGSI_WRITEMASK_XYZ
           \/ wrmask = TGSI_WRITEMASK_XYZW)
          /\ add_src_reg_wrmask instr coord (Src.SwizzleX coord) wrmask ca
             = Done (reg, c')
          /\ fanin_gathered instr coord (Src.SwizzleX coord) wrmask ca reg c').
Proof.
  split; [exact add_src_reg_wrmask_gathers|].
  intros t inst c c' H.
  destruct (trans_samp_call _ _ _ _ H)
    as (instr & coord & wrmask & ca & reg & Hw & Hf & Hrun).
  exists instr, coord, wrmask, ca, reg. split; [done|]. split; [done|].
  apply add_src_reg_wrmask_gathers; [| | |done|done].
  all: destruct Hw as [->|[->| ->]]; done.
Qed.

(** The mask 1101 on TEMP[0], written by the moves 0 to 3: the fan-in
    node is node 5 and its entries are the move 0, a placeholder, and
    the moves 2 and 3.  TEX TEMP[1], TEMP[0], SAMP[0] on a 2D texture:
    the fan-in node is node 9, with the moves 0 and 1. *)
Lemma fanin_covers_positions_example :
  (let c' := run_from (add_src_reg_wrmask 4 (TEMP 0) 0 13) ex_sam_pre in
   fanin_gathered 4%nat (TEMP 0) 0 13 ex_sam_pre (4%nat, 0%nat) c'
   /\ intended_fanin 13 = [true; false; true; true]
   /\ (map Reg.instr ∘ Instr.regs) <$> instrs (ir c') !! 5%nat
      = Some [None; Some 0%nat; None; Some 2%nat; Some 3%nat])
  /\ (let c' := run_from (trans_samp ex_tex_t ex_tex) ex_tex_pre in
      (exists instr coord wrmask ca reg,
         add_src_reg_wrmask instr coord (Src.SwizzleX coord) wrmask ca
         = Done (reg, c')
         /\ fanin_gathered instr coord (Src.SwizzleX coord) wrmask ca reg c')
      /\ (map Reg.instr ∘ Instr.regs) <$> instrs (ir c') !! 9%nat
         = Some [None; Some 0%nat; Some 1%nat]).
Proof.
  destruct fanin_covers_positions as [Hmask Hsamp]. split.
  - cbv zeta. split; [|split; vm_compute; reflexivity].
    apply (Hmask 4%nat (TEMP 0) 0 13 ex_sam_pre (4%nat, 0%nat)
             (run_from (add_src_reg_wrmask 4 (TEMP 0) 0 13) ex_sam_pre)).
    + lia.
    + lia.
    + reflexivity.
    + reflexivity.
    + vm_compute. reflexivity.
  - cbv zeta. split; [|vm_compute; reflexivity].
    destruct (Hsamp ex_tex_t ex_tex ex_tex_pre
                (run_from (trans_samp ex_tex_t ex_tex) ex_tex_pre))
      as (instr & coord & wrmask & ca & reg & _ & Hrun & Hg).
    + vm_compute. reflexivity.
    + exists instr, coord, wrmask, ca, reg. exact (conj Hrun Hg).
Defined.
